(** * Verification of advanced-vector/vector.h

    A shallow embedding of [RawMemory<T>] and [Vector<T>] over an explicit
    heap of raw blocks.  A block is a list of slots, each either raw
    storage or a constructed object; a [T*] is a block identifier with an
    offset.  Member functions are computations in a state monad with
    exceptions whose state carries the object [*this], the heap, and a
    chronological log of allocations and element operations. *)

From stdpp Require Import gmap list.
From Stdlib Require Import ZArith Lia.

Open Scope Z_scope.

(** ** Machine integers *)

(** [size_t] is a 64-bit unsigned integer: arithmetic on it wraps. *)
Definition size_t_wrap (x : Z) : Z := x mod 2 ^ 64.

Definition SIZE_MAX : Z := 2 ^ 64 - 1.

(** The largest object the memory source can hand out, in bytes. *)
Definition PTRDIFF_MAX : Z := 2 ^ 63 - 1.

(** ** Pointers and raw blocks *)

Definition addr := nat.

Inductive ptr :=
  | Null
  | Ptr (a : addr) (off : Z).

#[global] Instance ptr_eq_dec : EqDecision ptr.
Proof. solve_decision. Defined.

(** [p + n] on [T*]; [nullptr + n] stays null. *)
Definition ptr_add (p : ptr) (n : Z) : ptr :=
  match p with
  | Null => Null
  | Ptr a off => Ptr a (off + n)
  end.

(** [p - q] on [T*]: defined inside one block, and for two null pointers. *)
Definition ptr_diff (p q : ptr) : option Z :=
  match p, q with
  | Null, Null => Some 0
  | Ptr a i, Ptr b j => if decide (a = b) then Some (i - j) else None
  | _, _ => None
  end.

Inductive slot (T : Type) :=
  | Raw
  | Obj (x : T).
Arguments Raw {T}.
Arguments Obj {T} x.

Inductive exn := BadAlloc | ElemExn.

(** What the log records: [EvAlloc a n] is the allocation of block [a],
    of [n] slots.  Element events carry the addresses involved. *)
Inductive event :=
  | EvAlloc (a : addr) (n : Z)
  | EvFree (a : addr)
  | EvConstruct (p : ptr)
  | EvDefault (p : ptr)
  | EvCopyCtor (src dst : ptr)
  | EvMoveCtor (src dst : ptr)
  | EvCopyAssign (src dst : ptr)
  | EvMoveAssign (src dst : ptr)
  | EvMoveAssignTemp (dst : ptr)
  | EvDestroy (p : ptr).

#[global] Instance event_eq_dec : EqDecision event.
Proof. solve_decision. Defined.

(** ** The element type

    The template parameter [T] with its size in bytes, a positive value
    of [size_t], the two traits
    [MoveOrCopy] queries and the behaviour of its special member
    functions.  [None] is a thrown exception.  [moved_from x] is the state
    a successful move leaves in its source. *)
Class Elem (T : Type) := {
  sizeof_T : Z;
  sizeof_T_pos : 0 < sizeof_T;
  sizeof_T_max : sizeof_T <= SIZE_MAX;
  is_nothrow_move_constructible : bool;
  is_copy_constructible : bool;
  copy_ctor : T -> option T;
  move_ctor : T -> option T;
  moved_from : T -> T;
  copy_assign : T -> T -> option T;
  move_assign : T -> T -> option T;
  value_init : option T;
  default_init : option T;
  nothrow_move_sound :
    is_nothrow_move_constructible = true -> forall x, is_Some (move_ctor x)
}.

(** The memory source behind [operator new]: whether a request for [n]
    bytes is satisfied. *)
Class MemorySource := { new_ok : Z -> bool }.

(** ** The two classes as data *)

Record RawMemory := mkRawMemory {
  buffer_ : ptr;
  capacity_ : Z
}.

Record Vector := mkVector {
  data_ : RawMemory;
  size_ : Z
}.

#[global] Instance RawMemory_eq_dec : EqDecision RawMemory.
Proof. solve_decision. Defined.
#[global] Instance Vector_eq_dec : EqDecision Vector.
Proof. solve_decision. Defined.

Section Machine.
Context {T : Type} `{ET : Elem T} `{MS : MemorySource}.

Abbreviation block := (list (slot T)).

Record state := mkState {
  self : Vector;
  heap : gmap addr block;
  next : addr;
  log : list event
}.

Inductive outcome (A : Type) :=
  | Ret (a : A) (s : state)
  | Throw (e : exn) (s : state)
  | Undef.
Arguments Ret {A} a s.
Arguments Throw {A} e s.
Arguments Undef {A}.

Definition M (A : Type) := state -> outcome A.

Definition ret {A} (a : A) : M A := fun s => Ret a s.

Definition bind {A B} (m : M A) (k : A -> M B) : M B :=
  fun s =>
    match m s with
    | Ret a s' => k a s'
    | Throw e s' => Throw e s'
    | Undef => Undef
    end.

Definition throw {A} (e : exn) : M A := fun s => Throw e s.
Definition undef {A} : M A := fun _ => Undef.

(** Stack unwinding: when [m] throws, [cleanup] runs (the destructors of
    the locals in scope, or a catch block) and the exception goes on. *)
Definition unwinding {A} (m : M A) (cleanup : M unit) : M A :=
  fun s =>
    match m s with
    | Throw e s' =>
        match cleanup s' with
        | Ret _ s'' => Throw e s''
        | Throw e' s'' => Throw e' s''
        | Undef => Undef
        end
    | r => r
    end.

Definition assert (b : bool) : M unit := if b then ret tt else undef.

Definition get_self : M Vector := fun s => Ret (self s) s.
Definition set_self (v : Vector) : M unit :=
  fun s => Ret tt (mkState v (heap s) (next s) (log s)).
Definition emit (e : event) : M unit :=
  fun s => Ret tt (mkState (self s) (heap s) (next s) (log s ++ [e])).
Definition set_heap (h : gmap addr block) (s : state) : state :=
  mkState (self s) h (next s) (log s).

Notation "x <- c1 ;; c2" := (bind c1 (fun x => c2))
  (at level 100, c1 at next level, right associativity).
Notation "c1 ;; c2" := (bind c1 (fun _ => c2))
  (at level 100, right associativity).

(** ** Slots of the heap *)

Definition get_slot (h : gmap addr block) (p : ptr) : option (slot T) :=
  match p with
  | Null => None
  | Ptr a i =>
      if 0 <=? i then
        match h !! a with
        | Some cells => cells !! Z.to_nat i
        | None => None
        end
      else None
  end.

Definition put_slot (h : gmap addr block) (p : ptr) (c : slot T)
  : gmap addr block :=
  match p with
  | Null => h
  | Ptr a i =>
      match h !! a with
      | Some cells => <[a := <[Z.to_nat i := c]> cells]> h
      | None => h
      end
  end.

Definition read_slot (p : ptr) : M (slot T) :=
  fun s =>
    match get_slot (heap s) p with
    | Some c => Ret c s
    | None => Undef
    end.

Definition write_slot (p : ptr) (c : slot T) : M unit :=
  fun s => Ret tt (set_heap (put_slot (heap s) p c) s).

(** Reading an object: the slot must hold one. *)
Definition load (p : ptr) : M T :=
  c <- read_slot p ;;
  match c with
  | Obj x => ret x
  | Raw => undef
  end.

(** Starting an object's lifetime in raw storage. *)
Definition construct_at (p : ptr) (x : T) : M unit :=
  c <- read_slot p ;;
  match c with
  | Raw => write_slot p (Obj x)
  | Obj _ => undef
  end.

(** Changing the value of a live object. *)
Definition assign_at (p : ptr) (x : T) : M unit :=
  _ <- load p ;;
  write_slot p (Obj x).

(** [std::destroy_at(p)]: destructors do not throw. *)
Definition destroy_at (p : ptr) : M unit :=
  _ <- load p ;;
  write_slot p Raw ;;
  emit (EvDestroy p).

(** ** Element operations *)

(** [new (p) T(args...)], the constructor call having outcome [ctor]. *)
Definition emplace_new (p : ptr) (ctor : option T) : M unit :=
  match ctor with
  | None => throw ElemExn
  | Some x => construct_at p x ;; emit (EvConstruct p)
  end.

(** Copy construction of [dst[0]] from [src[0]]; ill-formed for a type without a copy constructor. *)
Definition copy_construct (src dst : ptr) : M unit :=
  x <- load src ;;
  if is_copy_constructible then
    match copy_ctor x with
    | None => throw ElemExn
    | Some y => construct_at dst y ;; emit (EvCopyCtor src dst)
    end
  else undef.

(** Move construction of [dst[0]] from [src[0]]. *)
Definition move_construct (src dst : ptr) : M unit :=
  x <- load src ;;
  match move_ctor x with
  | None => throw ElemExn
  | Some y =>
      assign_at src (moved_from x) ;;
      construct_at dst y ;;
      emit (EvMoveCtor src dst)
  end.

(** Copy assignment [dst[0] = src[0]]. *)
Definition copy_assign_at (src dst : ptr) : M unit :=
  x <- load src ;;
  d <- load dst ;;
  match copy_assign d x with
  | None => throw ElemExn
  | Some d' => assign_at dst d' ;; emit (EvCopyAssign src dst)
  end.

(** Move assignment [dst[0] = std::move(src[0])]. *)
Definition move_assign_at (src dst : ptr) : M unit :=
  x <- load src ;;
  d <- load dst ;;
  match move_assign d x with
  | None => throw ElemExn
  | Some d' =>
      assign_at src (moved_from x) ;;
      assign_at dst d' ;;
      emit (EvMoveAssign src dst)
  end.

(** [dst[0] = T(args...)]: a temporary is built, move-assigned, and dropped. *)
Definition assign_temporary (dst : ptr) (ctor : option T) : M unit :=
  match ctor with
  | None => throw ElemExn
  | Some x =>
      d <- load dst ;;
      match move_assign d x with
      | None => throw ElemExn
      | Some d' => assign_at dst d' ;; emit (EvMoveAssignTemp dst)
      end
  end.

(** [new (p) T()] and [new (p) T], [init] being the outcome of the
    initialization. *)
Definition init_construct (init : option T) (p : ptr) : M unit :=
  match init with
  | None => throw ElemExn
  | Some x => construct_at p x ;; emit (EvDefault p)
  end.

Definition value_construct : ptr -> M unit := init_construct value_init.

Definition default_construct : ptr -> M unit := init_construct default_init.

(** ** Arguments passed by reference

    [Insert] takes the value to insert by reference.  The object referred
    to is one of the caller's outside the heap of blocks, holding [x], or
    the object at an address of the heap, which may be an element of this
    vector.  It is read when the constructor call that uses it is
    evaluated, not when the member function is entered. *)
Inductive reference :=
  | Outside (x : T)
  | Inside (p : ptr).

Definition read_reference (value : reference) : M T :=
  match value with
  | Outside x => ret x
  | Inside p => load p
  end.

(** [T(value)] for [const T& value]: the outcome of the copy
    construction. *)
Definition copy_of (value : reference) : M (option T) :=
  x <- read_reference value ;;
  ret (copy_ctor x).

(** [T(std::move(value))] for [T&& value]: the outcome of the move
    construction; a successful move leaves its source moved-from. *)
Definition move_of (value : reference) : M (option T) :=
  x <- read_reference value ;;
  match move_ctor x with
  | None => ret None
  | Some y =>
      match value with
      | Outside _ => ret (Some y)
      | Inside p => assign_at p (moved_from x) ;; ret (Some y)
      end
  end.

(** ** The memory source *)

(** Whether [operator new] satisfies a request of [bytes] bytes: the
    memory source agrees, and no block is larger than [PTRDIFF_MAX]
    bytes. *)
Definition granted (bytes : Z) : bool :=
  new_ok bytes && (bytes <=? PTRDIFF_MAX).

(** [operator new(bytes)]: a fresh block of raw storage, which holds the
    [bytes / sizeof(T)] slots that fit in it, or [std::bad_alloc]. *)
Definition operator_new (bytes : Z) : M ptr :=
  fun s =>
    if granted bytes then
      let a := next s in
      let n := bytes / sizeof_T in
      Ret (Ptr a 0)
          (mkState (self s) (<[a := replicate (Z.to_nat n) Raw]> (heap s))
                   (S a) (log s ++ [EvAlloc a n]))
    else Throw BadAlloc s.

(** The argument [Allocate(n)] passes to [operator new]: the product
    [n * sizeof(T)] is computed in [size_t]. *)
Definition request_bytes (n : Z) : Z := size_t_wrap (n * sizeof_T).

(** [can_allocate n]: the request for [n] slots is computed without
    wrapping around and is granted.  [refused n]: the request, as
    computed, is not granted. *)
Definition can_allocate (n : Z) : bool :=
  (request_bytes n =? n * sizeof_T) && granted (request_bytes n).

Definition refused (n : Z) : bool := negb (granted (request_bytes n)).

(** [operator delete]: the pointer is null or the start of a block. *)
Definition operator_delete (p : ptr) : M unit :=
  match p with
  | Null => ret tt
  | Ptr a off =>
      fun s =>
        if decide (off = 0) then
          match heap s !! a with
          | Some _ =>
              Ret tt (mkState (self s) (delete a (heap s)) (next s)
                              (log s ++ [EvFree a]))
          | None => Undef
          end
        else Undef
  end.

(** ** Algorithms of <memory> and <algorithm> *)

Fixpoint destroy_loop (first : ptr) (n : nat) : M unit :=
  match n with
  | O => ret tt
  | S n' => destroy_at first ;; destroy_loop (ptr_add first 1) n'
  end.

Definition destroy_n (first : ptr) (n : Z) : M unit :=
  destroy_loop first (Z.to_nat n).

(** The uninitialized algorithms construct [d_first[done]] next; when a
    constructor throws they destroy [d_first[0..done)] and rethrow. *)
Fixpoint uninitialized_copy_loop (first d_first : ptr) (done : Z) (n : nat)
  : M unit :=
  match n with
  | O => ret tt
  | S n' =>
      unwinding (copy_construct (ptr_add first done) (ptr_add d_first done))
                (destroy_n d_first done) ;;
      uninitialized_copy_loop first d_first (done + 1) n'
  end.

Definition uninitialized_copy_n (first : ptr) (n : Z) (d_first : ptr)
  : M unit :=
  uninitialized_copy_loop first d_first 0 (Z.to_nat n).

Fixpoint uninitialized_move_loop (first d_first : ptr) (done : Z) (n : nat)
  : M unit :=
  match n with
  | O => ret tt
  | S n' =>
      unwinding (move_construct (ptr_add first done) (ptr_add d_first done))
                (destroy_n d_first done) ;;
      uninitialized_move_loop first d_first (done + 1) n'
  end.

Definition uninitialized_move_n (first : ptr) (n : Z) (d_first : ptr)
  : M unit :=
  uninitialized_move_loop first d_first 0 (Z.to_nat n).

Fixpoint uninitialized_construct_loop (construct : ptr -> M unit)
    (first : ptr) (done : Z) (n : nat) : M unit :=
  match n with
  | O => ret tt
  | S n' =>
      unwinding (construct (ptr_add first done)) (destroy_n first done) ;;
      uninitialized_construct_loop construct first (done + 1) n'
  end.

Definition uninitialized_value_construct_n (first : ptr) (n : Z) : M unit :=
  uninitialized_construct_loop value_construct first 0 (Z.to_nat n).

Definition uninitialized_default_construct_n (first : ptr) (n : Z)
  : M unit :=
  uninitialized_construct_loop default_construct first 0 (Z.to_nat n).

(** [std::copy_n]: element-wise copy assignment, front to back. *)
Fixpoint copy_loop (first result : ptr) (n : nat) : M unit :=
  match n with
  | O => ret tt
  | S n' =>
      copy_assign_at first result ;;
      copy_loop (ptr_add first 1) (ptr_add result 1) n'
  end.

Definition copy_n (first : ptr) (n : Z) (result : ptr) : M unit :=
  copy_loop first result (Z.to_nat n).

(** [std::move(first, last, d_first)]: element-wise move assignment, front
    to back; [first, last) must be a range. *)
Fixpoint move_loop (first d_first : ptr) (n : nat) : M unit :=
  match n with
  | O => ret tt
  | S n' =>
      move_assign_at first d_first ;;
      move_loop (ptr_add first 1) (ptr_add d_first 1) n'
  end.

Definition std_move (first last d_first : ptr) : M unit :=
  match ptr_diff last first with
  | Some n => if 0 <=? n then move_loop first d_first (Z.to_nat n) else undef
  | None => undef
  end.

(** [std::move_backward(first, last, d_last)]: back to front. *)
Fixpoint move_backward_loop (last d_last : ptr) (n : nat) : M unit :=
  match n with
  | O => ret tt
  | S n' =>
      move_assign_at (ptr_add last (-1)) (ptr_add d_last (-1)) ;;
      move_backward_loop (ptr_add last (-1)) (ptr_add d_last (-1)) n'
  end.

Definition move_backward (first last d_last : ptr) : M unit :=
  match ptr_diff last first with
  | Some n =>
      if 0 <=? n then move_backward_loop last d_last (Z.to_nat n) else undef
  | None => undef
  end.

(** ** RawMemory *)

Definition Allocate (n : Z) : M ptr :=
  if negb (n =? 0) then operator_new (size_t_wrap (n * sizeof_T))
  else ret Null.

Definition Deallocate (buf : ptr) : M unit := operator_delete buf.

Definition RawMemory_default : RawMemory := mkRawMemory Null 0.

Definition RawMemory_ctor (capacity : Z) : M RawMemory :=
  b <- Allocate capacity ;;
  ret (mkRawMemory b capacity).

Definition RawMemory_dtor (r : RawMemory) : M unit := Deallocate (buffer_ r).

(** [r[index]], as the address of the slot. *)
Definition RawMemory_index (r : RawMemory) (index : Z) : M ptr :=
  assert (index <? capacity_ r) ;;
  ret (ptr_add (buffer_ r) index).

Definition RawMemory_GetAddress (r : RawMemory) : ptr := buffer_ r.

Definition RawMemory_Capacity (r : RawMemory) : Z := capacity_ r.

(** [r + offset]. *)
Definition RawMemory_plus (r : RawMemory) (offset : Z) : ptr :=
  ptr_add (buffer_ r) offset.

(** [a.Swap(b)], returning the new [a] and the new [b]. *)
Definition RawMemory_Swap (a b : RawMemory) : RawMemory * RawMemory := (b, a).

(** ** Vector *)

Definition Vector_default : Vector := mkVector RawMemory_default 0.

Definition set_data (d : RawMemory) : M unit :=
  v <- get_self ;;
  set_self (mkVector d (size_ v)).

Definition set_size (n : Z) : M unit :=
  v <- get_self ;;
  set_self (mkVector (data_ v) n).

Definition Size : M Z :=
  v <- get_self ;;
  ret (size_ v).

Definition Capacity : M Z :=
  v <- get_self ;;
  ret (RawMemory_Capacity (data_ v)).

Definition begin_ : M ptr :=
  v <- get_self ;;
  ret (RawMemory_GetAddress (data_ v)).

Definition end_ : M ptr :=
  v <- get_self ;;
  ret (ptr_add (RawMemory_GetAddress (data_ v)) (size_ v)).

(** [explicit Vector(size_t size)], as the value of the new object. *)
Definition Vector_sized (size : Z) : M Vector :=
  data <- RawMemory_ctor size ;;
  unwinding
    (uninitialized_value_construct_n (RawMemory_GetAddress data) size)
    (RawMemory_dtor data) ;;
  ret (mkVector data size).

(** [Vector(const Vector& other)]. *)
Definition Vector_copy (other : Vector) : M Vector :=
  data <- RawMemory_ctor (size_ other) ;;
  unwinding
    (uninitialized_copy_n (RawMemory_GetAddress (data_ other)) (size_ other)
                          (RawMemory_GetAddress data))
    (RawMemory_dtor data) ;;
  ret (mkVector data (size_ other)).

(** [~Vector()]. *)
Definition Vector_dtor (v : Vector) : M unit :=
  destroy_n (RawMemory_GetAddress (data_ v)) (size_ v) ;;
  RawMemory_dtor (data_ v).

(** [Swap(other)]: [other] is passed by reference, its new value returned. *)
Definition Swap (other : Vector) : M Vector :=
  v <- get_self ;;
  let '(d, od) := RawMemory_Swap (data_ v) (data_ other) in
  set_self (mkVector d (size_ other)) ;;
  ret (mkVector od (size_ v)).

(** [Vector(Vector&& other)]: the new object and what is left in [other]. *)
Definition Vector_move (other : Vector) : Vector * Vector :=
  (other, Vector_default).

(** The compile-time condition of [MoveOrCopy]. *)
Definition relocates : bool :=
  is_nothrow_move_constructible || negb is_copy_constructible.

Definition MoveOrCopy (data : ptr) (size : Z) (new_data : ptr) : M unit :=
  if relocates then
    uninitialized_move_n data size new_data
  else
    uninitialized_copy_n data size new_data.

Definition Reserve (new_capacity : Z) : M unit :=
  v <- get_self ;;
  if new_capacity <=? RawMemory_Capacity (data_ v) then ret tt
  else
    new_data <- RawMemory_ctor new_capacity ;;
    unwinding
      (MoveOrCopy (RawMemory_GetAddress (data_ v)) (size_ v)
                  (RawMemory_GetAddress new_data))
      (RawMemory_dtor new_data) ;;
    destroy_n (RawMemory_GetAddress (data_ v)) (size_ v) ;;
    let '(d, new_data) := RawMemory_Swap (data_ v) new_data in
    set_data d ;;
    RawMemory_dtor new_data.

(** [v[index]], as the address of the element. *)
Definition index_op (index : Z) : M ptr :=
  v <- get_self ;;
  assert (index <? size_ v) ;;
  RawMemory_index (data_ v) index.

(** The right-hand side of an assignment is a reference: to [*this]
    itself, or to another object. *)
Inductive vref :=
  | ThisObject
  | Object (v : Vector).

Definition deref (r : vref) : M Vector :=
  match r with
  | ThisObject => get_self
  | Object v => ret v
  end.

(** [operator=(const Vector& other)]. *)
Definition copy_assignment (other : vref) : M unit :=
  o <- deref other ;;
  v <- get_self ;;
  (if size_ o >? RawMemory_Capacity (data_ v) then
     temp <- Vector_copy o ;;
     temp <- Swap temp ;;
     Vector_dtor temp
   else
     copy_n (RawMemory_GetAddress (data_ o)) (Z.min (size_ v) (size_ o))
            (RawMemory_GetAddress (data_ v)) ;;
     if size_ v >? size_ o then
       destroy_n (RawMemory_plus (data_ v) (size_ o))
                 (size_t_wrap (size_ v - size_ o))
     else if size_ v <? size_ o then
       uninitialized_copy_n
         (ptr_add (RawMemory_GetAddress (data_ o)) (size_ v))
         (size_t_wrap (size_ o - size_ v))
         (ptr_add (RawMemory_GetAddress (data_ v)) (size_ v))
     else ret tt) ;;
  o <- deref other ;;
  set_size (size_ o).

(** [operator=(Vector&& rhs)]. *)
Definition move_assignment (rhs : Vector) : M Vector := Swap rhs.

Definition Resize (new_size : Z) : M unit :=
  v <- get_self ;;
  if new_size >? size_ v then
    (if new_size >? RawMemory_Capacity (data_ v) then Reserve new_size
     else ret tt) ;;
    v <- get_self ;;
    uninitialized_default_construct_n
      (RawMemory_plus (data_ v) (size_ v))
      (size_t_wrap (new_size - size_ v)) ;;
    set_size new_size
  else
    destroy_n (ptr_add (RawMemory_GetAddress (data_ v)) new_size)
              (size_t_wrap (size_ v - new_size)) ;;
    set_size new_size.

Definition PopBack : M unit :=
  v <- get_self ;;
  assert (size_ v >? 0) ;;
  set_size (size_t_wrap (size_ v - 1)) ;;
  v <- get_self ;;
  destroy_at (RawMemory_plus (data_ v) (size_ v)).

(** The capacity both growth paths ask for. *)
Definition grown_capacity (size : Z) : Z :=
  if size =? 0 then 1 else size_t_wrap (size * 2).

(** [EmplaceBack(args...)], [ctor] being the outcome of [T(args...)];
    the returned reference is the address of the new element. *)
Definition EmplaceBack (ctor : option T) : M ptr :=
  v <- get_self ;;
  if size_ v =? RawMemory_Capacity (data_ v) then
    new_data <- RawMemory_ctor (grown_capacity (size_ v)) ;;
    unwinding
      (emplace_new (RawMemory_plus new_data (size_ v)) ctor ;;
       MoveOrCopy (RawMemory_GetAddress (data_ v)) (size_ v)
                  (RawMemory_GetAddress new_data))
      (RawMemory_dtor new_data) ;;
    destroy_n (RawMemory_GetAddress (data_ v)) (size_ v) ;;
    let '(d, new_data) := RawMemory_Swap (data_ v) new_data in
    set_data d ;;
    set_size (size_t_wrap (size_ v + 1)) ;;
    v <- get_self ;;
    r <- RawMemory_index (data_ v) (size_t_wrap (size_ v - 1)) ;;
    RawMemory_dtor new_data ;;
    ret r
  else
    emplace_new (RawMemory_plus (data_ v) (size_ v)) ctor ;;
    set_size (size_t_wrap (size_ v + 1)) ;;
    v <- get_self ;;
    RawMemory_index (data_ v) (size_t_wrap (size_ v - 1)).

(** [PushBack(const T&)] and [PushBack(T&&)]; the argument is an object of
    the caller's, not an element of this vector. *)
Definition PushBack_copy (value : T) : M unit :=
  if is_copy_constructible then
    _ <- EmplaceBack (copy_ctor value) ;; ret tt
  else undef.

Definition PushBack_move (value : T) : M unit :=
  _ <- EmplaceBack (move_ctor value) ;; ret tt.

(** [Emplace(pos, args...)].  [args] evaluates the constructor call
    [T(args...)] in the state it is run in and gives its outcome; it runs
    where the source evaluates the call.  The local [new_data] is
    allocated on entry whichever branch is taken, and released on every
    way out. *)
Definition Emplace_args (pos : ptr) (args : M (option T)) : M ptr :=
  b <- begin_ ;;
  match ptr_diff pos b with
  | None => undef
  | Some d =>
      let dist := size_t_wrap d in
      v <- get_self ;;
      new_data <- RawMemory_ctor (grown_capacity (size_ v)) ;;
      if size_ v =? RawMemory_Capacity (data_ v) then
        unwinding
          ((ctor <- args ;;
            emplace_new (RawMemory_plus new_data dist) ctor) ;;
           MoveOrCopy b dist (RawMemory_GetAddress new_data) ;;
           MoveOrCopy (ptr_add b dist) (size_t_wrap (size_ v - dist))
                      (ptr_add (ptr_add (RawMemory_GetAddress new_data) dist)
                               1))
          (RawMemory_dtor new_data) ;;
        destroy_n (RawMemory_GetAddress (data_ v)) (size_ v) ;;
        let '(d, new_data) := RawMemory_Swap (data_ v) new_data in
        set_data d ;;
        set_size (size_t_wrap (size_ v + 1)) ;;
        b <- begin_ ;;
        RawMemory_dtor new_data ;;
        ret (ptr_add b dist)
      else
        it <- unwinding
          (it <- RawMemory_index (data_ v) dist ;;
           e <- end_ ;;
           (if bool_decide (pos = Null) || bool_decide (pos = e) then
              ctor <- args ;;
              emplace_new e ctor
            else
              move_construct (ptr_add e (-1)) e ;;
              move_backward it (ptr_add e (-1)) e ;;
              ctor <- args ;;
              assign_temporary it ctor) ;;
           set_size (size_t_wrap (size_ v + 1)) ;;
           ret it)
          (RawMemory_dtor new_data) ;;
        RawMemory_dtor new_data ;;
        ret it
  end.

(** [Emplace] with arguments that refer to nothing in the heap: the
    constructor call has the outcome [ctor] whenever it is evaluated. *)
Definition Emplace (pos : ptr) (ctor : option T) : M ptr :=
  Emplace_args pos (ret ctor).

Definition Erase (p : ptr) : M ptr :=
  let pos := p in
  b <- begin_ ;;
  e <- end_ ;;
  if bool_decide (b = e) then ret pos
  else
    e <- end_ ;;
    std_move (ptr_add pos 1) e pos ;;
    PopBack ;;
    ret pos.

(** [Insert(pos, const T&)] and [Insert(pos, T&&)]. *)
Definition Insert_copy (pos : ptr) (value : reference) : M ptr :=
  if is_copy_constructible then Emplace_args pos (copy_of value) else undef.

Definition Insert_move (pos : ptr) (value : reference) : M ptr :=
  Emplace_args pos (move_of value).

Definition discard {A} (m : M A) : M unit := _ <- m ;; ret tt.

End Machine.

Arguments reference T : clear implicits.
Arguments Outside {T} x.
Arguments Inside {T} p.

(** The mutating member functions other than [Swap] and the move
    assignment built on it, as one type of calls. *)
Inductive operation (T : Type) :=
  | OpReserve (new_capacity : Z)
  | OpResize (new_size : Z)
  | OpPushBackCopy (value : T)
  | OpPushBackMove (value : T)
  | OpPopBack
  | OpEmplaceBack (ctor : option T)
  | OpEmplace (pos : ptr) (ctor : option T)
  | OpInsertCopy (pos : ptr) (value : reference T)
  | OpInsertMove (pos : ptr) (value : reference T)
  | OpErase (pos : ptr)
  | OpCopyAssign (other : vref).
Arguments OpReserve {T}.
Arguments OpResize {T}.
Arguments OpPushBackCopy {T}.
Arguments OpPushBackMove {T}.
Arguments OpPopBack {T}.
Arguments OpEmplaceBack {T}.
Arguments OpEmplace {T}.
Arguments OpInsertCopy {T}.
Arguments OpInsertMove {T}.
Arguments OpErase {T}.
Arguments OpCopyAssign {T}.

Arguments state T : clear implicits.
Arguments outcome T A : clear implicits.
Arguments M T A : clear implicits.
Arguments Ret {T A} a s.
Arguments Throw {T A} e s.
Arguments Undef {T A}.

Notation "x <- c1 ;; c2" := (bind c1 (fun x => c2))
  (at level 100, c1 at next level, right associativity).
Notation "c1 ;; c2" := (bind c1 (fun _ => c2))
  (at level 100, right associativity).

(** ** Well-behaved element types and the representation invariant *)

(** A regular element type: no special member function throws, and
    construction and assignment yield the value of their source.  The
    laws of copying bind only a type that can be copied. *)
Class Regular (T : Type) `{ET : Elem T} : Prop := {
  regular_copy_ctor :
    is_copy_constructible = true -> forall x : T, copy_ctor x = Some x;
  regular_move_ctor : forall x : T, move_ctor x = Some x;
  regular_copy_assign :
    is_copy_constructible = true -> forall d x : T, copy_assign d x = Some x;
  regular_move_assign : forall d x : T, move_assign d x = Some x;
  regular_default_init : is_Some (default_init (T:=T));
  regular_value_init : is_Some (value_init (T:=T))
}.

Section Representation.
Context {T : Type}.

(** A block of [cap] slots whose first [length xs] hold [xs]. *)
Definition cells_of (xs : list T) (cap : Z) : list (slot T) :=
  (Obj <$> xs) ++ replicate (Z.to_nat cap - length xs)%nat Raw.

(** [v] owns a buffer in [h] holding exactly the live elements [xs]:
    [size_ <= capacity_], positions [0, size_) constructed, the rest raw. *)
Definition owns (h : gmap addr (list (slot T))) (v : Vector) (xs : list T)
  : Prop :=
  size_ v = Z.of_nat (length xs) /\
  size_ v <= capacity_ (data_ v) <= PTRDIFF_MAX /\
  match buffer_ (data_ v) with
  | Null => capacity_ (data_ v) = 0
  | Ptr a off =>
      off = 0 /\ 0 < capacity_ (data_ v) /\
      h !! a = Some (cells_of xs (capacity_ (data_ v)))
  end.

(** Addresses not handed out yet are not in the heap. *)
Definition fresh_from (s : state T) : Prop :=
  forall a, (next s <= a)%nat -> heap s !! a = None.

Definition represents (s : state T) (xs : list T) : Prop :=
  fresh_from s /\ owns (heap s) (self s) xs.

(** The class invariant of [Vector]. *)
Definition invariant (s : state T) : Prop := exists xs, represents s xs.

Definition run_op `{Elem T} `{MemorySource} (op : operation T) : M T unit :=
  match op with
  | OpReserve n => Reserve n
  | OpResize n => Resize n
  | OpPushBackCopy x => PushBack_copy x
  | OpPushBackMove x => PushBack_move x
  | OpPopBack => PopBack
  | OpEmplaceBack ctor => discard (EmplaceBack ctor)
  | OpEmplace pos ctor => discard (Emplace pos ctor)
  | OpInsertCopy pos x => discard (Insert_copy pos x)
  | OpInsertMove pos x => discard (Insert_move pos x)
  | OpErase pos => discard (Erase pos)
  | OpCopyAssign other => copy_assignment other
  end.

(** The state an outcome leaves behind, whether it returned or threw. *)
Definition final_state {A} (r : outcome T A) : option (state T) :=
  match r with
  | Ret _ s => Some s
  | Throw _ s => Some s
  | Undef => None
  end.

(** Weakest preconditions: [m] run from [s] does not go wrong, returns
    into [Q] and throws into [E]. *)
Definition wp {A} (m : M T A) (s : state T)
    (Q : A -> state T -> Prop) (E : exn -> state T -> Prop) : Prop :=
  match m s with
  | Ret a s' => Q a s'
  | Throw e s' => E e s'
  | Undef => False
  end.

Definition never : exn -> state T -> Prop := fun _ _ => False.

(** The same for whatever state is reached: a run that goes wrong
    satisfies it. *)
Definition wlp {A} (m : M T A) (s : state T)
    (Q : A -> state T -> Prop) (E : exn -> state T -> Prop) : Prop :=
  match m s with
  | Ret a s' => Q a s'
  | Throw e s' => E e s'
  | Undef => True
  end.

(** [s'] comes after [s] with [*this] as it was: the log has only grown. *)
Definition framed (s s' : state T) : Prop :=
  self s' = self s /\ exists evs, log s' = log s ++ evs.

(** [m] leaves the members of [*this] alone, however it ends. *)
Definition frames_self {A} (m : M T A) : Prop :=
  forall s, wlp m s (fun _ s' => framed s s') (fun _ s' => framed s s').

(** [m] only ever adds to the log. *)
Definition log_grows {A} (m : M T A) : Prop :=
  forall s, wlp m s (fun _ s' => exists evs, log s' = log s ++ evs)
                    (fun _ s' => exists evs, log s' = log s ++ evs).

Definition capacity_of (s : state T) : Z := capacity_ (data_ (self s)).

Definition size_of (s : state T) : Z := size_ (self s).

(** The state after empty default construction, nothing allocated yet. *)
Definition initial_state : state T := mkState Vector_default ∅ 0%nat [].

(** The events a loop over [n] consecutive slots leaves in the log. *)
Definition slot_events (ev : ptr -> event) (a : addr) (from : Z) (n : nat)
  : list event :=
  (fun k => ev (Ptr a k)) <$> seqZ from (Z.of_nat n).

Definition pair_events (ev : ptr -> ptr -> event)
    (a : addr) (i : Z) (b : addr) (j : Z) (from : Z) (n : nat) : list event :=
  (fun k => ev (Ptr a (i + k)) (Ptr b (j + k))) <$> seqZ from (Z.of_nat n).

(** [std::move_backward] walks down from [last] and [d_last]. *)
Fixpoint backward_events (a : addr) (last d_last : Z) (n : nat)
  : list event :=
  match n with
  | O => []
  | S n' =>
      EvMoveAssign (Ptr a (last + -1)) (Ptr a (d_last + -1))
      :: backward_events a (last + -1) (d_last + -1) n'
  end.

(** After shifting [xs] one slot to the left over a slot holding [d], the
    slot past the range holds the moved-from state of the last element. *)
Definition left_behind `{Elem T} (d : T) (xs : list T) : T :=
  match last xs with
  | Some x => moved_from x
  | None => d
  end.

(** After shifting [xs] one slot to the right, the first slot of the
    range holds the moved-from state of the first element. *)
Definition vacated `{Elem T} (d : T) (xs : list T) : T :=
  match head xs with
  | Some x => moved_from x
  | None => d
  end.

(** The sequence after inserting [x] before position [p]. *)
Definition insert_at (p : nat) (x : T) (xs : list T) : list T :=
  take p xs ++ x :: drop p xs.

(** What [Emplace] logs when it shifts in place: [n] elements live, the
    new one going to position [p] of block [a]. *)
Definition shift_events (a : addr) (p n : nat) : list event :=
  if decide (p = n) then [EvConstruct (Ptr a (Z.of_nat n))]
  else
    [EvMoveCtor (Ptr a (Z.of_nat n + -1)) (Ptr a (Z.of_nat n))]
    ++ backward_events a (Z.of_nat n + -1) (Z.of_nat n) (n - 1 - p)
    ++ [EvMoveAssignTemp (Ptr a (Z.of_nat p))].

(** [copies x y]: copy construction from [x] succeeds and yields [y]. *)
Definition copies `{Elem T} (x y : T) : Prop := copy_ctor x = Some y.

(** What a migration leaves in the old buffer, and how it is logged. *)
Definition migrated `{Elem T} (xs : list T) : list T :=
  if relocates then moved_from <$> xs else xs.

Definition migration_event `{Elem T} : ptr -> ptr -> event :=
  if relocates then EvMoveCtor else EvCopyCtor.

(** Events over a range given by pointers; a null range is empty. *)
Definition range_events (ev : ptr -> event) (p : ptr) (n : nat)
  : list event :=
  match p with
  | Null => []
  | Ptr a i => slot_events ev a i n
  end.

Definition transfer_events (ev : ptr -> ptr -> event) (src dst : ptr)
    (n : nat) : list event :=
  match src, dst with
  | Ptr a i, Ptr b j => pair_events ev a i b j 0 n
  | _, _ => []
  end.

(** Releasing a buffer: the heap without it, and the event logged. *)
Definition release (p : ptr) (h : gmap addr (list (slot T)))
  : gmap addr (list (slot T)) :=
  match p with
  | Null => h
  | Ptr a _ => delete a h
  end.

(** Replacing the contents of the block a buffer pointer designates. *)
Definition store_block (p : ptr) (cells : list (slot T))
    (h : gmap addr (list (slot T))) : gmap addr (list (slot T)) :=
  match p with
  | Null => h
  | Ptr a _ => <[a := cells]> h
  end.

Definition release_events (p : ptr) : list event :=
  match p with
  | Null => []
  | Ptr a _ => [EvFree a]
  end.

(** [keeps c]: the capacity is at least [c]. *)
Definition keeps {A} (c : Z) : A -> state T -> Prop :=
  fun _ s' => c <= capacity_ (data_ (self s')).

(** [m] does not lower the capacity, whether it returns or throws. *)
Definition grows {A} (m : M T A) : Prop :=
  forall s, 0 <= capacity_ (data_ (self s)) <= PTRDIFF_MAX ->
    wlp m s (keeps (capacity_ (data_ (self s))))
            (keeps (capacity_ (data_ (self s)))).

Definition add_log (evs : list event) (s : state T) : state T :=
  mkState (self s) (heap s) (next s) (log s ++ evs).

End Representation.

(** ** Element types and a memory source for the scenarios *)

(** [int]. *)
Definition int_elem : Elem Z := {|
  sizeof_T := 4;
  sizeof_T_pos := eq_refl;
  sizeof_T_max := ltac:(done);
  is_nothrow_move_constructible := true;
  is_copy_constructible := true;
  copy_ctor := Some;
  move_ctor := Some;
  moved_from := fun x => x;
  copy_assign := fun _ x => Some x;
  move_assign := fun _ x => Some x;
  value_init := Some 0;
  default_init := Some 0;
  nothrow_move_sound := fun _ x => ex_intro _ x eq_refl
|}.

(** A move-only handle such as [std::unique_ptr<int>]: [None] is the
    empty handle a move leaves behind.  It has no copy operations; the
    fields for them are never consulted. *)
Definition unique_elem : Elem (option Z) := {|
  sizeof_T := 8;
  sizeof_T_pos := eq_refl;
  sizeof_T_max := ltac:(done);
  is_nothrow_move_constructible := true;
  is_copy_constructible := false;
  copy_ctor := fun _ => None;
  move_ctor := Some;
  moved_from := fun _ => None;
  copy_assign := fun _ _ => None;
  move_assign := fun _ x => Some x;
  value_init := Some None;
  default_init := Some None;
  nothrow_move_sound := fun _ x => ex_intro _ x eq_refl
|}.

(** A class whose copy operations throw on negative values and whose
    move constructor is not declared [noexcept]; a moved-from object
    holds [0]. *)
Definition fragile_elem : Elem Z := {|
  sizeof_T := 4;
  sizeof_T_pos := eq_refl;
  sizeof_T_max := ltac:(done);
  is_nothrow_move_constructible := false;
  is_copy_constructible := true;
  copy_ctor := fun x => if x <? 0 then None else Some x;
  move_ctor := Some;
  moved_from := fun _ => 0;
  copy_assign := fun _ x => if x <? 0 then None else Some x;
  move_assign := fun _ x => Some x;
  value_init := Some 0;
  default_init := Some 0;
  nothrow_move_sound := fun H _ => False_ind _ (Bool.diff_false_true H)
|}.

(** The state an outcome leaves behind, whether it returned or threw. *)
Definition after {T A} (r : outcome T A) : state T :=
  match r with
  | Ret _ s => s
  | Throw _ s => s
  | Undef => initial_state
  end.

(** A memory source that never runs dry below [PTRDIFF_MAX] bytes. *)
Definition plenty : MemorySource := {| new_ok := fun _ => true |}.

(** Pushing a sequence of values, first to last. *)
Fixpoint push_all {T} (push : T -> M T unit) (xs : list T) : M T unit :=
  match xs with
  | [] => ret tt
  | x :: xs' => push x ;; push_all push xs'
  end.

(** Two move-only handles pushed into an empty vector: size and capacity
    are both 2. *)
Definition unique_pair : state (option Z) :=
  after (push_all (PushBack_move (ET:=unique_elem) (MS:=plenty))
           [Some 1; Some 2] initial_state).

(** A vector of five [int]s in a buffer of ten slots, and a second vector
    of three in the same heap. *)
Definition five_of_ten : state Z :=
  mkState (mkVector (mkRawMemory (Ptr 0%nat 0) 10) 5)
    (<[0%nat := cells_of [1; 2; 3; 4; 5] 10]>
       (<[1%nat := cells_of [7; 8; 9] 3]> ∅))
    2%nat [].

Definition three_of_three : Vector :=
  mkVector (mkRawMemory (Ptr 1%nat 0) 3) 3.

(** Two elements of the fragile class in a buffer of four slots, built by
    [Reserve(4)] and two [PushBack]s on an empty vector. *)
Definition fragile_pair : state Z :=
  after ((Reserve (ET:=fragile_elem) (MS:=plenty) 4 ;;
          PushBack_copy (ET:=fragile_elem) (MS:=plenty) 1 ;;
          PushBack_copy (ET:=fragile_elem) (MS:=plenty) 2) initial_state).

(** Two elements of the fragile class moved into an empty vector, the
    second one a value whose copy throws: size and capacity are both 2. *)
Definition fragile_full : state Z :=
  after (push_all (PushBack_move (ET:=fragile_elem) (MS:=plenty))
           [1; -1] initial_state).

(** The capacity the doubling policy reaches after [k] pushes from empty:
    the least power of two that holds [k] elements. *)
Definition doubled_capacity (k : nat) : Z :=
  if decide (k = 0%nat) then 0 else 2 ^ Z.log2_up (Z.of_nat k).

(** ** Calls within the preconditions of the member functions *)

(** The buffer of [v] is a block the memory source can have handed out:
    its size in bytes is at most [PTRDIFF_MAX]. *)
Definition within_memory {T} `{Elem T} (v : Vector) : Prop :=
  capacity_ (data_ v) * sizeof_T <= PTRDIFF_MAX.

(** [valid_call s xs op]: the vector holds [xs] and the arguments of [op]
    are what the member function requires: a size passed to [Reserve] or
    [Resize] is not negative and its size in bytes fits [size_t]; a
    position passed to [Emplace] or [Insert] lies in [begin(), end()], one
    passed to [Erase] in [begin(), end()); [PopBack] has an element to
    remove; and the right-hand side of an assignment is the vector itself
    or another vector of the heap with a buffer of its own, within the
    limit of the memory source.  Two kinds of calls are left out although
    the member functions accept them: [Insert] of a value that is an
    object of the heap, and [Emplace] before [end()] of a vector with
    room to spare, with a constructor that throws. *)
Definition valid_call {T} `{Elem T} (s : state T) (xs : list T)
    (op : operation T) : Prop :=
  let at_ (p : nat) := ptr_add (buffer_ (data_ (self s))) (Z.of_nat p) in
  match op with
  | OpReserve n => 0 <= n /\ n * sizeof_T <= SIZE_MAX
  | OpResize n => 0 <= n /\ n * sizeof_T <= SIZE_MAX
  | OpPushBackCopy _ => is_copy_constructible = true
  | OpPushBackMove _ => True
  | OpPopBack => xs <> []
  | OpEmplaceBack _ => True
  | OpEmplace pos ctor =>
      exists p : nat,
        (p <= length xs)%nat /\ pos = at_ p /\
        (ctor = None -> size_of s = capacity_of s \/ p = length xs)
  | OpInsertCopy pos value =>
      is_copy_constructible = true /\
      (exists x, value = Outside x) /\
      exists p : nat, (p <= length xs)%nat /\ pos = at_ p
  | OpInsertMove pos value =>
      (exists x, value = Outside x) /\
      exists p : nat, (p <= length xs)%nat /\ pos = at_ p
  | OpErase pos => exists p : nat, (p < length xs)%nat /\ pos = at_ p
  | OpCopyAssign other =>
      is_copy_constructible = true /\
      match other with
      | ThisObject => True
      | Object o =>
          (exists ys, owns (heap s) o ys) /\
          within_memory o /\
          (buffer_ (data_ o) = Null \/
           buffer_ (data_ o) <> buffer_ (data_ (self s)))
      end
  end.

(** [others_kept s s']: every block of the heap of [s] other than the
    buffer of the vector is in the heap of [s'] with the same contents. *)
Definition others_kept {T} (s s' : state T) : Prop :=
  forall c cells,
    heap s !! c = Some cells ->
    buffer_ (data_ (self s)) <> Ptr c 0 ->
    heap s' !! c = Some cells.

(** [ends_well s m]: run from [s], [m] returns or throws -- it is not
    undefined -- and the state it ends in satisfies the invariant, with a
    buffer within the limit of the memory source, and has kept the other
    blocks. *)
Definition ends_well {T} `{Elem T} (s : state T) (m : M T unit) : Prop :=
  exists s',
    final_state (m s) = Some s' /\ invariant s' /\ within_memory (self s') /\
    others_kept s s'.

(** ** Further element types, a memory source and states for the scenarios *)

(** A class whose default constructor throws and whose move constructor
    throws on negative values and is not declared [noexcept]; its copy
    operations never throw. *)
Definition brittle_elem : Elem Z := {|
  sizeof_T := 4;
  sizeof_T_pos := eq_refl;
  sizeof_T_max := ltac:(done);
  is_nothrow_move_constructible := false;
  is_copy_constructible := true;
  copy_ctor := Some;
  move_ctor := fun x => if x <? 0 then None else Some x;
  moved_from := fun _ => 0;
  copy_assign := fun _ x => Some x;
  move_assign := fun _ x => Some x;
  value_init := None;
  default_init := None;
  nothrow_move_sound := fun H _ => False_ind _ (Bool.diff_false_true H)
|}.

(** A memory source that refuses every request. *)
Definition exhausted : MemorySource := {| new_ok := fun _ => false |}.

(** The values 1 and -1 of the brittle class copied into a buffer of four
    slots. *)
Definition brittle_pair : state Z :=
  after ((Reserve (ET:=brittle_elem) (MS:=plenty) 4 ;;
          PushBack_copy (ET:=brittle_elem) (MS:=plenty) 1 ;;
          PushBack_copy (ET:=brittle_elem) (MS:=plenty) (-1)) initial_state).

(** The heap of [five_of_ten] seen from the vector of three. *)
Definition three_beside_five : state Z :=
  mkState three_of_three (heap five_of_ten) 2%nat [].

(** An empty vector of the fragile class beside the full one. *)
Definition fragile_empty : state Z :=
  mkState Vector_default (heap fragile_full) (next fragile_full) [].

(** [live cells i n]: the slots [i, i + n) of a block hold objects;
    [vacant cells i n]: they are raw storage. *)
Definition live {T} (cells : list (slot T)) (i n : nat) : Prop :=
  forall k, (i <= k < i + n)%nat -> exists x, cells !! k = Some (Obj x).

Definition vacant {T} (cells : list (slot T)) (i n : nat) : Prop :=
  forall k, (i <= k < i + n)%nat -> cells !! k = Some Raw.

(** [same_but cells cells' i n]: two blocks of the same length that
    agree outside the slots [i, i + n). *)
Definition same_but {T} (cells cells' : list (slot T)) (i n : nat) : Prop :=
  length cells' = length cells /\
  forall k, ~ (i <= k < i + n)%nat -> cells' !! k = cells !! k.

(** A class whose move assignment throws when its source is negative;
    a moved-from object holds [0]. *)
Definition touchy_elem : Elem Z := {|
  sizeof_T := 4;
  sizeof_T_pos := eq_refl;
  sizeof_T_max := ltac:(done);
  is_nothrow_move_constructible := true;
  is_copy_constructible := true;
  copy_ctor := Some;
  move_ctor := Some;
  moved_from := fun _ => 0;
  copy_assign := fun _ x => Some x;
  move_assign := fun _ x => if x <? 0 then None else Some x;
  value_init := Some 0;
  default_init := Some 0;
  nothrow_move_sound := fun _ x => ex_intro _ x eq_refl
|}.

(** The values 1, 2, -3 of that class in a buffer of four slots. *)
Definition touchy_three : state Z :=
  mkState (mkVector (mkRawMemory (Ptr 0%nat 0) 4) 3)
    (<[0%nat := cells_of [1; 2; -3] 4]> ∅) 1%nat [].

(** A vector of the fragile class holding 5, 6 in a buffer of four slots,
    and a second one holding 1, -1 in the same heap. *)
Definition fragile_beside : state Z :=
  mkState (mkVector (mkRawMemory (Ptr 0%nat 0) 4) 2)
    (<[0%nat := cells_of [5; 6] 4]> (<[1%nat := cells_of [1; -1] 2]> ∅))
    2%nat [].

Definition fragile_other : Vector :=
  mkVector (mkRawMemory (Ptr 1%nat 0) 2) 2.

(** The values 10, 20, 30 in a buffer of four slots, and in a buffer of
    three. *)
Definition three_of_four : state Z :=
  mkState (mkVector (mkRawMemory (Ptr 0%nat 0) 4) 3)
    (<[0%nat := cells_of [10; 20; 30] 4]> ∅) 1%nat [].

Definition three_full : state Z :=
  mkState (mkVector (mkRawMemory (Ptr 0%nat 0) 3) 3)
    (<[0%nat := cells_of [10; 20; 30] 3]> ∅) 1%nat [].

Arguments ret : simpl never.
Arguments bind : simpl never.
Arguments throw : simpl never.
Arguments undef : simpl never.
Arguments unwinding : simpl never.
Arguments assert : simpl never.
Arguments get_self : simpl never.
Arguments set_self : simpl never.
Arguments emit : simpl never.
Arguments read_slot : simpl never.
Arguments write_slot : simpl never.
Arguments load : simpl never.
Arguments construct_at : simpl never.
Arguments assign_at : simpl never.
Arguments destroy_at : simpl never.
Arguments emplace_new : simpl never.
Arguments copy_construct : simpl never.
Arguments move_construct : simpl never.
Arguments copy_assign_at : simpl never.
Arguments move_assign_at : simpl never.
Arguments assign_temporary : simpl never.
Arguments init_construct : simpl never.
Arguments value_construct : simpl never.
Arguments default_construct : simpl never.
Arguments operator_new : simpl never.
Arguments operator_delete : simpl never.
Arguments destroy_n : simpl never.
Arguments uninitialized_copy_n : simpl never.
Arguments uninitialized_move_n : simpl never.
Arguments uninitialized_value_construct_n : simpl never.
Arguments uninitialized_default_construct_n : simpl never.
Arguments copy_n : simpl never.
Arguments std_move : simpl never.
Arguments move_backward : simpl never.
Arguments Allocate : simpl never.
Arguments Deallocate : simpl never.
Arguments RawMemory_ctor : simpl never.
Arguments RawMemory_dtor : simpl never.
Arguments RawMemory_index : simpl never.
Arguments set_data : simpl never.
Arguments set_size : simpl never.
Arguments Size : simpl never.
Arguments Capacity : simpl never.
Arguments begin_ : simpl never.
Arguments end_ : simpl never.
Arguments MoveOrCopy : simpl never.
Arguments Reserve : simpl never.
Arguments EmplaceBack : simpl never.
Arguments Emplace_args : simpl never.
Arguments Emplace : simpl never.
Arguments read_reference : simpl never.
Arguments copy_of : simpl never.
Arguments move_of : simpl never.
Arguments Erase : simpl never.
Arguments PopBack : simpl never.
Arguments Resize : simpl never.
Arguments copy_assignment : simpl never.
Arguments Vector_copy : simpl never.
Arguments Vector_sized : simpl never.
Arguments Vector_dtor : simpl never.
Arguments Swap : simpl never.
Arguments wp : simpl never.
Arguments size_t_wrap : simpl never.
Arguments grown_capacity : simpl never.
Arguments cells_of : simpl never.
Arguments can_allocate : simpl never.
Arguments refused : simpl never.
Arguments request_bytes : simpl never.


Create HintDb frames.

(** * Proof rules *)

Ltac simp_state :=
  unfold RawMemory_GetAddress, RawMemory_Capacity, RawMemory_plus,
         RawMemory_Swap, set_heap, add_log in *;
  cbn [self heap next log data_ size_ buffer_ capacity_ ptr_add fst snd]
    in *.

Ltac heap_lookup :=
  simp_state;
  repeat first
    [ rewrite lookup_insert_eq
    | rewrite lookup_insert_ne by (done || (apply not_eq_sym; done))
    | rewrite lookup_delete_ne by (done || (apply not_eq_sym; done)) ];
  try done;
  try (f_equal; cbn [app]; rewrite ?app_nil_r; done).

Ltac heap_eq :=
  unfold release, store_block; apply map_eq; intros ?k;
  repeat first [rewrite lookup_insert | rewrite lookup_delete];
  repeat case_decide; subst; try done; try congruence.

Section Rules.
Context {T : Type} `{ET : Elem T} `{MS : MemorySource}.
Implicit Types (s : state T) (h : gmap addr (list (slot T))) (p : ptr).

Lemma bind_ret_l {A B} (a : A) (k : A -> M T B) : bind (ret a) k = k a.
Proof. done. Qed.

Lemma move_of_outside (x : T) : move_of (Outside x) = ret (move_ctor x).
Proof.
  unfold move_of, read_reference. rewrite bind_ret_l.
  by destruct (move_ctor x).
Qed.

Lemma Insert_move_outside pos (x : T) :
  Insert_move pos (Outside x) = Emplace pos (move_ctor x).
Proof. unfold Insert_move, Emplace. by rewrite move_of_outside. Qed.

Lemma Insert_copy_outside pos (x : T) :
  Insert_copy pos (Outside x)
  = if is_copy_constructible then Emplace pos (copy_ctor x) else undef.
Proof. done. Qed.

Lemma wp_ret {A} (a : A) s Q E : Q a s -> wp (ret a) s Q E.
Proof. done. Qed.

Lemma wp_bind {A B} (m : M T A) (k : A -> M T B) s Q E :
  wp m s (fun a s' => wp (k a) s' Q E) E -> wp (bind m k) s Q E.
Proof. unfold wp, bind. by destruct (m s). Qed.

Lemma wp_mono {A} (m : M T A) s (Q Q' : A -> state T -> Prop) (E E' : exn -> state T -> Prop) :
  wp m s Q E ->
  (forall a s', Q a s' -> Q' a s') ->
  (forall e s', E e s' -> E' e s') ->
  wp m s Q' E'.
Proof. unfold wp. destruct (m s); auto. Qed.

Lemma wp_unwinding {A} (m : M T A) cleanup s Q E :
  wp m s Q (fun e s' => wp cleanup s' (fun _ s'' => E e s'') E) ->
  wp (unwinding m cleanup) s Q E.
Proof.
  unfold wp, unwinding. destruct (m s) as [a s'|e s'|]; try done.
  by destruct (cleanup s').
Qed.

Lemma wp_throw {A} e s (Q : A -> state T -> Prop) (E : exn -> state T -> Prop) : E e s -> wp (throw e) s Q E.
Proof. done. Qed.

Lemma wp_assert b s Q E : b = true -> Q tt s -> wp (assert b) s Q E.
Proof. by intros ->. Qed.

Lemma wp_get_self s Q E : Q (self s) s -> wp get_self s Q E.
Proof. done. Qed.

Lemma wp_set_self v s Q E :
  Q tt (mkState v (heap s) (next s) (log s)) -> wp (set_self v) s Q E.
Proof. done. Qed.

Lemma wp_emit ev s Q E : Q tt (add_log [ev] s) -> wp (emit ev) s Q E.
Proof. done. Qed.

Lemma wp_returns {A} (m : M T A) s Q :
  wp m s Q never -> exists a s', m s = Ret a s' /\ Q a s'.
Proof. unfold wp. destruct (m s); try done. eauto. Qed.

Lemma wp_of_eq {A} (m : M T A) s a s' (Q : A -> state T -> Prop) E : m s = Ret a s' -> Q a s' -> wp m s Q E.
Proof. unfold wp. by intros ->. Qed.

(** Slots by decomposition of the block around the offset. *)
Lemma get_slot_middle h a i (pre post : list (slot T)) c :
  h !! a = Some (pre ++ c :: post) -> i = Z.of_nat (length pre) ->
  get_slot h (Ptr a i) = Some c.
Proof.
  intros Hh ->. unfold get_slot. rewrite Hh.
  destruct (Z.leb_spec 0 (Z.of_nat (length pre))); [|lia].
  rewrite Nat2Z.id. apply list_lookup_middle. done.
Qed.

Lemma put_slot_middle h a i (pre post : list (slot T)) c c' :
  h !! a = Some (pre ++ c :: post) -> i = Z.of_nat (length pre) ->
  put_slot h (Ptr a i) c' = <[a := pre ++ c' :: post]> h.
Proof.
  intros Hh ->. unfold put_slot. rewrite Hh, Nat2Z.id. f_equal.
  rewrite insert_app_r_alt by lia. by rewrite Nat.sub_diag.
Qed.

Lemma wp_read_slot p c s Q E :
  get_slot (heap s) p = Some c -> Q c s -> wp (read_slot p) s Q E.
Proof. unfold wp, read_slot. by intros ->. Qed.

Lemma wp_load p x s Q E :
  get_slot (heap s) p = Some (Obj x) -> Q x s -> wp (load p) s Q E.
Proof.
  intros Hp HQ. apply wp_bind. eapply wp_read_slot; [done|]. by apply wp_ret.
Qed.

Lemma wp_construct_at a i pre post x s Q E :
  heap s !! a = Some (pre ++ Raw :: post) -> i = Z.of_nat (length pre) ->
  Q tt (set_heap (<[a := pre ++ Obj x :: post]> (heap s)) s) ->
  wp (construct_at (Ptr a i) x) s Q E.
Proof.
  intros Hh Hi HQ. apply wp_bind.
  eapply wp_read_slot; [by eapply get_slot_middle|].
  unfold wp, write_slot. by erewrite put_slot_middle.
Qed.

Lemma wp_assign_at a i pre post x y s Q E :
  heap s !! a = Some (pre ++ Obj y :: post) -> i = Z.of_nat (length pre) ->
  Q tt (set_heap (<[a := pre ++ Obj x :: post]> (heap s)) s) ->
  wp (assign_at (Ptr a i) x) s Q E.
Proof.
  intros Hh Hi HQ. apply wp_bind.
  eapply wp_load; [by eapply get_slot_middle|].
  unfold wp, write_slot. by erewrite put_slot_middle.
Qed.

Lemma wp_destroy_at a i pre post y s Q E :
  heap s !! a = Some (pre ++ Obj y :: post) -> i = Z.of_nat (length pre) ->
  Q tt (add_log [EvDestroy (Ptr a i)]
          (set_heap (<[a := pre ++ Raw :: post]> (heap s)) s)) ->
  wp (destroy_at (Ptr a i)) s Q E.
Proof.
  intros Hh Hi HQ. apply wp_bind.
  eapply wp_load; [by eapply get_slot_middle|].
  apply wp_bind. unfold wp at 1, write_slot. erewrite put_slot_middle by done.
  by apply wp_emit.
Qed.

Lemma wp_emplace_new a i pre post ctor s Q (E : exn -> state T -> Prop) :
  heap s !! a = Some (pre ++ Raw :: post) -> i = Z.of_nat (length pre) ->
  match ctor with
  | Some x =>
      Q tt (add_log [EvConstruct (Ptr a i)]
              (set_heap (<[a := pre ++ Obj x :: post]> (heap s)) s))
  | None => E ElemExn s
  end ->
  wp (emplace_new (Ptr a i) ctor) s Q E.
Proof.
  intros Hh Hi HQ. destruct ctor as [x|]; [|done].
  apply wp_bind. eapply wp_construct_at; [done..|]. by apply wp_emit.
Qed.

Lemma wp_copy_construct src b j pre post x s Q (E : exn -> state T -> Prop) :
  get_slot (heap s) src = Some (Obj x) ->
  is_copy_constructible = true ->
  heap s !! b = Some (pre ++ Raw :: post) -> j = Z.of_nat (length pre) ->
  match copy_ctor x with
  | Some y =>
      Q tt (add_log [EvCopyCtor src (Ptr b j)]
              (set_heap (<[b := pre ++ Obj y :: post]> (heap s)) s))
  | None => E ElemExn s
  end ->
  wp (copy_construct src (Ptr b j)) s Q E.
Proof.
  intros Hsrc Hc Hh Hj HQ. apply wp_bind. eapply wp_load; [done|].
  rewrite Hc. destruct (copy_ctor x) as [y|]; [|done].
  apply wp_bind. eapply wp_construct_at; [done..|]. by apply wp_emit.
Qed.

Lemma wp_move_construct a i spre spost b j pre post x y s Q E :
  heap s !! a = Some (spre ++ Obj x :: spost) -> i = Z.of_nat (length spre) ->
  move_ctor x = Some y ->
  <[a := spre ++ Obj (moved_from x) :: spost]> (heap s) !! b
    = Some (pre ++ Raw :: post) ->
  j = Z.of_nat (length pre) ->
  Q tt (add_log [EvMoveCtor (Ptr a i) (Ptr b j)]
          (set_heap (<[b := pre ++ Obj y :: post]>
                       (<[a := spre ++ Obj (moved_from x) :: spost]> (heap s)))
                    s)) ->
  wp (move_construct (Ptr a i) (Ptr b j)) s Q E.
Proof.
  intros Ha Hi Hm Hb Hj HQ. apply wp_bind.
  eapply wp_load; [by eapply get_slot_middle|]. rewrite Hm.
  apply wp_bind. eapply wp_assign_at; [done..|].
  apply wp_bind. eapply wp_construct_at; [done..|]. by apply wp_emit.
Qed.

Lemma wp_copy_assign_at src b j pre post x d d' s Q E :
  get_slot (heap s) src = Some (Obj x) ->
  heap s !! b = Some (pre ++ Obj d :: post) -> j = Z.of_nat (length pre) ->
  copy_assign d x = Some d' ->
  Q tt (add_log [EvCopyAssign src (Ptr b j)]
          (set_heap (<[b := pre ++ Obj d' :: post]> (heap s)) s)) ->
  wp (copy_assign_at src (Ptr b j)) s Q E.
Proof.
  intros Hsrc Hb Hj Hc HQ. apply wp_bind. eapply wp_load; [done|].
  apply wp_bind. eapply wp_load; [by eapply get_slot_middle|]. rewrite Hc.
  apply wp_bind. eapply wp_assign_at; [done..|]. by apply wp_emit.
Qed.

Lemma wp_move_assign_at a i spre spost dst b j pre post x d d0 d' s Q E :
  heap s !! a = Some (spre ++ Obj x :: spost) -> i = Z.of_nat (length spre) ->
  dst = Ptr b j ->
  get_slot (heap s) dst = Some (Obj d) ->
  move_assign d x = Some d' ->
  <[a := spre ++ Obj (moved_from x) :: spost]> (heap s) !! b
    = Some (pre ++ Obj d0 :: post) ->
  j = Z.of_nat (length pre) ->
  Q tt (add_log [EvMoveAssign (Ptr a i) dst]
          (set_heap (<[b := pre ++ Obj d' :: post]>
                       (<[a := spre ++ Obj (moved_from x) :: spost]> (heap s)))
                    s)) ->
  wp (move_assign_at (Ptr a i) dst) s Q E.
Proof.
  intros Ha Hi -> Hd Hm Hb Hj HQ. apply wp_bind.
  eapply wp_load; [by eapply get_slot_middle|].
  apply wp_bind. eapply wp_load; [done|]. rewrite Hm.
  apply wp_bind. eapply wp_assign_at; [done..|].
  apply wp_bind. eapply wp_assign_at; [done..|]. by apply wp_emit.
Qed.

Lemma wp_assign_temporary a i pre post ctor d s Q (E : exn -> state T -> Prop) :
  heap s !! a = Some (pre ++ Obj d :: post) -> i = Z.of_nat (length pre) ->
  match ctor with
  | Some x =>
      match move_assign d x with
      | Some d' =>
          Q tt (add_log [EvMoveAssignTemp (Ptr a i)]
                  (set_heap (<[a := pre ++ Obj d' :: post]> (heap s)) s))
      | None => E ElemExn s
      end
  | None => E ElemExn s
  end ->
  wp (assign_temporary (Ptr a i) ctor) s Q E.
Proof.
  intros Ha Hi HQ. destruct ctor as [x|]; [|done].
  apply wp_bind. eapply wp_load; [by eapply get_slot_middle|].
  destruct (move_assign d x) as [d'|]; [|done].
  apply wp_bind. eapply wp_assign_at; [done..|]. by apply wp_emit.
Qed.

Lemma can_allocate_true n :
  can_allocate n = true ->
  request_bytes n = n * sizeof_T /\ granted (n * sizeof_T) = true /\
  0 <= n <= PTRDIFF_MAX.
Proof.
  unfold can_allocate. intros [Heq%Z.eqb_eq Hg]%andb_prop.
  rewrite Heq in Hg. split; [done|]. split; [done|].
  pose proof sizeof_T_pos as Hpos.
  unfold granted in Hg. apply andb_prop in Hg as [_ Hmax%Z.leb_le].
  assert (0 <= n * sizeof_T).
  { rewrite <- Heq. unfold request_bytes, size_t_wrap.
    by apply Z.mod_pos_bound. }
  nia.
Qed.

Lemma can_allocate_false n :
  can_allocate n = false -> 0 <= n -> n * sizeof_T <= SIZE_MAX ->
  refused n = true.
Proof.
  unfold can_allocate, refused. intros Hcan Hn Hfit.
  pose proof sizeof_T_pos as Hpos.
  assert (Heq : request_bytes n = n * sizeof_T).
  { unfold request_bytes, size_t_wrap. apply Z.mod_small.
    unfold SIZE_MAX in Hfit. split; [nia | lia]. }
  apply Z.eqb_eq in Heq. rewrite Heq in Hcan. simpl in Hcan.
  by rewrite Hcan.
Qed.

Lemma refused_cannot n : refused n = true -> can_allocate n = false.
Proof.
  unfold can_allocate, refused. intros Hr%negb_true_iff. rewrite Hr.
  apply andb_false_r.
Qed.

Lemma wp_operator_new n s Q (E : exn -> state T -> Prop) :
  (if can_allocate n then
     Q (Ptr (next s) 0)
       (mkState (self s)
          (<[next s := replicate (Z.to_nat n) Raw]> (heap s))
          (S (next s)) (log s ++ [EvAlloc (next s) n]))
   else refused n = true /\ E BadAlloc s) ->
  wp (operator_new (request_bytes n)) s Q E.
Proof.
  unfold wp, operator_new. destruct (can_allocate n) eqn:Hcan.
  - apply can_allocate_true in Hcan as (-> & -> & _).
    pose proof sizeof_T_pos. by rewrite Z.div_mul by lia.
  - unfold refused. by intros [->%negb_true_iff ?].
Qed.

Lemma wp_operator_delete a cells s Q E :
  heap s !! a = Some cells ->
  Q tt (mkState (self s) (delete a (heap s)) (next s) (log s ++ [EvFree a])) ->
  wp (operator_delete (Ptr a 0)) s Q E.
Proof. unfold wp, operator_delete. intros ->. by rewrite decide_True. Qed.


Lemma wp_set_data d s Q E :
  Q tt (mkState (mkVector d (size_ (self s))) (heap s) (next s) (log s)) ->
  wp (set_data d) s Q E.
Proof. done. Qed.

Lemma wp_set_size n s Q E :
  Q tt (mkState (mkVector (data_ (self s)) n) (heap s) (next s) (log s)) ->
  wp (set_size n) s Q E.
Proof. done. Qed.

Lemma wp_begin s Q E : Q (buffer_ (data_ (self s))) s -> wp begin_ s Q E.
Proof. done. Qed.

Lemma wp_end s Q E :
  Q (ptr_add (buffer_ (data_ (self s))) (size_ (self s))) s -> wp end_ s Q E.
Proof. done. Qed.

Lemma wp_RawMemory_index r index s Q E :
  index < capacity_ r ->
  Q (ptr_add (buffer_ r) index) s ->
  wp (RawMemory_index r index) s Q E.
Proof.
  intros Hi HQ. unfold RawMemory_index. apply wp_bind, wp_assert; [lia|].
  by apply wp_ret.
Qed.

Lemma wp_RawMemory_ctor n s Q (E : exn -> state T -> Prop) :
  n <> 0 ->
  (if can_allocate n then
     Q (mkRawMemory (Ptr (next s) 0) n)
       (mkState (self s)
          (<[next s := replicate (Z.to_nat n) Raw]> (heap s))
          (S (next s)) (log s ++ [EvAlloc (next s) n]))
   else refused n = true /\ E BadAlloc s) ->
  wp (RawMemory_ctor n) s Q E.
Proof.
  intros Hn HQ. unfold RawMemory_ctor, Allocate.
  destruct (Z.eqb_spec n 0) as [?|_]; [done|]. cbn [negb].
  apply wp_bind. apply (wp_operator_new n). by destruct (can_allocate n).
Qed.

Lemma wp_RawMemory_ctor_0 s Q E :
  Q (mkRawMemory Null 0) s -> wp (RawMemory_ctor 0) s Q E.
Proof. done. Qed.

Lemma wp_RawMemory_dtor r a cells s Q E :
  buffer_ r = Ptr a 0 ->
  heap s !! a = Some cells ->
  Q tt (mkState (self s) (delete a (heap s)) (next s) (log s ++ [EvFree a])) ->
  wp (RawMemory_dtor r) s Q E.
Proof.
  intros Hr Ha HQ. unfold RawMemory_dtor, Deallocate. rewrite Hr.
  by eapply wp_operator_delete.
Qed.

Lemma wp_RawMemory_dtor_null r s Q E :
  buffer_ r = Null -> Q tt s -> wp (RawMemory_dtor r) s Q E.
Proof. intros Hr HQ. unfold RawMemory_dtor, Deallocate. by rewrite Hr. Qed.

Lemma state_eta s : mkState (self s) (heap s) (next s) (log s) = s.
Proof. by destruct s. Qed.

Lemma slot_events_cons ev a i n :
  slot_events ev a i (S n) = ev (Ptr a i) :: slot_events ev a (i + 1) n.
Proof.
  unfold slot_events. rewrite seqZ_cons by lia. simpl. do 3 f_equal; lia.
Qed.

Lemma pair_events_cons ev a i b j k n :
  pair_events ev a i b j k (S n)
  = ev (Ptr a (i + k)) (Ptr b (j + k)) :: pair_events ev a i b j (k + 1) n.
Proof.
  unfold pair_events. rewrite seqZ_cons by lia. simpl. do 3 f_equal; lia.
Qed.

Lemma wp_destroy_loop xs : forall a i pre post s Q E,
  heap s !! a = Some (pre ++ (Obj <$> xs) ++ post) ->
  i = Z.of_nat (length pre) ->
  Q tt (mkState (self s)
          (<[a := pre ++ replicate (length xs) Raw ++ post]> (heap s))
          (next s) (log s ++ slot_events EvDestroy a i (length xs))) ->
  wp (destroy_loop (Ptr a i) (length xs)) s Q E.
Proof.
  induction xs as [|x xs IH]; intros a i pre post s Q E Hh Hi HQ; simpl in *.
  - apply wp_ret. rewrite insert_id, app_nil_r, state_eta in HQ; done.
  - apply wp_bind. eapply wp_destroy_at; [done..|].
    eapply (IH a (i + 1) (pre ++ [Raw]) post); simpl.
    + rewrite lookup_insert_eq. by rewrite <- app_assoc.
    + rewrite length_app. simpl. lia.
    + rewrite insert_insert_eq, <- !app_assoc. simpl.
      by rewrite slot_events_cons in HQ.
Qed.

Lemma wp_destroy_n xs a i n pre post s Q E :
  heap s !! a = Some (pre ++ (Obj <$> xs) ++ post) ->
  i = Z.of_nat (length pre) ->
  n = Z.of_nat (length xs) ->
  Q tt (mkState (self s)
          (<[a := pre ++ replicate (length xs) Raw ++ post]> (heap s))
          (next s) (log s ++ slot_events EvDestroy a i (length xs))) ->
  wp (destroy_n (Ptr a i) n) s Q E.
Proof.
  intros Hh Hi -> HQ. unfold destroy_n. rewrite Nat2Z.id.
  by eapply wp_destroy_loop.
Qed.

(** Destroying nothing, wherever the pointer points. *)
Lemma wp_destroy_n_0 p s Q E : Q tt s -> wp (destroy_n p 0) s Q E.
Proof. done. Qed.


Lemma wp_uninitialized_copy_loop xs :
  forall a i spre spost b j dpre ys dpost done s Q (E : exn -> state T -> Prop),
  a <> b ->
  is_copy_constructible = true ->
  heap s !! a = Some (spre ++ (Obj <$> xs) ++ spost) ->
  Z.of_nat (length spre) = i + done ->
  heap s !! b
    = Some (dpre ++ (Obj <$> ys) ++ replicate (length xs) Raw ++ dpost) ->
  Z.of_nat (length dpre) = j ->
  Z.of_nat (length ys) = done ->
  (forall ys', Forall2 copies xs ys' ->
     Q tt (mkState (self s)
             (<[b := dpre ++ (Obj <$> (ys ++ ys')) ++ dpost]> (heap s))
             (next s)
             (log s ++ pair_events EvCopyCtor a i b j done (length xs)))) ->
  (Exists (fun x => copy_ctor x = None) xs ->
   forall evs,
     E ElemExn
       (mkState (self s)
          (<[b := dpre ++ replicate (length ys + length xs) Raw ++ dpost]>
             (heap s))
          (next s) (log s ++ evs))) ->
  wp (uninitialized_copy_loop (Ptr a i) (Ptr b j) done (length xs)) s Q E.
Proof.
  induction xs as [|x xs IH];
    intros a i spre spost b j dpre ys dpost done s Q E
           Hab Hcc Ha Hi Hb Hj Hdone HQ HE; simpl in *.
  - apply wp_ret. specialize (HQ [] ltac:(constructor)).
    rewrite app_nil_r in HQ. unfold pair_events in HQ. simpl in HQ.
    rewrite insert_id, app_nil_r, state_eta in HQ; done.
  - apply wp_bind, wp_unwinding.
    eapply (wp_copy_construct _ b _ (dpre ++ (Obj <$> ys))).
    + by eapply get_slot_middle.
    + done.
    + by rewrite Hb, <- app_assoc.
    + rewrite length_app, length_fmap. lia.
    + destruct (copy_ctor x) as [y|] eqn:Hx.
      * eapply (IH a i (spre ++ [Obj x]) spost b j dpre (ys ++ [y]) dpost);
          simpl; try done.
        -- rewrite lookup_insert_ne by done. by rewrite Ha, <- app_assoc.
        -- rewrite length_app. simpl. lia.
        -- rewrite lookup_insert_eq, fmap_app, <- !app_assoc. done.
        -- rewrite length_app. simpl. lia.
        -- intros ys' Hys'. rewrite insert_insert_eq, <- !app_assoc.
           specialize (HQ (y :: ys') ltac:(by constructor)).
           by rewrite pair_events_cons in HQ.
        -- intros Hex evs. rewrite insert_insert_eq, <- !app_assoc.
           specialize (HE ltac:(by right)
             ([EvCopyCtor (Ptr a (i + done)) (Ptr b (j + done))] ++ evs)).
           rewrite length_app. simpl.
           by replace (length ys + 1 + length xs)%nat
             with (length ys + S (length xs))%nat by lia.
      * eapply (wp_destroy_n ys); [by rewrite Hb| lia | lia |].
        specialize (HE ltac:(by left)
                      (slot_events EvDestroy b j (length ys))).
        rewrite replicate_add, <- app_assoc in HE. exact HE.
Qed.

Lemma pair_events_shift ev a i b j k n :
  pair_events ev a (i + 1) b (j + 1) k n = pair_events ev a i b j (k + 1) n.
Proof.
  unfold pair_events. replace (k + 1) with (1 + k) by lia.
  rewrite <- (fmap_add_seqZ 1 k), <- list_fmap_compose.
  apply list_fmap_ext. intros n' z _. simpl.
  by replace (i + 1 + z) with (i + (1 + z)) by lia;
     replace (j + 1 + z) with (j + (1 + z)) by lia.
Qed.

Lemma insert2_insert2 h a b (A1 B1 A2 B2 : list (slot T)) :
  <[b := B2]> (<[a := A2]> (<[b := B1]> (<[a := A1]> h)))
  = <[b := B2]> (<[a := A2]> h).
Proof.
  apply map_eq. intros k.
  destruct (decide (b = k)) as [->|]; [by rewrite !lookup_insert_eq|].
  rewrite !(lookup_insert_ne _ b) by done.
  destruct (decide (a = k)) as [->|]; [by rewrite !lookup_insert_eq|].
  by repeat (rewrite lookup_insert_ne by done).
Qed.

Section RegularRules.
Context `{!Regular T}.

Lemma wp_uninitialized_move_loop xs :
  forall a i spre spost b j dpre dpost done s Q E,
  a <> b ->
  heap s !! a = Some (spre ++ (Obj <$> xs) ++ spost) ->
  Z.of_nat (length spre) = i + done ->
  heap s !! b = Some (dpre ++ replicate (length xs) Raw ++ dpost) ->
  Z.of_nat (length dpre) = j + done ->
  Q tt (mkState (self s)
          (<[b := dpre ++ (Obj <$> xs) ++ dpost]>
             (<[a := spre ++ (Obj <$> (moved_from <$> xs)) ++ spost]> (heap s)))
          (next s)
          (log s ++ pair_events EvMoveCtor a i b j done (length xs))) ->
  wp (uninitialized_move_loop (Ptr a i) (Ptr b j) done (length xs)) s Q E.
Proof.
  induction xs as [|x xs IH];
    intros a i spre spost b j dpre dpost done s Q E Hab Ha Hi Hb Hj HQ;
    simpl in *.
  - apply wp_ret. unfold pair_events in HQ. simpl in HQ.
    rewrite (insert_id (heap s) a), (insert_id (heap s) b) in HQ by done.
    by rewrite app_nil_r, state_eta in HQ.
  - apply wp_bind, wp_unwinding.
    eapply (wp_move_construct a _ spre _ b _ dpre);
      [done | lia | apply regular_move_ctor
      | by rewrite lookup_insert_ne | lia |].
    eapply (IH a i (spre ++ [Obj (moved_from x)]) spost
               b j (dpre ++ [Obj x]) dpost); simpl; try done.
    + rewrite lookup_insert_ne, lookup_insert_eq by done.
      by rewrite <- app_assoc.
    + rewrite length_app. simpl. lia.
    + rewrite lookup_insert_eq. by rewrite <- app_assoc.
    + rewrite length_app. simpl. lia.
    + rewrite insert2_insert2, <- !app_assoc. simpl.
      by rewrite pair_events_cons in HQ.
Qed.

Lemma wp_uninitialized_construct_loop init d n :
  forall a i pre post done s Q E,
  init = Some d ->
  heap s !! a = Some (pre ++ replicate n Raw ++ post) ->
  Z.of_nat (length pre) = i + done ->
  Q tt (mkState (self s)
          (<[a := pre ++ replicate n (Obj d) ++ post]> (heap s))
          (next s) (log s ++ slot_events EvDefault a (i + done) n)) ->
  wp (uninitialized_construct_loop (init_construct init) (Ptr a i) done n)
     s Q E.
Proof.
  induction n as [|n IH]; intros a i pre post done s Q E -> Ha Hi HQ;
    simpl in *.
  - apply wp_ret. rewrite insert_id, app_nil_r, state_eta in HQ; done.
  - apply wp_bind, wp_unwinding, wp_bind.
    eapply wp_construct_at; [done| lia |]. apply wp_emit.
    eapply (IH a i (pre ++ [Obj d]) post); simpl; try done.
    + rewrite lookup_insert_eq. by rewrite <- app_assoc.
    + rewrite length_app. simpl. lia.
    + rewrite insert_insert_eq, <- !app_assoc. simpl.
      rewrite slot_events_cons in HQ.
      by replace (i + (done + 1)) with (i + done + 1) by lia.
Qed.

Lemma wp_copy_loop xs :
  forall ds a i spre spost b j dpre dpost s Q E,
  is_copy_constructible = true ->
  a <> b ->
  length ds = length xs ->
  heap s !! a = Some (spre ++ (Obj <$> xs) ++ spost) ->
  Z.of_nat (length spre) = i ->
  heap s !! b = Some (dpre ++ (Obj <$> ds) ++ dpost) ->
  Z.of_nat (length dpre) = j ->
  Q tt (mkState (self s)
          (<[b := dpre ++ (Obj <$> xs) ++ dpost]> (heap s))
          (next s)
          (log s ++ pair_events EvCopyAssign a i b j 0 (length xs))) ->
  wp (copy_loop (Ptr a i) (Ptr b j) (length xs)) s Q E.
Proof.
  induction xs as [|x xs IH];
    intros [|d ds] a i spre spost b j dpre dpost s Q E
           Hcc Hab Hlen Ha Hi Hb Hj HQ;
    simpl in *; try done.
  - apply wp_ret. unfold pair_events in HQ. simpl in HQ.
    rewrite insert_id, app_nil_r, state_eta in HQ; done.
  - apply wp_bind.
    eapply wp_copy_assign_at;
      [by eapply get_slot_middle | done | lia | by apply regular_copy_assign |].
    eapply (IH ds a (i + 1) (spre ++ [Obj x]) spost
               b (j + 1) (dpre ++ [Obj x]) dpost); simpl; try done.
    + lia.
    + rewrite lookup_insert_ne by done. by rewrite Ha, <- app_assoc.
    + rewrite length_app. simpl. lia.
    + rewrite lookup_insert_eq. by rewrite <- app_assoc.
    + rewrite length_app. simpl. lia.
    + rewrite insert_insert_eq, <- !app_assoc. simpl.
      rewrite pair_events_cons in HQ. rewrite pair_events_shift.
      by rewrite !Z.add_0_r in HQ.
Qed.

(** Copy assignment of a range onto itself. *)
Lemma wp_copy_loop_self xs :
  forall a i pre post s Q E,
  is_copy_constructible = true ->
  heap s !! a = Some (pre ++ (Obj <$> xs) ++ post) ->
  Z.of_nat (length pre) = i ->
  Q tt (mkState (self s) (heap s) (next s)
          (log s ++ pair_events EvCopyAssign a i a i 0 (length xs))) ->
  wp (copy_loop (Ptr a i) (Ptr a i) (length xs)) s Q E.
Proof.
  induction xs as [|x xs IH]; intros a i pre post s Q E Hcc Ha Hi HQ;
    simpl in *.
  - apply wp_ret. unfold pair_events in HQ. simpl in HQ.
    rewrite app_nil_r, state_eta in HQ; done.
  - apply wp_bind.
    eapply wp_copy_assign_at;
      [by eapply get_slot_middle | done | lia | by apply regular_copy_assign |].
    rewrite insert_id by done.
    eapply (IH a (i + 1) (pre ++ [Obj x]) post); simpl.
    + done.
    + by rewrite Ha, <- app_assoc.
    + rewrite length_app. simpl. lia.
    + rewrite <- !app_assoc. simpl.
      rewrite pair_events_cons in HQ. rewrite pair_events_shift.
      by rewrite !Z.add_0_r in HQ.
Qed.


Lemma left_behind_cons d x xs :
  left_behind (moved_from x) xs = left_behind d (x :: xs).
Proof.
  unfold left_behind. destruct xs as [|y ys]; [done|].
  rewrite last_cons_cons.
  by destruct (last_is_Some (y :: ys)) as [_ [z ->]].
Qed.

Lemma vacated_snoc d x xs :
  vacated (moved_from x) xs = vacated d (xs ++ [x]).
Proof. unfold vacated. by destruct xs. Qed.

Lemma wp_move_loop xs :
  forall a i i1 pre d post s Q E,
  heap s !! a = Some (pre ++ Obj d :: (Obj <$> xs) ++ post) ->
  Z.of_nat (length pre) = i ->
  i1 = i + 1 ->
  Q tt (mkState (self s)
          (<[a := pre ++ (Obj <$> xs) ++ Obj (left_behind d xs) :: post]>
             (heap s))
          (next s)
          (log s ++ pair_events EvMoveAssign a i1 a i 0 (length xs))) ->
  wp (move_loop (Ptr a i1) (Ptr a i) (length xs)) s Q E.
Proof.
  induction xs as [|x xs IH]; intros a i i1 pre d post s Q E Ha Hi -> HQ;
    simpl in *.
  - apply wp_ret. unfold pair_events in HQ. simpl in HQ.
    rewrite insert_id, app_nil_r, state_eta in HQ; done.
  - apply wp_bind.
    eapply (wp_move_assign_at a _ (pre ++ [Obj d]) _ _ a i pre _ x d d x).
    + by rewrite Ha, <- app_assoc.
    + rewrite length_app. simpl. lia.
    + done.
    + by eapply get_slot_middle.
    + apply regular_move_assign.
    + rewrite lookup_insert_eq. by rewrite <- app_assoc.
    + done.
    + eapply (IH a (i + 1) _ (pre ++ [Obj x]) (moved_from x) post);
        simpl; try done.
      * rewrite lookup_insert_eq. by rewrite <- app_assoc.
      * rewrite length_app. simpl. lia.
      * rewrite !insert_insert_eq, <- !app_assoc. simpl.
        rewrite left_behind_cons with (d := d).
        rewrite pair_events_cons in HQ. rewrite pair_events_shift.
        by rewrite !Z.add_0_r in HQ.
Qed.

Lemma wp_move_backward_loop xs :
  forall a i i1 pre d post s Q E,
  heap s !! a = Some (pre ++ (Obj <$> xs) ++ Obj d :: post) ->
  Z.of_nat (length pre) + Z.of_nat (length xs) = i ->
  i1 = i + 1 ->
  Q tt (mkState (self s)
          (<[a := pre ++ Obj (vacated d xs) :: (Obj <$> xs) ++ post]> (heap s))
          (next s)
          (log s ++ backward_events a i i1 (length xs))) ->
  wp (move_backward_loop (Ptr a i) (Ptr a i1) (length xs)) s Q E.
Proof.
  induction xs as [|x xs IH] using rev_ind;
    intros a i i1 pre d post s Q E Ha Hi -> HQ.
  - simpl in *. apply wp_ret.
    rewrite insert_id, app_nil_r, state_eta in HQ; done.
  - rewrite length_app, Nat.add_1_r in *. simpl in *.
    rewrite fmap_app in Ha. simpl in Ha. rewrite <- app_assoc in Ha.
    simpl in Ha.
    apply wp_bind.
    eapply (wp_move_assign_at a _ (pre ++ (Obj <$> xs)) _ _ a (i + 1 + -1)
              (pre ++ (Obj <$> xs) ++ [Obj (moved_from x)]) _ x d d x).
    + by rewrite Ha, <- app_assoc.
    + rewrite length_app, length_fmap. lia.
    + done.
    + eapply (get_slot_middle _ _ _ (pre ++ (Obj <$> xs) ++ [Obj x])).
      * by rewrite Ha, <- !app_assoc.
      * rewrite !length_app, length_fmap. simpl. lia.
    + apply regular_move_assign.
    + rewrite lookup_insert_eq. by rewrite <- !app_assoc.
    + rewrite !length_app, length_fmap. simpl. lia.
    + eapply (IH a (i + -1) _ pre (moved_from x) (Obj x :: post));
        simpl; try done.
      * rewrite lookup_insert_eq. by rewrite <- !app_assoc.
      * lia.
      * lia.
      * rewrite !insert_insert_eq, <- !app_assoc.
        rewrite fmap_app, <- !app_assoc in HQ. simpl in *.
        by rewrite vacated_snoc with (d := d).
Qed.


Lemma copies_regular xs ys :
  is_copy_constructible = true -> Forall2 copies xs ys -> ys = xs.
Proof.
  intros Hcc. induction 1 as [|x y xs ys Hxy _ IH]; [done|].
  unfold copies in Hxy. rewrite regular_copy_ctor in Hxy by done. congruence.
Qed.

Lemma no_copy_throws xs :
  is_copy_constructible = true ->
  ~ Exists (fun x : T => copy_ctor x = None) xs.
Proof.
  intros Hcc. rewrite Exists_exists. intros (x & _ & Hx).
  by rewrite regular_copy_ctor in Hx.
Qed.

Lemma relocates_false_copyable : relocates = false -> is_copy_constructible = true.
Proof.
  unfold relocates. destruct is_nothrow_move_constructible, is_copy_constructible; done.
Qed.

Lemma wp_MoveOrCopy xs a i spre spost b j dpre dpost n s Q E :
  a <> b ->
  heap s !! a = Some (spre ++ (Obj <$> xs) ++ spost) ->
  Z.of_nat (length spre) = i ->
  heap s !! b = Some (dpre ++ replicate (length xs) Raw ++ dpost) ->
  Z.of_nat (length dpre) = j ->
  n = Z.of_nat (length xs) ->
  Q tt (mkState (self s)
          (<[b := dpre ++ (Obj <$> xs) ++ dpost]>
             (<[a := spre ++ (Obj <$> migrated xs) ++ spost]> (heap s)))
          (next s)
          (log s ++ pair_events migration_event a i b j 0 (length xs))) ->
  wp (MoveOrCopy (Ptr a i) n (Ptr b j)) s Q E.
Proof.
  intros Hab Ha Hi Hb Hj -> HQ.
  unfold MoveOrCopy, migrated, migration_event in *.
  destruct relocates eqn:Hr.
  - unfold uninitialized_move_n. rewrite Nat2Z.id.
    eapply wp_uninitialized_move_loop; [done | done | lia | done | lia | done].
  - unfold uninitialized_copy_n. rewrite Nat2Z.id.
    eapply (wp_uninitialized_copy_loop xs a i spre spost b j dpre []);
      [ done | by apply relocates_false_copyable | done | lia | exact Hb
      | done | done | | ].
    + intros ys' Hys'.
      apply copies_regular in Hys' as ->;
        [|by apply relocates_false_copyable]. simpl.
      by rewrite (insert_id (heap s) a) in HQ.
    + intros Hex. by apply no_copy_throws in Hex;
        [|apply relocates_false_copyable].
Qed.

Lemma wp_MoveOrCopy_0 p q s Q E : Q tt s -> wp (MoveOrCopy p 0 q) s Q E.
Proof. unfold MoveOrCopy. by destruct relocates. Qed.

End RegularRules.
End Rules.

Section VectorSpecs.
Context {T : Type} `{ET : Elem T} `{MS : MemorySource}.
Implicit Types (s : state T) (h : gmap addr (list (slot T))) (p : ptr) (xs : list T).

Lemma cells_of_room xs cap :
  Z.of_nat (length xs) < cap ->
  cells_of xs cap
  = (Obj <$> xs) ++ Raw :: replicate (Z.to_nat cap - length xs - 1) Raw.
Proof.
  intros H. unfold cells_of.
  destruct (Z.to_nat cap - length xs)%nat as [|k] eqn:Hk; [lia|].
  simpl. by rewrite Nat.sub_0_r.
Qed.

Lemma cells_of_snoc xs x cap :
  (Obj <$> xs) ++ Obj x :: replicate (Z.to_nat cap - length xs - 1) Raw
  = cells_of (xs ++ [x]) cap.
Proof.
  unfold cells_of. rewrite fmap_app, <- app_assoc, length_app. simpl.
  do 3 f_equal. lia.
Qed.

Lemma cells_of_full xs cap :
  cap = Z.of_nat (length xs) -> cells_of xs cap = (Obj <$> xs) ++ [].
Proof.
  intros ->. unfold cells_of. by rewrite Nat2Z.id, Nat.sub_diag.
Qed.

Lemma cells_of_nil cap : cells_of [] cap = replicate (Z.to_nat cap) (@Raw T).
Proof. unfold cells_of. simpl. by rewrite Nat.sub_0_r. Qed.

Lemma size_t_wrap_small x : 0 <= x < 2 ^ 64 -> size_t_wrap x = x.
Proof. intros. unfold size_t_wrap. by apply Z.mod_small. Qed.

Lemma PTRDIFF_MAX_lt : 2 * PTRDIFF_MAX < 2 ^ 64.
Proof. done. Qed.

Lemma wp_eq {A} (m : M T A) s a s' :
  wp m s (fun r t => r = a /\ t = s') never -> m s = Ret a s'.
Proof. intros (r & t & -> & -> & ->)%wp_returns. done. Qed.

(** [EmplaceBack] with room to spare. *)
Lemma EmplaceBack_room xs x s a :
  represents s xs ->
  buffer_ (data_ (self s)) = Ptr a 0 ->
  size_ (self s) <> capacity_ (data_ (self s)) ->
  EmplaceBack (Some x) s
  = Ret (Ptr a (size_ (self s)))
        (mkState (mkVector (data_ (self s)) (size_ (self s) + 1))
           (<[a := cells_of (xs ++ [x]) (capacity_ (data_ (self s)))]> (heap s))
           (next s) (log s ++ [EvConstruct (Ptr a (size_ (self s)))])).
Proof.
  intros [Hfresh (Hsize & Hcap & Hbuf)] Ha Hne. rewrite Ha in Hbuf.
  destruct Hbuf as (_ & Hpos & Hblock).
  assert (Hlt : 0 <= size_ (self s) < 2 ^ 63) by (unfold PTRDIFF_MAX in *; lia).
  apply wp_eq. unfold EmplaceBack.
  apply wp_bind, wp_get_self. simp_state.
  destruct (Z.eqb_spec (size_ (self s)) (capacity_ (data_ (self s)))); [done|].
  rewrite Ha. simp_state. rewrite Z.add_0_l.
  apply wp_bind. rewrite cells_of_room in Hblock by lia.
  eapply wp_emplace_new; [done | rewrite length_fmap; lia |].
  apply wp_bind, wp_bind, wp_get_self, wp_set_self. simp_state.
  apply wp_bind, wp_get_self. simp_state.
  rewrite (size_t_wrap_small (size_ (self s) + 1)) by lia.
  replace (size_ (self s) + 1 - 1) with (size_ (self s)) by lia.
  rewrite size_t_wrap_small by lia.
  apply wp_bind. apply wp_assert; [simpl; lia|]. rewrite Ha. simp_state.
  apply wp_ret. by rewrite cells_of_snoc, Z.add_0_l.
Qed.

Lemma grown_capacity_spec n :
  0 <= n <= PTRDIFF_MAX -> grown_capacity n = Z.max 1 (2 * n).
Proof.
  intros Hn. unfold grown_capacity. destruct (Z.eqb_spec n 0) as [->|]; [done|].
  rewrite size_t_wrap_small by (unfold PTRDIFF_MAX in *; lia). lia.
Qed.

Lemma fresh_not_owned s a cells :
  fresh_from s -> heap s !! a = Some cells -> a <> next s.
Proof. intros Hf Ha ->. rewrite Hf in Ha by lia. done. Qed.

Lemma replicate_split {A} (n k : nat) (x : A) :
  (k < n)%nat -> replicate n x = replicate k x ++ x :: replicate (n - k - 1) x.
Proof.
  intros H. replace n with (k + S (n - k - 1))%nat at 1 by lia.
  by rewrite replicate_add.
Qed.

(** [Reserve] within the current capacity does nothing. *)
Lemma Reserve_noop n s :
  n <= capacity_ (data_ (self s)) -> Reserve n s = Ret tt s.
Proof.
  intros Hn. apply wp_eq. unfold Reserve.
  apply wp_bind, wp_get_self. simp_state.
  by destruct (Z.leb_spec n (capacity_ (data_ (self s)))); [|lia].
Qed.

(** [Erase] on an empty vector returns its argument and changes nothing. *)
Lemma Erase_empty pos s :
  represents s [] -> Erase pos s = Ret pos s.
Proof.
  intros [_ (Hsize & _ & _)]. simpl in Hsize.
  apply wp_eq. unfold Erase.
  apply wp_bind, wp_begin, wp_bind, wp_end. rewrite Hsize.
  destruct (buffer_ (data_ (self s))) as [|a off]; simp_state.
  - by rewrite bool_decide_eq_true_2.
  - by rewrite Z.add_0_r, bool_decide_eq_true_2.
Qed.

Lemma replicate_succ {A} (n m : nat) (x : A) :
  n = S m -> replicate n x = x :: replicate m x.
Proof. by intros ->. Qed.

Section RegularSpecs.
Context `{!Regular T}.

Lemma EmplaceBack_full xs x s :
  represents s xs ->
  size_ (self s) = capacity_ (data_ (self s)) ->
  can_allocate (grown_capacity (size_ (self s))) = true ->
  let old := buffer_ (data_ (self s)) in
  let b := next s in
  let cap := grown_capacity (size_ (self s)) in
  EmplaceBack (Some x) s
  = Ret (Ptr b (size_ (self s)))
        (mkState (mkVector (mkRawMemory (Ptr b 0) cap) (size_ (self s) + 1))
           (<[b := cells_of (xs ++ [x]) cap]> (release old (heap s)))
           (S b)
           (log s ++ [EvAlloc b cap; EvConstruct (Ptr b (size_ (self s)))]
              ++ transfer_events migration_event old (Ptr b 0) (length xs)
              ++ range_events EvDestroy old (length xs)
              ++ release_events old)).
Proof.
  intros [Hfresh (Hsize & Hcap & Hbuf)] Hfull Hcan old b cap.
  assert (Hlt : 0 <= size_ (self s) <= PTRDIFF_MAX) by lia.
  assert (Hcapv : cap = Z.max 1 (2 * size_ (self s)))
    by by apply grown_capacity_spec.
  assert (Hb : heap s !! b = None) by by apply Hfresh.
  apply wp_eq. unfold EmplaceBack.
  apply wp_bind, wp_get_self. simp_state.
  rewrite <- Hfull, Z.eqb_refl.
  change (can_allocate cap = true) in Hcan.
  apply wp_bind, wp_RawMemory_ctor; [fold cap; lia|]. fold cap b.
  rewrite Hcan. simp_state.
  apply wp_bind, wp_unwinding, wp_bind. rewrite Z.add_0_l.
  eapply (wp_emplace_new b _ (replicate (length xs) Raw)
            (replicate (Z.to_nat cap - length xs - 1) Raw)).
  { simp_state. rewrite lookup_insert_eq. f_equal.
    apply replicate_split. lia. }
  { rewrite length_replicate. lia. }
  simp_state. rewrite insert_insert_eq.
  subst old. destruct (buffer_ (data_ (self s))) as [|a off] eqn:Ha.
  - assert (Hz : size_ (self s) = 0) by lia.
    destruct xs; [|simpl in Hsize; lia]. rewrite Hz. simpl.
    apply wp_MoveOrCopy_0, wp_bind, wp_destroy_n_0.
    apply wp_bind, wp_set_data, wp_bind, wp_set_size. simp_state.
    apply wp_bind, wp_get_self. simp_state.
    rewrite !size_t_wrap_small by done.
    apply wp_bind, wp_RawMemory_index; [simpl; lia|].
    apply wp_bind, wp_RawMemory_dtor_null; [by rewrite Ha|].
    apply wp_ret. split; [done|]. f_equal.
    + f_equal. exact (cells_of_snoc [] x cap).
    + by rewrite <- app_assoc.
  - destruct Hbuf as (-> & Hpos & Hblock).
    rewrite cells_of_full in Hblock by lia.
    assert (Hab : a <> b) by by eapply fresh_not_owned.
    eapply (wp_MoveOrCopy xs a 0 [] [] b 0 []);
      [ done | heap_lookup | done | heap_lookup | done | done |].
    simp_state. apply wp_bind.
    eapply (wp_destroy_n (migrated xs) a 0 _ [] []).
    { heap_lookup. }
    { done. }
    { unfold migrated. destruct relocates; rewrite ?length_fmap; lia. }
    simp_state.
    apply wp_bind, wp_set_data, wp_bind, wp_set_size. simp_state.
    apply wp_bind, wp_get_self. simp_state.
    rewrite (size_t_wrap_small (size_ (self s) + 1))
      by (unfold PTRDIFF_MAX in *; lia).
    rewrite size_t_wrap_small by (unfold PTRDIFF_MAX in *; lia).
    apply wp_bind, wp_RawMemory_index; [simpl; lia|].
    apply wp_bind.
    eapply (wp_RawMemory_dtor _ a); [done | heap_lookup |].
    simp_state. apply wp_ret. split; [f_equal; lia|]. f_equal.
    + rewrite <- cells_of_snoc.
      replace (Z.to_nat cap - length xs - 1)%nat
        with (Z.to_nat cap - length xs - 1)%nat by lia.
      heap_eq.
    + assert (Hlen : length (migrated xs) = length xs)
        by (unfold migrated; destruct relocates; by rewrite ?length_fmap).
      rewrite Hlen. simpl. by rewrite <- !app_assoc.
Qed.


Lemma migrated_length xs : length (migrated xs) = length xs.
Proof. unfold migrated. destruct relocates; by rewrite ?length_fmap. Qed.

Lemma migrated_app xs ys : migrated (xs ++ ys) = migrated xs ++ migrated ys.
Proof. unfold migrated. destruct relocates; by rewrite ?fmap_app. Qed.

Lemma Emplace_full xs x (p : nat) s :
  represents s xs ->
  size_ (self s) = capacity_ (data_ (self s)) ->
  can_allocate (grown_capacity (size_ (self s))) = true ->
  (p <= length xs)%nat ->
  let old := buffer_ (data_ (self s)) in
  let b := next s in
  let cap := grown_capacity (size_ (self s)) in
  Emplace (ptr_add old (Z.of_nat p)) (Some x) s
  = Ret (Ptr b (Z.of_nat p))
        (mkState (mkVector (mkRawMemory (Ptr b 0) cap) (size_ (self s) + 1))
           (<[b := cells_of (insert_at p x xs) cap]> (release old (heap s)))
           (S b)
           (log s ++ [EvAlloc b cap; EvConstruct (Ptr b (Z.of_nat p))]
              ++ transfer_events migration_event old (Ptr b 0) p
              ++ transfer_events migration_event
                   (ptr_add old (Z.of_nat p)) (Ptr b (Z.of_nat p + 1))
                   (length xs - p)
              ++ range_events EvDestroy old (length xs)
              ++ release_events old)).
Proof.
  intros [Hfresh (Hsize & Hcap & Hbuf)] Hfull Hcan Hp old b cap.
  assert (Hlt : 0 <= size_ (self s) <= PTRDIFF_MAX) by lia.
  assert (Hcapv : cap = Z.max 1 (2 * size_ (self s)))
    by by apply grown_capacity_spec.
  assert (Hb : heap s !! b = None) by by apply Hfresh.
  assert (Hmax : PTRDIFF_MAX + 1 < 2 ^ 64) by done.
  change (can_allocate cap = true) in Hcan.
  apply wp_eq. unfold Emplace.
  apply wp_bind, wp_begin. fold old.
  assert (Hdiff : ptr_diff (ptr_add old (Z.of_nat p)) old
                  = Some (if old is Null then 0 else Z.of_nat p)).
  { destruct old; simpl; [done|]. rewrite decide_True by done. f_equal. lia. }
  rewrite Hdiff.
  apply wp_bind, wp_get_self.
  apply wp_bind, wp_RawMemory_ctor; [fold cap; lia|]. fold cap b.
  rewrite Hcan. simp_state. rewrite <- Hfull, Z.eqb_refl.
  subst old. destruct (buffer_ (data_ (self s))) as [|a off] eqn:Ha.
  - assert (Hz : size_ (self s) = 0) by lia.
    destruct xs; [|simpl in Hsize; lia].
    assert (p = 0%nat) as -> by (simpl in Hp; lia).
    rewrite Hz. rewrite size_t_wrap_small by done. simpl.
    apply wp_bind, wp_unwinding, wp_bind.
    eapply (wp_emplace_new b _ [] (replicate (Z.to_nat cap - 0 - 1) Raw)).
    { heap_lookup. f_equal. apply (replicate_split _ 0). lia. }
    { done. }
    apply wp_bind, wp_MoveOrCopy_0, wp_MoveOrCopy_0.
    apply wp_bind, wp_destroy_n_0.
    apply wp_bind, wp_set_data, wp_bind, wp_set_size. simp_state.
    apply wp_bind, wp_begin. simp_state.
    apply wp_bind, wp_RawMemory_dtor_null; [done|].
    apply wp_ret. split; [done|]. f_equal.
    + rewrite insert_insert_eq. f_equal. exact (cells_of_snoc [] x cap).
    + by rewrite <- app_assoc.
  - destruct Hbuf as (-> & Hpos & Hblock).
    rewrite cells_of_full in Hblock by lia.
    assert (Hab : a <> b) by by eapply fresh_not_owned.
    rewrite size_t_wrap_small by lia. simp_state.
    rewrite !Z.add_0_l.
    rewrite size_t_wrap_small by lia.
    assert (Hxs : Obj <$> xs = (Obj <$> take p xs) ++ (Obj <$> drop p xs))
      by by rewrite <- fmap_app, take_drop.
    assert (Htake : length (take p xs) = p) by (rewrite length_take; lia).
    assert (Hdrop : length (drop p xs) = (length xs - p)%nat)
      by by rewrite length_drop.
    apply wp_bind, wp_unwinding, wp_bind.
    eapply (wp_emplace_new b _ (replicate p Raw)
              (replicate (Z.to_nat cap - p - 1) Raw)).
    { heap_lookup. f_equal. apply replicate_split. lia. }
    { rewrite length_replicate. lia. }
    apply wp_bind.
    eapply (wp_MoveOrCopy (take p xs) a 0 [] (Obj <$> drop p xs) b 0 []);
      [ done | heap_lookup; by rewrite Hblock, Hxs, app_nil_r
      | done | heap_lookup; by rewrite Htake | done | lia |].
    simp_state.
    eapply (wp_MoveOrCopy (drop p xs) a _ (Obj <$> migrated (take p xs)) []
              b _ ((Obj <$> take p xs) ++ [Obj x])
              (replicate (Z.to_nat cap - length xs - 1) Raw)).
    { done. }
    { heap_lookup. }
    { rewrite length_fmap, migrated_length. lia. }
    { heap_lookup. f_equal. simpl. rewrite <- !app_assoc. simpl.
      do 2 f_equal. rewrite <- replicate_add. f_equal. lia. }
    { rewrite length_app, length_fmap. simpl. lia. }
    { lia. }
    simp_state. apply wp_bind.
    eapply (wp_destroy_n (migrated xs) a 0 _ [] []).
    { heap_lookup. f_equal. simpl.
      rewrite <- (take_drop p xs) at 3.
      by rewrite migrated_app, fmap_app, <- app_assoc. }
    { done. }
    { rewrite migrated_length. lia. }
    simp_state.
    apply wp_bind, wp_set_data, wp_bind, wp_set_size. simp_state.
    apply wp_bind, wp_begin. simp_state.
    apply wp_bind.
    eapply (wp_RawMemory_dtor _ a); [done | heap_lookup |].
    simp_state. rewrite (size_t_wrap_small (size_ (self s) + 1)) by lia.
    apply wp_ret. split; [f_equal; lia|]. f_equal.
    + assert (Hcells : cells_of (insert_at p x xs) cap
        = ((Obj <$> take p xs) ++ [Obj x]) ++ (Obj <$> drop p xs)
            ++ replicate (Z.to_nat cap - length xs - 1) Raw).
      { unfold cells_of, insert_at.
        rewrite fmap_app, <- !app_assoc, length_app. simpl.
        do 4 f_equal. rewrite Htake, Hdrop. lia. }
      rewrite Hcells. heap_eq.
    + rewrite migrated_length, Htake, Hdrop. simpl.
      rewrite <- !app_assoc. simpl.
      by replace (0 + Z.of_nat p + 1) with (Z.of_nat p + 1) by lia.
Qed.


Lemma Emplace_room xs x (p : nat) s a :
  represents s xs ->
  buffer_ (data_ (self s)) = Ptr a 0 ->
  size_ (self s) <> capacity_ (data_ (self s)) ->
  can_allocate (grown_capacity (size_ (self s))) = true ->
  (p <= length xs)%nat ->
  let b := next s in
  Emplace (Ptr a (Z.of_nat p)) (Some x) s
  = Ret (Ptr a (Z.of_nat p))
        (mkState (mkVector (data_ (self s)) (size_ (self s) + 1))
           (<[a := cells_of (insert_at p x xs) (capacity_ (data_ (self s)))]>
              (heap s))
           (S b)
           (log s ++ [EvAlloc b (grown_capacity (size_ (self s)))]
              ++ shift_events a p (length xs) ++ [EvFree b])).
Proof.
  intros [Hfresh (Hsize & Hcap & Hbuf)] Ha Hne Hcan Hp b.
  rewrite Ha in Hbuf. destruct Hbuf as (_ & Hpos & Hblock).
  assert (Hlt : 0 <= size_ (self s) <= PTRDIFF_MAX) by lia.
  assert (Hcapv : grown_capacity (size_ (self s))
                  = Z.max 1 (2 * size_ (self s)))
    by by apply grown_capacity_spec.
  assert (Hb : heap s !! b = None) by by apply Hfresh.
  assert (Hmax : PTRDIFF_MAX + 1 < 2 ^ 64) by done.
  assert (Hab : a <> b) by by eapply fresh_not_owned.
  set (cap := capacity_ (data_ (self s))) in *.
  apply wp_eq. unfold Emplace.
  apply wp_bind, wp_begin. rewrite Ha. cbn [ptr_diff].
  rewrite decide_True by done. rewrite Z.sub_0_r.
  rewrite size_t_wrap_small by lia.
  apply wp_bind, wp_get_self.
  apply wp_bind, wp_RawMemory_ctor; [lia|]. fold b.
  rewrite Hcan. simp_state. fold cap.
  destruct (Z.eqb_spec (size_ (self s)) cap) as [?|_]; [done|].
  apply wp_bind, wp_unwinding.
  apply wp_bind, wp_RawMemory_index; [simp_state; lia|].
  apply wp_bind, wp_end. simp_state. rewrite Ha. simp_state.
  rewrite !Z.add_0_l.
  destruct (decide (p = length xs)) as [->|Hpn].
  - rewrite <- Hsize. rewrite (bool_decide_eq_true_2 (Ptr _ _ = Ptr _ _)) by done.
    rewrite orb_true_r.
    rewrite cells_of_room in Hblock by lia.
    apply wp_bind.
    eapply (wp_emplace_new a _ (Obj <$> xs)); [heap_lookup | |].
    { rewrite length_fmap. lia. }
    simp_state.
    apply wp_bind, wp_set_size. simp_state. apply wp_ret.
    apply wp_bind.
    eapply (wp_RawMemory_dtor _ b); [done | heap_lookup |].
    simp_state. rewrite (size_t_wrap_small (size_ (self s) + 1)) by lia.
    apply wp_ret. split; [done|]. f_equal.
    + unfold insert_at. rewrite firstn_all, drop_all.
      rewrite cells_of_snoc. heap_eq.
    + unfold shift_events. rewrite decide_True by done.
      rewrite <- !app_assoc. simpl. by rewrite Hsize.
  - assert (Hp' : (p < length xs)%nat) by lia.
    destruct xs as [|x0 xs0] using rev_ind; [simpl in Hp'; lia|].
    clear IHxs0. rename xs0 into ys, x0 into xl.
    rewrite length_app in *. simpl in Hp', Hsize, Hpn |- *.
    rewrite bool_decide_eq_false_2 by (intros [=]; lia).
    rewrite cells_of_room in Hblock by (rewrite length_app; simpl; lia).
    rewrite fmap_app, <- app_assoc in Hblock. simpl in Hblock.
    rewrite length_app in Hblock. simpl in Hblock.
    set (rest := replicate (Z.to_nat cap - (length ys + 1) - 1) Raw) in *.
    apply wp_bind, wp_bind.
    eapply (wp_move_construct a _ (Obj <$> ys) _ a _
              ((Obj <$> ys) ++ [Obj (moved_from xl)]) rest xl xl).
    { heap_lookup. }
    { rewrite length_fmap. lia. }
    { apply regular_move_ctor. }
    { heap_lookup. f_equal. by rewrite <- app_assoc. }
    { rewrite length_app, length_fmap. simpl. lia. }
    simp_state. apply wp_bind.
    unfold move_backward. cbn [ptr_diff]. rewrite decide_True by done.
    destruct (Z.leb_spec 0 (size_ (self s) + -1 - Z.of_nat p)); [|lia].
    replace (Z.to_nat (size_ (self s) + -1 - Z.of_nat p))
      with (length (drop p ys)) by (rewrite length_drop; lia).
    eapply (wp_move_backward_loop (drop p ys) a _ _ (Obj <$> take p ys)
              (moved_from xl) (Obj xl :: rest)).
    { heap_lookup. f_equal. rewrite <- !app_assoc. simpl.
      rewrite (app_assoc (Obj <$> take p ys)), <- fmap_app, take_drop.
      done. }
    { rewrite length_fmap, length_take, length_drop. lia. }
    { lia. }
    simp_state.
    eapply (wp_assign_temporary a _ (Obj <$> take p ys)).
    { heap_lookup. }
    { rewrite length_fmap, length_take. lia. }
    rewrite regular_move_assign. simp_state.
    apply wp_bind, wp_set_size. simp_state. apply wp_ret.
    apply wp_bind.
    eapply (wp_RawMemory_dtor _ b); [done | heap_lookup |].
    simp_state. rewrite (size_t_wrap_small (size_ (self s) + 1)) by lia.
    apply wp_ret. split; [done|]. f_equal.
    + assert (Hcells : cells_of (insert_at p x (ys ++ [xl])) cap
        = (Obj <$> take p ys) ++ Obj x :: (Obj <$> drop p ys) ++ Obj xl :: rest).
      { unfold insert_at. rewrite take_app_le, drop_app_le by lia.
        replace (take p ys ++ x :: drop p ys ++ [xl])
          with ((take p ys ++ x :: drop p ys) ++ [xl])
          by (by rewrite <- app_assoc).
        rewrite <- cells_of_snoc, fmap_app, <- !app_assoc. simpl.
        do 4 f_equal. unfold rest. f_equal.
        rewrite !length_app. simpl. rewrite length_take, length_drop. lia. }
      rewrite Hcells. heap_eq.
    + unfold shift_events. rewrite decide_False by lia.
      rewrite length_drop, <- !app_assoc. simpl.
      rewrite Hsize, Nat2Z.inj_add. simpl.
      by replace (length ys + 1 - 1 - p)%nat with (length ys - p)%nat by lia.
Qed.


Lemma Erase_spec xs (p : nat) d s a :
  represents s xs ->
  buffer_ (data_ (self s)) = Ptr a 0 ->
  xs !! p = Some d ->
  Erase (Ptr a (Z.of_nat p)) s
  = Ret (Ptr a (Z.of_nat p))
        (mkState (mkVector (data_ (self s)) (size_ (self s) - 1))
           (<[a := cells_of (delete p xs) (capacity_ (data_ (self s)))]>
              (heap s))
           (next s)
           (log s
              ++ pair_events EvMoveAssign a (Z.of_nat p + 1) a (Z.of_nat p) 0
                   (length xs - p - 1)
              ++ [EvDestroy (Ptr a (size_ (self s) - 1))])).
Proof.
  intros [Hfresh (Hsize & Hcap & Hbuf)] Ha Hd.
  rewrite Ha in Hbuf. destruct Hbuf as (_ & Hpos & Hblock).
  assert (Hp : (p < length xs)%nat) by by eapply lookup_lt_Some.
  assert (Hmax : PTRDIFF_MAX + 1 < 2 ^ 64) by done.
  set (cap := capacity_ (data_ (self s))) in *.
  set (raws := replicate (Z.to_nat cap - length xs) (@Raw T)).
  assert (Hcells : cells_of xs cap
    = (Obj <$> take p xs) ++ Obj d :: (Obj <$> drop (S p) xs) ++ raws).
  { unfold cells_of. rewrite <- (take_drop_middle xs p d) at 1 by done.
    rewrite fmap_app, <- app_assoc. done. }
  rewrite Hcells in Hblock.
  apply wp_eq. unfold Erase.
  apply wp_bind, wp_begin, wp_bind, wp_end. rewrite Ha. simp_state.
  rewrite Z.add_0_l.
  rewrite bool_decide_eq_false_2 by (intros [=]; lia).
  apply wp_bind, wp_end. rewrite Ha. simp_state. rewrite Z.add_0_l.
  apply wp_bind. unfold std_move. cbn [ptr_diff].
  rewrite decide_True by done.
  destruct (Z.leb_spec 0 (size_ (self s) - (Z.of_nat p + 1))); [|lia].
  replace (Z.to_nat (size_ (self s) - (Z.of_nat p + 1)))
    with (length (drop (S p) xs)) by (rewrite length_drop; lia).
  eapply (wp_move_loop (drop (S p) xs) a _ _ (Obj <$> take p xs) d raws);
    [ done | rewrite length_fmap, length_take; lia | done |].
  simp_state.
  apply wp_bind. unfold PopBack.
  apply wp_bind, wp_get_self. simp_state.
  apply wp_bind, wp_assert; [lia|].
  apply wp_bind, wp_set_size. simp_state.
  apply wp_bind, wp_get_self. simp_state. rewrite Ha. simp_state.
  rewrite size_t_wrap_small by lia. rewrite Z.add_0_l.
  eapply (wp_destroy_at a _
            ((Obj <$> take p xs) ++ (Obj <$> drop (S p) xs)) raws).
  { heap_lookup. f_equal. by rewrite <- app_assoc. }
  { rewrite length_app, !length_fmap, length_take, length_drop. lia. }
  simp_state. apply wp_ret. split; [done|]. f_equal.
  - assert (Hcells' : cells_of (delete p xs) cap
      = ((Obj <$> take p xs) ++ (Obj <$> drop (S p) xs)) ++ Raw :: raws).
    { unfold cells_of. rewrite delete_take_drop, fmap_app.
      f_equal. rewrite length_app, length_take, length_drop. unfold raws.
      apply replicate_succ. lia. }
    rewrite Hcells'. heap_eq.
  - rewrite length_drop, <- !app_assoc.
    by replace (length xs - S p)%nat with (length xs - p - 1)%nat by lia.
Qed.

Lemma PopBack_spec xs d s a :
  represents s (xs ++ [d]) ->
  buffer_ (data_ (self s)) = Ptr a 0 ->
  PopBack s
  = Ret tt
        (mkState (mkVector (data_ (self s)) (size_ (self s) - 1))
           (<[a := cells_of xs (capacity_ (data_ (self s)))]> (heap s))
           (next s)
           (log s ++ [EvDestroy (Ptr a (size_ (self s) - 1))])).
Proof.
  intros [Hfresh (Hsize & Hcap & Hbuf)] Ha.
  rewrite Ha in Hbuf. destruct Hbuf as (_ & Hpos & Hblock).
  rewrite length_app in Hsize. simpl in Hsize.
  assert (Hmax : PTRDIFF_MAX + 1 < 2 ^ 64) by done.
  apply wp_eq. unfold PopBack.
  apply wp_bind, wp_get_self. simp_state.
  apply wp_bind, wp_assert; [lia|].
  apply wp_bind, wp_set_size. simp_state.
  apply wp_bind, wp_get_self. simp_state. rewrite Ha. simp_state.
  rewrite size_t_wrap_small by lia. rewrite Z.add_0_l.
  unfold cells_of in Hblock. rewrite fmap_app, <- app_assoc in Hblock.
  eapply (wp_destroy_at a _ (Obj <$> xs)); [simp_state; exact Hblock | |].
  { rewrite length_fmap. lia. }
  simp_state. split; [done|]. do 2 f_equal.
  unfold cells_of. f_equal. symmetry. apply replicate_succ.
  rewrite length_app. simpl. lia.
Qed.

Lemma Reserve_grow xs n s :
  represents s xs ->
  capacity_ (data_ (self s)) < n ->
  can_allocate n = true ->
  let old := buffer_ (data_ (self s)) in
  let b := next s in
  Reserve n s
  = Ret tt
        (mkState (mkVector (mkRawMemory (Ptr b 0) n) (size_ (self s)))
           (<[b := cells_of xs n]> (release old (heap s)))
           (S b)
           (log s ++ [EvAlloc b n]
              ++ transfer_events migration_event old (Ptr b 0) (length xs)
              ++ range_events EvDestroy old (length xs)
              ++ release_events old)).
Proof.
  intros [Hfresh (Hsize & Hcap & Hbuf)] Hn Hcan old b.
  assert (Hb : heap s !! b = None) by by apply Hfresh.
  apply wp_eq. unfold Reserve.
  apply wp_bind, wp_get_self. simp_state.
  destruct (Z.leb_spec n (capacity_ (data_ (self s)))); [lia|].
  apply wp_bind, wp_RawMemory_ctor; [lia|]. fold b.
  rewrite Hcan. simp_state.
  subst old. destruct (buffer_ (data_ (self s))) as [|a off] eqn:Ha.
  - assert (Hz : size_ (self s) = 0) by lia.
    destruct xs; [|simpl in Hsize; lia]. rewrite Hz.
    apply wp_bind, wp_unwinding, wp_MoveOrCopy_0.
    apply wp_bind, wp_destroy_n_0.
    apply wp_bind, wp_set_data. simp_state.
    apply wp_RawMemory_dtor_null; [done|]. split; [done|].
    rewrite cells_of_nil. simpl. by rewrite Hz.
  - destruct Hbuf as (-> & Hpos & Hblock).
    assert (Hab : a <> b) by by eapply fresh_not_owned.
    unfold cells_of in Hblock.
    apply wp_bind, wp_unwinding.
    eapply (wp_MoveOrCopy xs a 0 [] _ b 0 []
              (replicate (Z.to_nat n - length xs) Raw));
      [ done | heap_lookup | done | | done | done |].
    { heap_lookup. f_equal. simpl. rewrite <- replicate_add. f_equal. lia. }
    simp_state. apply wp_bind.
    eapply (wp_destroy_n (migrated xs) a 0 _ []).
    { heap_lookup. }
    { done. }
    { rewrite migrated_length. lia. }
    simp_state.
    apply wp_bind, wp_set_data. simp_state.
    eapply (wp_RawMemory_dtor _ a); [done | heap_lookup |].
    simp_state. split; [done|]. f_equal.
    + unfold cells_of. heap_eq.
    + rewrite migrated_length. simpl. by rewrite <- !app_assoc.
Qed.


Lemma wp_copy_n_0 p q s Q E : Q tt s -> wp (copy_n p 0 q) s Q E.
Proof. done. Qed.

Lemma wp_uninitialized_copy_n_0 p q s Q E :
  Q tt s -> wp (uninitialized_copy_n p 0 q) s Q E.
Proof. done. Qed.

Lemma Vector_eta (v : Vector) : mkVector (data_ v) (size_ v) = v.
Proof. by destruct v. Qed.

Lemma Resize_down xs n s :
  represents s xs ->
  0 <= n <= size_ (self s) ->
  let buf := buffer_ (data_ (self s)) in
  Resize n s
  = Ret tt
        (mkState (mkVector (data_ (self s)) n)
           (store_block buf
              (cells_of (take (Z.to_nat n) xs) (capacity_ (data_ (self s))))
              (heap s))
           (next s)
           (log s ++ range_events EvDestroy (ptr_add buf n)
                       (length xs - Z.to_nat n))).
Proof.
  intros [Hfresh (Hsize & Hcap & Hbuf)] Hn buf.
  assert (Hmax : PTRDIFF_MAX + 1 < 2 ^ 64) by done.
  apply wp_eq. unfold Resize.
  apply wp_bind, wp_get_self. simp_state.
  destruct (Z.gtb_spec n (size_ (self s))); [lia|].
  rewrite size_t_wrap_small by lia.
  subst buf. destruct (buffer_ (data_ (self s))) as [|a off] eqn:Ha.
  - assert (size_ (self s) = 0) as Hz by lia.
    assert (n = 0) as -> by lia. rewrite Hz. simp_state.
    apply wp_bind, wp_destroy_n_0, wp_set_size. simp_state.
    split; [done|]. simpl. by rewrite app_nil_r.
  - destruct Hbuf as (-> & Hpos & Hblock). simp_state. rewrite Z.add_0_l.
    set (k := Z.to_nat n).
    assert (Hcells : cells_of xs (capacity_ (data_ (self s)))
      = (Obj <$> take k xs) ++ (Obj <$> drop k xs)
          ++ replicate (Z.to_nat (capacity_ (data_ (self s))) - length xs) Raw).
    { unfold cells_of. by rewrite app_assoc, <- fmap_app, take_drop. }
    rewrite Hcells in Hblock.
    apply wp_bind.
    eapply (wp_destroy_n (drop k xs) a _ _ (Obj <$> take k xs));
      [ done | rewrite length_fmap, length_take; lia
      | rewrite length_drop; lia |].
    simp_state. apply wp_set_size. simp_state. split; [done|]. f_equal.
    + simpl. f_equal. unfold cells_of. f_equal.
      rewrite <- replicate_add. f_equal.
      rewrite length_drop, length_take. lia.
    + by rewrite length_drop.
Qed.

Lemma copy_assignment_self xs s :
  represents s xs ->
  is_copy_constructible = true ->
  let buf := buffer_ (data_ (self s)) in
  copy_assignment ThisObject s
  = Ret tt (add_log (transfer_events EvCopyAssign buf buf (length xs)) s).
Proof.
  intros [Hfresh (Hsize & Hcap & Hbuf)] Hcc buf.
  apply wp_eq. unfold copy_assignment. cbn [deref].
  apply wp_bind, wp_get_self, wp_bind, wp_get_self. simp_state.
  destruct (Z.gtb_spec (size_ (self s)) (capacity_ (data_ (self s)))); [lia|].
  rewrite Z.min_id, Z.gtb_ltb, !Z.ltb_irrefl.
  subst buf. destruct (buffer_ (data_ (self s))) as [|a off] eqn:Ha.
  - assert (size_ (self s) = 0) as Hz by lia. rewrite Hz.
    apply wp_bind, wp_bind, wp_copy_n_0, wp_ret.
    apply wp_bind, wp_get_self, wp_set_size. simp_state.
    split; [done|]. simpl. by rewrite app_nil_r, Vector_eta.
  - destruct Hbuf as (-> & Hpos & Hblock). unfold cells_of in Hblock.
    apply wp_bind, wp_bind. unfold copy_n.
    rewrite Hsize, Nat2Z.id.
    eapply (wp_copy_loop_self xs a 0 []); [done | exact Hblock | done |].
    simp_state. apply wp_ret.
    apply wp_bind, wp_get_self, wp_set_size. simp_state.
    split; [done|]. by rewrite <- ?Hsize, Vector_eta.
Qed.


Lemma copy_assignment_fits xs ys s o :
  represents s xs ->
  owns (heap s) o ys ->
  is_copy_constructible = true ->
  buffer_ (data_ o) = Null \/ buffer_ (data_ o) <> buffer_ (data_ (self s)) ->
  size_ o <= capacity_ (data_ (self s)) ->
  let buf := buffer_ (data_ (self s)) in
  let obuf := buffer_ (data_ o) in
  copy_assignment (Object o) s
  = Ret tt
        (mkState (mkVector (data_ (self s)) (size_ o))
           (store_block buf (cells_of ys (capacity_ (data_ (self s))))
              (heap s))
           (next s)
           (log s
              ++ transfer_events EvCopyAssign obuf buf
                   (length xs `min` length ys)
              ++ range_events EvDestroy (ptr_add buf (size_ o))
                   (length xs - length ys)
              ++ transfer_events EvCopyCtor
                   (ptr_add obuf (size_ (self s)))
                   (ptr_add buf (size_ (self s)))
                   (length ys - length xs))).
Proof.
  intros [Hfresh (Hsize & Hcap & Hbuf)] (Hosize & Hocap & Hobuf) Hcc Hsep Hfit
         buf obuf.
  assert (Hmax : PTRDIFF_MAX + 1 < 2 ^ 64) by done.
  set (cap := capacity_ (data_ (self s))) in *.
  apply wp_eq. unfold copy_assignment. cbn [deref].
  apply wp_bind, wp_ret, wp_bind, wp_get_self. simp_state. fold cap.
  destruct (Z.gtb_spec (size_ o) cap); [lia|].
  subst buf obuf. destruct (buffer_ (data_ (self s))) as [|a off] eqn:Ha.
  { (* nothing is owned: both sequences are empty *)
    assert (size_ (self s) = 0) as Hz by lia.
    assert (size_ o = 0) as Hoz by lia.
    destruct xs; [|simpl in Hsize; lia]. destruct ys; [|simpl in Hosize; lia].
    rewrite Hz, Hoz. simpl.
    apply wp_bind, wp_bind, wp_copy_n_0, wp_ret.
    apply wp_bind, wp_ret, wp_set_size. simp_state. split; [done|].
    rewrite Hoz, <- Hz. f_equal.
    destruct (buffer_ (data_ o)); simpl; by rewrite app_nil_r. }
  destruct Hbuf as (-> & Hpos & Hblock).
  set (raws := replicate (Z.to_nat cap - length xs) (@Raw T)) in *.
  destruct (buffer_ (data_ o)) as [|b ooff] eqn:Hb.
  { (* the source owns nothing: it is empty *)
    assert (size_ o = 0) as Hoz by lia.
    destruct ys; [|simpl in Hosize; lia].
    rewrite Hoz, Z.min_r by lia. simp_state.
    apply wp_bind, wp_bind, wp_copy_n_0.
    rewrite Z.sub_0_r, size_t_wrap_small by lia.
    destruct (Z.gtb_spec (size_ (self s)) 0).
    - eapply (wp_destroy_n xs a _ _ [] raws); [done | done | done |].
      simp_state.
      apply wp_bind, wp_ret, wp_set_size. simp_state. split; [done|].
      rewrite Hoz. f_equal.
      + simpl. f_equal. rewrite cells_of_nil. unfold raws.
        rewrite <- replicate_add. f_equal. lia.
      + simpl. by rewrite Nat.sub_0_r, app_nil_r.
    - destruct xs; [|simpl in Hsize; lia].
      destruct (Z.ltb_spec (size_ (self s)) 0); [lia|].
      apply wp_ret, wp_bind, wp_ret, wp_set_size. simp_state.
      split; [done|]. rewrite Hoz. f_equal; [|by rewrite app_nil_r].
      simpl. by rewrite insert_id. }
  destruct Hobuf as (-> & Hopos & Hoblock).
  assert (Hab : b <> a) by (destruct Hsep; congruence).
  set (oraws := replicate (Z.to_nat (capacity_ (data_ o)) - length ys)
                  (@Raw T)) in *.
  set (m := (length xs `min` length ys)%nat).
  assert (Hmin : Z.min (size_ (self s)) (size_ o) = Z.of_nat m) by lia.
  assert (Hxs : cells_of xs cap
    = [] ++ (Obj <$> take m xs) ++ (Obj <$> drop m xs) ++ raws).
  { unfold cells_of. simpl. by rewrite app_assoc, <- fmap_app, take_drop. }
  assert (Hys : cells_of ys (capacity_ (data_ o))
    = [] ++ (Obj <$> take m ys) ++ (Obj <$> drop m ys) ++ oraws).
  { unfold cells_of. simpl. by rewrite app_assoc, <- fmap_app, take_drop. }
  assert (Htx : length (take m xs) = m) by (rewrite length_take; lia).
  assert (Hty : length (take m ys) = m) by (rewrite length_take; lia).
  assert (Hmle : (m <= length xs)%nat /\ (m <= length ys)%nat) by lia.
  clearbody m.
  rewrite Hxs in Hblock. rewrite Hys in Hoblock. simp_state.
  apply wp_bind, wp_bind. unfold copy_n. rewrite Hmin, Nat2Z.id.
  rewrite <- Hty at 1.
  eapply (wp_copy_loop (take m ys) (take m xs) b 0 [] _ a 0 [] _);
    [ done | done | congruence | exact Hoblock | done | exact Hblock | done |].
  simp_state. rewrite !Z.add_0_l.
  destruct (Z.gtb_spec (size_ (self s)) (size_ o)).
  - (* the excess elements are destroyed *)
    assert (m = length ys) as Hm by lia.
    rewrite size_t_wrap_small by lia.
    eapply (wp_destroy_n (drop m xs) a _ _ (Obj <$> take m ys) raws).
    { heap_lookup. }
    { rewrite length_fmap. lia. }
    { rewrite length_drop. lia. }
    simp_state.
    apply wp_bind, wp_ret, wp_set_size. simp_state. split; [done|]. f_equal.
    + simpl. rewrite insert_insert_eq. f_equal.
      rewrite Hm, firstn_all. unfold cells_of. f_equal. unfold raws.
      rewrite <- replicate_add. f_equal. rewrite length_drop. lia.
    + rewrite Hty, length_drop, <- !app_assoc, Hm. simpl.
      replace (length ys - length xs)%nat with 0%nat by lia.
      unfold pair_events at 2. simpl. by rewrite app_nil_r.
  - destruct (Z.ltb_spec (size_ (self s)) (size_ o)).
    + (* the extra elements are copy-constructed *)
      assert (m = length xs) as Hm by lia.
      rewrite size_t_wrap_small by lia.
      unfold uninitialized_copy_n.
      replace (Z.to_nat (size_ o - size_ (self s)))
        with (length (drop m ys)) by (rewrite length_drop; lia).
      eapply (wp_uninitialized_copy_loop (drop m ys) b _ (Obj <$> take m ys)
                oraws a _ (Obj <$> take m ys) []
                (replicate (Z.to_nat cap - length ys) Raw)).
      { done. }
      { done. }
      { heap_lookup. }
      { rewrite length_fmap. lia. }
      { heap_lookup. f_equal. simpl. rewrite Hm, drop_all. simpl.
        f_equal. unfold raws. rewrite <- replicate_add. f_equal.
        rewrite length_drop. lia. }
      { rewrite length_fmap. lia. }
      { done. }
      { intros ys' Hys'. apply copies_regular in Hys' as ->; [|done].
        simp_state.
        apply wp_bind, wp_ret, wp_set_size. simp_state. split; [done|].
        f_equal.
        - simpl. rewrite insert_insert_eq. f_equal.
          unfold cells_of. by rewrite app_assoc, <- fmap_app, take_drop.
        - rewrite Hty, length_drop, <- !app_assoc, Hm. simpl.
          replace (length xs - length ys)%nat with 0%nat by lia.
          unfold slot_events at 1. simpl. done. }
      { intros Hex. by apply no_copy_throws in Hex. }
    + (* equal sizes *)
      assert (m = length xs) as Hm by lia.
      assert (length xs = length ys) as Hlen by lia.
      apply wp_ret, wp_bind, wp_ret, wp_set_size. simp_state. split; [done|].
      f_equal.
      * simpl. f_equal. rewrite Hm, drop_all, Hlen, firstn_all.
        unfold cells_of, raws. by rewrite Hlen.
      * rewrite Hty, Hlen, Nat.sub_diag. simpl.
        unfold slot_events, pair_events at 2. simpl. by rewrite !app_nil_r.
Qed.

End RegularSpecs.
End VectorSpecs.

Section Frames.
Context {T : Type} `{ET : Elem T} `{MS : MemorySource}.
Implicit Types (s : state T) (p : ptr).

Lemma wlp_bind {A B} (m : M T A) (k : A -> M T B) s Q E :
  wlp m s (fun a s' => wlp (k a) s' Q E) E -> wlp (bind m k) s Q E.
Proof. unfold wlp, bind. by destruct (m s). Qed.

Lemma wlp_mono {A} (m : M T A) s (Q Q' : A -> state T -> Prop)
    (E E' : exn -> state T -> Prop) :
  wlp m s Q E ->
  (forall a s', Q a s' -> Q' a s') ->
  (forall e s', E e s' -> E' e s') ->
  wlp m s Q' E'.
Proof. unfold wlp. destruct (m s); auto. Qed.

Lemma wlp_unwinding {A} (m : M T A) cleanup s Q E :
  wlp m s Q (fun e s' => wlp cleanup s' (fun _ s'' => E e s'') E) ->
  wlp (unwinding m cleanup) s Q E.
Proof.
  unfold wlp, unwinding. destruct (m s) as [a s'|e s'|]; try done.
  by destruct (cleanup s').
Qed.

Lemma framed_refl s : framed s s.
Proof. split; [done|]. exists []. by rewrite app_nil_r. Qed.

Lemma framed_trans s1 s2 s3 : framed s1 s2 -> framed s2 s3 -> framed s1 s3.
Proof.
  intros [H1 [e1 L1]] [H2 [e2 L2]]. split; [congruence|].
  exists (e1 ++ e2). by rewrite L2, L1, app_assoc.
Qed.

(** Using a frame fact inside a larger computation. *)
Lemma wlp_framed {A} (m : M T A) s (Q : A -> state T -> Prop)
    (E : exn -> state T -> Prop) :
  frames_self m ->
  (forall a s', framed s s' -> Q a s') ->
  (forall e s', framed s s' -> E e s') ->
  wlp m s Q E.
Proof. intros Hm HQ HE. eapply wlp_mono; [apply Hm | done | done]. Qed.

Lemma wlp_frame {A} (m : M T A) s (Q : A -> state T -> Prop)
    (E : exn -> state T -> Prop) :
  frames_self m ->
  (forall a s', self s' = self s -> Q a s') ->
  (forall e s', self s' = self s -> E e s') ->
  wlp m s Q E.
Proof.
  intros Hm HQ HE. apply wlp_framed; [done | |]; intros ? s' [Hs' _]; auto.
Qed.

Lemma frames_ret {A} (a : A) : frames_self (T:=T) (ret a).
Proof. intros s. apply framed_refl. Qed.

Lemma frames_throw {A} e : frames_self (T:=T) (A:=A) (throw e).
Proof. intros s. apply framed_refl. Qed.

Lemma frames_undef {A} : frames_self (T:=T) (A:=A) undef.
Proof. by intros s. Qed.

Lemma frames_bind {A B} (m : M T A) (k : A -> M T B) :
  frames_self m -> (forall a, frames_self (T:=T) (k a)) -> frames_self (T:=T) (bind m k).
Proof.
  intros Hm Hk s. apply wlp_bind.
  eapply wlp_mono; [apply Hm | | done].
  intros a s' Hs'. simpl in *.
  eapply wlp_mono; [apply Hk | |]; simpl; eauto using framed_trans.
Qed.

Lemma frames_unwinding {A} (m : M T A) cleanup :
  frames_self m -> frames_self cleanup -> frames_self (T:=T) (unwinding m cleanup).
Proof.
  intros Hm Hc s. apply wlp_unwinding.
  eapply wlp_mono; [apply Hm | done |].
  intros e s' Hs'. simpl in *.
  eapply wlp_mono; [apply Hc | |]; simpl; eauto using framed_trans.
Qed.

Lemma frames_assert b : frames_self (T:=T) (assert b).
Proof. destruct b; [apply frames_ret | apply frames_undef]. Qed.

Lemma frames_emit ev : frames_self (T:=T) (emit ev).
Proof. intros s. split; [done|]. by exists [ev]. Qed.

Lemma frames_read_slot p : frames_self (T:=T) (read_slot p).
Proof.
  intros s. unfold wlp, read_slot.
  destruct (get_slot _ _); [apply framed_refl | done].
Qed.

Lemma frames_write_slot p c : frames_self (T:=T) (write_slot p c).
Proof. intros s. split; [done|]. exists []. simpl. by rewrite app_nil_r. Qed.

Hint Resolve frames_ret frames_throw frames_undef frames_assert frames_emit
  frames_read_slot frames_write_slot : frames.

Ltac frames :=
  repeat first
    [ solve [auto with frames]
    | apply frames_bind; [|intros ?]
    | apply frames_unwinding
    | match goal with
      | |- frames_self (match ?x with _ => _ end) => destruct x
      | |- frames_self (if ?b then _ else _) => destruct b
      end ].

Lemma frames_load p : frames_self (T:=T) (load p).
Proof. unfold load. frames. Qed.

Lemma frames_construct_at p x : frames_self (T:=T) (construct_at p x).
Proof. unfold construct_at. frames. Qed.
Hint Resolve frames_load frames_construct_at : frames.

Lemma frames_assign_at p x : frames_self (T:=T) (assign_at p x).
Proof. unfold assign_at. frames. Qed.

Lemma frames_destroy_at p : frames_self (T:=T) (destroy_at p).
Proof. unfold destroy_at. frames. Qed.
Hint Resolve frames_assign_at frames_destroy_at : frames.

Lemma frames_read_reference value :
  frames_self (T:=T) (read_reference value).
Proof. unfold read_reference. frames. Qed.
Hint Resolve frames_read_reference : frames.

Lemma frames_copy_of value : frames_self (T:=T) (copy_of value).
Proof. unfold copy_of. frames. Qed.

Lemma frames_move_of value : frames_self (T:=T) (move_of value).
Proof. unfold move_of. frames. Qed.
Hint Resolve frames_copy_of frames_move_of : frames.

Lemma frames_emplace_new p ctor : frames_self (T:=T) (emplace_new p ctor).
Proof. unfold emplace_new. frames. Qed.

Lemma frames_copy_construct p q : frames_self (T:=T) (copy_construct p q).
Proof. unfold copy_construct. frames. Qed.

Lemma frames_move_construct p q : frames_self (T:=T) (move_construct p q).
Proof. unfold move_construct. frames. Qed.

Lemma frames_copy_assign_at p q : frames_self (T:=T) (copy_assign_at p q).
Proof. unfold copy_assign_at. frames. Qed.

Lemma frames_move_assign_at p q : frames_self (T:=T) (move_assign_at p q).
Proof. unfold move_assign_at. frames. Qed.

Lemma frames_assign_temporary p ctor : frames_self (T:=T) (assign_temporary p ctor).
Proof. unfold assign_temporary. frames. Qed.

Lemma frames_init_construct init p : frames_self (T:=T) (init_construct init p).
Proof. unfold init_construct. frames. Qed.

Lemma frames_operator_new n : frames_self (T:=T) (operator_new n).
Proof.
  intros s. unfold wlp, operator_new.
  destruct (granted n); [|apply framed_refl].
  split; [done|]. by eexists.
Qed.

Lemma frames_operator_delete p : frames_self (T:=T) (operator_delete p).
Proof.
  destruct p as [|a off]; [apply frames_ret|].
  intros s. unfold wlp, operator_delete.
  destruct (decide (off = 0)); [|done]. destruct (heap s !! a); [|done].
  split; [done|]. by eexists.
Qed.
Hint Resolve frames_emplace_new frames_copy_construct frames_move_construct
  frames_copy_assign_at frames_move_assign_at frames_assign_temporary
  frames_init_construct frames_operator_new frames_operator_delete : frames.

Lemma frames_destroy_n p n : frames_self (T:=T) (destroy_n p n).
Proof.
  unfold destroy_n. generalize (Z.to_nat n) as k. intros k. revert p.
  induction k; intros p; simpl; frames.
Qed.
Hint Resolve frames_destroy_n : frames.

Lemma frames_uninitialized_copy_n p n q :
  frames_self (T:=T) (uninitialized_copy_n p n q).
Proof.
  unfold uninitialized_copy_n. generalize 0 as done.
  generalize (Z.to_nat n) as k. induction k; intros done; simpl; frames.
Qed.

Lemma frames_uninitialized_move_n p n q :
  frames_self (T:=T) (uninitialized_move_n p n q).
Proof.
  unfold uninitialized_move_n. generalize 0 as done.
  generalize (Z.to_nat n) as k. induction k; intros done; simpl; frames.
Qed.

Lemma frames_uninitialized_construct_loop init p done k :
  frames_self (T:=T) (uninitialized_construct_loop (init_construct init) p done k).
Proof. revert done. induction k; intros done; simpl; frames. Qed.

Lemma frames_copy_n p n q : frames_self (T:=T) (copy_n p n q).
Proof.
  unfold copy_n. generalize (Z.to_nat n) as k. intros k. revert p q.
  induction k; intros p q; simpl; frames.
Qed.

Lemma frames_move_loop p q k : frames_self (T:=T) (move_loop p q k).
Proof. revert p q. induction k; intros p q; simpl; frames. Qed.

Lemma frames_move_backward_loop p q k :
  frames_self (T:=T) (move_backward_loop p q k).
Proof. revert p q. induction k; intros p q; simpl; frames. Qed.
Hint Resolve frames_uninitialized_copy_n frames_uninitialized_move_n
  frames_uninitialized_construct_loop frames_copy_n frames_move_loop
  frames_move_backward_loop : frames.

Lemma frames_std_move p q r : frames_self (T:=T) (std_move p q r).
Proof. unfold std_move. frames. Qed.

Lemma frames_move_backward p q r : frames_self (T:=T) (move_backward p q r).
Proof. unfold move_backward. frames. Qed.

Lemma frames_MoveOrCopy p n q : frames_self (T:=T) (MoveOrCopy p n q).
Proof. unfold MoveOrCopy. frames. Qed.

Lemma frames_RawMemory_ctor n : frames_self (T:=T) (RawMemory_ctor n).
Proof. unfold RawMemory_ctor, Allocate. frames. Qed.

Lemma frames_RawMemory_dtor r : frames_self (T:=T) (RawMemory_dtor r).
Proof. unfold RawMemory_dtor, Deallocate. frames. Qed.

Lemma frames_RawMemory_index r i : frames_self (T:=T) (RawMemory_index r i).
Proof. unfold RawMemory_index. frames. Qed.
Hint Resolve frames_std_move frames_move_backward frames_MoveOrCopy
  frames_RawMemory_ctor frames_RawMemory_dtor frames_RawMemory_index : frames.

Lemma frames_Vector_copy o : frames_self (T:=T) (Vector_copy o).
Proof. unfold Vector_copy. frames. Qed.

Lemma frames_Vector_dtor v : frames_self (T:=T) (Vector_dtor v).
Proof. unfold Vector_dtor. frames. Qed.


Lemma wlp_ret {A} (a : A) s Q E : Q a s -> wlp (ret a) s Q E.
Proof. done. Qed.

Lemma wlp_get_self s Q E : Q (self s) s -> wlp get_self s Q E.
Proof. done. Qed.

Lemma wlp_set_self v s Q E :
  Q tt (mkState v (heap s) (next s) (log s)) -> wlp (set_self v) s Q E.
Proof. done. Qed.

Lemma wlp_set_data d s Q E :
  Q tt (mkState (mkVector d (size_ (self s))) (heap s) (next s) (log s)) ->
  wlp (set_data d) s Q E.
Proof. done. Qed.

Lemma wlp_set_size n s Q E :
  Q tt (mkState (mkVector (data_ (self s)) n) (heap s) (next s) (log s)) ->
  wlp (set_size n) s Q E.
Proof. done. Qed.

Lemma wlp_begin s Q E : Q (buffer_ (data_ (self s))) s -> wlp begin_ s Q E.
Proof. done. Qed.

Lemma wlp_end s Q E :
  Q (ptr_add (buffer_ (data_ (self s))) (size_ (self s))) s -> wlp end_ s Q E.
Proof. done. Qed.

Lemma wlp_RawMemory_ctor n s Q (E : exn -> state T -> Prop) :
  (forall r s', self s' = self s -> capacity_ r = n -> Q r s') ->
  (forall e, E e s) ->
  wlp (RawMemory_ctor n) s Q E.
Proof.
  intros HQ HE. unfold wlp, RawMemory_ctor, Allocate, bind, operator_new, ret.
  destruct (negb (n =? 0)); [|by apply HQ].
  destruct (granted _); [by apply HQ | apply HE].
Qed.

(** A step that leaves [*this] alone, inside a computation that must
    keep the capacity. *)
Lemma keeps_step {A B} (m : M T A) (k : A -> M T B) s c Q :
  frames_self m ->
  c <= capacity_of s ->
  (forall a s', self s' = self s -> wlp (k a) s' Q (keeps c)) ->
  wlp (bind m k) s Q (keeps c).
Proof.
  intros Hm Hc Hk. apply wlp_bind, wlp_frame; [done | done |].
  intros e s' Hs'. unfold keeps, capacity_of. by rewrite Hs'.
Qed.

Lemma keeps_last {A} (m : M T A) s c :
  frames_self m -> c <= capacity_of s -> wlp m s (keeps c) (keeps c).
Proof.
  intros Hm Hc. apply wlp_frame; [done | |];
    intros ? s' Hs'; unfold keeps, capacity_of; by rewrite Hs'.
Qed.

Lemma keeps_unwinding {A B} (m : M T A) cleanup (k : A -> M T B) s c Q :
  frames_self m -> frames_self cleanup ->
  c <= capacity_of s ->
  (forall a s', self s' = self s -> wlp (k a) s' Q (keeps c)) ->
  wlp (bind (unwinding m cleanup) k) s Q (keeps c).
Proof. intros Hm Hcl. apply keeps_step. by apply frames_unwinding. Qed.

Lemma grown_capacity_ge n :
  0 <= n <= PTRDIFF_MAX -> n <= grown_capacity n.
Proof. intros Hn. rewrite grown_capacity_spec by done. lia. Qed.

Ltac keeps_side :=
  unfold keeps, capacity_of in *; simp_state;
  repeat match goal with
         | H : self ?x = _ |- context [self ?x] => rewrite H; simp_state
         end;
  try lia.

Ltac keeps_frame :=
  lazymatch goal with
  | |- wlp (bind (unwinding _ _) _) _ _ _ =>
      apply keeps_unwinding; [ frames | frames | keeps_side | intros ? ?s ?Hs ]
  | |- wlp (bind _ _) _ _ _ =>
      apply keeps_step; [ frames | keeps_side | intros ? ?s ?Hs ]
  | |- wlp _ _ _ _ =>
      apply keeps_last; [ frames | keeps_side ]
  end.

Lemma grows_Reserve n : grows (Reserve n).
Proof.
  intros s Hs. unfold Reserve. apply wlp_bind, wlp_get_self. simp_state.
  destruct (Z.leb_spec n (capacity_ (data_ (self s)))).
  { apply wlp_ret. keeps_side. }
  apply wlp_bind, wlp_RawMemory_ctor; [|intros; keeps_side].
  intros r s1 Hs1 Hr.
  do 2 keeps_frame.
  simp_state. apply wlp_bind, wlp_set_data. simp_state.
  keeps_frame.
Qed.

Lemma grows_EmplaceBack ctor : grows (EmplaceBack ctor).
Proof.
  intros s Hs. unfold EmplaceBack. apply wlp_bind, wlp_get_self. simp_state.
  destruct (Z.eqb_spec (size_ (self s)) (capacity_ (data_ (self s)))) as [Heq|].
  - apply wlp_bind, wlp_RawMemory_ctor; [|intros; keeps_side].
    intros r s1 Hs1 Hr.
    assert (capacity_ (data_ (self s)) <= grown_capacity (size_ (self s))).
    { rewrite Heq. apply grown_capacity_ge. keeps_side. }
    do 2 keeps_frame.
    simp_state. apply wlp_bind, wlp_set_data. simp_state.
    apply wlp_bind, wlp_set_size. simp_state.
    apply wlp_bind, wlp_get_self. simp_state.
    do 2 keeps_frame. apply wlp_ret. keeps_side.
  - keeps_frame. apply wlp_bind, wlp_set_size. simp_state.
    apply wlp_bind, wlp_get_self. simp_state.
    keeps_frame.
Qed.

Lemma log_grows_of_frames {A} (m : M T A) : frames_self m -> log_grows m.
Proof.
  intros Hm s. eapply wlp_mono; [apply Hm | |]; by intros ? s' [_ ?].
Qed.

Lemma log_grows_bind {A B} (m : M T A) (k : A -> M T B) :
  log_grows m -> (forall a, log_grows (k a)) -> log_grows (bind m k).
Proof.
  intros Hm Hk s. apply wlp_bind.
  eapply wlp_mono; [apply Hm | | done].
  intros a s' [e1 L1]. simpl in *.
  eapply wlp_mono; [apply Hk | |]; simpl; intros ? s'' [e2 L2];
    exists (e1 ++ e2); by rewrite L2, L1, app_assoc.
Qed.

Lemma log_grows_unwinding {A} (m : M T A) cleanup :
  log_grows m -> log_grows cleanup -> log_grows (unwinding m cleanup).
Proof.
  intros Hm Hc s. apply wlp_unwinding.
  eapply wlp_mono; [apply Hm | done |].
  intros e s' [e1 L1]. simpl in *.
  eapply wlp_mono; [apply Hc | |]; simpl; intros ? s'' [e2 L2];
    exists (e1 ++ e2); by rewrite L2, L1, app_assoc.
Qed.

Lemma log_grows_get_self : log_grows (T:=T) get_self.
Proof. intros s. exists []. by rewrite app_nil_r. Qed.

Lemma log_grows_set_self v : log_grows (T:=T) (set_self v).
Proof. intros s. exists []. simpl. by rewrite app_nil_r. Qed.

Lemma log_grows_set_data d : log_grows (T:=T) (set_data d).
Proof. intros s. exists []. simpl. by rewrite app_nil_r. Qed.

Lemma log_grows_set_size n : log_grows (T:=T) (set_size n).
Proof. intros s. exists []. simpl. by rewrite app_nil_r. Qed.

Ltac log_grows :=
  repeat first
    [ apply log_grows_get_self
    | apply log_grows_set_data
    | apply log_grows_set_size
    | apply log_grows_set_self
    | apply log_grows_of_frames; solve [frames]
    | apply log_grows_bind; [|intros ?]
    | apply log_grows_unwinding
    | match goal with
      | |- log_grows (match ?x with _ => _ end) => destruct x
      | |- log_grows (if ?b then _ else _) => destruct b
      end ].

Lemma wp_wlp {A} (m : M T A) s Q E : wp m s Q E -> wlp m s Q E.
Proof. unfold wp, wlp. by destruct (m s). Qed.

(** With the buffer full, whatever happens once the new element has been
    constructed, the log shows the allocation and that construction ahead
    of every other event of the call. *)
Lemma EmplaceBack_constructs_first xs x s :
  represents s xs ->
  size_ (self s) = capacity_ (data_ (self s)) ->
  can_allocate (grown_capacity (size_ (self s))) = true ->
  let first_events :=
    [EvAlloc (next s) (grown_capacity (size_ (self s)));
     EvConstruct (Ptr (next s) (size_ (self s)))] in
  wlp (EmplaceBack (Some x)) s
    (fun _ s' => exists rest, log s' = log s ++ first_events ++ rest)
    (fun _ s' => exists rest, log s' = log s ++ first_events ++ rest).
Proof.
  intros [Hfresh (Hsize & Hcap & Hbuf)] Hfull Hcan first_events.
  assert (Hb : heap s !! next s = None) by by apply Hfresh.
  assert (Hcapv : grown_capacity (size_ (self s))
                  = Z.max 1 (2 * size_ (self s)))
    by (apply grown_capacity_spec; lia).
  set (cap := grown_capacity (size_ (self s))) in *.
  unfold EmplaceBack.
  apply wlp_bind, wp_wlp, wp_get_self. simp_state.
  rewrite <- Hfull, Z.eqb_refl.
  apply wlp_bind, wp_wlp, wp_RawMemory_ctor; [fold cap; lia|]. fold cap.
  rewrite Hcan. simp_state.
  match goal with
  | |- wlp (bind (unwinding (bind _ ?k1) ?c) ?k2) _ _ _ =>
      assert (Hk1 : forall a, log_grows (k1 a)) by (intros ?; log_grows);
      assert (Hc : log_grows c) by log_grows;
      assert (Hk2 : forall a, log_grows (k2 a)) by (intros ?; log_grows)
  end.
  apply wlp_bind, wlp_unwinding, wlp_bind, wp_wlp. rewrite Z.add_0_l.
  eapply (wp_emplace_new (next s) _ (replicate (length xs) Raw)
            (replicate (Z.to_nat cap - length xs - 1) Raw)).
  { simp_state. rewrite lookup_insert_eq. f_equal.
    apply replicate_split. lia. }
  { rewrite length_replicate. lia. }
  simp_state.
  eapply wlp_mono; [apply (Hk1 tt) | |]; simp_state.
  - intros _ s1 [e1 L1]. simpl in *.
    eapply wlp_mono; [apply (Hk2 tt) | |]; simpl; intros ? s2 [e2 L2];
      exists (e1 ++ e2); rewrite L2, L1, <- !app_assoc; done.
  - intros e s1 [e1 L1]. simpl in *.
    eapply wlp_mono; [apply Hc | |]; simpl; intros ? s2 [e2 L2];
      exists (e1 ++ e2); rewrite L2, L1, <- !app_assoc; done.
Qed.

Lemma wlp_undef {A} s (Q : A -> state T -> Prop) E : wlp undef s Q E.
Proof. done. Qed.

Lemma grows_discard {A} (m : M T A) : grows m -> grows (discard m).
Proof.
  intros Hm s Hs. unfold discard. apply wlp_bind.
  eapply wlp_mono; [by apply Hm | | done]. by intros a s' Hs'.
Qed.

Lemma grows_PushBack_copy x : grows (PushBack_copy x).
Proof.
  intros s Hs. unfold PushBack_copy.
  destruct is_copy_constructible; [|apply wlp_undef].
  by apply (grows_discard (EmplaceBack (copy_ctor x)) (grows_EmplaceBack _)).
Qed.

Lemma grows_PushBack_move x : grows (PushBack_move x).
Proof.
  intros s Hs.
  by apply (grows_discard (EmplaceBack (move_ctor x)) (grows_EmplaceBack _)).
Qed.

Lemma grows_PopBack : grows (T:=T) PopBack.
Proof.
  intros s Hs. unfold PopBack. apply wlp_bind, wlp_get_self.
  keeps_frame. apply wlp_bind, wlp_set_size. simp_state.
  apply wlp_bind, wlp_get_self. simp_state. keeps_frame.
Qed.

Lemma grows_Resize n : grows (Resize n).
Proof.
  intros s Hs. unfold Resize. apply wlp_bind, wlp_get_self. simp_state.
  destruct (n >? size_ (self s)).
  - apply wlp_bind.
    assert (Hstep : wlp
      (if n >? capacity_ (data_ (self s)) then Reserve n else ret tt) s
      (keeps (capacity_of s)) (keeps (capacity_of s))).
    { destruct (n >? capacity_ (data_ (self s)));
        [by apply grows_Reserve | apply wlp_ret; keeps_side]. }
    eapply wlp_mono; [exact Hstep | | done].
    intros ? s1 Hs1. apply wlp_bind, wlp_get_self.
    apply wlp_bind, wlp_frame.
    { unfold uninitialized_default_construct_n, default_construct. frames. }
    + intros _ s2 Hs2. apply wlp_set_size. keeps_side.
    + intros e s2 Hs2. keeps_side.
  - keeps_frame. apply wlp_set_size. keeps_side.
Qed.

Lemma grows_Emplace_args pos args :
  frames_self args -> grows (Emplace_args pos args).
Proof.
  intros Hargs s Hs. unfold Emplace_args. apply wlp_bind, wlp_begin.
  destruct (ptr_diff pos (buffer_ (data_ (self s)))) as [d|];
    [|apply wlp_undef].
  apply wlp_bind, wlp_get_self.
  apply wlp_bind, wlp_RawMemory_ctor; [|intros; keeps_side].
  intros r s1 Hs1 Hr. simp_state.
  destruct (Z.eqb_spec (size_ (self s)) (capacity_ (data_ (self s)))) as [Heq|].
  - assert (capacity_ (data_ (self s)) <= grown_capacity (size_ (self s))).
    { rewrite Heq. apply grown_capacity_ge. keeps_side. }
    do 2 keeps_frame.
    simp_state. apply wlp_bind, wlp_set_data. simp_state.
    apply wlp_bind, wlp_set_size. simp_state.
    apply wlp_bind, wlp_begin. simp_state.
    keeps_frame. apply wlp_ret. keeps_side.
  - apply wlp_bind, wlp_unwinding.
    apply wlp_bind, wlp_frame; [frames | |].
    2:{ intros e s2 Hs2. apply wlp_frame; [frames | |];
          intros ? s3 Hs3; keeps_side. }
    intros it s2 Hs2. apply wlp_bind, wlp_end.
    apply wlp_bind, wlp_frame; [frames | |].
    2:{ intros e s3 Hs3. apply wlp_frame; [frames | |];
          intros ? s4 Hs4; keeps_side. }
    intros _ s3 Hs3. apply wlp_bind, wlp_set_size. simp_state.
    apply wlp_ret. keeps_frame. apply wlp_ret. keeps_side.
Qed.

Lemma grows_Emplace pos ctor : grows (Emplace pos ctor).
Proof. apply grows_Emplace_args. frames. Qed.

Lemma grows_Insert_copy pos value : grows (Insert_copy pos value).
Proof.
  intros s Hs. unfold Insert_copy.
  destruct is_copy_constructible; [|apply wlp_undef].
  apply grows_Emplace_args; [frames | done].
Qed.

Lemma grows_Insert_move pos value : grows (Insert_move pos value).
Proof. apply grows_Emplace_args. frames. Qed.

Lemma grows_Erase pos : grows (Erase pos).
Proof.
  intros s Hs. unfold Erase. apply wlp_bind, wlp_begin, wlp_bind, wlp_end.
  destruct (bool_decide _); [apply wlp_ret; keeps_side|].
  apply wlp_bind, wlp_end. keeps_frame.
  apply wlp_bind.
  eapply wlp_mono; [apply grows_PopBack; keeps_side | |];
    intros ? s1 Hs1; [apply wlp_ret|]; keeps_side; rewrite Hs0 in Hs1; lia.
Qed.

Lemma wlp_Vector_copy o s Q (E : exn -> state T -> Prop) :
  (forall r s', self s' = self s -> capacity_ (data_ r) = size_ o -> Q r s') ->
  (forall e s', self s' = self s -> E e s') ->
  wlp (Vector_copy o) s Q E.
Proof.
  intros HQ HE. unfold Vector_copy.
  apply wlp_bind, wlp_RawMemory_ctor; [|by intros; apply HE].
  intros r s1 Hs1 Hr. apply wlp_bind, wlp_unwinding, wlp_frame; [frames | |].
  - intros _ s2 Hs2. apply wlp_ret, HQ; [congruence | done].
  - intros e s2 Hs2. apply wlp_frame; [frames | |];
      intros ? s3 Hs3; apply HE; congruence.
Qed.

Lemma grows_copy_assignment other : grows (copy_assignment other).
Proof.
  intros s Hs. unfold copy_assignment.
  apply wlp_bind.
  assert (Hderef : forall s0 Q E,
            (forall o, Q o s0) -> wlp (deref other) s0 Q E).
  { intros s0 Q E HQ. destruct other; apply HQ. }
  apply Hderef. intros o. apply wlp_bind, wlp_get_self. simp_state.
  apply wlp_bind.
  assert (Hbody : wlp
    (if size_ o >? capacity_ (data_ (self s))
     then temp <- Vector_copy o;; temp0 <- Swap temp;; Vector_dtor temp0
     else
      copy_n (buffer_ (data_ o)) (size_ (self s) `min` size_ o)
        (buffer_ (data_ (self s)));;
      (if size_ (self s) >? size_ o
       then
        destroy_n (ptr_add (buffer_ (data_ (self s))) (size_ o))
          (size_t_wrap (size_ (self s) - size_ o))
       else
        if size_ (self s) <? size_ o
        then
         uninitialized_copy_n (ptr_add (buffer_ (data_ o)) (size_ (self s)))
           (size_t_wrap (size_ o - size_ (self s)))
           (ptr_add (buffer_ (data_ (self s))) (size_ (self s)))
        else ret tt)) s (keeps (capacity_of s)) (keeps (capacity_of s))).
  { destruct (Z.gtb_spec (size_ o) (capacity_ (data_ (self s)))).
    - apply wlp_bind, wlp_Vector_copy; [|intros; keeps_side].
      intros temp s1 Hs1 Htemp. apply wlp_bind.
      unfold Swap. apply wlp_bind, wlp_get_self.
      unfold RawMemory_Swap. cbn beta iota.
      apply wlp_bind, wlp_set_self, wlp_ret.
      keeps_frame.
    - keeps_frame.
      destruct (size_ (self s) >? size_ o); [keeps_frame|].
      destruct (size_ (self s) <? size_ o); [keeps_frame|].
      apply wlp_ret. keeps_side. }
  eapply wlp_mono; [exact Hbody | | done].
  intros ? s1 Hs1. apply wlp_bind, Hderef. intros o'.
  apply wlp_set_size. keeps_side.
Qed.

(** No operation but [Swap] and the move assignment lowers the capacity,
    whether it returns or throws. *)
Lemma capacity_never_decreases (op : operation T) : grows (run_op op).
Proof.
  destruct op; simpl.
  - apply grows_Reserve.
  - apply grows_Resize.
  - apply grows_PushBack_copy.
  - apply grows_PushBack_move.
  - apply grows_PopBack.
  - apply grows_discard, grows_EmplaceBack.
  - apply grows_discard, grows_Emplace.
  - apply grows_discard, grows_Insert_copy.
  - apply grows_discard, grows_Insert_move.
  - apply grows_discard, grows_Erase.
  - apply grows_copy_assignment.
Qed.

End Frames.

Section Failures.
Context {T : Type} `{ET : Elem T} `{MS : MemorySource}.
Implicit Types (s : state T) (xs : list T).

Lemma wp_throws {A} (m : M T A) s e (P : state T -> Prop) :
  wp m s (fun _ _ => False) (fun e' s' => e' = e /\ P s') ->
  exists s', m s = Throw e s' /\ P s'.
Proof. unfold wp. destruct (m s) as [| e' s' |]; try done. intros [-> ?]. eauto. Qed.

Lemma copies_all_succeed xs ys :
  Forall2 copies xs ys -> ~ Exists (fun x => copy_ctor x = None) xs.
Proof.
  induction 1 as [|x y xs ys Hxy _ IH]; intros Hex.
  - by apply Exists_nil in Hex.
  - apply Exists_cons in Hex as [Hx|Hex]; [|done].
    unfold copies in Hxy. congruence.
Qed.

Lemma EmplaceBack_construction_fails xs s :
  represents s xs ->
  size_ (self s) = capacity_ (data_ (self s)) ->
  can_allocate (grown_capacity (size_ (self s))) = true ->
  EmplaceBack None s
  = Throw ElemExn
      (mkState (self s) (heap s) (S (next s))
         (log s ++ [EvAlloc (next s) (grown_capacity (size_ (self s)));
                    EvFree (next s)])).
Proof.
  intros [Hfresh (Hsize & Hcap & Hbuf)] Hfull Hcan.
  assert (Hb : heap s !! next s = None) by by apply Hfresh.
  assert (Hcapv : grown_capacity (size_ (self s))
                  = Z.max 1 (2 * size_ (self s)))
    by (apply grown_capacity_spec; lia).
  cut (exists s', EmplaceBack None s = Throw ElemExn s' /\
         s' = mkState (self s) (heap s) (S (next s))
                (log s ++ [EvAlloc (next s) (grown_capacity (size_ (self s)));
                           EvFree (next s)])).
  { by intros (s' & -> & ->). }
  apply wp_throws. unfold EmplaceBack.
  apply wp_bind, wp_get_self. simp_state. rewrite <- Hfull, Z.eqb_refl.
  apply wp_bind, wp_RawMemory_ctor; [lia|]. rewrite Hcan.
  apply wp_bind, wp_unwinding, wp_bind, wp_throw.
  eapply (wp_RawMemory_dtor _ (next s)); [done | heap_lookup |].
  simp_state. split; [done|]. f_equal.
  - by rewrite delete_insert_id.
  - by rewrite <- app_assoc.
Qed.

Lemma Reserve_copy_fails xs n s :
  represents s xs ->
  relocates = false ->
  capacity_ (data_ (self s)) < n ->
  can_allocate n = true ->
  Exists (fun x => copy_ctor x = None) xs ->
  exists evs,
    Reserve n s
    = Throw ElemExn (mkState (self s) (heap s) (S (next s)) (log s ++ evs)).
Proof.
  intros [Hfresh (Hsize & Hcap & Hbuf)] Hrel Hn Hcan Hex.
  assert (Hb : heap s !! next s = None) by by apply Hfresh.
  assert (Hne : xs <> []) by (intros ->; by apply Exists_nil in Hex).
  assert (0 < length xs)%nat by (destruct xs; [done | simpl; lia]).
  destruct (buffer_ (data_ (self s))) as [|a off] eqn:Ha; [lia|].
  destruct Hbuf as (-> & Hpos & Hblock).
  assert (Hab : a <> next s) by by eapply fresh_not_owned.
  cut (exists s', Reserve n s = Throw ElemExn s' /\
         exists evs, s' = mkState (self s) (heap s) (S (next s)) (log s ++ evs)).
  { intros (s' & -> & evs & ->). eauto. }
  apply wp_throws. unfold Reserve.
  apply wp_bind, wp_get_self. simp_state.
  destruct (Z.leb_spec n (capacity_ (data_ (self s)))); [lia|].
  apply wp_bind, wp_RawMemory_ctor; [lia|]. rewrite Hcan. simp_state.
  apply wp_bind, wp_unwinding. unfold MoveOrCopy. rewrite Hrel, Ha.
  unfold uninitialized_copy_n. rewrite Hsize, Nat2Z.id.
  unfold cells_of in Hblock.
  eapply (wp_uninitialized_copy_loop xs a 0 [] _ (next s) 0 [] []
            (replicate (Z.to_nat n - length xs) Raw)).
  { done. }
  { by apply relocates_false_copyable. }
  { heap_lookup. }
  { done. }
  { heap_lookup. f_equal. simpl. rewrite <- replicate_add. f_equal. lia. }
  { done. }
  { done. }
  { intros ys' Hys'. by apply copies_all_succeed in Hys'. }
  intros _ evs. simp_state.
  eapply (wp_RawMemory_dtor _ (next s)); [done | heap_lookup |].
  simp_state. split; [done|]. eexists. f_equal.
  - heap_eq.
  - by rewrite <- !app_assoc.
Qed.

Lemma EmplaceBack_copy_fails xs x s :
  represents s xs ->
  relocates = false ->
  size_ (self s) = capacity_ (data_ (self s)) ->
  can_allocate (grown_capacity (size_ (self s))) = true ->
  Exists (fun x => copy_ctor x = None) xs ->
  exists evs,
    EmplaceBack (Some x) s
    = Throw ElemExn (mkState (self s) (heap s) (S (next s)) (log s ++ evs)).
Proof.
  intros [Hfresh (Hsize & Hcap & Hbuf)] Hrel Hfull Hcan Hex.
  assert (Hb : heap s !! next s = None) by by apply Hfresh.
  assert (Hne : xs <> []) by (intros ->; by apply Exists_nil in Hex).
  assert (0 < length xs)%nat by (destruct xs; [done | simpl; lia]).
  assert (Hcapv : grown_capacity (size_ (self s))
                  = Z.max 1 (2 * size_ (self s)))
    by (apply grown_capacity_spec; lia).
  set (cap := grown_capacity (size_ (self s))) in *.
  destruct (buffer_ (data_ (self s))) as [|a off] eqn:Ha; [lia|].
  destruct Hbuf as (-> & Hpos & Hblock).
  assert (Hab : a <> next s) by by eapply fresh_not_owned.
  cut (exists s', EmplaceBack (Some x) s = Throw ElemExn s' /\
         exists evs, s' = mkState (self s) (heap s) (S (next s)) (log s ++ evs)).
  { intros (s' & -> & evs & ->). eauto. }
  apply wp_throws. unfold EmplaceBack.
  apply wp_bind, wp_get_self. simp_state. rewrite <- Hfull, Z.eqb_refl.
  apply wp_bind, wp_RawMemory_ctor; [fold cap; lia|]. fold cap.
  rewrite Hcan. simp_state.
  apply wp_bind, wp_unwinding, wp_bind. rewrite Z.add_0_l.
  eapply (wp_emplace_new (next s) _ (replicate (length xs) Raw)
            (replicate (Z.to_nat cap - length xs - 1) Raw)).
  { heap_lookup. f_equal. apply replicate_split. lia. }
  { rewrite length_replicate. lia. }
  simp_state. unfold MoveOrCopy. rewrite Hrel, Ha.
  unfold uninitialized_copy_n. rewrite Hsize, Nat2Z.id.
  rewrite cells_of_full in Hblock by lia.
  eapply (wp_uninitialized_copy_loop xs a 0 [] [] (next s) 0 [] []).
  { done. }
  { by apply relocates_false_copyable. }
  { heap_lookup. }
  { done. }
  { heap_lookup. }
  { done. }
  { done. }
  { intros ys' Hys'. by apply copies_all_succeed in Hys'. }
  intros _ evs. simp_state.
  eapply (wp_RawMemory_dtor _ (next s)); [done | heap_lookup |].
  simp_state. split; [done|]. eexists. f_equal.
  - heap_eq.
  - by rewrite <- !app_assoc.
Qed.


Lemma Emplace_copy_fails xs x (p : nat) s :
  represents s xs ->
  relocates = false ->
  size_ (self s) = capacity_ (data_ (self s)) ->
  can_allocate (grown_capacity (size_ (self s))) = true ->
  (p <= length xs)%nat ->
  Exists (fun x => copy_ctor x = None) xs ->
  exists evs,
    Emplace (ptr_add (buffer_ (data_ (self s))) (Z.of_nat p)) (Some x) s
    = Throw ElemExn (mkState (self s) (heap s) (S (next s)) (log s ++ evs)).
Proof.
  intros [Hfresh (Hsize & Hcap & Hbuf)] Hrel Hfull Hcan Hp Hex.
  assert (Hb : heap s !! next s = None) by by apply Hfresh.
  assert (Hne : xs <> []) by (intros ->; by apply Exists_nil in Hex).
  assert (0 < length xs)%nat by (destruct xs; [done | simpl; lia]).
  assert (Hcapv : grown_capacity (size_ (self s))
                  = Z.max 1 (2 * size_ (self s)))
    by (apply grown_capacity_spec; lia).
  assert (Hmax : PTRDIFF_MAX + 1 < 2 ^ 64) by done.
  assert (Hcc : is_copy_constructible = true)
    by by apply relocates_false_copyable.
  set (cap := grown_capacity (size_ (self s))) in *.
  destruct (buffer_ (data_ (self s))) as [|a off] eqn:Ha; [lia|].
  destruct Hbuf as (-> & Hpos & Hblock).
  assert (Hab : a <> next s) by by eapply fresh_not_owned.
  rewrite cells_of_full in Hblock by lia.
  assert (Hxs : Obj <$> xs = (Obj <$> take p xs) ++ (Obj <$> drop p xs))
    by by rewrite <- fmap_app, take_drop.
  assert (Htake : length (take p xs) = p) by (rewrite length_take; lia).
  assert (Hdrop : length (drop p xs) = (length xs - p)%nat)
    by by rewrite length_drop.
  cut (exists s',
         Emplace (ptr_add (Ptr a 0) (Z.of_nat p)) (Some x) s
         = Throw ElemExn s' /\
         exists evs, s' = mkState (self s) (heap s) (S (next s)) (log s ++ evs)).
  { intros (s' & -> & evs & ->). eauto. }
  apply wp_throws. unfold Emplace.
  apply wp_bind, wp_begin. rewrite Ha. cbn [ptr_add ptr_diff].
  rewrite decide_True by done.
  replace (0 + Z.of_nat p - 0) with (Z.of_nat p) by lia.
  rewrite size_t_wrap_small by lia.
  apply wp_bind, wp_get_self.
  apply wp_bind, wp_RawMemory_ctor; [fold cap; lia|]. fold cap.
  rewrite Hcan. simp_state. rewrite <- Hfull, Z.eqb_refl.
  rewrite size_t_wrap_small by lia. rewrite !Z.add_0_l.
  apply wp_bind, wp_unwinding, wp_bind.
  eapply (wp_emplace_new (next s) _ (replicate p Raw)
            (replicate (Z.to_nat cap - p - 1) Raw)).
  { heap_lookup. f_equal. apply replicate_split. lia. }
  { rewrite length_replicate. lia. }
  simp_state. unfold MoveOrCopy. rewrite Hrel, Ha.
  set (cleanup := fun (e : exn) (s' : state T) =>
    wp (RawMemory_dtor {| buffer_ := Ptr (next s) 0; capacity_ := cap |}) s'
      (fun _ s'' => e = ElemExn /\
         exists evs,
           s'' = mkState (self s) (heap s) (S (next s)) (log s ++ evs))
      (fun e' s'' => e' = ElemExn /\
         exists evs,
           s'' = mkState (self s) (heap s) (S (next s)) (log s ++ evs))).
  assert (Hcleanup : forall cells evs,
    cleanup ElemExn
      (mkState (self s) (<[next s := cells]> (heap s)) (S (next s))
         (log s ++ evs))).
  { intros cells evs. unfold cleanup.
    eapply (wp_RawMemory_dtor _ (next s)); [done | heap_lookup |].
    simp_state. split; [done|]. eexists. f_equal.
    - by rewrite delete_insert_id.
    - by rewrite <- !app_assoc. }
  apply wp_bind. unfold uninitialized_copy_n.
  replace (Z.to_nat (Z.of_nat p)) with (length (take p xs)) by lia.
  eapply (wp_uninitialized_copy_loop (take p xs) a 0 [] (Obj <$> drop p xs)
            (next s) 0 [] []).
  { done. }
  { done. }
  { heap_lookup. by rewrite Hblock, Hxs, app_nil_r. }
  { done. }
  { heap_lookup. by rewrite Htake. }
  { done. }
  { done. }
  2:{ intros _ evs. simp_state. rewrite ?insert_insert_eq, <- ?app_assoc.
      exact (Hcleanup _ _). }
  intros ys1 Hys1. simp_state.
  assert (Hlen1 : length ys1 = p)
    by (apply Forall2_length in Hys1; lia).
  replace (Z.to_nat (size_ (self s) - Z.of_nat p))
    with (length (drop p xs)) by lia.
  eapply (wp_uninitialized_copy_loop (drop p xs) a _ (Obj <$> take p xs) []
            (next s) _ ((Obj <$> ys1) ++ [Obj x]) []
            (replicate (Z.to_nat cap - length xs - 1) Raw)).
  { done. }
  { done. }
  { heap_lookup. by rewrite Hblock, Hxs, !app_nil_r. }
  { rewrite length_fmap. lia. }
  { heap_lookup. f_equal. simpl. rewrite <- !app_assoc. simpl.
    do 2 f_equal. rewrite <- replicate_add. f_equal. lia. }
  { rewrite length_app, length_fmap. simpl. lia. }
  { done. }
  { intros ys2 Hys2. exfalso.
    rewrite <- (take_drop p xs) in Hex. apply Exists_app in Hex as [Hex|Hex].
    - by apply copies_all_succeed in Hys1.
    - by apply copies_all_succeed in Hys2. }
  intros _ evs. simp_state. rewrite ?insert_insert_eq, <- ?app_assoc.
  exact (Hcleanup _ _).
Qed.

End Failures.

(** * Properties of the member functions *)

Section Results.
Context {T : Type} `{ET : Elem T} `{MS : MemorySource}.
Implicit Types (s : state T) (xs : list T).

Lemma can_allocate_bound n : can_allocate n = true -> n <= PTRDIFF_MAX.
Proof. intros (_ & _ & ?)%can_allocate_true. lia. Qed.

Lemma represents_fresh_block s xs cap old l sz :
  fresh_from s ->
  sz = Z.of_nat (length xs) ->
  sz <= cap <= PTRDIFF_MAX ->
  0 < cap ->
  represents
    (mkState (mkVector (mkRawMemory (Ptr (next s) 0) cap) sz)
       (<[next s := cells_of xs cap]> (release old (heap s)))
       (S (next s)) l) xs.
Proof.
  intros Hfresh -> Hcap Hpos. split.
  - intros a Ha. simpl in *. rewrite lookup_insert_ne by lia.
    destruct old as [|b off]; simpl.
    + apply Hfresh. lia.
    + destruct (decide (b = a)) as [->|];
        [by rewrite lookup_delete_eq|].
      rewrite lookup_delete_ne by done. apply Hfresh. lia.
  - repeat split; simpl; try lia. by rewrite lookup_insert_eq.
Qed.

Lemma represents_same_block s xs xs' a sz nxt l :
  represents s xs ->
  buffer_ (data_ (self s)) = Ptr a 0 ->
  sz = Z.of_nat (length xs') ->
  sz <= capacity_ (data_ (self s)) ->
  (next s <= nxt)%nat ->
  represents
    (mkState (mkVector (data_ (self s)) sz)
       (<[a := cells_of xs' (capacity_ (data_ (self s)))]> (heap s))
       nxt l) xs'.
Proof.
  intros [Hfresh (Hsize & Hcap & Hbuf)] Ha -> Hsz Hnxt.
  rewrite Ha in Hbuf. destruct Hbuf as (_ & Hpos & Hblock). split.
  - intros b Hb. simpl in *.
    assert (a <> b).
    { intros ->. rewrite Hfresh in Hblock by lia. done. }
    rewrite lookup_insert_ne by done. apply Hfresh. lia.
  - repeat split; simpl; try lia. rewrite Ha.
    repeat split; try lia. by rewrite lookup_insert_eq.
Qed.

Lemma represents_nonempty s xs :
  represents s xs -> xs <> [] ->
  exists a, buffer_ (data_ (self s)) = Ptr a 0.
Proof.
  intros [_ (Hsize & Hcap & Hbuf)] Hne.
  assert (0 < length xs)%nat by (destruct xs; [done | simpl; lia]).
  destruct (buffer_ (data_ (self s))) as [|a off]; [lia|].
  destruct Hbuf as (-> & _). eauto.
Qed.

Lemma represents_room s xs :
  represents s xs -> size_ (self s) <> capacity_ (data_ (self s)) ->
  exists a, buffer_ (data_ (self s)) = Ptr a 0.
Proof.
  intros [_ (Hsize & Hcap & Hbuf)] Hne.
  destruct (buffer_ (data_ (self s))) as [|a off]; [lia|].
  destruct Hbuf as (-> & _). eauto.
Qed.

Lemma represents_bookkeeping s xs nxt l :
  represents s xs -> (next s <= nxt)%nat ->
  represents (mkState (self s) (heap s) nxt l) xs.
Proof.
  intros [Hfresh Hown] Hnxt. split; [|done].
  intros a Ha. simpl in *. apply Hfresh. lia.
Qed.

Section RegularResults.
Context `{!Regular T}.

(** [EmplaceBack] of a value, whichever branch it takes. *)
Lemma EmplaceBack_spec s xs x :
  represents s xs ->
  (size_of s = capacity_of s ->
   can_allocate (grown_capacity (size_of s)) = true) ->
  exists r s',
    EmplaceBack (Some x) s = Ret r s' /\
    r = ptr_add (buffer_ (data_ (self s'))) (size_of s) /\
    size_of s' = size_of s + 1 /\
    capacity_of s'
    = (if size_of s =? capacity_of s then grown_capacity (size_of s)
       else capacity_of s) /\
    represents s' (xs ++ [x]).
Proof.
  intros Hrep Hcan. unfold size_of, capacity_of in *.
  destruct (Z.eqb_spec (size_ (self s)) (capacity_ (data_ (self s))))
    as [Hfull|Hroom].
  - specialize (Hcan Hfull).
    eexists _, _. split; [by apply (EmplaceBack_full xs)|].
    destruct Hrep as [Hfresh (Hsize & Hcap & Hbuf)].
    split; [done|]. split; [done|]. split; [done|].
    assert (grown_capacity (size_ (self s)) = Z.max 1 (2 * size_ (self s)))
      by (apply grown_capacity_spec; lia).
    apply can_allocate_bound in Hcan.
    apply represents_fresh_block; [done | | lia | lia].
    rewrite length_app. simpl. lia.
  - destruct (represents_room s xs Hrep Hroom) as [a Ha].
    eexists _, _. split; [by eapply (EmplaceBack_room xs)|]. simpl.
    rewrite Ha. split; [done|]. split; [done|]. split; [done|].
    pose proof Hrep as [Hfresh (Hsize & Hcap & Hbuf)].
    apply (represents_same_block s xs); [done | done | | lia | done].
    rewrite length_app. simpl. lia.
Qed.

(** [Emplace] of a value at position [p], whichever branch it takes. *)
Lemma Emplace_spec s xs x (p : nat) :
  represents s xs ->
  (p <= length xs)%nat ->
  can_allocate (grown_capacity (size_of s)) = true ->
  exists r s',
    Emplace (ptr_add (buffer_ (data_ (self s))) (Z.of_nat p)) (Some x) s
    = Ret r s' /\
    r = ptr_add (buffer_ (data_ (self s'))) (Z.of_nat p) /\
    size_of s' = size_of s + 1 /\
    capacity_of s'
    = (if size_of s =? capacity_of s then grown_capacity (size_of s)
       else capacity_of s) /\
    represents s' (insert_at p x xs).
Proof.
  intros Hrep Hp Hcan. unfold size_of, capacity_of in *.
  assert (Hlen : length (insert_at p x xs) = S (length xs)).
  { unfold insert_at. rewrite length_app. simpl.
    rewrite length_take, length_drop. lia. }
  destruct (Z.eqb_spec (size_ (self s)) (capacity_ (data_ (self s))))
    as [Hfull|Hroom].
  - eexists _, _. split; [by apply (Emplace_full xs)|]. simpl.
    split; [done|]. split; [done|]. split; [done|].
    destruct Hrep as [Hfresh (Hsize & Hcap & Hbuf)].
    assert (grown_capacity (size_ (self s)) = Z.max 1 (2 * size_ (self s)))
      by (apply grown_capacity_spec; lia).
    apply can_allocate_bound in Hcan.
    apply represents_fresh_block; [done | | lia | lia].
    rewrite Hlen. lia.
  - destruct (represents_room s xs Hrep Hroom) as [a Ha].
    rewrite Ha. simpl.
    eexists _, _. split; [by eapply (Emplace_room xs)|]. simpl.
    rewrite Ha. simpl.
    split; [done|]. split; [done|]. split; [done|].
    pose proof Hrep as [Hfresh (Hsize & Hcap & Hbuf)].
    apply (represents_same_block s xs); [done | done | | lia | lia].
    rewrite Hlen. lia.
Qed.

End RegularResults.


End Results.

(** * Runs that cannot go wrong, for any element type *)

Section Safety.
Context {T : Type} `{ET : Elem T} `{MS : MemorySource}.
Implicit Types (s : state T) (xs : list T) (A B : list (slot T)).

Lemma get_slot_lookup h a (k : nat) B c :
  h !! a = Some B -> B !! k = Some c ->
  get_slot h (Ptr a (Z.of_nat k)) = Some c.
Proof.
  intros Hh Hk. unfold get_slot. rewrite Hh.
  destruct (Z.leb_spec 0 (Z.of_nat k)); [|lia]. by rewrite Nat2Z.id.
Qed.

Lemma put_slot_lookup (h : gmap addr (list (slot T))) a (k : nat) B c :
  h !! a = Some B ->
  put_slot h (Ptr a (Z.of_nat k)) c = <[a := <[k := c]> B]> h.
Proof. intros Hh. unfold put_slot. by rewrite Hh, Nat2Z.id. Qed.

Lemma wp_construct_at_lookup a (k : nat) B x s Q E :
  heap s !! a = Some B -> B !! k = Some Raw ->
  Q tt (set_heap (<[a := <[k := Obj x]> B]> (heap s)) s) ->
  wp (construct_at (Ptr a (Z.of_nat k)) x) s Q E.
Proof.
  intros Hh Hk HQ. apply wp_bind.
  eapply wp_read_slot; [by eapply get_slot_lookup|].
  unfold wp, write_slot. by erewrite put_slot_lookup.
Qed.

Lemma wp_assign_at_lookup a (k : nat) B x y s Q E :
  heap s !! a = Some B -> B !! k = Some (Obj y) ->
  Q tt (set_heap (<[a := <[k := Obj x]> B]> (heap s)) s) ->
  wp (assign_at (Ptr a (Z.of_nat k)) x) s Q E.
Proof.
  intros Hh Hk HQ. apply wp_bind.
  eapply wp_load; [by eapply get_slot_lookup|].
  unfold wp, write_slot. by erewrite put_slot_lookup.
Qed.

Lemma wp_destroy_at_lookup a (k : nat) B y s Q E :
  heap s !! a = Some B -> B !! k = Some (Obj y) ->
  Q tt (add_log [EvDestroy (Ptr a (Z.of_nat k))]
          (set_heap (<[a := <[k := Raw]> B]> (heap s)) s)) ->
  wp (destroy_at (Ptr a (Z.of_nat k))) s Q E.
Proof.
  intros Hh Hk HQ. apply wp_bind.
  eapply wp_load; [by eapply get_slot_lookup|].
  apply wp_bind. unfold wp at 1, write_slot. erewrite put_slot_lookup by done.
  by apply wp_emit.
Qed.

Lemma same_but_refl B i n : same_but B B i n.
Proof. done. Qed.

Lemma same_but_insert B B' (i n : nat) c :
  same_but (<[i := c]> B) B' (S i) n -> same_but B B' i (S n).
Proof.
  intros [Hlen Hout]. split; [by rewrite Hlen, length_insert|].
  intros k Hk. rewrite Hout by lia. apply list_lookup_insert_ne. lia.
Qed.

Lemma live_insert_other B (i n k : nat) c :
  live B i n -> ~ (i <= k < i + n)%nat -> live (<[k := c]> B) i n.
Proof.
  intros Hlive Hk m Hm. destruct (Hlive m Hm) as [x Hx]. exists x.
  rewrite list_lookup_insert_ne by lia. done.
Qed.

Lemma vacant_insert_other B (i n k : nat) c :
  vacant B i n -> ~ (i <= k < i + n)%nat -> vacant (<[k := c]> B) i n.
Proof.
  intros Hv Hk m Hm. rewrite list_lookup_insert_ne by lia. by apply Hv.
Qed.

Lemma live_insert B (i n k : nat) x :
  live B i n -> (k < length B)%nat -> live (<[k := Obj x]> B) i n.
Proof.
  intros Hlive Hk m Hm. destruct (decide (m = k)) as [->|].
  - exists x. by apply list_lookup_insert_eq.
  - destruct (Hlive m Hm) as [y Hy]. exists y.
    by rewrite list_lookup_insert_ne.
Qed.

(** Destroying a range of objects returns, whatever they are. *)
Lemma wp_destroy_loop_live n : forall (j : nat) b B s Q E,
  heap s !! b = Some B ->
  live B j n ->
  (forall s' B',
     self s' = self s -> next s' = next s ->
     heap s' = <[b := B']> (heap s) ->
     same_but B B' j n ->
     Q tt s') ->
  wp (destroy_loop (Ptr b (Z.of_nat j)) n) s Q E.
Proof.
  induction n as [|n IH]; intros j b B s Q E Hb Hlive HQ; simpl.
  - apply wp_ret. apply (HQ s B); try done. by rewrite insert_id.
  - destruct (Hlive j ltac:(lia)) as [x Hx].
    apply wp_bind. eapply wp_destroy_at_lookup; [done..|].
    replace (Z.of_nat j + 1) with (Z.of_nat (S j)) by lia.
    eapply (IH (S j) b (<[j := Raw]> B)).
    + simpl. by rewrite lookup_insert_eq.
    + apply live_insert_other; [|lia]. intros k Hk. apply Hlive. lia.
    + intros s' B' Hself Hnext Hheap Hsame. apply (HQ s' B'); try done.
      * rewrite Hheap. simpl. by rewrite insert_insert_eq.
      * by apply same_but_insert in Hsame.
Qed.

Lemma wp_destroy_n_live (n j : nat) b B s Q E :
  heap s !! b = Some B ->
  live B j n ->
  (forall s' B',
     self s' = self s -> next s' = next s ->
     heap s' = <[b := B']> (heap s) ->
     same_but B B' j n ->
     Q tt s') ->
  wp (destroy_n (Ptr b (Z.of_nat j)) (Z.of_nat n)) s Q E.
Proof.
  intros. unfold destroy_n. rewrite Nat2Z.id. by eapply wp_destroy_loop_live.
Qed.

(** Copying a range of objects into raw storage returns or throws, with
    the destination a block of the same length and nothing else changed;
    when it returns the destination range is constructed. *)
Lemma wp_uninitialized_copy_loop_safe n :
  forall (d i j : nat) a b A B s Q (E : exn -> state T -> Prop),
  a <> b ->
  is_copy_constructible = true ->
  heap s !! a = Some A ->
  heap s !! b = Some B ->
  live A (i + d) n ->
  live B j d ->
  vacant B (j + d) n ->
  (forall s' B',
     self s' = self s -> next s' = next s ->
     heap s' = <[b := B']> (heap s) ->
     same_but B B' (j + d) n ->
     live B' (j + d) n ->
     Q tt s') ->
  (forall s' B',
     self s' = self s -> next s' = next s ->
     heap s' = <[b := B']> (heap s) ->
     length B' = length B ->
     E ElemExn s') ->
  wp (uninitialized_copy_loop (Ptr a (Z.of_nat i)) (Ptr b (Z.of_nat j))
        (Z.of_nat d) n) s Q E.
Proof.
  induction n as [|n IH];
    intros d i j a b A B s Q E Hab Hcc Ha Hb HA Hdone Hraw HQ HE; simpl.
  - apply wp_ret. apply (HQ s B); try done.
    + by rewrite insert_id.
    + intros k Hk. lia.
  - destruct (HA (i + d)%nat ltac:(lia)) as [x Hx].
    pose proof (Hraw (j + d)%nat ltac:(lia)) as Hslot.
    assert (Hlt : (j + d < length B)%nat) by by eapply lookup_lt_Some.
    replace (Z.of_nat i + Z.of_nat d) with (Z.of_nat (i + d)) by lia.
    replace (Z.of_nat j + Z.of_nat d) with (Z.of_nat (j + d)) by lia.
    apply wp_bind, wp_unwinding.
    unfold copy_construct. apply wp_bind.
    eapply wp_load; [by eapply get_slot_lookup|]. rewrite Hcc.
    destruct (copy_ctor x) as [y|].
    + apply wp_bind. eapply wp_construct_at_lookup; [done..|].
      apply wp_emit. simp_state.
      replace (Z.of_nat d + 1) with (Z.of_nat (S d)) by lia.
      eapply (IH (S d) i j a b A (<[(j + d)%nat := Obj y]> B)); try done.
      * simpl. by rewrite lookup_insert_ne.
      * simpl. by rewrite lookup_insert_eq.
      * intros k Hk. apply HA. lia.
      * intros k Hk. destruct (decide (k = (j + d)%nat)) as [->|].
        -- exists y. by apply list_lookup_insert_eq.
        -- rewrite list_lookup_insert_ne by done. apply Hdone. lia.
      * apply vacant_insert_other; [|lia]. intros k Hk. apply Hraw. lia.
      * intros s' B' Hself Hnext Hheap Hsame Hlive.
        apply (HQ s' B'); try done.
        -- rewrite Hheap. simpl. by rewrite insert_insert_eq.
        -- replace (j + S d)%nat with (S (j + d)) in Hsame by lia.
           by apply same_but_insert in Hsame.
        -- intros k Hk. destruct (decide (k = (j + d)%nat)) as [->|].
           ++ exists y. destruct Hsame as [_ Hout]. rewrite Hout by lia.
              by apply list_lookup_insert_eq.
           ++ apply Hlive. lia.
      * intros s' B' Hself Hnext Hheap Hlen. apply (HE s' B'); try done.
        -- rewrite Hheap. simpl. by rewrite insert_insert_eq.
        -- by rewrite Hlen, length_insert.
    + apply wp_throw.
      eapply (wp_destroy_n_live d j b B); [done | done |].
      intros s' B' Hself Hnext Hheap [Hlen _]. by apply (HE s' B').
Qed.

(** The same for moving: the source range is left holding objects, in
    their moved-from states as far as the moves went. *)
Lemma wp_uninitialized_move_loop_safe n :
  forall (d i j : nat) a b A B s Q (E : exn -> state T -> Prop),
  a <> b ->
  heap s !! a = Some A ->
  heap s !! b = Some B ->
  live A i (d + n) ->
  live B j d ->
  vacant B (j + d) n ->
  (forall s' A' B',
     self s' = self s -> next s' = next s ->
     heap s' = <[a := A']> (<[b := B']> (heap s)) ->
     same_but A A' (i + d) n -> live A' i (d + n) ->
     same_but B B' (j + d) n -> live B' (j + d) n ->
     Q tt s') ->
  (forall s' A' B',
     self s' = self s -> next s' = next s ->
     heap s' = <[a := A']> (<[b := B']> (heap s)) ->
     same_but A A' (i + d) n -> live A' i (d + n) ->
     length B' = length B ->
     E ElemExn s') ->
  wp (uninitialized_move_loop (Ptr a (Z.of_nat i)) (Ptr b (Z.of_nat j))
        (Z.of_nat d) n) s Q E.
Proof.
  induction n as [|n IH];
    intros d i j a b A B s Q E Hab Ha Hb HA Hdone Hraw HQ HE; simpl.
  - apply wp_ret. apply (HQ s A B); try done.
    + by rewrite !insert_id by (by rewrite ?insert_id).
    + intros k Hk. lia.
  - destruct (HA (i + d)%nat ltac:(lia)) as [x Hx].
    pose proof (Hraw (j + d)%nat ltac:(lia)) as Hslot.
    assert (Hlt : (j + d < length B)%nat) by by eapply lookup_lt_Some.
    assert (Hlta : (i + d < length A)%nat) by by eapply lookup_lt_Some.
    replace (Z.of_nat i + Z.of_nat d) with (Z.of_nat (i + d)) by lia.
    replace (Z.of_nat j + Z.of_nat d) with (Z.of_nat (j + d)) by lia.
    apply wp_bind, wp_unwinding.
    unfold move_construct. apply wp_bind.
    eapply wp_load; [by eapply get_slot_lookup|].
    destruct (move_ctor x) as [y|].
    + apply wp_bind. eapply wp_assign_at_lookup; [done..|]. simp_state.
      apply wp_bind. eapply (wp_construct_at_lookup b (j + d) B).
      { simpl. by rewrite lookup_insert_ne. }
      { done. }
      apply wp_emit. simp_state.
      replace (Z.of_nat d + 1) with (Z.of_nat (S d)) by lia.
      eapply (IH (S d) i j a b (<[(i + d)%nat := Obj (moved_from x)]> A)
                (<[(j + d)%nat := Obj y]> B)); try done.
      * simpl. rewrite lookup_insert_ne by done. by rewrite lookup_insert_eq.
      * simpl. by rewrite lookup_insert_eq.
      * replace (S d + n)%nat with (d + S n)%nat by lia.
        by apply live_insert.
      * intros k Hk. destruct (decide (k = (j + d)%nat)) as [->|].
        -- exists y. by apply list_lookup_insert_eq.
        -- rewrite list_lookup_insert_ne by done. apply Hdone. lia.
      * apply vacant_insert_other; [|lia]. intros k Hk. apply Hraw. lia.
      * intros s' A' B' Hself Hnext Hheap HsameA HliveA HsameB HliveB.
        apply (HQ s' A' B'); try done.
        -- rewrite Hheap. simpl.
           rewrite insert_insert_eq.
           rewrite (insert_insert_ne _ b a) by done.
           rewrite insert_insert_eq.
           by rewrite (insert_insert_ne _ a b) by done.
        -- replace (i + S d)%nat with (S (i + d)) in HsameA by lia.
           by apply same_but_insert in HsameA.
        -- by replace (d + S n)%nat with (S d + n)%nat by lia.
        -- replace (j + S d)%nat with (S (j + d)) in HsameB by lia.
           by apply same_but_insert in HsameB.
        -- intros k Hk. destruct (decide (k = (j + d)%nat)) as [->|].
           ++ exists y. destruct HsameB as [_ Hout]. rewrite Hout by lia.
              by apply list_lookup_insert_eq.
           ++ apply HliveB. lia.
      * intros s' A' B' Hself Hnext Hheap HsameA HliveA Hlen.
        apply (HE s' A' B'); try done.
        -- rewrite Hheap. simpl.
           rewrite insert_insert_eq.
           rewrite (insert_insert_ne _ b a) by done.
           rewrite insert_insert_eq.
           by rewrite (insert_insert_ne _ a b) by done.
        -- replace (i + S d)%nat with (S (i + d)) in HsameA by lia.
           by apply same_but_insert in HsameA.
        -- by replace (d + S n)%nat with (S d + n)%nat by lia.
        -- by rewrite Hlen, length_insert.
    + apply wp_throw.
      eapply (wp_destroy_n_live d j b B); [done | done |].
      intros s' B' Hself Hnext Hheap [Hlen _].
      apply (HE s' A B'); try done.
      * rewrite Hheap. symmetry. apply insert_id.
        by rewrite lookup_insert_ne.
Qed.

Lemma wp_MoveOrCopy_safe (n i j : nat) a b A B s Q
    (E : exn -> state T -> Prop) :
  a <> b ->
  heap s !! a = Some A ->
  heap s !! b = Some B ->
  live A i n ->
  vacant B j n ->
  (forall s' A' B',
     self s' = self s -> next s' = next s ->
     heap s' = <[a := A']> (<[b := B']> (heap s)) ->
     same_but A A' i n -> live A' i n ->
     same_but B B' j n -> live B' j n ->
     Q tt s') ->
  (forall s' A' B',
     self s' = self s -> next s' = next s ->
     heap s' = <[a := A']> (<[b := B']> (heap s)) ->
     same_but A A' i n -> live A' i n ->
     length B' = length B ->
     E ElemExn s') ->
  wp (MoveOrCopy (Ptr a (Z.of_nat i)) (Z.of_nat n) (Ptr b (Z.of_nat j)))
     s Q E.
Proof.
  intros Hab Ha Hb HA Hraw HQ HE. unfold MoveOrCopy.
  assert (Hnone : live B j 0) by (intros k Hk; lia).
  destruct relocates eqn:Hrel.
  - unfold uninitialized_move_n. rewrite Nat2Z.id.
    change 0 with (Z.of_nat 0).
    eapply (wp_uninitialized_move_loop_safe n 0 i j a b A B); try done.
    + by rewrite Nat.add_0_r.
    + intros s' A' B'. rewrite !Nat.add_0_r. apply HQ.
    + intros s' A' B'. rewrite !Nat.add_0_r. apply HE.
  - assert (Hcc : is_copy_constructible = true).
    { unfold relocates in Hrel.
      destruct is_nothrow_move_constructible, is_copy_constructible; done. }
    assert (Hid : forall s' B',
              heap s' = <[b := B']> (heap s) ->
              heap s' = <[a := A]> (<[b := B']> (heap s))).
    { intros s' B' ->. symmetry. apply insert_id.
      by rewrite lookup_insert_ne. }
    unfold uninitialized_copy_n. rewrite Nat2Z.id.
    change 0 with (Z.of_nat 0).
    eapply (wp_uninitialized_copy_loop_safe n 0 i j a b A B); try done.
    + by rewrite Nat.add_0_r.
    + by rewrite Nat.add_0_r.
    + intros s' B'. rewrite !Nat.add_0_r. intros ? ? Hheap ? ?.
      apply (HQ s' A B'); auto. done.
    + intros s' B' ? ? Hheap ?. apply (HE s' A B'); auto. done.
Qed.

Lemma load_of_slot p x s :
  get_slot (heap s) p = Some (Obj x) -> load p s = Ret x s.
Proof. intros Hp. unfold load, bind, read_slot. by rewrite Hp. Qed.

(** [EmplaceBack] of a value on a full vector, for any element type: it
    returns or throws, never goes wrong; when it returns, the vector has
    the new buffer with the size one more, and the slot at the old size
    holds the value. *)
Lemma EmplaceBack_safe xs x s :
  represents s xs ->
  size_ (self s) = capacity_ (data_ (self s)) ->
  can_allocate (grown_capacity (size_ (self s))) = true ->
  let b := next s in
  let cap := grown_capacity (size_ (self s)) in
  wp (EmplaceBack (Some x)) s
    (fun r s' =>
       r = Ptr b (size_ (self s)) /\
       self s'
       = mkVector (mkRawMemory (Ptr b 0) cap) (size_ (self s) + 1) /\
       load r s' = Ret x s')
    (fun e s' => e = ElemExn /\ self s' = self s).
Proof.
  intros [Hfresh (Hsize & Hcap & Hbuf)] Hfull Hcan b cap.
  assert (Hlt : 0 <= size_ (self s) <= PTRDIFF_MAX) by lia.
  assert (Hcapv : cap = Z.max 1 (2 * size_ (self s)))
    by by apply grown_capacity_spec.
  assert (Hb : heap s !! b = None) by by apply Hfresh.
  unfold EmplaceBack.
  apply wp_bind, wp_get_self. simp_state.
  rewrite <- Hfull, Z.eqb_refl.
  change (can_allocate cap = true) in Hcan.
  apply wp_bind, wp_RawMemory_ctor; [fold cap; lia|]. fold cap b.
  rewrite Hcan. simp_state.
  apply wp_bind, wp_unwinding, wp_bind. rewrite Z.add_0_l.
  eapply (wp_emplace_new b _ (replicate (length xs) Raw)
            (replicate (Z.to_nat cap - length xs - 1) Raw)).
  { simp_state. rewrite lookup_insert_eq. f_equal.
    apply replicate_split. lia. }
  { rewrite length_replicate. lia. }
  simp_state. rewrite insert_insert_eq.
  set (B0 := replicate (length xs) Raw
               ++ Obj x :: replicate (Z.to_nat cap - length xs - 1) Raw).
  assert (HB0 : B0 !! length xs = Some (Obj x)).
  { unfold B0. rewrite lookup_app_r by (by rewrite length_replicate).
    by rewrite length_replicate, Nat.sub_diag. }
  destruct (buffer_ (data_ (self s))) as [|a off] eqn:Ha.
  - assert (Hz : size_ (self s) = 0) by lia.
    destruct xs; [|simpl in Hsize; lia]. rewrite Hz. simpl.
    apply wp_MoveOrCopy_0, wp_bind, wp_destroy_n_0.
    apply wp_bind, wp_set_data, wp_bind, wp_set_size. simp_state.
    apply wp_bind, wp_get_self. simp_state.
    rewrite !size_t_wrap_small by done.
    apply wp_bind, wp_RawMemory_index; [simpl; lia|].
    apply wp_bind, wp_RawMemory_dtor_null; [by rewrite Ha|].
    apply wp_ret. split; [done|]. split; [done|].
    apply load_of_slot. simpl. by rewrite lookup_insert_eq.
  - destruct Hbuf as (-> & Hpos & Hblock).
    rewrite cells_of_full, app_nil_r in Hblock by lia.
    assert (Hab : a <> b) by by eapply fresh_not_owned.
    rewrite Hsize. change 0 with (Z.of_nat 0).
    eapply (wp_MoveOrCopy_safe (length xs) 0 0 a b (Obj <$> xs) B0).
    { done. }
    { heap_lookup. }
    { heap_lookup. }
    { intros k Hk. destruct (lookup_lt_is_Some_2 xs k) as [y Hy]; [lia|].
      exists y. by rewrite list_lookup_fmap, Hy. }
    { intros k Hk. unfold B0.
      rewrite lookup_app_l by (rewrite length_replicate; lia).
      apply lookup_replicate_2. lia. }
    + intros s1 A' B' Hself1 Hnext1 Hheap1 _ HliveA [HlenB HoutB] _.
      simpl in Hself1, Hnext1, Hheap1.
      apply wp_bind.
      eapply (wp_destroy_n_live (length xs) 0 a A'); [|done|].
      { rewrite Hheap1. by rewrite lookup_insert_eq. }
      intros s2 A'' Hself2 Hnext2 Hheap2 _.
      apply wp_bind, wp_set_data, wp_bind, wp_set_size. simp_state.
      apply wp_bind, wp_get_self. simp_state.
      rewrite <- Hsize.
      rewrite (size_t_wrap_small (size_ (self s) + 1))
        by (unfold PTRDIFF_MAX in *; lia).
      rewrite size_t_wrap_small by (unfold PTRDIFF_MAX in *; lia).
      apply wp_bind, wp_RawMemory_index; [simpl; lia|].
      apply wp_bind.
      eapply (wp_RawMemory_dtor _ a); [done | |].
      { simpl. rewrite Hheap2. by rewrite lookup_insert_eq. }
      simp_state. apply wp_ret.
      split; [f_equal; lia|]. split; [done|].
      apply load_of_slot. simpl.
      replace (size_ (self s) + 1 - 1) with (Z.of_nat (length xs)) by lia.
      eapply get_slot_lookup.
      * rewrite lookup_delete_ne by done. rewrite Hheap2.
        rewrite lookup_insert_ne by done. rewrite Hheap1.
        rewrite lookup_insert_ne by done. simpl. heap_lookup.
      * rewrite HoutB by lia. done.
    + intros s1 A' B' Hself1 Hnext1 Hheap1 _ _ HlenB.
      simpl in Hself1, Hnext1, Hheap1.
      eapply (wp_RawMemory_dtor _ b); [done | |].
      { rewrite Hheap1. rewrite lookup_insert_ne by done.
        heap_lookup. }
      by rewrite Hself1.
Qed.

Lemma wp_and_wlp {R : Type} (m : M T R) s
    (Q Q' : R -> state T -> Prop) (E E' : exn -> state T -> Prop) :
  wp m s Q E -> wlp m s Q' E' ->
  wp m s (fun a s' => Q a s' /\ Q' a s') (fun e s' => E e s' /\ E' e s').
Proof. unfold wp, wlp. by destruct (m s). Qed.

End Safety.

(** ** C1 *)

(** C1: with [Size() == Capacity()] (and the memory source granting the
    doubled buffer), [EmplaceBack] whose element constructor throws, and
    [PushBack] whose copy or move of the value throws, propagate the
    exception with the members of the vector and the whole heap exactly
    as before the call: the only events are the allocation and the
    release of the new buffer.  When the constructor succeeds,
    [EmplaceBack] and both [PushBack]s return or throw, for any element
    type; however they end, the log of the call begins with the
    allocation of the buffer of capacity [max(1, 2 * capacity)] and the
    construction of the new element at index [Size()] of it, ahead of
    every migration; and when they return, the vector has that buffer,
    the size is one more, and the slot at index [Size()] holds the new
    element. *)
Theorem emplace_back_strong_guarantee {T} `{ET : Elem T} `{MS : MemorySource}
    (s : state T) (xs : list T) :
  represents s xs ->
  size_of s = capacity_of s ->
  can_allocate (grown_capacity (size_of s)) = true ->
  let b := next s in
  let cap := grown_capacity (size_of s) in
  let constructed_first (s' : state T) :=
    exists rest,
      log s' = log s ++ [EvAlloc b cap; EvConstruct (Ptr b (size_of s))]
                 ++ rest in
  let in_final_slot (x : T) (s' : state T) :=
    buffer_ (data_ (self s')) = Ptr b 0 /\
    capacity_of s' = cap /\
    size_of s' = size_of s + 1 /\
    load (Ptr b (size_of s)) s' = Ret x s' in
  cap = Z.max 1 (2 * capacity_of s) /\
  (exists s',
     EmplaceBack None s = Throw ElemExn s' /\
     (forall value, is_copy_constructible = true -> copy_ctor value = None ->
        PushBack_copy value s = Throw ElemExn s') /\
     (forall value, move_ctor value = None ->
        PushBack_move value s = Throw ElemExn s') /\
     self s' = self s /\ heap s' = heap s /\ represents s' xs /\
     log s' = log s ++ [EvAlloc b cap; EvFree b]) /\
  (forall x,
     wp (EmplaceBack (Some x)) s
       (fun r s' =>
          r = Ptr b (size_of s) /\ constructed_first s' /\
          in_final_slot x s')
       (fun e s' =>
          e = ElemExn /\ constructed_first s' /\ self s' = self s)) /\
  (forall value x,
     is_copy_constructible = true -> copy_ctor value = Some x ->
     wp (PushBack_copy value) s
       (fun _ s' => constructed_first s' /\ in_final_slot x s')
       (fun e s' =>
          e = ElemExn /\ constructed_first s' /\ self s' = self s)) /\
  (forall value x,
     move_ctor value = Some x ->
     wp (PushBack_move value) s
       (fun _ s' => constructed_first s' /\ in_final_slot x s')
       (fun e s' =>
          e = ElemExn /\ constructed_first s' /\ self s' = self s)).
Proof.
  intros Hrep Hfull Hcan b cap constructed_first in_final_slot.
  unfold size_of, capacity_of in *.
  pose proof Hrep as [Hfresh (Hsize & Hcap & Hbuf)].
  assert (Hpush : forall x,
    wp (EmplaceBack (Some x)) s
      (fun r s' =>
         r = Ptr b (size_ (self s)) /\ constructed_first s' /\
         in_final_slot x s')
      (fun e s' =>
         e = ElemExn /\ constructed_first s' /\ self s' = self s)).
  { intros x.
    eapply wp_mono;
      [exact (wp_and_wlp _ _ _ _ _ _
                (EmplaceBack_safe xs x s Hrep Hfull Hcan)
                (EmplaceBack_constructs_first xs x s Hrep Hfull Hcan)) | |].
    - intros r s' [(-> & Hself & Hload) Hlog].
      split; [done|]. split; [exact Hlog|].
      unfold in_final_slot, size_of, capacity_of. by rewrite Hself.
    - intros e s' [(-> & Hself) Hlog]. done. }
  split; [|split; [|split; [|split]]].
  - subst cap. rewrite <- Hfull. apply grown_capacity_spec. lia.
  - pose proof (EmplaceBack_construction_fails xs s Hrep Hfull Hcan) as Hthrow.
    eexists. split; [exact Hthrow|]. split; [|split].
    + intros value Hcc Hvalue. unfold PushBack_copy, bind.
      by rewrite Hcc, Hvalue, Hthrow.
    + intros value Hvalue. unfold PushBack_move, bind.
      by rewrite Hvalue, Hthrow.
    + split; [done|]. split; [done|]. split; [|done].
      apply represents_bookkeeping; [done | simpl; lia].
  - exact Hpush.
  - intros value x Hcc Hvalue. unfold PushBack_copy. rewrite Hcc, Hvalue.
    apply wp_bind. eapply wp_mono; [apply (Hpush x) | |].
    + intros r s' (_ & ? & ?). by apply wp_ret.
    + done.
  - intros value x Hvalue. unfold PushBack_move. rewrite Hvalue.
    apply wp_bind. eapply wp_mono; [apply (Hpush x) | |].
    + intros r s' (_ & ? & ?). by apply wp_ret.
    + done.
Qed.

(** ** C2 *)

Lemma log2_up_step_full k :
  0 < k -> k = 2 ^ Z.log2_up k -> 2 * k = 2 ^ Z.log2_up (k + 1).
Proof.
  intros Hk Hpow.
  assert (0 <= Z.log2_up k) by apply Z.log2_up_nonneg.
  replace (k + 1) with (Z.succ (2 ^ Z.log2_up k)) by lia.
  rewrite (Z.log2_up_succ_pow2 (Z.log2_up k)) by done.
  rewrite Z.pow_succ_r by done. lia.
Qed.

Lemma log2_up_step_room k :
  0 < k -> k < 2 ^ Z.log2_up k -> Z.log2_up (k + 1) = Z.log2_up k.
Proof.
  intros Hk Hlt. apply Z.le_antisymm.
  - apply Z.log2_up_le_pow2; lia.
  - apply Z.log2_up_le_mono. lia.
Qed.

Lemma doubled_capacity_fits (k : nat) : Z.of_nat k <= doubled_capacity k.
Proof.
  unfold doubled_capacity. destruct (decide (k = 0%nat)) as [->|]; [done|].
  destruct (decide (k = 1%nat)) as [->|]; [done|].
  apply Z.log2_up_spec. lia.
Qed.

Lemma doubled_capacity_bound (k : nat) : doubled_capacity k <= 2 * Z.of_nat k.
Proof.
  unfold doubled_capacity. destruct (decide (k = 0%nat)) as [->|]; [done|].
  destruct (decide (k = 1%nat)) as [->|]; [done|].
  pose proof (Z.log2_up_spec (Z.of_nat k) ltac:(lia)) as [Hlo _].
  assert (0 < Z.log2_up (Z.of_nat k)) by (apply Z.log2_up_pos; lia).
  replace (Z.log2_up (Z.of_nat k))
    with (Z.succ (Z.pred (Z.log2_up (Z.of_nat k)))) by lia.
  rewrite Z.pow_succ_r by lia. lia.
Qed.

Lemma doubled_capacity_succ (k : nat) :
  doubled_capacity (S k)
  = (if Z.of_nat k =? doubled_capacity k
     then Z.max 1 (2 * doubled_capacity k)
     else doubled_capacity k).
Proof.
  pose proof (doubled_capacity_fits k) as Hfit.
  unfold doubled_capacity in *.
  destruct (decide (S k = 0%nat)); [done|].
  destruct (decide (k = 0%nat)) as [->|Hk]; [done|].
  rewrite Nat2Z.inj_succ, <- Z.add_1_r.
  assert (0 < 2 ^ Z.log2_up (Z.of_nat k))
    by (apply Z.pow_pos_nonneg; [lia | apply Z.log2_up_nonneg]).
  destruct (Z.eqb_spec (Z.of_nat k) (2 ^ Z.log2_up (Z.of_nat k))) as [Heq|Hne].
  - rewrite <- log2_up_step_full by lia. lia.
  - by rewrite log2_up_step_room by lia.
Qed.

Lemma push_all_doubles {T} `{ET : Elem T} `{MS : MemorySource} `{!Regular T}
    (push : T -> M T unit) (ys : list T) :
  (forall x s, push x s = discard (EmplaceBack (Some x)) s) ->
  forall (s : state T) xs,
  represents s xs ->
  capacity_of s = doubled_capacity (length xs) ->
  (forall n, 0 < n <= 2 * Z.of_nat (length xs + length ys) ->
     can_allocate n = true) ->
  exists s',
    push_all push ys s = Ret tt s' /\
    represents s' (xs ++ ys) /\
    capacity_of s' = doubled_capacity (length (xs ++ ys)).
Proof.
  intros Hpush. induction ys as [|y ys IH]; intros s xs Hrep Hcap Hcan.
  - exists s. rewrite app_nil_r. done.
  - simpl in Hcan |- *.
    assert (Hsz : size_of s = Z.of_nat (length xs)) by apply Hrep.
    pose proof (doubled_capacity_bound (length xs)) as Hbound.
    pose proof (doubled_capacity_fits (length xs)) as Hfit.
    destruct (EmplaceBack_spec s xs y Hrep) as (r & s1 & Hrun & _ & _ & Hc1 & Hrep1).
    { intros Hfull. apply Hcan. rewrite grown_capacity_spec.
      - rewrite Hsz. lia.
      - rewrite Hsz. destruct Hrep as [_ (? & ? & _)].
        unfold capacity_of in *. lia. }
    destruct (IH s1 (xs ++ [y]) Hrep1) as (s' & Hrun' & Hrep' & Hcap').
    + rewrite Hc1, Hsz, Hcap, length_app, Nat.add_1_r.
      rewrite doubled_capacity_succ.
      destruct (Z.eqb_spec (Z.of_nat (length xs))
                  (doubled_capacity (length xs))) as [Heq|]; [|done].
      rewrite grown_capacity_spec, <- Heq; [done|].
      destruct Hrep as [_ (? & ? & _)]. unfold capacity_of in *. lia.
    + intros n Hn. apply Hcan. rewrite length_app in Hn. simpl in Hn. lia.
    + exists s'. rewrite <- app_assoc in Hrep', Hcap'. simpl in *.
      split; [|done]. unfold bind. rewrite Hpush. unfold discard, bind.
      by rewrite Hrun.
Qed.

(** C2: for a regular element type and a vector with
    [Size() == Capacity()] (the memory source granting the request),
    [EmplaceBack], both [PushBack]s, [Emplace] and both [Insert]s return
    with capacity [max(1, 2 * old capacity)] and the new element in place;
    and pushing any sequence of values into an empty vector ends with the
    capacity the least power of two that holds them, so that the
    capacities passed through are 1, 2, 4, 8, ... *)
Theorem growth_doubles_capacity {T} `{ET : Elem T} `{MS : MemorySource} :
  Regular T ->
  (forall (s : state T) xs,
     represents s xs ->
     size_of s = capacity_of s ->
     can_allocate (Z.max 1 (2 * capacity_of s)) = true ->
     let grown := Z.max 1 (2 * capacity_of s) in
     (forall x, exists r s',
        EmplaceBack (Some x) s = Ret r s' /\
        capacity_of s' = grown /\ represents s' (xs ++ [x])) /\
     (forall x, exists s',
        PushBack_move x s = Ret tt s' /\
        capacity_of s' = grown /\ represents s' (xs ++ [x])) /\
     (forall x, is_copy_constructible = true -> exists s',
        PushBack_copy x s = Ret tt s' /\
        capacity_of s' = grown /\ represents s' (xs ++ [x])) /\
     (forall x (p : nat), (p <= length xs)%nat ->
        let pos := ptr_add (buffer_ (data_ (self s))) (Z.of_nat p) in
        exists r s',
          Emplace pos (Some x) s = Ret r s' /\
          Insert_move pos (Outside x) s = Ret r s' /\
          (is_copy_constructible = true ->
           Insert_copy pos (Outside x) s = Ret r s') /\
          capacity_of s' = grown /\ represents s' (insert_at p x xs))) /\
  (forall ys : list T,
     (forall n, 0 < n <= 2 * Z.of_nat (length ys) -> can_allocate n = true) ->
     exists s',
       push_all PushBack_move ys initial_state = Ret tt s' /\
       (is_copy_constructible = true ->
        push_all PushBack_copy ys initial_state = Ret tt s') /\
       represents s' ys /\
       capacity_of s' = doubled_capacity (length ys)).
Proof.
  intros Hreg. split.
  - intros s xs Hrep Hfull Hcan grown.
    assert (Hgrown : grown_capacity (size_of s) = grown).
    { unfold grown. rewrite Hfull. apply grown_capacity_spec.
      destruct Hrep as [_ (? & ? & _)]. unfold size_of, capacity_of in *. lia. }
    change (can_allocate grown = true) in Hcan. clearbody grown.
    rewrite <- Hgrown in Hcan.
    assert (Hback : forall x, exists r s',
      EmplaceBack (Some x) s = Ret r s' /\
      capacity_of s' = grown /\ represents s' (xs ++ [x])).
    { intros x.
      destruct (EmplaceBack_spec s xs x Hrep) as (r & s' & Hrun & _ & _ & Hc & Hr);
        [done|].
      exists r, s'. rewrite Hfull, Z.eqb_refl, <- Hfull, Hgrown in Hc. done. }
    split; [exact Hback|]. split; [|split].
    + intros x. destruct (Hback x) as (r & s' & Hrun & Hc & Hr).
      exists s'. split; [|done]. unfold PushBack_move, bind.
      by rewrite regular_move_ctor, Hrun.
    + intros x Hcc. destruct (Hback x) as (r & s' & Hrun & Hc & Hr).
      exists s'. split; [|done]. unfold PushBack_copy, bind.
      by rewrite Hcc, regular_copy_ctor, Hrun.
    + intros x p Hp pos.
      destruct (Emplace_spec s xs x p Hrep Hp Hcan)
        as (r & s' & Hrun & _ & _ & Hc & Hr).
      exists r, s'. rewrite Hfull, Z.eqb_refl, <- Hfull, Hgrown in Hc.
      split; [done|]. split; [|split; [|done]].
      * rewrite Insert_move_outside. by rewrite regular_move_ctor.
      * intros Hcc. rewrite Insert_copy_outside.
        by rewrite Hcc, regular_copy_ctor.
  - intros ys Hcan.
    assert (Hinit : represents (T:=T) initial_state []).
    { split; [intros a _; apply lookup_empty|]. by repeat split. }
    destruct (push_all_doubles PushBack_move ys) with (s := initial_state (T:=T))
      (xs := @nil T) as (s' & Hrun & Hrep & Hcap); try done.
    { intros x s. unfold PushBack_move, discard. by rewrite regular_move_ctor. }
    exists s'. split; [done|]. split; [|done].
    intros Hcc.
    destruct (push_all_doubles PushBack_copy ys) with (s := initial_state (T:=T))
      (xs := @nil T) as (s'' & Hrun' & _); try done.
    { intros x s. unfold PushBack_copy, discard.
      by rewrite Hcc, regular_copy_ctor. }
    rewrite Hrun'. f_equal.
    clear -Hrun Hrun' Hcc Hreg.
    assert (Hpush : forall x (s0 : state T),
      PushBack_copy x s0 = PushBack_move x s0).
    { intros x s0. unfold PushBack_copy, PushBack_move.
      by rewrite Hcc, regular_copy_ctor, regular_move_ctor. }
    assert (Hsame : forall l (s0 : state T),
      push_all PushBack_copy l s0 = push_all PushBack_move l s0).
    { induction l as [|x l IH]; intros s0; [done|]. simpl. unfold bind.
      rewrite Hpush. by destruct (PushBack_move x s0). }
    rewrite Hsame, Hrun in Hrun'. by injection Hrun'.
Qed.


(** ** The scenario states *)

Lemma plenty_can_allocate {T} `{ET : Elem T} n :
  0 <= n -> n * sizeof_T <= PTRDIFF_MAX ->
  can_allocate (MS:=plenty) n = true.
Proof.
  intros Hn Hmax. pose proof sizeof_T_pos as Hpos.
  unfold can_allocate, granted, request_bytes, size_t_wrap. simpl.
  rewrite Z.mod_small by (unfold PTRDIFF_MAX in Hmax; split; [nia | lia]).
  rewrite Z.eqb_refl. by apply Z.leb_le.
Qed.

Lemma int_regular : @Regular Z int_elem.
Proof. split; simpl; eauto. Qed.

Lemma unique_regular : @Regular (option Z) unique_elem.
Proof. split; simpl; eauto; discriminate. Qed.

Lemma unique_pair_eq :
  unique_pair
  = mkState (mkVector (mkRawMemory (Ptr 1%nat 0) 2) 2)
      (<[1%nat := [Obj (Some 1); Obj (Some 2)]]> ∅) 2%nat
      [EvAlloc 0%nat 1; EvConstruct (Ptr 0%nat 0); EvAlloc 1%nat 2;
       EvConstruct (Ptr 1%nat 1); EvMoveCtor (Ptr 0%nat 0) (Ptr 1%nat 0);
       EvDestroy (Ptr 0%nat 0); EvFree 0%nat].
Proof. vm_compute. reflexivity. Qed.

Lemma unique_pair_represents : represents unique_pair [Some 1; Some 2].
Proof.
  rewrite unique_pair_eq. split.
  - intros a Ha. cbn in *. rewrite lookup_insert_ne by lia. apply lookup_empty.
  - split; [reflexivity|]. split; [cbn; unfold PTRDIFF_MAX; lia|].
    cbn. split; [reflexivity|]. split; [lia|]. by rewrite lookup_insert_eq.
Qed.

(** ** C3 *)

(** C3: for a regular element type, the migrations of [Reserve] and of
    the growth paths of [EmplaceBack] and [Emplace] log move constructions
    exactly when the type is nothrow-move-constructible or not
    copy-constructible, and copy constructions otherwise.  For any element
    type migrated by copy, a copy that throws makes the three operations
    throw with the members of the vector and the heap as before the call.
    [EmplaceBack] on the two move-only handles at capacity 2 returns with
    capacity 4, the handles moved and none copied. *)
Theorem migration_moves_or_copies :
  (forall T (ET : Elem T) (MS : MemorySource) (s : state T) xs,
     Regular T ->
     represents s xs ->
     let old := buffer_ (data_ (self s)) in
     let b := next s in
     let migrate :=
       if is_nothrow_move_constructible || negb is_copy_constructible
       then EvMoveCtor else EvCopyCtor in
     (forall n, capacity_of s < n -> can_allocate n = true ->
        exists s',
          Reserve n s = Ret tt s' /\
          log s'
          = log s ++ [EvAlloc b n]
              ++ transfer_events migrate old (Ptr b 0) (length xs)
              ++ range_events EvDestroy old (length xs)
              ++ release_events old) /\
     (size_of s = capacity_of s ->
      can_allocate (grown_capacity (size_of s)) = true ->
      let cap := grown_capacity (size_of s) in
      (forall x, exists r s',
         EmplaceBack (Some x) s = Ret r s' /\
         log s'
         = log s ++ [EvAlloc b cap; EvConstruct (Ptr b (size_of s))]
             ++ transfer_events migrate old (Ptr b 0) (length xs)
             ++ range_events EvDestroy old (length xs)
             ++ release_events old) /\
      (forall x (p : nat), (p <= length xs)%nat -> exists r s',
         Emplace (ptr_add old (Z.of_nat p)) (Some x) s = Ret r s' /\
         log s'
         = log s ++ [EvAlloc b cap; EvConstruct (Ptr b (Z.of_nat p))]
             ++ transfer_events migrate old (Ptr b 0) p
             ++ transfer_events migrate (ptr_add old (Z.of_nat p))
                  (Ptr b (Z.of_nat p + 1)) (length xs - p)
             ++ range_events EvDestroy old (length xs)
             ++ release_events old))) /\
  (forall T (ET : Elem T) (MS : MemorySource) (s : state T) xs,
     represents s xs ->
     is_nothrow_move_constructible = false ->
     is_copy_constructible = true ->
     Exists (fun x => copy_ctor x = None) xs ->
     (forall n, capacity_of s < n -> can_allocate n = true ->
        exists s',
          Reserve n s = Throw ElemExn s' /\
          self s' = self s /\ heap s' = heap s) /\
     (size_of s = capacity_of s ->
      can_allocate (grown_capacity (size_of s)) = true ->
      (forall x, exists s',
         EmplaceBack (Some x) s = Throw ElemExn s' /\
         self s' = self s /\ heap s' = heap s) /\
      (forall x (p : nat), (p <= length xs)%nat -> exists s',
         Emplace (ptr_add (buffer_ (data_ (self s))) (Z.of_nat p)) (Some x) s
         = Throw ElemExn s' /\
         self s' = self s /\ heap s' = heap s))) /\
  (size_of unique_pair = 2 /\ capacity_of unique_pair = 2 /\
   represents unique_pair [Some 1; Some 2] /\
   exists r s',
     EmplaceBack (ET:=unique_elem) (MS:=plenty) (Some (Some 3)) unique_pair
     = Ret r s' /\
     capacity_of s' = 4 /\ size_of s' = 3 /\
     represents s' [Some 1; Some 2; Some 3] /\
     log s'
     = log unique_pair
         ++ [EvAlloc 2%nat 4; EvConstruct (Ptr 2%nat 2);
             EvMoveCtor (Ptr 1%nat 0) (Ptr 2%nat 0);
             EvMoveCtor (Ptr 1%nat 1) (Ptr 2%nat 1);
             EvDestroy (Ptr 1%nat 0); EvDestroy (Ptr 1%nat 1);
             EvFree 1%nat]).
Proof.
  split; [|split].
  - intros T ET MS s xs Hreg Hrep old b migrate. unfold size_of, capacity_of.
    split.
    + intros n Hn Hcan. eexists. split; [by apply (Reserve_grow xs)|].
      reflexivity.
    + intros Hfull Hcan. split.
      * intros x. eexists _, _. split; [by apply (EmplaceBack_full xs)|].
        reflexivity.
      * intros x p Hp. eexists _, _.
        split; [by apply (Emplace_full xs)|]. reflexivity.
  - intros T ET MS s xs Hrep Hnt Hcc Hex. unfold size_of, capacity_of.
    assert (Hrel : relocates = false)
      by (unfold relocates; by rewrite Hnt, Hcc).
    split.
    + intros n Hn Hcan.
      destruct (Reserve_copy_fails xs n s Hrep Hrel Hn Hcan Hex) as [evs ->].
      by eexists.
    + intros Hfull Hcan. split.
      * intros x.
        destruct (EmplaceBack_copy_fails xs x s Hrep Hrel Hfull Hcan Hex)
          as [evs ->].
        by eexists.
      * intros x p Hp.
        destruct (Emplace_copy_fails xs x p s Hrep Hrel Hfull Hcan Hp Hex)
          as [evs ->].
        by eexists.
  - pose proof unique_pair_represents as Hrep.
    split; [by rewrite unique_pair_eq|]. split; [by rewrite unique_pair_eq|].
    split; [done|].
    destruct (EmplaceBack_spec (ET:=unique_elem) (MS:=plenty)
                (Regular0:=unique_regular) unique_pair _ (Some 3) Hrep)
      as (r & s' & Hrun & _ & Hsz & Hcap & Hrep').
    { rewrite unique_pair_eq. reflexivity. }
    exists r, s'. split; [done|].
    split; [rewrite Hcap, unique_pair_eq; reflexivity|].
    split; [rewrite Hsz, unique_pair_eq; reflexivity|]. split; [done|].
    rewrite unique_pair_eq in Hrun |- *.
    vm_compute in Hrun. injection Hrun as _ <-. reflexivity.
Qed.

(** ** Insertion and erasure *)

Section Positions.
Context {T : Type} `{ET : Elem T} `{MS : MemorySource} `{!Regular T}.
Implicit Types (s : state T) (xs : list T).

Lemma insert_at_length (p : nat) x xs :
  (p <= length xs)%nat -> length (insert_at p x xs) = S (length xs).
Proof.
  intros Hp. unfold insert_at. rewrite length_app. simpl.
  rewrite length_take, length_drop. lia.
Qed.

Lemma insert_at_lookup (p : nat) x xs :
  (p <= length xs)%nat -> insert_at p x xs !! p = Some x.
Proof.
  intros Hp. unfold insert_at.
  rewrite lookup_app_r by (rewrite length_take; lia).
  rewrite length_take. by replace (p - p `min` length xs)%nat with 0%nat by lia.
Qed.

Lemma delete_insert_at (p : nat) x xs :
  (p <= length xs)%nat -> delete p (insert_at p x xs) = xs.
Proof.
  intros Hp. unfold insert_at.
  rewrite delete_take_drop.
  rewrite take_app_le by (rewrite length_take; lia).
  rewrite take_take, Nat.min_id.
  rewrite drop_app_ge by (rewrite length_take; lia).
  rewrite length_take.
  replace (S p - p `min` length xs)%nat with 1%nat by lia.
  simpl. rewrite drop_0. apply take_drop.
Qed.

Lemma insert_at_delete (p : nat) x xs :
  xs !! p = Some x -> insert_at p x (delete p xs) = xs.
Proof.
  intros Hx. assert (p < length xs)%nat by by eapply lookup_lt_Some.
  unfold insert_at. rewrite delete_take_drop.
  rewrite take_app_le by (rewrite length_take; lia).
  rewrite take_take, Nat.min_id.
  rewrite drop_app_ge by (rewrite length_take; lia).
  rewrite length_take.
  replace (p - p `min` length xs)%nat with 0%nat by lia.
  rewrite drop_0. by apply take_drop_middle.
Qed.

(** [Erase] of the element at position [p]. *)
Lemma Erase_at s xs (p : nat) d :
  represents s xs ->
  xs !! p = Some d ->
  exists a s',
    buffer_ (data_ (self s)) = Ptr a 0 /\
    Erase (Ptr a (Z.of_nat p)) s = Ret (Ptr a (Z.of_nat p)) s' /\
    data_ (self s') = data_ (self s) /\
    size_of s' = size_of s - 1 /\
    represents s' (delete p xs) /\
    log s'
    = log s
        ++ pair_events EvMoveAssign a (Z.of_nat p + 1) a (Z.of_nat p) 0
             (length xs - p - 1)
        ++ [EvDestroy (Ptr a (size_of s - 1))].
Proof.
  intros Hrep Hd.
  assert (Hp : (p < length xs)%nat) by by eapply lookup_lt_Some.
  destruct (represents_nonempty s xs Hrep) as [a Ha].
  { intros ->. simpl in Hp. lia. }
  exists a. eexists. split; [done|].
  split; [by apply (Erase_spec xs p d)|].
  split; [done|]. split; [done|]. split; [|done].
  pose proof Hrep as [_ (Hsize & Hcap & _)].
  apply (represents_same_block s xs); [done | done | | lia | done].
  rewrite length_delete by done. lia.
Qed.

Lemma Insert_move_eq pos x s :
  Insert_move pos (Outside x) s = Emplace pos (Some x) s.
Proof. rewrite Insert_move_outside. by rewrite regular_move_ctor. Qed.

Lemma Insert_copy_eq pos x s :
  is_copy_constructible = true ->
  Insert_copy pos (Outside x) s = Emplace pos (Some x) s.
Proof.
  intros Hcc. rewrite Insert_copy_outside. rewrite Hcc.
  by rewrite regular_copy_ctor.
Qed.

End Positions.

(** ** Insertion and erasure of values held outside *)

(** X29: for a regular element type and a vector holding [xs], [Insert]
    of a value [x] held outside the heap of blocks, at a position
    [p <= length xs] (the scratch allocation being granted), returns the
    position of the new element, with the size one more, [x] at index [p]
    and the other elements in their order before and after it; [Erase] at
    the returned position gives back the size and the sequence [xs].
    Conversely [Erase] of the element at [p] followed by [Insert] of its
    value at [p] gives back [xs]. *)
Theorem insert_erase_round_trip {T} `{ET : Elem T} `{MS : MemorySource}
    (s : state T) (xs : list T) :
  Regular T ->
  represents s xs ->
  let at_ (s : state T) (p : nat) :=
    ptr_add (buffer_ (data_ (self s))) (Z.of_nat p) in
  (forall (p : nat) x,
     (p <= length xs)%nat ->
     can_allocate (grown_capacity (size_of s)) = true ->
     exists s1,
       Insert_move (at_ s p) (Outside x) s = Ret (at_ s1 p) s1 /\
       (is_copy_constructible = true ->
        Insert_copy (at_ s p) (Outside x) s = Ret (at_ s1 p) s1) /\
       size_of s1 = size_of s + 1 /\
       represents s1 (insert_at p x xs) /\
       insert_at p x xs !! p = Some x /\
       take p (insert_at p x xs) = take p xs /\
       drop (S p) (insert_at p x xs) = drop p xs /\
       exists s2,
         Erase (at_ s1 p) s1 = Ret (at_ s1 p) s2 /\
         size_of s2 = size_of s /\
         represents s2 xs) /\
  (forall (p : nat) x,
     xs !! p = Some x ->
     exists s1,
       Erase (at_ s p) s = Ret (at_ s p) s1 /\
       size_of s1 = size_of s - 1 /\
       represents s1 (delete p xs) /\
       (can_allocate (grown_capacity (size_of s1)) = true ->
        exists s2,
          Insert_move (at_ s1 p) (Outside x) s1 = Ret (at_ s2 p) s2 /\
          size_of s2 = size_of s /\
          represents s2 xs)).
Proof.
  intros Hreg Hrep at_. split.
  - intros p x Hp Hcan.
    destruct (Emplace_spec s xs x p Hrep Hp Hcan)
      as (r & s1 & Hrun & -> & Hsz & _ & Hrep1).
    exists s1. subst at_. cbn beta.
    split; [by rewrite Insert_move_eq|].
    split; [intros Hcc; by rewrite Insert_copy_eq|].
    split; [done|]. split; [done|].
    split; [by apply insert_at_lookup|].
    split.
    { unfold insert_at. rewrite take_app_le by (rewrite length_take; lia).
      by rewrite take_take, Nat.min_id. }
    split.
    { unfold insert_at. rewrite drop_app_ge by (rewrite length_take; lia).
      rewrite length_take.
      by replace (S p - p `min` length xs)%nat with 1%nat by lia. }
    destruct (Erase_at s1 (insert_at p x xs) p x Hrep1)
      as (a & s2 & Ha & Hrun2 & _ & Hsz2 & Hrep2 & _).
    { by apply insert_at_lookup. }
    exists s2. rewrite Ha. simpl. rewrite Z.add_0_l.
    split; [done|]. split; [lia|].
    by rewrite delete_insert_at in Hrep2.
  - intros p x Hx.
    destruct (Erase_at s xs p x Hrep Hx)
      as (a & s1 & Ha & Hrun & Hdata & Hsz & Hrep1 & _).
    exists s1. subst at_. cbn beta. rewrite Ha. simpl. rewrite Z.add_0_l.
    split; [done|]. split; [done|]. split; [done|].
    intros Hcan.
    assert (Hp : (p < length xs)%nat) by by eapply lookup_lt_Some.
    destruct (Emplace_spec s1 (delete p xs) x p Hrep1)
      as (r & s2 & Hrun2 & -> & Hsz2 & _ & Hrep2); [|done|].
    { rewrite length_delete by done. lia. }
    exists s2. rewrite Hdata, Ha, Insert_move_eq. simpl. rewrite Z.add_0_l.
    rewrite Hdata, Ha in Hrun2. simpl in Hrun2. rewrite Z.add_0_l in Hrun2.
    split; [done|]. split; [lia|].
    by rewrite insert_at_delete in Hrep2.
Qed.

(** ** C7 *)

(** C7: [Erase] on an empty vector returns the position it was given and
    changes nothing.  For a regular element type, [Erase] of the element at
    index [p] of a vector holding [xs] move-assigns each element after [p]
    onto its left neighbour, first to last, then destroys the last slot; it
    returns the same position, the size is one less, the capacity the
    same, and the vector holds [xs] without its element at [p]. *)
Theorem erase_shifts_left {T} `{ET : Elem T} `{MS : MemorySource}
    (s : state T) (xs : list T) :
  represents s xs ->
  (xs = [] -> forall pos, Erase pos s = Ret pos s) /\
  (Regular T ->
   forall (p : nat) d, xs !! p = Some d ->
     exists a s',
       buffer_ (data_ (self s)) = Ptr a 0 /\
       Erase (Ptr a (Z.of_nat p)) s = Ret (Ptr a (Z.of_nat p)) s' /\
       size_of s' = size_of s - 1 /\
       capacity_of s' = capacity_of s /\
       represents s' (delete p xs) /\
       log s'
       = log s
           ++ pair_events EvMoveAssign a (Z.of_nat p + 1) a (Z.of_nat p) 0
                (length xs - p - 1)
           ++ [EvDestroy (Ptr a (size_of s - 1))]).
Proof.
  intros Hrep. split.
  - intros -> pos. by apply Erase_empty.
  - intros Hreg p d Hd.
    destruct (Erase_at s xs p d Hrep Hd)
      as (a & s' & Ha & Hrun & Hdata & Hsz & Hrep' & Hlog).
    exists a, s'. unfold capacity_of. rewrite Hdata. done.
Qed.

(** ** Copy assignment *)

Lemma owns_store_block {T} (h : gmap addr (list (slot T))) (o : Vector)
    (ys : list T) (a : addr) (cells : list (slot T)) :
  owns h o ys ->
  buffer_ (data_ o) = Null \/ buffer_ (data_ o) <> Ptr a 0 ->
  owns (<[a := cells]> h) o ys.
Proof.
  intros (Hsize & Hcap & Hbuf) Hsep. split; [done|]. split; [done|].
  destruct (buffer_ (data_ o)) as [|b off]; [done|].
  destruct Hbuf as (-> & Hpos & Hblock). split; [done|]. split; [done|].
  destruct Hsep as [|Hne]; [done|].
  rewrite lookup_insert_ne; [done|]. intros ->. done.
Qed.

Lemma five_of_ten_represents : represents five_of_ten [1; 2; 3; 4; 5].
Proof.
  split.
  - intros a Ha. cbn in *.
    rewrite !lookup_insert_ne by lia. apply lookup_empty.
  - split; [reflexivity|]. split; [cbn; unfold PTRDIFF_MAX; lia|].
    cbn. split; [reflexivity|]. split; [lia|]. by rewrite lookup_insert_eq.
Qed.

Lemma three_of_three_owned :
  owns (heap five_of_ten) three_of_three [7; 8; 9].
Proof.
  split; [reflexivity|]. split; [cbn; unfold PTRDIFF_MAX; lia|].
  cbn. split; [reflexivity|]. split; [lia|].
  rewrite lookup_insert_ne by lia. by rewrite lookup_insert_eq.
Qed.

(** ** C5 *)

(** C5: for a regular copyable element type, copy assignment from another
    vector holding [ys] whose size does not exceed the capacity of the
    target returns with the target's buffer and capacity as they were,
    nothing allocated or freed, the size that of the source, the target
    holding [ys] and the source still holding [ys]; the log is the copy
    assignments over the common prefix, then the destructions of the
    target's excess elements or the copy constructions of the source's
    extra ones.  Assigning the vector of 7, 8, 9 onto the vector of five
    elements in ten slots gives size 3, capacity 10, the values 7, 8, 9,
    and slots 3 and 4 destroyed. *)
Theorem copy_assign_without_reallocation :
  (forall T (ET : Elem T) (MS : MemorySource) (s : state T) xs ys
          (other : Vector),
     Regular T ->
     is_copy_constructible = true ->
     represents s xs ->
     owns (heap s) other ys ->
     buffer_ (data_ other) = Null \/
       buffer_ (data_ other) <> buffer_ (data_ (self s)) ->
     size_ other <= capacity_of s ->
     let buf := buffer_ (data_ (self s)) in
     let obuf := buffer_ (data_ other) in
     exists s',
       copy_assignment (Object other) s = Ret tt s' /\
       data_ (self s') = data_ (self s) /\
       size_of s' = size_ other /\
       represents s' ys /\
       owns (heap s') other ys /\
       next s' = next s /\
       log s'
       = log s
           ++ transfer_events EvCopyAssign obuf buf
                (length xs `min` length ys)
           ++ range_events EvDestroy (ptr_add buf (size_ other))
                (length xs - length ys)
           ++ transfer_events EvCopyCtor
                (ptr_add obuf (size_of s)) (ptr_add buf (size_of s))
                (length ys - length xs)) /\
  (represents five_of_ten [1; 2; 3; 4; 5] /\
   capacity_of five_of_ten = 10 /\
   owns (heap five_of_ten) three_of_three [7; 8; 9] /\
   exists s',
     copy_assignment (ET:=int_elem) (MS:=plenty)
       (Object three_of_three) five_of_ten = Ret tt s' /\
     size_of s' = 3 /\ capacity_of s' = 10 /\
     represents s' [7; 8; 9] /\
     next s' = next five_of_ten /\
     log s'
     = [EvCopyAssign (Ptr 1%nat 0) (Ptr 0%nat 0);
        EvCopyAssign (Ptr 1%nat 1) (Ptr 0%nat 1);
        EvCopyAssign (Ptr 1%nat 2) (Ptr 0%nat 2);
        EvDestroy (Ptr 0%nat 3); EvDestroy (Ptr 0%nat 4)]).
Proof.
  split.
  - intros T ET MS s xs ys other Hreg Hcc Hrep Hown Hsep Hfit buf obuf.
    unfold capacity_of, size_of in *.
    eexists. split; [by apply (copy_assignment_fits xs ys)|].
    pose proof Hrep as [Hfresh (Hsize & Hcap & Hbuf)].
    pose proof Hown as (Hosize & Hocap & Hobuf).
    cbn [self heap next log data_ size_].
    split; [done|]. split; [done|].
    destruct (buffer_ (data_ (self s))) as [|a off] eqn:Ha; cbn [store_block].
    + split; [|done].
      assert (size_ other = 0) as Hz by lia.
      assert (ys = []) as -> by (destruct ys; [done | simpl in *; lia]).
      split; [done|]. split; [simpl; lia|]. split; [simpl; lia|].
      simpl. by rewrite Ha.
    + destruct Hbuf as (-> & Hpos & Hblock). split.
      * apply (represents_same_block s xs); [done | done | done | lia | done].
      * split; [|done]. by apply owns_store_block.
  - split; [apply five_of_ten_represents|]. split; [reflexivity|].
    split; [apply three_of_three_owned|].
    eexists. split.
    { apply (copy_assignment_fits (ET:=int_elem) (MS:=plenty)
               (Regular0:=int_regular) [1; 2; 3; 4; 5] [7; 8; 9]);
        [apply five_of_ten_represents | apply three_of_three_owned
        | done | by right | cbn; lia]. }
    split; [reflexivity|]. split; [reflexivity|].
    split; [|split; reflexivity].
    apply (represents_same_block five_of_ten [1; 2; 3; 4; 5]);
      [apply five_of_ten_represents | reflexivity | reflexivity
      | cbn; lia | cbn; lia].
Qed.

(** ** C10 *)

(** C10: for a regular copyable element type, copy-assigning a vector to
    itself returns with its buffer, capacity, size and every slot of the
    heap as they were; all it does is copy-assign each element onto
    itself. *)
Theorem self_assignment_is_identity {T} `{ET : Elem T} `{MS : MemorySource}
    (s : state T) (xs : list T) :
  Regular T ->
  is_copy_constructible = true ->
  represents s xs ->
  let buf := buffer_ (data_ (self s)) in
  exists s',
    copy_assignment ThisObject s = Ret tt s' /\
    self s' = self s /\
    size_of s' = size_of s /\
    capacity_of s' = capacity_of s /\
    heap s' = heap s /\
    next s' = next s /\
    represents s' xs /\
    log s' = log s ++ transfer_events EvCopyAssign buf buf (length xs).
Proof.
  intros Hreg Hcc Hrep buf. eexists.
  split; [by apply (copy_assignment_self xs)|].
  repeat (split; [reflexivity|]). split; [|reflexivity].
  by apply represents_bookkeeping.
Qed.

(** ** C9 *)

(** C9: [Resize(n)] with [n] at most the size returns with the same
    buffer and the same capacity, the size [n], the first [n] elements
    kept, nothing allocated, and a log of nothing but the destructions of
    slots [n] up to the old size.  No operation among [Reserve], [Resize],
    [PushBack], [PopBack], [EmplaceBack], [Emplace], [Insert], [Erase] and
    copy assignment leaves a capacity lower than it found, whether it
    returns or throws. *)
Theorem resize_down_keeps_capacity {T} `{ET : Elem T} `{MS : MemorySource}
    (s : state T) (xs : list T) :
  represents s xs ->
  (forall n, 0 <= n <= size_of s ->
     exists s',
       Resize n s = Ret tt s' /\
       data_ (self s') = data_ (self s) /\
       capacity_of s' = capacity_of s /\
       size_of s' = n /\
       represents s' (take (Z.to_nat n) xs) /\
       next s' = next s /\
       log s'
       = log s
           ++ range_events EvDestroy
                (ptr_add (buffer_ (data_ (self s))) n)
                (length xs - Z.to_nat n)) /\
  (forall (op : operation T) s',
     final_state (run_op op s) = Some s' ->
     capacity_of s <= capacity_of s').
Proof.
  intros Hrep. pose proof Hrep as [Hfresh (Hsize & Hcap & Hbuf)]. split.
  - intros n Hn. unfold size_of, capacity_of in *.
    eexists. split; [by apply (Resize_down xs)|].
    cbn [self heap next log data_ size_].
    do 3 (split; [reflexivity|]). split; [|done].
    destruct (buffer_ (data_ (self s))) as [|a off] eqn:Ha; cbn [store_block].
    + assert (n = 0) as -> by lia. simpl. rewrite take_0.
      split; [done|]. split; [done|]. split; [simpl; lia|].
      simpl. by rewrite Ha.
    + destruct Hbuf as (-> & Hpos & Hblock).
      apply (represents_same_block s xs); [done | done | | lia | done].
      rewrite length_take. lia.
  - intros op s' Hs'. unfold capacity_of.
    assert (Hbound : 0 <= capacity_ (data_ (self s)) <= PTRDIFF_MAX) by lia.
    pose proof (capacity_never_decreases op s Hbound) as Hgrows.
    unfold wlp, keeps in Hgrows.
    destruct (run_op op s) as [r s1|e s1|]; simpl in Hs'; [| |done];
      by injection Hs' as <-.
Qed.

(** ** C8 *)

Lemma fragile_pair_eq :
  fragile_pair
  = mkState (mkVector (mkRawMemory (Ptr 0%nat 0) 4) 2)
      (<[0%nat := [Obj 1; Obj 2; Raw; Raw]]> ∅) 1%nat
      [EvAlloc 0%nat 4; EvConstruct (Ptr 0%nat 0); EvConstruct (Ptr 0%nat 1)].
Proof. vm_compute. reflexivity. Qed.

(** C8: [Insert] can leave a constructed element beyond the size.  The
    vector of 1, 2 in four slots satisfies the invariant.  [Insert] at
    [begin()] of a value whose copy construction throws has, by the time
    the copy is attempted, move-constructed slot 2 from slot 1 and shifted
    slot 0 to slot 1; the exception leaves the size at 2 and the capacity
    at 4 with slots 0, 1 and 2 all constructed, so the invariant is lost. *)
Theorem insert_exception_leaves_element_beyond_size :
  represents fragile_pair [1; 2] /\
  exists s',
    Insert_copy (ET:=fragile_elem) (MS:=plenty) (Ptr 0%nat 0)
      (Outside (-1)) fragile_pair
    = Throw ElemExn s' /\
    size_of s' = 2 /\
    capacity_of s' = 4 /\
    buffer_ (data_ (self s')) = Ptr 0%nat 0 /\
    heap s' !! 0%nat = Some [Obj 0; Obj 1; Obj 2; Raw] /\
    ~ invariant s'.
Proof.
  rewrite fragile_pair_eq. split.
  { split.
    - intros a Ha. cbn in *. rewrite lookup_insert_ne by lia.
      apply lookup_empty.
    - split; [reflexivity|]. split; [cbn; unfold PTRDIFF_MAX; lia|].
      cbn. split; [reflexivity|]. split; [lia|]. by rewrite lookup_insert_eq. }
  eexists. split; [vm_compute; reflexivity|].
  split; [reflexivity|]. split; [reflexivity|]. split; [reflexivity|].
  split; [reflexivity|].
  intros (xs & _ & Hsize & _ & Hbuf). cbn in Hsize, Hbuf.
  destruct Hbuf as (_ & _ & Hblock).
  destruct xs as [|a [|b [|c xs]]]; simpl in Hsize; try lia.
  vm_compute in Hblock. discriminate.
Qed.

(** ** The theorems at the scenario states *)

Lemma fragile_full_eq :
  fragile_full
  = mkState (mkVector (mkRawMemory (Ptr 1%nat 0) 2) 2)
      (<[1%nat := [Obj 1; Obj (-1)]]> ∅) 2%nat
      [EvAlloc 0%nat 1; EvConstruct (Ptr 0%nat 0); EvAlloc 1%nat 2;
       EvConstruct (Ptr 1%nat 1); EvCopyCtor (Ptr 0%nat 0) (Ptr 1%nat 0);
       EvDestroy (Ptr 0%nat 0); EvFree 0%nat].
Proof. vm_compute. reflexivity. Qed.

Lemma fragile_full_represents : represents fragile_full [1; -1].
Proof.
  rewrite fragile_full_eq. split.
  - intros a Ha. cbn in *. rewrite lookup_insert_ne by lia. apply lookup_empty.
  - split; [reflexivity|]. split; [cbn; unfold PTRDIFF_MAX; lia|].
    cbn. split; [reflexivity|]. split; [lia|]. by rewrite lookup_insert_eq.
Qed.

Lemma unique_pair_push_eq :
  PushBack_move (ET:=unique_elem) (MS:=plenty) (Some 3) unique_pair
  = Ret tt
      (mkState (mkVector (mkRawMemory (Ptr 2%nat 0) 4) 3)
         (<[2%nat := [Obj (Some 1); Obj (Some 2); Obj (Some 3); Raw]]> ∅)
         3%nat
         (log unique_pair
            ++ [EvAlloc 2%nat 4; EvConstruct (Ptr 2%nat 2);
                EvMoveCtor (Ptr 1%nat 0) (Ptr 2%nat 0);
                EvMoveCtor (Ptr 1%nat 1) (Ptr 2%nat 1);
                EvDestroy (Ptr 1%nat 0); EvDestroy (Ptr 1%nat 1);
                EvFree 1%nat])).
Proof. vm_compute. reflexivity. Qed.

Lemma emplace_back_strong_guarantee_witness :
  represents unique_pair [Some 1; Some 2] /\
  size_of unique_pair = capacity_of unique_pair /\
  can_allocate (ET:=unique_elem) (MS:=plenty)
    (grown_capacity (size_of unique_pair)) = true /\
  (exists s',
     EmplaceBack (ET:=unique_elem) (MS:=plenty) None unique_pair
     = Throw ElemExn s' /\
     self s' = self unique_pair /\ heap s' = heap unique_pair /\
     represents s' [Some 1; Some 2]) /\
  (exists s' rest,
     PushBack_move (ET:=unique_elem) (MS:=plenty) (Some 3) unique_pair
     = Ret tt s' /\
     log s'
     = log unique_pair
         ++ [EvAlloc 2%nat 4; EvConstruct (Ptr 2%nat 2)] ++ rest /\
     buffer_ (data_ (self s')) = Ptr 2%nat 0 /\
     capacity_of s' = 4 /\
     size_of s' = 3 /\
     load (Ptr 2%nat 2) s' = Ret (Some 3) s').
Proof.
  assert (H1 := unique_pair_represents).
  assert (H2 : size_of unique_pair = capacity_of unique_pair)
    by (vm_compute; reflexivity).
  assert (H3 : can_allocate (ET:=unique_elem) (MS:=plenty)
                 (grown_capacity (size_of unique_pair)) = true)
    by (vm_compute; reflexivity).
  split; [exact H1|]. split; [exact H2|]. split; [exact H3|].
  destruct (emplace_back_strong_guarantee (ET:=unique_elem) (MS:=plenty)
              unique_pair [Some 1; Some 2] H1 H2 H3)
    as (_ & (s' & Hrun & _ & _ & Hself & Hheap & Hrep & _) & _ & _ & Hmove).
  split.
  - exists s'. split; [exact Hrun|]. split; [exact Hself|].
    split; [exact Hheap | exact Hrep].
  - specialize (Hmove (Some 3) (Some 3) eq_refl). unfold wp in Hmove.
    rewrite unique_pair_push_eq in Hmove.
    destruct Hmove as ([rest Hlog] & Hbuf & Hcap & Hsz & Hload).
    eexists _, rest. split; [exact unique_pair_push_eq|].
    assert (Hn : next unique_pair = 2%nat) by (vm_compute; reflexivity).
    assert (Hs : size_of unique_pair = 2) by (vm_compute; reflexivity).
    assert (Hg : grown_capacity (size_of unique_pair) = 4)
      by (vm_compute; reflexivity).
    rewrite ?Hg, ?Hn, ?Hs in Hlog, Hload, Hcap, Hbuf.
    split; [exact Hlog|]. split; [exact Hbuf|]. split; [exact Hcap|].
    split; [exact Hsz | exact Hload].
Defined.

Lemma growth_doubles_capacity_witness :
  @Regular Z int_elem /\
  (forall n, 0 < n <= 2 * Z.of_nat (length [5; 6; 7]) ->
     can_allocate (ET:=int_elem) (MS:=plenty) n = true) /\
  exists s',
    push_all (PushBack_move (ET:=int_elem) (MS:=plenty)) [5; 6; 7]
      initial_state = Ret tt s' /\
    represents s' [5; 6; 7] /\
    capacity_of s' = 4.
Proof.
  assert (H1 := int_regular).
  assert (H2 : forall n, 0 < n <= 2 * Z.of_nat (length [5; 6; 7]) ->
                 can_allocate (ET:=int_elem) (MS:=plenty) n = true).
  { intros n Hn. apply plenty_can_allocate; simpl in *;
      unfold PTRDIFF_MAX; lia. }
  split; [exact H1|]. split; [exact H2|].
  destruct (growth_doubles_capacity (ET:=int_elem) (MS:=plenty) H1)
    as [_ Hpush].
  destruct (Hpush [5; 6; 7] H2) as (s' & Hrun & _ & Hrep & Hcap).
  exists s'. split; [exact Hrun|]. split; [exact Hrep|]. exact Hcap.
Defined.

Lemma migration_moves_or_copies_witness :
  (@Regular (option Z) unique_elem /\
   represents unique_pair [Some 1; Some 2] /\
   capacity_of unique_pair < 5 /\
   can_allocate (ET:=unique_elem) (MS:=plenty) 5 = true /\
   exists s',
     Reserve (ET:=unique_elem) (MS:=plenty) 5 unique_pair = Ret tt s' /\
     log s'
     = log unique_pair
         ++ [EvAlloc 2%nat 5;
             EvMoveCtor (Ptr 1%nat 0) (Ptr 2%nat 0);
             EvMoveCtor (Ptr 1%nat 1) (Ptr 2%nat 1);
             EvDestroy (Ptr 1%nat 0); EvDestroy (Ptr 1%nat 1);
             EvFree 1%nat]) /\
  (represents fragile_full [1; -1] /\
   is_nothrow_move_constructible (Elem:=fragile_elem) = false /\
   is_copy_constructible (Elem:=fragile_elem) = true /\
   Exists (fun x => copy_ctor (Elem:=fragile_elem) x = None) [1; -1] /\
   capacity_of fragile_full < 3 /\
   can_allocate (ET:=fragile_elem) (MS:=plenty) 3 = true /\
   exists s',
     Reserve (ET:=fragile_elem) (MS:=plenty) 3 fragile_full
     = Throw ElemExn s' /\
     self s' = self fragile_full /\ heap s' = heap fragile_full).
Proof.
  destruct migration_moves_or_copies as (Hreg & Hthrow & _).
  split.
  - assert (H1 := unique_regular).
    assert (H2 := unique_pair_represents).
    assert (H3 : capacity_of unique_pair < 5) by (vm_compute; reflexivity).
    assert (H4 : can_allocate (ET:=unique_elem) (MS:=plenty) 5 = true)
      by (vm_compute; reflexivity).
    split; [exact H1|]. split; [exact H2|]. split; [exact H3|].
    split; [exact H4|].
    destruct (Hreg _ unique_elem plenty unique_pair _ H1 H2) as [Hres _].
    destruct (Hres 5 H3 H4) as (s' & Hrun & Hlog).
    exists s'. split; [exact Hrun|]. rewrite Hlog.
    rewrite unique_pair_eq. reflexivity.
  - assert (H1 := fragile_full_represents).
    assert (H2 : Exists (fun x => copy_ctor (Elem:=fragile_elem) x = None)
                   [1; -1])
      by (apply Exists_cons_tl, Exists_cons_hd; reflexivity).
    assert (H3 : capacity_of fragile_full < 3) by (vm_compute; reflexivity).
    assert (H4 : can_allocate (ET:=fragile_elem) (MS:=plenty) 3 = true)
      by (vm_compute; reflexivity).
    split; [exact H1|]. split; [reflexivity|]. split; [reflexivity|].
    split; [exact H2|]. split; [exact H3|]. split; [exact H4|].
    destruct (Hthrow _ fragile_elem plenty fragile_full _ H1 eq_refl eq_refl H2)
      as [Hres _].
    exact (Hres 3 H3 H4).
Defined.

Lemma insert_erase_round_trip_witness :
  @Regular Z int_elem /\
  represents five_of_ten [1; 2; 3; 4; 5] /\
  (2 <= length [1; 2; 3; 4; 5])%nat /\
  can_allocate (ET:=int_elem) (MS:=plenty)
    (grown_capacity (size_of five_of_ten)) = true /\
  [1; 2; 3; 4; 5] !! 2%nat = Some 3 /\
  (exists s1,
     Insert_move (ET:=int_elem) (MS:=plenty) (Ptr 0%nat 2) (Outside 42)
       five_of_ten
     = Ret (ptr_add (buffer_ (data_ (self s1))) 2) s1 /\
     size_of s1 = 6 /\
     represents s1 [1; 2; 42; 3; 4; 5] /\
     exists s2,
       Erase (ET:=int_elem) (ptr_add (buffer_ (data_ (self s1))) 2) s1
       = Ret (ptr_add (buffer_ (data_ (self s1))) 2) s2 /\
       size_of s2 = 5 /\
       represents s2 [1; 2; 3; 4; 5]) /\
  (exists s1,
     Erase (ET:=int_elem) (Ptr 0%nat 2) five_of_ten = Ret (Ptr 0%nat 2) s1 /\
     size_of s1 = 4 /\
     represents s1 [1; 2; 4; 5]).
Proof.
  assert (H1 := int_regular).
  assert (H2 := five_of_ten_represents).
  assert (H3 : (2 <= length [1; 2; 3; 4; 5])%nat) by (simpl; lia).
  assert (H4 : can_allocate (ET:=int_elem) (MS:=plenty)
                 (grown_capacity (size_of five_of_ten)) = true)
    by (vm_compute; reflexivity).
  assert (H5 : [1; 2; 3; 4; 5] !! 2%nat = Some 3) by reflexivity.
  split; [exact H1|]. split; [exact H2|]. split; [exact H3|].
  split; [exact H4|]. split; [exact H5|].
  destruct (insert_erase_round_trip (ET:=int_elem) (MS:=plenty)
              five_of_ten [1; 2; 3; 4; 5] H1 H2) as [Hins Hera].
  split.
  - destruct (Hins 2%nat 42 H3 H4)
      as (s1 & Hrun & _ & Hsz & Hrep & _ & _ & _ & s2 & Hrun2 & Hsz2 & Hrep2).
    exists s1. split; [exact Hrun|]. split; [exact Hsz|]. split; [exact Hrep|].
    exists s2. split; [exact Hrun2|]. split; [exact Hsz2 | exact Hrep2].
  - destruct (Hera 2%nat 3 H5) as (s1 & Hrun & Hsz & Hrep & _).
    exists s1. split; [exact Hrun|]. split; [exact Hsz | exact Hrep].
Defined.

Lemma copy_assign_without_reallocation_witness :
  @Regular Z int_elem /\
  is_copy_constructible (Elem:=int_elem) = true /\
  represents five_of_ten [1; 2; 3; 4; 5] /\
  owns (heap five_of_ten) three_of_three [7; 8; 9] /\
  (buffer_ (data_ three_of_three) = Null \/
   buffer_ (data_ three_of_three) <> buffer_ (data_ (self five_of_ten))) /\
  size_ three_of_three <= capacity_of five_of_ten /\
  exists s',
    copy_assignment (ET:=int_elem) (MS:=plenty)
      (Object three_of_three) five_of_ten = Ret tt s' /\
    data_ (self s') = data_ (self five_of_ten) /\
    size_of s' = 3 /\
    represents s' [7; 8; 9] /\
    next s' = next five_of_ten.
Proof.
  assert (H1 := int_regular).
  assert (H2 := five_of_ten_represents).
  assert (H3 := three_of_three_owned).
  assert (H4 : buffer_ (data_ three_of_three) = Null \/
               buffer_ (data_ three_of_three)
               <> buffer_ (data_ (self five_of_ten)))
    by (right; discriminate).
  assert (H5 : size_ three_of_three <= capacity_of five_of_ten)
    by (vm_compute; discriminate).
  split; [exact H1|]. split; [reflexivity|]. split; [exact H2|].
  split; [exact H3|]. split; [exact H4|]. split; [exact H5|].
  destruct copy_assign_without_reallocation as [Hfits _].
  destruct (Hfits Z int_elem plenty five_of_ten _ _ three_of_three
              H1 eq_refl H2 H3 H4 H5)
    as (s' & Hrun & Hdata & Hsz & Hrep & _ & Hnext & _).
  exists s'. split; [exact Hrun|]. split; [exact Hdata|].
  split; [exact Hsz|]. split; [exact Hrep | exact Hnext].
Defined.


Lemma erase_shifts_left_witness :
  represents five_of_ten [1; 2; 3; 4; 5] /\
  @Regular Z int_elem /\
  [1; 2; 3; 4; 5] !! 1%nat = Some 2 /\
  exists a s',
    buffer_ (data_ (self five_of_ten)) = Ptr a 0 /\
    Erase (ET:=int_elem) (Ptr a 1) five_of_ten = Ret (Ptr a 1) s' /\
    size_of s' = 4 /\
    capacity_of s' = 10 /\
    represents s' [1; 3; 4; 5] /\
    log s'
    = [EvMoveAssign (Ptr a 2) (Ptr a 1); EvMoveAssign (Ptr a 3) (Ptr a 2);
       EvMoveAssign (Ptr a 4) (Ptr a 3); EvDestroy (Ptr a 4)].
Proof.
  assert (H1 := five_of_ten_represents).
  assert (H2 := int_regular).
  assert (H3 : [1; 2; 3; 4; 5] !! 1%nat = Some 2) by reflexivity.
  split; [exact H1|]. split; [exact H2|]. split; [exact H3|].
  destruct (erase_shifts_left (ET:=int_elem) (MS:=plenty)
              five_of_ten [1; 2; 3; 4; 5] H1) as [_ Herase].
  destruct (Herase H2 1%nat 2 H3)
    as (a & s' & Ha & Hrun & Hsz & Hcap & Hrep & Hlog).
  exists a, s'. split; [exact Ha|]. split; [exact Hrun|].
  split; [exact Hsz|]. split; [exact Hcap|]. split; [exact Hrep|].
  exact Hlog.
Defined.

Lemma resize_down_keeps_capacity_witness :
  represents five_of_ten [1; 2; 3; 4; 5] /\
  0 <= 2 <= size_of five_of_ten /\
  (exists s',
     Resize (ET:=int_elem) (MS:=plenty) 2 five_of_ten = Ret tt s' /\
     capacity_of s' = 10 /\
     size_of s' = 2 /\
     represents s' [1; 2] /\
     log s'
     = [EvDestroy (Ptr 0%nat 2); EvDestroy (Ptr 0%nat 3);
        EvDestroy (Ptr 0%nat 4)]) /\
  (forall s',
     final_state (run_op (H:=int_elem) (H0:=plenty) OpPopBack five_of_ten)
     = Some s' ->
     capacity_of five_of_ten <= capacity_of s').
Proof.
  assert (H1 := five_of_ten_represents).
  assert (H2 : 0 <= 2 <= size_of five_of_ten)
    by (split; vm_compute; discriminate).
  split; [exact H1|]. split; [exact H2|].
  destruct (resize_down_keeps_capacity (ET:=int_elem) (MS:=plenty)
              five_of_ten [1; 2; 3; 4; 5] H1) as [Hdown Hall].
  split.
  - destruct (Hdown 2 H2) as (s' & Hrun & _ & Hcap & Hsz & Hrep & _ & Hlog).
    exists s'. split; [exact Hrun|]. split; [exact Hcap|].
    split; [exact Hsz|]. split; [exact Hrep | exact Hlog].
  - exact (Hall OpPopBack).
Defined.

Lemma self_assignment_is_identity_witness :
  @Regular Z int_elem /\
  is_copy_constructible (Elem:=int_elem) = true /\
  represents five_of_ten [1; 2; 3; 4; 5] /\
  exists s',
    copy_assignment (ET:=int_elem) (MS:=plenty) ThisObject five_of_ten
    = Ret tt s' /\
    self s' = self five_of_ten /\
    heap s' = heap five_of_ten /\
    represents s' [1; 2; 3; 4; 5].
Proof.
  assert (H1 := int_regular).
  assert (H2 := five_of_ten_represents).
  split; [exact H1|]. split; [reflexivity|]. split; [exact H2|].
  destruct (self_assignment_is_identity (ET:=int_elem) (MS:=plenty)
              five_of_ten [1; 2; 3; 4; 5] H1 eq_refl H2)
    as (s' & Hrun & Hself & _ & _ & Hheap & _ & Hrep & _).
  exists s'. split; [exact Hrun|]. split; [exact Hself|].
  split; [exact Hheap | exact Hrep].
Defined.

(** ** C4 and C6: an inserted element of the vector, a request that wraps *)

Lemma three_of_four_represents : represents three_of_four [10; 20; 30].
Proof.
  split.
  - intros a Ha. cbn in *. rewrite lookup_insert_ne by lia. apply lookup_empty.
  - split; [reflexivity|]. split; [cbn; unfold PTRDIFF_MAX; lia|].
    cbn. split; [reflexivity|]. split; [lia|]. by rewrite lookup_insert_eq.
Qed.

Lemma three_full_represents : represents three_full [10; 20; 30].
Proof.
  split.
  - intros a Ha. cbn in *. rewrite lookup_insert_ne by lia. apply lookup_empty.
  - split; [reflexivity|]. split; [cbn; unfold PTRDIFF_MAX; lia|].
    cbn. split; [reflexivity|]. split; [lia|]. by rewrite lookup_insert_eq.
Qed.

Lemma four_in_block_represents (a : addr) (cap : Z) (nxt : addr) l
    (x1 x2 x3 x4 : Z) :
  4 <= cap <= PTRDIFF_MAX -> (a < nxt)%nat ->
  represents
    (mkState (mkVector (mkRawMemory (Ptr a 0) cap) 4)
       (<[a := cells_of [x1; x2; x3; x4] cap]> ∅) nxt l)
    [x1; x2; x3; x4].
Proof.
  intros Hcap Ha. split.
  - intros b Hb. cbn in *. rewrite lookup_insert_ne by lia. apply lookup_empty.
  - split; [reflexivity|]. split; [cbn; lia|].
    cbn. split; [reflexivity|]. split; [lia|]. by rewrite lookup_insert_eq.
Qed.

Lemma insert_own_in_place_eq :
  Insert_copy (ET:=int_elem) (MS:=plenty) (Ptr 0%nat 0) (Inside (Ptr 0%nat 1))
    three_of_four
  = Ret (Ptr 0%nat 0)
      (mkState (mkVector (mkRawMemory (Ptr 0%nat 0) 4) 4)
         (<[0%nat := cells_of [10; 10; 20; 30] 4]> ∅) 2%nat
         [EvAlloc 1%nat 6; EvMoveCtor (Ptr 0%nat 2) (Ptr 0%nat 3);
          EvMoveAssign (Ptr 0%nat 1) (Ptr 0%nat 2);
          EvMoveAssign (Ptr 0%nat 0) (Ptr 0%nat 1);
          EvMoveAssignTemp (Ptr 0%nat 0); EvFree 1%nat]).
Proof. vm_compute. reflexivity. Qed.

Lemma insert_outside_in_place_eq :
  Insert_copy (ET:=int_elem) (MS:=plenty) (Ptr 0%nat 0) (Outside 20)
    three_of_four
  = Ret (Ptr 0%nat 0)
      (mkState (mkVector (mkRawMemory (Ptr 0%nat 0) 4) 4)
         (<[0%nat := cells_of [20; 10; 20; 30] 4]> ∅) 2%nat
         [EvAlloc 1%nat 6; EvMoveCtor (Ptr 0%nat 2) (Ptr 0%nat 3);
          EvMoveAssign (Ptr 0%nat 1) (Ptr 0%nat 2);
          EvMoveAssign (Ptr 0%nat 0) (Ptr 0%nat 1);
          EvMoveAssignTemp (Ptr 0%nat 0); EvFree 1%nat]).
Proof. vm_compute. reflexivity. Qed.

Lemma insert_own_full_eq :
  Insert_copy (ET:=int_elem) (MS:=plenty) (Ptr 0%nat 0) (Inside (Ptr 0%nat 1))
    three_full
  = Ret (Ptr 1%nat 0)
      (mkState (mkVector (mkRawMemory (Ptr 1%nat 0) 6) 4)
         (<[1%nat := cells_of [20; 10; 20; 30] 6]> ∅) 2%nat
         [EvAlloc 1%nat 6; EvConstruct (Ptr 1%nat 0);
          EvMoveCtor (Ptr 0%nat 0) (Ptr 1%nat 1);
          EvMoveCtor (Ptr 0%nat 1) (Ptr 1%nat 2);
          EvMoveCtor (Ptr 0%nat 2) (Ptr 1%nat 3);
          EvDestroy (Ptr 0%nat 0); EvDestroy (Ptr 0%nat 1);
          EvDestroy (Ptr 0%nat 2); EvFree 0%nat]).
Proof. vm_compute. reflexivity. Qed.

Lemma erase_after_insert_own_eq :
  Erase (ET:=int_elem) (Ptr 0%nat 0)
    (mkState (mkVector (mkRawMemory (Ptr 0%nat 0) 4) 4)
       (<[0%nat := cells_of [10; 10; 20; 30] 4]> ∅) 2%nat
       [EvAlloc 1%nat 6; EvMoveCtor (Ptr 0%nat 2) (Ptr 0%nat 3);
        EvMoveAssign (Ptr 0%nat 1) (Ptr 0%nat 2);
        EvMoveAssign (Ptr 0%nat 0) (Ptr 0%nat 1);
        EvMoveAssignTemp (Ptr 0%nat 0); EvFree 1%nat])
  = Ret (Ptr 0%nat 0)
      (mkState (mkVector (mkRawMemory (Ptr 0%nat 0) 4) 3)
         (<[0%nat := cells_of [10; 20; 30] 4]> ∅) 2%nat
         [EvAlloc 1%nat 6; EvMoveCtor (Ptr 0%nat 2) (Ptr 0%nat 3);
          EvMoveAssign (Ptr 0%nat 1) (Ptr 0%nat 2);
          EvMoveAssign (Ptr 0%nat 0) (Ptr 0%nat 1);
          EvMoveAssignTemp (Ptr 0%nat 0); EvFree 1%nat;
          EvMoveAssign (Ptr 0%nat 1) (Ptr 0%nat 0);
          EvMoveAssign (Ptr 0%nat 2) (Ptr 0%nat 1);
          EvMoveAssign (Ptr 0%nat 3) (Ptr 0%nat 2);
          EvDestroy (Ptr 0%nat 3)]).
Proof. vm_compute. reflexivity. Qed.

(** C4: [Insert] of a value that is an element of the vector stores
    another value when the vector has room.  The vector of 10, 20, 30 in
    four slots satisfies the invariant and [v[1]] is 20.
    [Insert(begin(), v[1])] shifts the elements to the right before it
    reads its argument, so it copies the 10 that has moved into slot 1:
    the vector then holds 10, 10, 20, 30 and not 20, 10, 20, 30; [Erase]
    at the returned position still gives back 10, 20, 30.  The same
    call with a 20 held outside the vector inserts 20, and so does
    the call on the vector of 10, 20, 30 in three slots, where the new
    element is constructed before any element is moved. *)
Theorem insert_of_own_element_reads_shifted_slot :
  represents three_of_four [10; 20; 30] /\
  load (Ptr 0%nat 1) three_of_four = Ret 20 three_of_four /\
  (exists s',
     Insert_copy (ET:=int_elem) (MS:=plenty) (Ptr 0%nat 0)
       (Inside (Ptr 0%nat 1)) three_of_four
     = Ret (Ptr 0%nat 0) s' /\
     size_of s' = 4 /\
     represents s' [10; 10; 20; 30] /\
     load (Ptr 0%nat 0) s' = Ret 10 s' /\
     ~ represents s' (insert_at 0 20 [10; 20; 30]) /\
     exists s'',
       Erase (ET:=int_elem) (Ptr 0%nat 0) s' = Ret (Ptr 0%nat 0) s'' /\
       represents s'' [10; 20; 30]) /\
  (exists s',
     Insert_copy (ET:=int_elem) (MS:=plenty) (Ptr 0%nat 0) (Outside 20)
       three_of_four
     = Ret (Ptr 0%nat 0) s' /\
     represents s' (insert_at 0 20 [10; 20; 30])) /\
  represents three_full [10; 20; 30] /\
  (exists s',
     Insert_copy (ET:=int_elem) (MS:=plenty) (Ptr 0%nat 0)
       (Inside (Ptr 0%nat 1)) three_full
     = Ret (Ptr 1%nat 0) s' /\
     represents s' (insert_at 0 20 [10; 20; 30])).
Proof.
  split; [apply three_of_four_represents|].
  split; [vm_compute; reflexivity|].
  split; [|split; [|split; [apply three_full_represents|]]].
  - eexists. split; [apply insert_own_in_place_eq|].
    split; [reflexivity|].
    split; [apply four_in_block_represents; [unfold PTRDIFF_MAX|]; lia|].
    split; [vm_compute; reflexivity|]. split.
    { intros [_ (_ & _ & Hbuf)]. cbn in Hbuf.
      destruct Hbuf as (_ & _ & Hblock).
      rewrite lookup_insert_eq in Hblock. vm_compute in Hblock.
      discriminate. }
    eexists. split; [apply erase_after_insert_own_eq|].
    split.
    + intros a Ha. cbn in *. rewrite lookup_insert_ne by lia.
      apply lookup_empty.
    + split; [reflexivity|]. split; [cbn; unfold PTRDIFF_MAX; lia|].
      cbn. split; [reflexivity|]. split; [lia|]. by rewrite lookup_insert_eq.
  - eexists. split; [apply insert_outside_in_place_eq|].
    apply four_in_block_represents; [unfold PTRDIFF_MAX|]; lia.
  - eexists. split; [apply insert_own_full_eq|].
    apply four_in_block_represents; [unfold PTRDIFF_MAX|]; lia.
Qed.


(** * Further properties *)

(** ** Raw buffers *)

Section Buffers.
Context {T : Type} `{ET : Elem T} `{MS : MemorySource}.
Implicit Types (s : state T) (xs : list T).

Lemma RawMemory_ctor_eq n s :
  0 < n -> can_allocate n = true ->
  RawMemory_ctor n s
  = Ret (mkRawMemory (Ptr (next s) 0) n)
        (mkState (self s)
           (<[next s := replicate (Z.to_nat n) Raw]> (heap s))
           (S (next s)) (log s ++ [EvAlloc (next s) n])).
Proof.
  intros Hn Hcan. apply wp_eq, wp_RawMemory_ctor; [lia|]. by rewrite Hcan.
Qed.

Lemma RawMemory_ctor_refused n s :
  n <> 0 -> refused n = true -> RawMemory_ctor n s = Throw BadAlloc s.
Proof.
  intros Hn Href. unfold RawMemory_ctor, Allocate, bind, operator_new.
  destruct (Z.eqb_spec n 0); [done|]. simpl.
  unfold refused, request_bytes in Href. apply negb_true_iff in Href.
  by rewrite Href.
Qed.

Lemma RawMemory_ctor_granted n s :
  n <> 0 -> refused n = false ->
  RawMemory_ctor n s
  = Ret (mkRawMemory (Ptr (next s) 0) n)
        (mkState (self s)
           (<[next s := replicate (Z.to_nat (request_bytes n / sizeof_T)) Raw]>
              (heap s))
           (S (next s))
           (log s ++ [EvAlloc (next s) (request_bytes n / sizeof_T)])).
Proof.
  intros Hn Href. unfold RawMemory_ctor, Allocate, bind, operator_new.
  destruct (Z.eqb_spec n 0); [done|]. simpl.
  unfold refused, request_bytes in Href. apply negb_false_iff in Href.
  by rewrite Href.
Qed.

(** The slots of the block behind a request for [n]: [n] of them when the
    byte count fits [size_t], fewer when it wraps around. *)
Lemma request_slots n :
  0 < n ->
  (n * sizeof_T <= SIZE_MAX -> request_bytes n / sizeof_T = n) /\
  (SIZE_MAX < n * sizeof_T -> request_bytes n / sizeof_T < n).
Proof.
  intros Hn. pose proof sizeof_T_pos as Hpos.
  unfold request_bytes, size_t_wrap, SIZE_MAX. split; intros Hfit.
  - rewrite Z.mod_small by (split; [nia | lia]).
    apply Z.div_mul. lia.
  - apply Z.div_lt_upper_bound; [done|].
    pose proof (Z.mod_pos_bound (n * sizeof_T) (2 ^ 64) ltac:(done)). lia.
Qed.

(** X1: constructing a [RawMemory] of capacity 0 allocates nothing and
    destroying a default one frees nothing.  For [n > 0] the request is
    for [n * sizeof(T)] bytes, the product computed in [size_t].  When it
    is refused the constructor throws [bad_alloc] with the state as it
    was.  Otherwise the buffer is a fresh block with [capacity_ == n]; the
    block has [n] raw slots when the product fits [size_t] and fewer than
    [n] when it wraps around, in which case an index below the capacity
    passes the assertion of [operator[]] and yet addresses no slot.
    Destroying the buffer gives back the heap as it was before the
    construction. *)
Theorem raw_memory_acquire_release s n :
  fresh_from s ->
  0 < n ->
  let slots := request_bytes n / sizeof_T in
  RawMemory_ctor 0 s = Ret RawMemory_default s /\
  RawMemory_dtor RawMemory_default s = Ret tt s /\
  (refused n = true -> RawMemory_ctor n s = Throw BadAlloc s) /\
  (refused n = false ->
   exists r s1,
     RawMemory_ctor n s = Ret r s1 /\
     buffer_ r = Ptr (next s) 0 /\
     capacity_ r = n /\
     heap s1 = <[next s := replicate (Z.to_nat slots) Raw]> (heap s) /\
     (n * sizeof_T <= SIZE_MAX -> slots = n) /\
     (SIZE_MAX < n * sizeof_T -> slots < n) /\
     (forall i, 0 <= i < n ->
        RawMemory_index r i s1 = Ret (Ptr (next s) i) s1 /\
        read_slot (Ptr (next s) i) s1
        = (if i <? slots then Ret Raw s1 else Undef)) /\
     exists s2,
       RawMemory_dtor r s1 = Ret tt s2 /\
       self s2 = self s /\
       heap s2 = heap s /\
       log s2 = log s ++ [EvAlloc (next s) slots; EvFree (next s)]).
Proof.
  intros Hfresh Hn slots. split; [done|]. split; [done|].
  split; [intros Href; apply RawMemory_ctor_refused; [lia | done]|].
  intros Href. destruct (request_slots n Hn) as [Hfit Hwrap].
  eexists _, _. split; [apply RawMemory_ctor_granted; [lia | done]|].
  split; [done|]. split; [done|]. split; [done|].
  split; [exact Hfit|]. split; [exact Hwrap|]. split.
  - intros i Hi. split.
    + apply wp_eq, wp_RawMemory_index; simpl; [lia|].
      split; [|done]. by rewrite Z.add_0_l.
    + unfold read_slot, get_slot. simpl. fold slots.
      destruct (Z.leb_spec 0 i); [|lia].
      rewrite lookup_insert_eq.
      destruct (Z.ltb_spec i slots).
      * rewrite lookup_replicate_2 by lia. done.
      * rewrite lookup_ge_None_2; [done|]. rewrite length_replicate. lia.
  - eexists. split.
    + apply wp_eq. eapply wp_RawMemory_dtor; [done | apply lookup_insert_eq |].
      split; reflexivity.
    + simpl. split; [done|]. split; [|by rewrite <- app_assoc].
      rewrite delete_insert_id; [done|]. by apply Hfresh.
Qed.

End Buffers.

(** ** Construction and destruction *)

Section Lifetime.
Context {T : Type} `{ET : Elem T} `{MS : MemorySource}.
Implicit Types (s : state T) (xs ys : list T) (v : Vector).

Lemma cells_of_exact xs cap :
  cap = Z.of_nat (length xs) -> cells_of xs cap = Obj <$> xs.
Proof.
  intros ->. unfold cells_of. rewrite Nat2Z.id, Nat.sub_diag. simpl.
  apply app_nil_r.
Qed.

Lemma owns_fresh_block s v xs cells :
  fresh_from s ->
  owns (heap s) v xs ->
  owns (<[next s := cells]> (heap s)) v xs.
Proof.
  intros Hfresh (Hsize & Hcap & Hbuf). split; [done|]. split; [done|].
  destruct (buffer_ (data_ v)) as [|a off]; [done|].
  destruct Hbuf as (-> & Hpos & Hblock). split; [done|]. split; [done|].
  rewrite lookup_insert_ne; [done|].
  intros <-. rewrite Hfresh in Hblock by lia. done.
Qed.

Lemma fresh_from_alloc s cells l v :
  fresh_from s ->
  fresh_from (mkState v (<[next s := cells]> (heap s)) (S (next s)) l).
Proof.
  intros Hfresh a Ha. simpl in *. rewrite lookup_insert_ne by lia.
  apply Hfresh. lia.
Qed.

(** X2: [Vector(size)] for an element type whose value initialization
    yields [d]: with [size = 0] nothing is allocated and the state is as
    before; otherwise, when the request for [size * sizeof(T)] bytes is
    computed without wrapping around and is granted, the new vector owns
    one fresh block of exactly [size] slots, all constructed with [d], so
    its size and capacity are both [size].  No other block of the heap
    changes. *)
Theorem sized_constructor_value_initializes s n d :
  fresh_from s ->
  0 <= n ->
  value_init = Some d ->
  n = 0 \/ can_allocate n = true ->
  exists v s',
    Vector_sized n s = Ret v s' /\
    size_ v = n /\
    capacity_ (data_ v) = n /\
    owns (heap s') v (replicate (Z.to_nat n) d) /\
    self s' = self s /\
    fresh_from s' /\
    (n = 0 -> s' = s) /\
    (forall a cells, heap s !! a = Some cells -> heap s' !! a = Some cells) /\
    log s'
    = log s ++ (if n =? 0 then []
                else [EvAlloc (next s) n]
                       ++ slot_events EvDefault (next s) 0 (Z.to_nat n)).
Proof.
  intros Hfresh Hn Hd Hcan.
  assert (Hmax : n = 0 \/ (0 < n <= PTRDIFF_MAX /\ can_allocate n = true)).
  { destruct (decide (n = 0)) as [|Hnz]; [by left|]. right.
    destruct Hcan as [|Hcan]; [done|]. split; [|done].
    apply can_allocate_bound in Hcan. lia. }
  destruct Hmax as [->|[Hpos Hok]].
  - exists (mkVector (mkRawMemory Null 0) 0), s.
    split; [reflexivity|]. split; [done|]. split; [done|].
    split; [by repeat split|]. split; [done|]. split; [done|].
    split; [done|]. split; [done|]. simpl. by rewrite app_nil_r.
  - eexists _, _. split.
    + apply wp_eq. unfold Vector_sized.
      apply wp_bind, wp_RawMemory_ctor; [lia|]. rewrite Hok. simp_state.
      apply wp_bind, wp_unwinding.
      unfold uninitialized_value_construct_n, value_construct.
      eapply (wp_uninitialized_construct_loop value_init d (Z.to_nat n)
                (next s) 0 [] [] 0); [done | | done |].
      { simp_state. rewrite lookup_insert_eq. simpl. by rewrite app_nil_r. }
      simp_state. apply wp_ret. split; reflexivity.
    + simpl. split; [done|]. split; [done|]. split.
      { split; [simpl; rewrite length_replicate; lia|].
        split; [simpl; lia|]. simpl. split; [done|]. split; [lia|].
        rewrite insert_insert_eq, lookup_insert_eq, app_nil_r.
        rewrite cells_of_exact by (rewrite length_replicate; lia).
        by rewrite fmap_replicate. }
      split; [done|]. split.
      { rewrite insert_insert_eq. by apply fresh_from_alloc. }
      split; [lia|]. split.
      { intros a cells Ha. rewrite insert_insert_eq, lookup_insert_ne; [done|].
        intros <-. by rewrite Hfresh in Ha. }
      destruct (Z.eqb_spec n 0); [lia|]. by rewrite <- app_assoc.
Qed.

(** X3: when value initialization of the element type throws, [Vector(size)]
    with [size > 0] propagates the exception after releasing the block it
    had allocated: the heap is as before the call. *)
Theorem sized_constructor_releases_on_failure s n :
  fresh_from s ->
  0 < n ->
  can_allocate n = true ->
  value_init = None ->
  exists s',
    Vector_sized n s = Throw ElemExn s' /\
    self s' = self s /\
    heap s' = heap s /\
    log s' = log s ++ [EvAlloc (next s) n; EvFree (next s)].
Proof.
  intros Hfresh Hn Hcan Hinit.
  destruct (Z.to_nat n) as [|k] eqn:Hk; [lia|].
  eexists. split.
  - unfold Vector_sized, bind. rewrite RawMemory_ctor_eq by done.
    unfold uninitialized_value_construct_n, value_construct.
    rewrite Hk. simpl. unfold bind, unwinding, init_construct. rewrite Hinit.
    unfold throw, destroy_n. simpl. unfold ret.
    unfold RawMemory_dtor, Deallocate, operator_delete. simpl.
    rewrite lookup_insert_eq. reflexivity.
  - simpl. split; [done|]. split; [|by rewrite <- app_assoc].
    rewrite delete_insert_id; [done|]. by apply Hfresh.
Qed.

End Lifetime.

Section Copies.
Context {T : Type} `{ET : Elem T} `{MS : MemorySource}.
Implicit Types (s : state T) (xs ys : list T) (v : Vector).

Lemma copies_functional xs : forall ys ys',
  Forall2 copies xs ys -> Forall2 copies xs ys' -> ys = ys'.
Proof.
  induction xs as [|x xs IH]; intros ys ys' H1 H2;
    inversion H1; inversion H2; subst; [done|].
  unfold copies in *. f_equal; [congruence | by apply IH].
Qed.

(** [uninitialized_copy_n] meeting an element whose copy throws, after the
    copies of [xs1]: those copies are destroyed and nothing else. *)
Lemma wp_uninitialized_copy_loop_stops xs1 :
  forall ys1 x xs2 a i spre spost b j dpre ys dpost done s Q
         (E : exn -> state T -> Prop),
  Forall2 copies xs1 ys1 ->
  copy_ctor x = None ->
  a <> b ->
  is_copy_constructible = true ->
  heap s !! a = Some (spre ++ (Obj <$> (xs1 ++ x :: xs2)) ++ spost) ->
  Z.of_nat (length spre) = i + done ->
  heap s !! b
    = Some (dpre ++ (Obj <$> ys)
              ++ replicate (length (xs1 ++ x :: xs2)) Raw ++ dpost) ->
  Z.of_nat (length dpre) = j ->
  Z.of_nat (length ys) = done ->
  E ElemExn
    (mkState (self s)
       (<[b := dpre
                 ++ replicate (length ys + length (xs1 ++ x :: xs2)) Raw
                 ++ dpost]> (heap s))
       (next s)
       (log s ++ pair_events EvCopyCtor a i b j done (length xs1)
              ++ slot_events EvDestroy b j (length ys + length xs1))) ->
  wp (uninitialized_copy_loop (Ptr a i) (Ptr b j) done
        (length (xs1 ++ x :: xs2))) s Q E.
Proof.
  induction xs1 as [|x1 xs1 IH];
    intros ys1 x xs2 a i spre spost b j dpre ys dpost done s Q E
           Hcopies Hx Hab Hcc Ha Hi Hb Hj Hdone HE; simpl in *.
  - apply wp_bind, wp_unwinding.
    eapply (wp_copy_construct _ b _ (dpre ++ (Obj <$> ys))).
    + by eapply get_slot_middle.
    + done.
    + by rewrite Hb, <- app_assoc.
    + rewrite length_app, length_fmap. lia.
    + rewrite Hx.
      eapply (wp_destroy_n ys); [by rewrite Hb | lia | lia |].
      rewrite Nat.add_0_r in HE. unfold pair_events in HE. simpl in HE.
      rewrite replicate_add, <- app_assoc in HE. exact HE.
  - apply Forall2_cons_inv_l in Hcopies as (y1 & ys1' & Hy1 & Hrest & ->).
    apply wp_bind, wp_unwinding.
    eapply (wp_copy_construct _ b _ (dpre ++ (Obj <$> ys))).
    + by eapply get_slot_middle.
    + done.
    + by rewrite Hb, <- app_assoc.
    + rewrite length_app, length_fmap. lia.
    + unfold copies in Hy1. rewrite Hy1.
      eapply (IH ys1' x xs2 a i (spre ++ [Obj x1]) spost b j dpre
                (ys ++ [y1]) dpost); simpl; try done.
      * rewrite lookup_insert_ne by done. by rewrite Ha, <- app_assoc.
      * rewrite length_app. simpl. lia.
      * rewrite lookup_insert_eq, fmap_app, <- !app_assoc. done.
      * rewrite length_app. simpl. lia.
      * rewrite insert_insert_eq, <- !app_assoc. rewrite length_app. simpl.
        rewrite pair_events_cons in HE. simpl in HE.
        by replace (length ys + 1 + length (xs1 ++ x :: xs2))%nat
             with (length ys + S (length (xs1 ++ x :: xs2)))%nat by lia;
           replace (length ys + 1 + length xs1)%nat
             with (length ys + S (length xs1))%nat by lia.
Qed.

End Copies.

Section CopyConstruction.
Context {T : Type} `{ET : Elem T} `{MS : MemorySource}.
Implicit Types (s : state T) (xs ys : list T) (v : Vector).

Lemma owns_nonempty (h : gmap addr (list (slot T))) v xs :
  owns h v xs -> xs <> [] ->
  exists a,
    buffer_ (data_ v) = Ptr a 0 /\
    h !! a = Some (cells_of xs (capacity_ (data_ v))).
Proof.
  intros (Hsize & Hcap & Hbuf) Hne.
  assert (0 < length xs)%nat by (destruct xs; [done | simpl; lia]).
  destruct (buffer_ (data_ v)) as [|a off]; [lia|].
  destruct Hbuf as (-> & _ & Hblock). eauto.
Qed.

Lemma owns_empty (h : gmap addr (list (slot T))) v :
  owns h v [] -> size_ v = 0.
Proof. by intros (Hsize & _). Qed.

(** The copy constructor when every copy succeeds. *)
Lemma Vector_copy_eq s (o : Vector) ys ys' a :
  fresh_from s ->
  owns (heap s) o ys ->
  buffer_ (data_ o) = Ptr a 0 ->
  ys <> [] ->
  is_copy_constructible = true ->
  Forall2 copies ys ys' ->
  can_allocate (size_ o) = true ->
  Vector_copy o s
  = Ret (mkVector (mkRawMemory (Ptr (next s) 0) (size_ o)) (size_ o))
        (mkState (self s) (<[next s := Obj <$> ys']> (heap s)) (S (next s))
           (log s ++ [EvAlloc (next s) (size_ o)]
              ++ pair_events EvCopyCtor a 0 (next s) 0 0 (length ys))).
Proof.
  intros Hfresh Hown Ha Hne Hcc Hcopies Hcan.
  pose proof Hown as (Hsize & Hcap & Hbuf). rewrite Ha in Hbuf.
  destruct Hbuf as (_ & Hpos & Hblock).
  assert (0 < length ys)%nat by (destruct ys; [done | simpl; lia]).
  assert (Hab : a <> next s).
  { intros ->. rewrite Hfresh in Hblock by lia. done. }
  apply wp_eq. unfold Vector_copy.
  apply wp_bind, wp_RawMemory_ctor; [lia|]. rewrite Hcan. simp_state.
  apply wp_bind, wp_unwinding. unfold uninitialized_copy_n.
  rewrite Ha, Hsize, Nat2Z.id.
  eapply (wp_uninitialized_copy_loop ys a 0 [] _ (next s) 0 [] [] []);
    [done | done | | done | | done | done | | ].
  - simp_state. rewrite lookup_insert_ne by done. exact Hblock.
  - simp_state. rewrite lookup_insert_eq. simpl. by rewrite app_nil_r.
  - intros zs Hzs. rewrite (copies_functional ys zs ys') by done.
    simp_state. apply wp_ret. split; [done|].
    rewrite insert_insert_eq. simpl. by rewrite app_nil_r, <- app_assoc.
  - intros Hex. by apply copies_all_succeed in Hcopies.
Qed.

Lemma Vector_copy_empty s (o : Vector) :
  size_ o = 0 ->
  Vector_copy o s = Ret (mkVector (mkRawMemory Null 0) 0) s.
Proof. intros Ho. unfold Vector_copy. rewrite Ho. reflexivity. Qed.

(** The copy constructor when the copy of [x] throws after those of
    [ys1]. *)
Lemma Vector_copy_stops s (o : Vector) ys1 zs1 x ys2 a :
  fresh_from s ->
  owns (heap s) o (ys1 ++ x :: ys2) ->
  buffer_ (data_ o) = Ptr a 0 ->
  is_copy_constructible = true ->
  Forall2 copies ys1 zs1 ->
  copy_ctor x = None ->
  can_allocate (size_ o) = true ->
  Vector_copy o s
  = Throw ElemExn
      (mkState (self s) (heap s) (S (next s))
         (log s ++ [EvAlloc (next s) (size_ o)]
            ++ pair_events EvCopyCtor a 0 (next s) 0 0 (length ys1)
            ++ slot_events EvDestroy (next s) 0 (length ys1)
            ++ [EvFree (next s)])).
Proof.
  intros Hfresh Hown Ha Hcc Hcopies Hx Hcan.
  pose proof Hown as (Hsize & Hcap & Hbuf). rewrite Ha in Hbuf.
  destruct Hbuf as (_ & Hpos & Hblock).
  assert (0 < length (ys1 ++ x :: ys2))%nat
    by (rewrite length_app; simpl; lia).
  assert (Hab : a <> next s).
  { intros ->. rewrite Hfresh in Hblock by lia. done. }
  assert (Hnone : heap s !! next s = None) by by apply Hfresh.
  cut (exists s', Vector_copy o s = Throw ElemExn s' /\
         s' = mkState (self s) (heap s) (S (next s))
                (log s ++ [EvAlloc (next s) (size_ o)]
                   ++ pair_events EvCopyCtor a 0 (next s) 0 0 (length ys1)
                   ++ slot_events EvDestroy (next s) 0 (length ys1)
                   ++ [EvFree (next s)])).
  { by intros (s' & -> & ->). }
  apply wp_throws. unfold Vector_copy.
  apply wp_bind, wp_RawMemory_ctor; [lia|]. rewrite Hcan. simp_state.
  apply wp_bind, wp_unwinding. unfold uninitialized_copy_n.
  rewrite Ha, Hsize, Nat2Z.id.
  eapply (wp_uninitialized_copy_loop_stops ys1 zs1 x ys2 a 0 [] _
            (next s) 0 [] [] []);
    [done | done | done | done | | done | | done | done | ].
  - simp_state. rewrite lookup_insert_ne by done. exact Hblock.
  - simp_state. rewrite lookup_insert_eq. simpl. by rewrite app_nil_r.
  - simp_state. eapply wp_RawMemory_dtor; [done | apply lookup_insert_eq |].
    simp_state. split; [done|]. f_equal.
    + rewrite insert_insert_eq. by apply delete_insert_id.
    + by rewrite <- !app_assoc.
Qed.

(** The destructor. *)
Lemma Vector_dtor_eq s v xs :
  owns (heap s) v xs ->
  Vector_dtor v s
  = Ret tt
      (mkState (self s) (release (buffer_ (data_ v)) (heap s)) (next s)
         (log s ++ range_events EvDestroy (buffer_ (data_ v)) (length xs)
            ++ release_events (buffer_ (data_ v)))).
Proof.
  intros (Hsize & Hcap & Hbuf).
  apply wp_eq. unfold Vector_dtor.
  destruct (buffer_ (data_ v)) as [|a off] eqn:Ha.
  - assert (size_ v = 0) as Hz by lia. simp_state. rewrite Ha, Hz.
    apply wp_bind, wp_destroy_n_0.
    apply wp_RawMemory_dtor_null; [done|].
    split; [done|]. simpl. by rewrite app_nil_r, state_eta.
  - destruct Hbuf as (-> & Hpos & Hblock). simp_state. rewrite Ha.
    apply wp_bind.
    eapply (wp_destroy_n xs a 0 _ []); [exact Hblock | done | done |].
    simp_state.
    eapply wp_RawMemory_dtor; [done | apply lookup_insert_eq |].
    simp_state. split; [done|]. f_equal.
    + by rewrite delete_insert_eq.
    + by rewrite <- app_assoc.
Qed.

End CopyConstruction.

Section LifetimeResults.
Context {T : Type} `{ET : Elem T} `{MS : MemorySource}.
Implicit Types (s : state T) (xs ys : list T) (v : Vector).

(** The state and the vector the copy constructor returns. *)
Lemma Vector_copy_returns s (o : Vector) ys ys' :
  fresh_from s ->
  owns (heap s) o ys ->
  is_copy_constructible = true ->
  Forall2 copies ys ys' ->
  size_ o = 0 \/ can_allocate (size_ o) = true ->
  exists v s',
    Vector_copy o s = Ret v s' /\
    size_ v = size_ o /\
    capacity_ (data_ v) = size_ o /\
    owns (heap s') v ys' /\
    owns (heap s') o ys /\
    self s' = self s /\
    fresh_from s' /\
    heap s' = store_block (buffer_ (data_ v)) (Obj <$> ys') (heap s) /\
    (buffer_ (data_ v) = Null \/ buffer_ (data_ v) = Ptr (next s) 0).
Proof.
  intros Hfresh Hown Hcc Hcopies Hcan.
  pose proof Hown as (Hsize & Hcap & Hbuf).
  assert (Hlen : length ys' = length ys)
    by (symmetry; by eapply Forall2_length).
  destruct (decide (ys = [])) as [->|Hne].
  - apply Forall2_nil_inv_l in Hcopies as ->.
    exists (mkVector (mkRawMemory Null 0) 0), s.
    split; [by apply Vector_copy_empty|]. simpl in *.
    split; [lia|]. split; [lia|]. split; [by repeat split|].
    split; [done|]. split; [done|]. split; [done|]. split; [done|]. by left.
  - destruct (owns_nonempty _ _ _ Hown Hne) as (a & Ha & Hblock).
    assert (0 < length ys)%nat by (destruct ys; [done | simpl; lia]).
    destruct Hcan as [|Hcan]; [lia|].
    pose proof (can_allocate_bound _ Hcan).
    eexists _, _. split; [by apply (Vector_copy_eq s o ys ys' a)|].
    simpl. split; [done|]. split; [done|]. split.
    { split; [simpl; lia|]. split; [simpl; lia|]. simpl.
      split; [done|]. split; [lia|].
      rewrite lookup_insert_eq, cells_of_exact by lia. done. }
    split; [by apply owns_fresh_block|]. split; [done|].
    split; [by apply fresh_from_alloc|]. split; [done|]. by right.
Qed.

(** X4: for a copyable element type all of whose copies succeed,
    [Vector(other)] returns a vector whose size and capacity are both the
    size of [other] -- spare capacity is not copied -- holding the copies
    in order, in a block of its own; [other] and every other block of the
    heap are as before. *)
Theorem copy_constructor_copies_size_not_capacity s (other : Vector) ys ys' :
  fresh_from s ->
  owns (heap s) other ys ->
  is_copy_constructible = true ->
  Forall2 copies ys ys' ->
  size_ other = 0 \/ can_allocate (size_ other) = true ->
  exists v s',
    Vector_copy other s = Ret v s' /\
    size_ v = size_ other /\
    capacity_ (data_ v) = size_ other /\
    owns (heap s') v ys' /\
    owns (heap s') other ys /\
    (buffer_ (data_ v) = Null \/
     buffer_ (data_ v) <> buffer_ (data_ other)) /\
    self s' = self s /\
    fresh_from s' /\
    (forall a cells, heap s !! a = Some cells -> heap s' !! a = Some cells).
Proof.
  intros Hfresh Hown Hcc Hcopies Hcan.
  destruct (Vector_copy_returns s other ys ys' Hfresh Hown Hcc Hcopies Hcan)
    as (v & s' & Hrun & Hsz & Hcap & Hv & Ho & Hself & Hfresh' & Hheap & Hbuf).
  exists v, s'. split; [done|]. split; [done|]. split; [done|].
  split; [done|]. split; [done|]. split; [|split; [done|split; [done|]]].
  - destruct Hbuf as [|Hb]; [by left|]. right. rewrite Hb.
    destruct Hown as (_ & _ & Hobuf).
    destruct (buffer_ (data_ other)) as [|a off]; [done|].
    destruct Hobuf as (-> & _ & Hblock). intros [= <-].
    rewrite Hfresh in Hblock by lia. done.
  - intros a cells Ha. rewrite Hheap.
    destruct Hbuf as [->| ->]; simpl; [done|].
    rewrite lookup_insert_ne; [done|]. intros <-.
    rewrite Hfresh in Ha by lia. done.
Qed.

(** X5: when the copy of an element throws, [Vector(other)] destroys the
    copies it has made so far, in order, releases the block it allocated
    and propagates the exception: the heap is as before the call and the
    log shows as many destructions as copy constructions. *)
Theorem copy_constructor_destroys_copies_on_failure
    s (other : Vector) ys1 zs1 x ys2 :
  fresh_from s ->
  owns (heap s) other (ys1 ++ x :: ys2) ->
  is_copy_constructible = true ->
  Forall2 copies ys1 zs1 ->
  copy_ctor x = None ->
  can_allocate (size_ other) = true ->
  exists a s',
    buffer_ (data_ other) = Ptr a 0 /\
    Vector_copy other s = Throw ElemExn s' /\
    self s' = self s /\
    heap s' = heap s /\
    log s'
    = log s ++ [EvAlloc (next s) (size_ other)]
        ++ pair_events EvCopyCtor a 0 (next s) 0 0 (length ys1)
        ++ slot_events EvDestroy (next s) 0 (length ys1)
        ++ [EvFree (next s)].
Proof.
  intros Hfresh Hown Hcc Hcopies Hx Hcan.
  destruct (owns_nonempty _ _ _ Hown) as (a & Ha & _).
  { by destruct ys1. }
  exists a. eexists. split; [done|].
  split; [by apply (Vector_copy_stops s other ys1 zs1 x ys2 a)|]. done.
Qed.

(** X6: the destructor of a vector holding [xs] destroys its [Size()]
    elements first to last and then releases its buffer, which leaves the
    heap; a vector without a buffer is destroyed without any effect. *)
Theorem destructor_destroys_then_releases s v xs :
  owns (heap s) v xs ->
  exists s',
    Vector_dtor v s = Ret tt s' /\
    self s' = self s /\
    next s' = next s /\
    heap s' = release (buffer_ (data_ v)) (heap s) /\
    log s'
    = log s ++ range_events EvDestroy (buffer_ (data_ v)) (length xs)
        ++ release_events (buffer_ (data_ v)) /\
    (buffer_ (data_ v) = Null -> s' = s).
Proof.
  intros Hown. eexists. split; [by apply (Vector_dtor_eq s v xs)|].
  simpl. split; [done|]. split; [done|]. split; [done|]. split; [done|].
  intros ->. simpl. by rewrite app_nil_r, state_eta.
Qed.

(** X7: copying a vector and destroying the copy gives back the heap as it
    was before the copy. *)
Theorem copy_then_destroy_restores_heap s (other : Vector) ys ys' :
  fresh_from s ->
  owns (heap s) other ys ->
  is_copy_constructible = true ->
  Forall2 copies ys ys' ->
  size_ other = 0 \/ can_allocate (size_ other) = true ->
  exists v s1 s2,
    Vector_copy other s = Ret v s1 /\
    Vector_dtor v s1 = Ret tt s2 /\
    self s2 = self s /\
    heap s2 = heap s.
Proof.
  intros Hfresh Hown Hcc Hcopies Hcan.
  destruct (Vector_copy_returns s other ys ys' Hfresh Hown Hcc Hcopies Hcan)
    as (v & s1 & Hrun & _ & _ & Hv & _ & Hself & _ & Hheap & Hbuf).
  exists v, s1. eexists. split; [done|].
  split; [by apply (Vector_dtor_eq s1 v ys')|]. simpl. split; [done|].
  rewrite Hheap. destruct Hbuf as [->| ->]; simpl; [done|].
  rewrite delete_insert_id; [done|]. by apply Hfresh.
Qed.

End LifetimeResults.

(** ** Swapping, moving and reallocating assignment *)

Section Exchange.
Context {T : Type} `{ET : Elem T} `{MS : MemorySource}.
Implicit Types (s : state T) (xs ys : list T) (v : Vector).

Lemma Swap_eq s (other : Vector) :
  Swap other s = Ret (self s) (mkState other (heap s) (next s) (log s)).
Proof.
  unfold Swap, bind, get_self, set_self, ret. simpl.
  by rewrite !Vector_eta.
Qed.

(** X8: [Swap] exchanges the buffers and sizes of the two vectors and
    nothing else: no element is touched, nothing is logged, each vector
    then holds what the other held, and swapping back restores the state.
    Move assignment is this exchange, so the elements the target held end
    up in the source; move construction is the exchange with an empty
    vector. *)
Theorem swap_exchanges_ownership s (other : Vector) xs ys :
  represents s xs ->
  owns (heap s) other ys ->
  exists s',
    Swap other s = Ret (self s) s' /\
    move_assignment other s = Ret (self s) s' /\
    self s' = other /\
    heap s' = heap s /\ next s' = next s /\ log s' = log s /\
    represents s' ys /\
    owns (heap s') (self s) xs /\
    Swap (self s) s' = Ret other s /\
    Swap other (mkState Vector_default (heap s) (next s) (log s))
    = Ret (snd (Vector_move other))
          (mkState (fst (Vector_move other)) (heap s) (next s) (log s)).
Proof.
  intros [Hfresh Hown] Hother. eexists.
  split; [apply Swap_eq|]. split; [apply Swap_eq|]. simpl.
  do 4 (split; [done|]). split; [by split|]. split; [done|].
  split; [rewrite Swap_eq; simpl; by destruct s|].
  exact (Swap_eq (mkState Vector_default (heap s) (next s) (log s)) other).
Qed.

Lemma wp_of_throw {A} (m : M T A) s e s' (Q : A -> state T -> Prop)
    (E : exn -> state T -> Prop) :
  m s = Throw e s' -> E e s' -> wp m s Q E.
Proof. unfold wp. by intros ->. Qed.

Lemma cells_of_length xs cap :
  Z.of_nat (length xs) <= cap ->
  length (cells_of xs cap) = Z.to_nat cap.
Proof.
  intros Hle. unfold cells_of.
  rewrite length_app, length_fmap, length_replicate. lia.
Qed.

(** Copy assignment from a vector larger than the capacity, every copy
    succeeding. *)
Lemma copy_assignment_grows s (o : Vector) xs ys ys' :
  represents s xs ->
  owns (heap s) o ys ->
  is_copy_constructible = true ->
  Forall2 copies ys ys' ->
  capacity_ (data_ (self s)) < size_ o ->
  can_allocate (size_ o) = true ->
  let buf := buffer_ (data_ (self s)) in
  copy_assignment (Object o) s
  = Ret tt
      (mkState (mkVector (mkRawMemory (Ptr (next s) 0) (size_ o)) (size_ o))
         (release buf (<[next s := Obj <$> ys']> (heap s)))
         (S (next s))
         (log s ++ [EvAlloc (next s) (size_ o)]
            ++ transfer_events EvCopyCtor (buffer_ (data_ o))
                 (Ptr (next s) 0) (length ys)
            ++ range_events EvDestroy buf (length xs)
            ++ release_events buf)).
Proof.
  intros Hrep Hown Hcc Hcopies Hgrow Hcan buf.
  pose proof Hrep as [Hfresh Hself].
  pose proof Hself as (Hsize & Hcap & Hbuf).
  pose proof Hown as (Hosize & Hocap & Hobuf).
  assert (Hne : ys <> []) by (intros ->; simpl in *; lia).
  destruct (owns_nonempty _ _ _ Hown Hne) as (a & Ha & Hblock).
  apply wp_eq. unfold copy_assignment. cbn [deref].
  apply wp_bind, wp_ret, wp_bind, wp_get_self. simp_state.
  destruct (Z.gtb_spec (size_ o) (capacity_ (data_ (self s)))); [|lia].
  apply wp_bind, wp_bind.
  eapply wp_of_eq; [by apply (Vector_copy_eq s o ys ys' a)|].
  apply wp_bind. eapply wp_of_eq; [apply Swap_eq|]. simp_state.
  eapply wp_of_eq.
  { apply (Vector_dtor_eq _ _ xs). simpl. by apply owns_fresh_block. }
  simp_state. apply wp_bind, wp_ret, wp_set_size. simp_state.
  split; [done|]. rewrite Ha. simpl. f_equal.
  by rewrite <- !app_assoc.
Qed.

(** The same when the copy of [x] throws after those of [ys1]. *)
Lemma copy_assignment_grow_stops s (o : Vector) xs ys1 zs1 x ys2 :
  represents s xs ->
  owns (heap s) o (ys1 ++ x :: ys2) ->
  is_copy_constructible = true ->
  Forall2 copies ys1 zs1 ->
  copy_ctor x = None ->
  capacity_ (data_ (self s)) < size_ o ->
  can_allocate (size_ o) = true ->
  exists l,
    copy_assignment (Object o) s
    = Throw ElemExn (mkState (self s) (heap s) (S (next s)) l).
Proof.
  intros [Hfresh Hself] Hown Hcc Hcopies Hx Hgrow Hcan.
  destruct (owns_nonempty _ _ _ Hown) as (a & Ha & _).
  { by destruct ys1. }
  cut (exists s', copy_assignment (Object o) s = Throw ElemExn s' /\
         exists l, s' = mkState (self s) (heap s) (S (next s)) l).
  { intros (s' & -> & l & ->). eauto. }
  apply wp_throws. unfold copy_assignment. cbn [deref].
  apply wp_bind, wp_ret, wp_bind, wp_get_self. simp_state.
  destruct (Z.gtb_spec (size_ o) (capacity_ (data_ (self s)))); [|lia].
  apply wp_bind, wp_bind.
  eapply wp_of_throw; [by apply (Vector_copy_stops s o ys1 zs1 x ys2 a)|].
  split; [done|]. by eexists.
Qed.

End Exchange.

Section Reassignment.
Context {T : Type} `{ET : Elem T} `{MS : MemorySource}.
Implicit Types (s : state T) (xs ys : list T) (v : Vector).

(** Two vectors of different capacities do not share a buffer. *)
Lemma owns_apart (h : gmap addr (list (slot T))) v w xs ys :
  owns h v xs -> owns h w ys ->
  capacity_ (data_ v) <> capacity_ (data_ w) ->
  buffer_ (data_ w) = Null \/ buffer_ (data_ w) <> buffer_ (data_ v).
Proof.
  intros (Hvs & Hvc & Hvb) (Hws & Hwc & Hwb) Hne.
  destruct (buffer_ (data_ w)) as [|a off]; [by left|]. right.
  destruct (buffer_ (data_ v)) as [|a' off']; [done|].
  destruct Hvb as (-> & _ & Hv), Hwb as (-> & _ & Hw). intros [= ->].
  rewrite Hv in Hw. injection Hw as Hw.
  apply (f_equal length) in Hw. rewrite !cells_of_length in Hw by lia. lia.
Qed.

(** The state copy assignment leaves when it reallocates. *)
Lemma grown_state_represents s (other : Vector) xs ys ys' l :
  represents s xs ->
  owns (heap s) other ys ->
  length ys' = length ys ->
  capacity_ (data_ (self s)) < size_ other ->
  size_ other <= PTRDIFF_MAX ->
  let h := release (buffer_ (data_ (self s)))
             (<[next s := Obj <$> ys']> (heap s)) in
  represents
    (mkState (mkVector (mkRawMemory (Ptr (next s) 0) (size_ other))
                       (size_ other))
             h (S (next s)) l) ys' /\
  owns h other ys.
Proof.
  intros Hrep Hown Hlen Hgrow Hmax h. subst h.
  pose proof Hrep as [Hfresh Hself].
  pose proof Hself as (Hsize & Hcap & Hbuf).
  pose proof Hown as (Hosize & Hocap & Hobuf).
  assert (Hnone : heap s !! next s = None) by by apply Hfresh.
  assert (Hsep : buffer_ (data_ other) = Null \/
                 buffer_ (data_ other) <> buffer_ (data_ (self s))).
  { apply (owns_apart (heap s) (self s) other xs ys); [done | done | lia]. }
  split.
  - split.
    + intros a Ha. simpl in *.
      destruct (buffer_ (data_ (self s))) as [|c off]; simpl.
      * rewrite lookup_insert_ne by lia. apply Hfresh. lia.
      * destruct (decide (c = a)) as [->|]; [by rewrite lookup_delete_eq|].
        rewrite lookup_delete_ne, lookup_insert_ne by (done || lia).
        apply Hfresh. lia.
    + split; [simpl; lia|]. split; [simpl; lia|]. simpl.
      split; [done|]. split; [lia|].
      destruct (buffer_ (data_ (self s))) as [|c off]; simpl.
      * rewrite lookup_insert_eq, cells_of_exact by lia. done.
      * destruct Hbuf as (-> & _ & Hblock).
        rewrite lookup_delete_ne, lookup_insert_eq, cells_of_exact by
          (lia || (intros ->; by rewrite Hnone in Hblock)). done.
  - split; [done|]. split; [done|].
    destruct (buffer_ (data_ other)) as [|a off]; [done|].
    destruct Hobuf as (-> & Hpos & Hblock). split; [done|]. split; [done|].
    assert (a <> next s) by (intros ->; by rewrite Hnone in Hblock).
    destruct (buffer_ (data_ (self s))) as [|c off]; simpl.
    + by rewrite lookup_insert_ne.
    + destruct Hbuf as (-> & _). destruct Hsep as [|Hsep]; [done|].
      rewrite lookup_delete_ne, lookup_insert_ne by congruence. done.
Qed.

(** X9: copy assignment from a vector whose size exceeds the capacity of
    the target, all copies succeeding, gives the target a fresh buffer
    whose capacity is exactly the size of the source, holding the copies;
    the elements the target held are destroyed and its old buffer is
    released; the source is as before. *)
Theorem copy_assign_reallocates_to_source_size
    s (other : Vector) xs ys ys' :
  represents s xs ->
  owns (heap s) other ys ->
  is_copy_constructible = true ->
  Forall2 copies ys ys' ->
  capacity_of s < size_ other ->
  can_allocate (size_ other) = true ->
  let buf := buffer_ (data_ (self s)) in
  exists s',
    copy_assignment (Object other) s = Ret tt s' /\
    capacity_of s' = size_ other /\
    size_of s' = size_ other /\
    buffer_ (data_ (self s')) = Ptr (next s) 0 /\
    represents s' ys' /\
    owns (heap s') other ys /\
    heap s' = release buf (<[next s := Obj <$> ys']> (heap s)) /\
    log s'
    = log s ++ [EvAlloc (next s) (size_ other)]
        ++ transfer_events EvCopyCtor (buffer_ (data_ other))
             (Ptr (next s) 0) (length ys)
        ++ range_events EvDestroy buf (length xs)
        ++ release_events buf.
Proof.
  intros Hrep Hown Hcc Hcopies Hgrow Hcan buf. unfold capacity_of in *.
  eexists. split; [by apply (copy_assignment_grows s other xs ys ys')|].
  pose proof (can_allocate_bound _ Hcan).
  assert (Hlen : length ys' = length ys)
    by (symmetry; by eapply Forall2_length).
  simpl. do 3 (split; [done|]).
  destruct (grown_state_represents s other xs ys ys'
    (log s ++ [EvAlloc (next s) (size_ other)]
        ++ transfer_events EvCopyCtor (buffer_ (data_ other))
             (Ptr (next s) 0) (length ys)
        ++ range_events EvDestroy buf (length xs)
        ++ release_events buf) Hrep Hown Hlen Hgrow) as [Hrep' Hown'];
    [done|].
  split; [exact Hrep'|]. split; [exact Hown'|]. done.
Qed.

(** X10: when a copy throws during that assignment, the exception leaves
    the target with the buffer, size, capacity and elements it had and the
    heap as it was: nothing but the allocator's counter and the log has
    changed. *)
Theorem copy_assign_reallocation_is_all_or_nothing
    s (other : Vector) xs ys1 zs1 x ys2 :
  represents s xs ->
  owns (heap s) other (ys1 ++ x :: ys2) ->
  is_copy_constructible = true ->
  Forall2 copies ys1 zs1 ->
  copy_ctor x = None ->
  capacity_of s < size_ other ->
  can_allocate (size_ other) = true ->
  exists s',
    copy_assignment (Object other) s = Throw ElemExn s' /\
    self s' = self s /\
    heap s' = heap s /\
    represents s' xs.
Proof.
  intros Hrep Hown Hcc Hcopies Hx Hgrow Hcan.
  destruct (copy_assignment_grow_stops s other xs ys1 zs1 x ys2)
    as [l Hrun]; try done.
  eexists. split; [exact Hrun|]. simpl. split; [done|]. split; [done|].
  destruct Hrep as [Hfresh Hself]. split; [|done].
  intros a Ha. simpl in *. apply Hfresh. lia.
Qed.

End Reassignment.

(** ** Growing by [Resize] *)

Section Growing.
Context {T : Type} `{ET : Elem T} `{MS : MemorySource}.
Implicit Types (s : state T) (xs ys : list T) (v : Vector).

Lemma cells_of_fill xs (k : nat) d cap :
  Z.of_nat (length xs + k) <= cap ->
  (Obj <$> xs) ++ replicate k (Obj d)
    ++ replicate (Z.to_nat cap - length xs - k) Raw
  = cells_of (xs ++ replicate k d) cap.
Proof.
  intros Hle. unfold cells_of.
  rewrite fmap_app, fmap_replicate, <- app_assoc, length_app, length_replicate.
  do 3 f_equal. lia.
Qed.

Lemma cells_of_gap xs (k : nat) cap :
  Z.of_nat (length xs + k) <= cap ->
  cells_of xs cap
  = (Obj <$> xs) ++ replicate k Raw
      ++ replicate (Z.to_nat cap - length xs - k) Raw.
Proof.
  intros Hle. unfold cells_of. rewrite <- replicate_add. do 2 f_equal. lia.
Qed.

(** The second half of a growing [Resize]: default construction of the
    new elements in the raw slots after the live ones. *)
Lemma wp_Resize_fill xs n d s a Q E :
  default_init = Some d ->
  buffer_ (data_ (self s)) = Ptr a 0 ->
  heap s !! a = Some (cells_of xs (capacity_ (data_ (self s)))) ->
  size_ (self s) = Z.of_nat (length xs) ->
  size_ (self s) < n <= capacity_ (data_ (self s)) ->
  capacity_ (data_ (self s)) <= PTRDIFF_MAX ->
  Q tt (mkState (mkVector (data_ (self s)) n)
          (<[a := cells_of (xs ++ replicate (Z.to_nat n - length xs) d)
                    (capacity_ (data_ (self s)))]> (heap s))
          (next s)
          (log s ++ slot_events EvDefault a (size_ (self s))
                      (Z.to_nat n - length xs))) ->
  wp (v <- get_self ;;
      uninitialized_default_construct_n
        (RawMemory_plus (data_ v) (size_ v))
        (size_t_wrap (n - size_ v)) ;;
      set_size n) s Q E.
Proof.
  intros Hd Ha Hblock Hsize Hn Hcap HQ.
  assert (Hmax : PTRDIFF_MAX + 1 < 2 ^ 64) by done.
  apply wp_bind, wp_get_self. simp_state. rewrite Ha. simp_state.
  rewrite Z.add_0_l, size_t_wrap_small by lia.
  apply wp_bind.
  unfold uninitialized_default_construct_n, default_construct.
  replace (Z.to_nat (n - size_ (self s)))
    with (Z.to_nat n - length xs)%nat by lia.
  set (k := (Z.to_nat n - length xs)%nat) in *.
  rewrite (cells_of_gap xs k) in Hblock by lia.
  eapply (wp_uninitialized_construct_loop default_init d k a
            (size_ (self s)) (Obj <$> xs) _ 0);
    [done | exact Hblock | rewrite length_fmap; lia |].
  simp_state. apply wp_set_size. simp_state.
  rewrite cells_of_fill, Z.add_0_r by lia.
  exact HQ.
Qed.

End Growing.

Section GrowingResults.
Context {T : Type} `{ET : Elem T} `{MS : MemorySource}.
Implicit Types (s : state T) (xs ys : list T) (v : Vector).

Lemma Resize_within xs n d s a :
  represents s xs ->
  buffer_ (data_ (self s)) = Ptr a 0 ->
  default_init = Some d ->
  size_ (self s) < n <= capacity_ (data_ (self s)) ->
  Resize n s
  = Ret tt
      (mkState (mkVector (data_ (self s)) n)
         (<[a := cells_of (xs ++ replicate (Z.to_nat n - length xs) d)
                   (capacity_ (data_ (self s)))]> (heap s))
         (next s)
         (log s ++ slot_events EvDefault a (size_ (self s))
                     (Z.to_nat n - length xs))).
Proof.
  intros [Hfresh (Hsize & Hcap & Hbuf)] Ha Hd Hn.
  rewrite Ha in Hbuf. destruct Hbuf as (_ & Hpos & Hblock).
  apply wp_eq. unfold Resize.
  apply wp_bind, wp_get_self. simp_state.
  destruct (Z.gtb_spec n (size_ (self s))); [|lia].
  destruct (Z.gtb_spec n (capacity_ (data_ (self s)))); [lia|].
  apply wp_bind, wp_ret.
  eapply (wp_Resize_fill xs n d s a); [done | done | done | done | lia | lia |].
  done.
Qed.

Lemma uninitialized_default_construct_n_throws p k s :
  default_init = None -> 0 < k ->
  uninitialized_default_construct_n p k s = Throw ElemExn s.
Proof.
  intros Hd Hk. unfold uninitialized_default_construct_n.
  destruct (Z.to_nat k) as [|k'] eqn:Hk'; [lia|]. simpl.
  unfold bind, unwinding, default_construct, init_construct. by rewrite Hd.
Qed.

(** X11: [Resize(n)] with [Size() < n <= Capacity()], for an element type
    whose default initialization yields [d], default-constructs the
    elements [Size()] to [n - 1] in place: the buffer and the capacity are
    as before, nothing is allocated, and the elements held before are
    followed by [n - Size()] copies of [d].  When default initialization
    throws, the exception leaves the state exactly as it was. *)
Theorem resize_up_within_capacity s xs n :
  represents s xs ->
  size_of s < n <= capacity_of s ->
  (forall d, default_init = Some d ->
     exists a s',
       buffer_ (data_ (self s)) = Ptr a 0 /\
       Resize n s = Ret tt s' /\
       data_ (self s') = data_ (self s) /\
       size_of s' = n /\
       represents s' (xs ++ replicate (Z.to_nat (n - size_of s)) d) /\
       next s' = next s /\
       log s'
       = log s ++ slot_events EvDefault a (size_of s)
                    (Z.to_nat (n - size_of s))) /\
  (default_init = None -> Resize n s = Throw ElemExn s).
Proof.
  intros Hrep Hn. unfold size_of, capacity_of in *.
  pose proof Hrep as [Hfresh (Hsize & Hcap & Hbuf)].
  destruct (represents_room s xs Hrep) as [a Ha]; [lia|].
  split.
  - intros d Hd. exists a. eexists. split; [done|].
    split; [by apply (Resize_within xs n d s a)|]. simpl.
    replace (Z.to_nat (n - size_ (self s)))
      with (Z.to_nat n - length xs)%nat by lia.
    split; [done|]. split; [done|]. split; [|done].
    apply (represents_same_block s xs); [done | done | | lia | done].
    rewrite length_app, length_replicate. lia.
  - intros Hd. unfold Resize, bind, get_self.
    destruct (Z.gtb_spec n (size_ (self s))); [|lia].
    destruct (Z.gtb_spec n (RawMemory_Capacity (data_ (self s))));
      [unfold RawMemory_Capacity in *; lia|].
    unfold ret. rewrite uninitialized_default_construct_n_throws; [done..|].
    assert (Hmax : PTRDIFF_MAX + 1 < 2 ^ 64) by done.
    rewrite size_t_wrap_small by lia. lia.
Qed.

Section RegularGrowing.
Context `{!Regular T}.

Lemma Resize_beyond xs n d s :
  represents s xs ->
  default_init = Some d ->
  capacity_ (data_ (self s)) < n ->
  can_allocate n = true ->
  let old := buffer_ (data_ (self s)) in
  let b := next s in
  Resize n s
  = Ret tt
      (mkState (mkVector (mkRawMemory (Ptr b 0) n) n)
         (<[b := cells_of (xs ++ replicate (Z.to_nat n - length xs) d) n]>
            (release old (heap s)))
         (S b)
         (log s ++ [EvAlloc b n]
            ++ transfer_events migration_event old (Ptr b 0) (length xs)
            ++ range_events EvDestroy old (length xs)
            ++ release_events old
            ++ slot_events EvDefault b (size_ (self s))
                 (Z.to_nat n - length xs))).
Proof.
  intros Hrep Hd Hn Hcan old b.
  pose proof Hrep as [Hfresh (Hsize & Hcap & Hbuf)].
  pose proof (can_allocate_bound _ Hcan).
  apply wp_eq. unfold Resize.
  apply wp_bind, wp_get_self. simp_state.
  destruct (Z.gtb_spec n (size_ (self s))); [|lia].
  destruct (Z.gtb_spec n (capacity_ (data_ (self s)))); [|lia].
  apply wp_bind. eapply wp_of_eq; [by apply (Reserve_grow xs)|].
  eapply (wp_Resize_fill xs n d _ (next s));
    [done | done | | done | simpl; lia | simpl; lia |].
  { simpl. apply lookup_insert_eq. }
  simpl. rewrite insert_insert_eq. split; [done|]. f_equal.
  subst old b. rewrite <- !app_assoc. simpl. by rewrite <- !app_assoc.
Qed.

(** X12: [Resize(n)] with [n > Capacity()], for a regular element type
    whose default initialization yields [d], when the request for
    [n * sizeof(T)] bytes is computed without wrapping around and is
    granted, reserves exactly [n] slots -- the capacity becomes [n], not
    twice the old one -- migrates the elements, and default-constructs
    the [n - Size()] new ones after them. *)
Theorem resize_beyond_capacity_reserves_exactly s xs n d :
  represents s xs ->
  default_init = Some d ->
  capacity_of s < n ->
  can_allocate n = true ->
  exists s',
    Resize n s = Ret tt s' /\
    capacity_of s' = n /\
    size_of s' = n /\
    buffer_ (data_ (self s')) = Ptr (next s) 0 /\
    represents s' (xs ++ replicate (Z.to_nat (n - size_of s)) d) /\
    log s'
    = log s ++ [EvAlloc (next s) n]
        ++ transfer_events migration_event (buffer_ (data_ (self s)))
             (Ptr (next s) 0) (length xs)
        ++ range_events EvDestroy (buffer_ (data_ (self s))) (length xs)
        ++ release_events (buffer_ (data_ (self s)))
        ++ slot_events EvDefault (next s) (size_of s)
             (Z.to_nat (n - size_of s)).
Proof.
  intros Hrep Hd Hn Hcan. unfold size_of, capacity_of in *.
  pose proof Hrep as [Hfresh (Hsize & Hcap & Hbuf)].
  pose proof (can_allocate_bound _ Hcan).
  replace (Z.to_nat (n - size_ (self s)))
    with (Z.to_nat n - length xs)%nat by lia.
  eexists. split; [by apply (Resize_beyond xs n d)|]. simpl.
  do 3 (split; [done|]). split; [|done].
  apply represents_fresh_block; [done | | lia | lia].
  rewrite length_app, length_replicate. lia.
Qed.

End RegularGrowing.

(** [Reserve] beyond the capacity for a type migrated by copy, every copy
    succeeding: the new buffer holds the copies. *)
Lemma Reserve_grow_copies xs xs' n s :
  represents s xs ->
  relocates = false ->
  Forall2 copies xs xs' ->
  capacity_ (data_ (self s)) < n ->
  can_allocate n = true ->
  let old := buffer_ (data_ (self s)) in
  let b := next s in
  Reserve n s
  = Ret tt
        (mkState (mkVector (mkRawMemory (Ptr b 0) n) (size_ (self s)))
           (<[b := cells_of xs' n]> (release old (heap s)))
           (S b)
           (log s ++ [EvAlloc b n]
              ++ transfer_events EvCopyCtor old (Ptr b 0) (length xs)
              ++ range_events EvDestroy old (length xs)
              ++ release_events old)).
Proof.
  intros [Hfresh (Hsize & Hcap & Hbuf)] Hrel Hcopies Hn Hcan old b.
  assert (Hb : heap s !! b = None) by by apply Hfresh.
  assert (Hlen : length xs' = length xs)
    by (symmetry; by eapply Forall2_length).
  apply wp_eq. unfold Reserve.
  apply wp_bind, wp_get_self. simp_state.
  destruct (Z.leb_spec n (capacity_ (data_ (self s)))); [lia|].
  apply wp_bind, wp_RawMemory_ctor; [lia|]. fold b.
  rewrite Hcan. simp_state.
  subst old. destruct (buffer_ (data_ (self s))) as [|a off] eqn:Ha.
  - assert (Hz : size_ (self s) = 0) by lia.
    destruct xs; [|simpl in Hsize; lia].
    apply Forall2_nil_inv_l in Hcopies as ->. rewrite Hz.
    apply wp_bind, wp_unwinding. unfold MoveOrCopy. rewrite Hrel.
    apply wp_uninitialized_copy_n_0.
    apply wp_bind, wp_destroy_n_0.
    apply wp_bind, wp_set_data. simp_state.
    apply wp_RawMemory_dtor_null; [done|]. split; [done|].
    rewrite cells_of_nil. simpl. by rewrite Hz.
  - destruct Hbuf as (-> & Hpos & Hblock).
    assert (Hab : a <> b) by by eapply fresh_not_owned.
    unfold cells_of in Hblock.
    apply wp_bind, wp_unwinding. unfold MoveOrCopy. rewrite Hrel.
    unfold uninitialized_copy_n. rewrite Hsize, Nat2Z.id.
    eapply (wp_uninitialized_copy_loop xs a 0 [] _ b 0 [] []
              (replicate (Z.to_nat n - length xs) Raw));
      [ done | by apply relocates_false_copyable | heap_lookup | done
      | | done | done | | ].
    { heap_lookup. f_equal. simpl. rewrite <- replicate_add. f_equal. lia. }
    2:{ intros Hex. by apply copies_all_succeed in Hcopies. }
    intros zs Hzs. rewrite (copies_functional xs zs xs') by done.
    simp_state. apply wp_bind.
    eapply (wp_destroy_n xs a 0 _ []).
    { heap_lookup. }
    { done. }
    { lia. }
    simp_state.
    apply wp_bind, wp_set_data. simp_state.
    eapply (wp_RawMemory_dtor _ a); [done | heap_lookup |].
    simp_state. split; [done|]. f_equal.
    + by rewrite Hsize.
    + unfold cells_of. rewrite Hlen. heap_eq.
    + simpl. by rewrite <- !app_assoc.
Qed.

(** X13: when default initialization throws, [Resize(n)] with
    [n > Capacity()] has already reserved: for an element type migrated by
    copy whose copies succeed, when the request for [n * sizeof(T)] bytes
    is computed without wrapping around and is granted, the exception
    leaves the vector with capacity [n] in a new buffer, its size as
    before, holding the copies of its elements. *)
Theorem resize_beyond_capacity_keeps_reservation_on_failure s xs xs' n :
  represents s xs ->
  is_nothrow_move_constructible = false ->
  is_copy_constructible = true ->
  Forall2 copies xs xs' ->
  default_init = None ->
  capacity_of s < n ->
  can_allocate n = true ->
  exists s',
    Resize n s = Throw ElemExn s' /\
    capacity_of s' = n /\
    size_of s' = size_of s /\
    buffer_ (data_ (self s')) = Ptr (next s) 0 /\
    represents s' xs'.
Proof.
  intros Hrep Hnt Hcc Hcopies Hd Hn Hcan. unfold size_of, capacity_of in *.
  assert (Hrel : relocates = false)
    by (unfold relocates; by rewrite Hnt, Hcc).
  pose proof Hrep as [Hfresh (Hsize & Hcap & Hbuf)].
  pose proof (can_allocate_bound _ Hcan).
  assert (Hlen : length xs' = length xs)
    by (symmetry; by eapply Forall2_length).
  assert (Hmax : PTRDIFF_MAX + 1 < 2 ^ 64) by done.
  eexists. split.
  - unfold Resize, bind, get_self.
    destruct (Z.gtb_spec n (size_ (self s))); [|lia].
    destruct (Z.gtb_spec n (RawMemory_Capacity (data_ (self s))));
      [|unfold RawMemory_Capacity in *; lia].
    rewrite (Reserve_grow_copies xs xs') by done.
    rewrite uninitialized_default_construct_n_throws; [done | done |].
    simpl. rewrite size_t_wrap_small by lia. lia.
  - simpl. do 3 (split; [done|]).
    apply represents_fresh_block; [done | lia | lia | lia].
Qed.

End GrowingResults.

(** ** Element access and removal at the back *)

Section Access.
Context {T : Type} `{ET : Elem T} `{MS : MemorySource}.
Implicit Types (s : state T) (xs ys : list T) (v : Vector).

Lemma load_element s xs a (i : nat) x :
  represents s xs ->
  buffer_ (data_ (self s)) = Ptr a 0 ->
  xs !! i = Some x ->
  load (Ptr a (Z.of_nat i)) s = Ret x s.
Proof.
  intros [_ (Hsize & Hcap & Hbuf)] Ha Hx. rewrite Ha in Hbuf.
  destruct Hbuf as (_ & _ & Hblock).
  unfold load, bind, read_slot, get_slot. rewrite Hblock.
  destruct (Z.leb_spec 0 (Z.of_nat i)); [|lia]. rewrite Nat2Z.id.
  unfold cells_of. rewrite lookup_app_l
    by (rewrite length_fmap; by eapply lookup_lt_Some).
  by rewrite list_lookup_fmap, Hx.
Qed.

Lemma index_op_eq s xs a (i : nat) x :
  represents s xs ->
  buffer_ (data_ (self s)) = Ptr a 0 ->
  xs !! i = Some x ->
  index_op (Z.of_nat i) s = Ret (Ptr a (Z.of_nat i)) s.
Proof.
  intros [_ (Hsize & Hcap & Hbuf)] Ha Hx.
  assert (i < length xs)%nat by by eapply lookup_lt_Some.
  apply wp_eq. unfold index_op.
  apply wp_bind, wp_get_self, wp_bind, wp_assert; [lia|].
  apply wp_RawMemory_index; [lia|]. rewrite Ha. simpl.
  by rewrite Z.add_0_l.
Qed.

(** X14: [v[i]] with [i < Size()] is the address of slot [i] of the
    buffer, and the object there is the [i]-th element; the vector is not
    changed.  With [i >= Size()] the assertion [index < size_] is
    violated, which the model reports as undefined behaviour, also when
    [i] is below the capacity. *)
Theorem indexing_addresses_elements s xs :
  represents s xs ->
  (forall (i : nat) x, xs !! i = Some x ->
     exists p,
       index_op (Z.of_nat i) s = Ret p s /\
       p = ptr_add (buffer_ (data_ (self s))) (Z.of_nat i) /\
       load p s = Ret x s) /\
  (forall i, size_of s <= i -> index_op i s = Undef).
Proof.
  intros Hrep. split.
  - intros i x Hx.
    destruct (represents_nonempty s xs Hrep) as [a Ha].
    { intros ->. done. }
    exists (Ptr a (Z.of_nat i)).
    split; [by apply (index_op_eq s xs a i x)|]. rewrite Ha. simpl.
    split; [by rewrite Z.add_0_l|]. by apply (load_element s xs a i x).
  - intros i Hi. unfold size_of in Hi. unfold index_op, bind, get_self.
    destruct (Z.ltb_spec i (size_ (self s))); [lia|]. done.
Qed.

(** X15: [PopBack] on a vector holding [ys ++ [d]] destroys the last
    element and nothing else: the buffer and the capacity are as before,
    the size is one less, and the vector holds [ys].  On an empty vector
    the assertion [size_ > 0] is violated, which the model reports as
    undefined behaviour. *)
Theorem pop_back_destroys_last s xs :
  represents s xs ->
  (xs = [] -> PopBack s = Undef) /\
  (forall ys d, xs = ys ++ [d] ->
     exists a s',
       buffer_ (data_ (self s)) = Ptr a 0 /\
       PopBack s = Ret tt s' /\
       data_ (self s') = data_ (self s) /\
       size_of s' = size_of s - 1 /\
       represents s' ys /\
       next s' = next s /\
       log s' = log s ++ [EvDestroy (Ptr a (size_of s - 1))]).
Proof.
  intros Hrep. split.
  - intros ->. destruct Hrep as [_ (Hsize & _)]. simpl in Hsize.
    unfold PopBack, bind, get_self. by rewrite Hsize.
  - intros ys d ->.
    destruct (represents_nonempty s _ Hrep) as [a Ha].
    { by destruct ys. }
    exists a. eexists. split; [done|].
    split; [by apply (PopBack_spec ys d)|]. simpl.
    do 2 (split; [done|]). split; [|done].
    pose proof Hrep as [_ (Hsize & Hcap & _)].
    rewrite length_app in Hsize. simpl in Hsize.
    apply (represents_same_block s (ys ++ [d])); [done | done | lia | lia | done].
Qed.

Section RegularAccess.
Context `{!Regular T}.

(** X16: for a regular element type, [PushBack] followed by [PopBack]
    gives back the size and the elements the vector had; only the
    capacity may have grown, when the vector was full. *)
Theorem push_then_pop_restores_elements s xs x :
  represents s xs ->
  (size_of s = capacity_of s ->
   can_allocate (grown_capacity (size_of s)) = true) ->
  exists s',
    (PushBack_move x ;; PopBack) s = Ret tt s' /\
    size_of s' = size_of s /\
    represents s' xs /\
    capacity_of s'
    = (if size_of s =? capacity_of s then grown_capacity (size_of s)
       else capacity_of s).
Proof.
  intros Hrep Hcan.
  destruct (EmplaceBack_spec s xs x Hrep Hcan)
    as (r & s1 & Hrun & _ & Hsz & Hcap & Hrep1).
  destruct (represents_nonempty s1 _ Hrep1) as [a Ha].
  { by destruct xs. }
  eexists. split.
  - unfold PushBack_move, bind. rewrite regular_move_ctor, Hrun.
    unfold ret. by apply (PopBack_spec xs x).
  - unfold size_of, capacity_of in *. simpl.
    split; [lia|]. split; [|done].
    pose proof Hrep as [_ (Hsize & _)].
    pose proof Hrep1 as [_ (Hsize1 & Hcap1 & _)].
    apply (represents_same_block s1 (xs ++ [x])); [done | done | lia | | done].
    rewrite length_app in Hsize1. simpl in Hsize1. lia.
Qed.

(** X17: the positions returned address what they should.  [EmplaceBack]
    returns the address of the new last element, which is also [v[n]] for
    the old size [n]; [Emplace] at index [p] returns the address of the
    inserted element, [v[p]]; [Erase] at index [p] returns the address of
    the element that followed the erased one, or [end()] when the last
    element was erased. *)
Theorem returned_positions_address_elements s xs :
  represents s xs ->
  let at_ (s : state T) (p : nat) :=
    ptr_add (buffer_ (data_ (self s))) (Z.of_nat p) in
  (forall x,
     (size_of s = capacity_of s ->
      can_allocate (grown_capacity (size_of s)) = true) ->
     exists r s',
       EmplaceBack (Some x) s = Ret r s' /\
       load r s' = Ret x s' /\
       index_op (size_of s) s' = Ret r s') /\
  (forall x (p : nat),
     (p <= length xs)%nat ->
     can_allocate (grown_capacity (size_of s)) = true ->
     exists r s',
       Emplace (at_ s p) (Some x) s = Ret r s' /\
       load r s' = Ret x s' /\
       index_op (Z.of_nat p) s' = Ret r s') /\
  (forall (p : nat) d,
     xs !! p = Some d ->
     exists r s',
       Erase (at_ s p) s = Ret r s' /\
       (forall y, xs !! S p = Some y ->
          load r s' = Ret y s' /\ index_op (Z.of_nat p) s' = Ret r s') /\
       (S p = length xs -> end_ s' = Ret r s')).
Proof.
  intros Hrep at_. split; [|split].
  - intros x Hcan.
    destruct (EmplaceBack_spec s xs x Hrep Hcan)
      as (r & s' & Hrun & Hr & _ & _ & Hrep').
    destruct (represents_nonempty s' _ Hrep') as [a Ha].
    { by destruct xs. }
    exists r, s'. split; [done|].
    pose proof Hrep as [_ (Hsize & _)]. unfold size_of in *.
    rewrite Ha in Hr. simpl in Hr. rewrite Z.add_0_l, Hsize in Hr.
    assert (Hx : (xs ++ [x]) !! length xs = Some x).
    { rewrite lookup_app_r by lia. by rewrite Nat.sub_diag. }
    rewrite Hr, Hsize.
    split; [by apply (load_element s' (xs ++ [x]) a _ x)
           | by apply (index_op_eq s' (xs ++ [x]) a _ x)].
  - intros x p Hp Hcan.
    destruct (Emplace_spec s xs x p Hrep Hp Hcan)
      as (r & s' & Hrun & Hr & _ & _ & Hrep').
    destruct (represents_nonempty s' _ Hrep') as [a Ha].
    { unfold insert_at. by destruct (take p xs). }
    exists r, s'. split; [done|].
    rewrite Ha in Hr. simpl in Hr. rewrite Z.add_0_l in Hr. rewrite Hr.
    pose proof (insert_at_lookup p x xs Hp).
    split; [by apply (load_element s' (insert_at p x xs) a _ x)
           | by apply (index_op_eq s' (insert_at p x xs) a _ x)].
  - intros p d Hd.
    destruct (Erase_at s xs p d Hrep Hd)
      as (a & s' & Ha & Hrun & Hdata & Hsz & Hrep' & _).
    exists (Ptr a (Z.of_nat p)), s'. subst at_. cbn beta.
    rewrite Ha. simpl. rewrite Z.add_0_l. split; [done|].
    assert (Ha' : buffer_ (data_ (self s')) = Ptr a 0) by by rewrite Hdata.
    assert (Hp : (p < length xs)%nat) by by eapply lookup_lt_Some.
    split.
    + intros y Hy.
      assert (Hy' : delete p xs !! p = Some y).
      { rewrite list_lookup_delete_ge by lia. done. }
      split; [by apply (load_element s' (delete p xs) a _ y)
             | by apply (index_op_eq s' (delete p xs) a _ y)].
    + intros Hlast. unfold end_, bind, get_self, ret.
      unfold RawMemory_GetAddress. rewrite Ha'. simpl.
      pose proof Hrep as [_ (Hsize & _)]. unfold size_of in *.
      do 2 f_equal. lia.
Qed.

End RegularAccess.
End Access.

(** ** When the memory source refuses *)

Section Refusal.
Context {T : Type} `{ET : Elem T} `{MS : MemorySource}.
Implicit Types (s : state T) (xs ys : list T) (v : Vector).

Lemma Reserve_refused n s :
  0 <= capacity_ (data_ (self s)) < n ->
  refused n = true ->
  Reserve n s = Throw BadAlloc s.
Proof.
  intros Hn Hcan. unfold Reserve, bind, get_self.
  destruct (Z.leb_spec n (RawMemory_Capacity (data_ (self s))));
    [unfold RawMemory_Capacity in *; lia|].
  rewrite RawMemory_ctor_refused; [done | lia | done].
Qed.

Lemma grown_capacity_pos n :
  0 <= n <= PTRDIFF_MAX -> 0 < grown_capacity n.
Proof. intros Hn. rewrite grown_capacity_spec by done. lia. Qed.

Lemma EmplaceBack_refused ctor s :
  0 <= size_ (self s) <= PTRDIFF_MAX ->
  size_ (self s) = capacity_ (data_ (self s)) ->
  refused (grown_capacity (size_ (self s))) = true ->
  EmplaceBack ctor s = Throw BadAlloc s.
Proof.
  intros Hsz Hfull Hcan. unfold EmplaceBack, bind, get_self.
  unfold RawMemory_Capacity. rewrite <- Hfull, Z.eqb_refl.
  pose proof (grown_capacity_pos _ Hsz).
  rewrite RawMemory_ctor_refused; [done | lia | done].
Qed.

Lemma Emplace_refused pos ctor s d :
  0 <= size_ (self s) <= PTRDIFF_MAX ->
  ptr_diff pos (buffer_ (data_ (self s))) = Some d ->
  refused (grown_capacity (size_ (self s))) = true ->
  Emplace pos ctor s = Throw BadAlloc s.
Proof.
  intros Hsz Hd Hcan. pose proof (grown_capacity_pos _ Hsz).
  cut (exists s', Emplace pos ctor s = Throw BadAlloc s' /\ s' = s).
  { by intros (s' & -> & ->). }
  apply wp_throws. unfold Emplace.
  apply wp_bind, wp_begin. rewrite Hd.
  apply wp_bind, wp_get_self, wp_bind, wp_RawMemory_ctor; [lia|].
  by rewrite (refused_cannot _ Hcan).
Qed.

Lemma Resize_refused n s :
  size_ (self s) <= capacity_ (data_ (self s)) ->
  0 <= capacity_ (data_ (self s)) < n ->
  refused n = true ->
  Resize n s = Throw BadAlloc s.
Proof.
  intros Hsz Hn Hcan. unfold Resize, bind, get_self.
  destruct (Z.gtb_spec n (size_ (self s))); [|lia].
  destruct (Z.gtb_spec n (RawMemory_Capacity (data_ (self s))));
    [|unfold RawMemory_Capacity in *; lia].
  by rewrite Reserve_refused.
Qed.

Lemma Vector_copy_refused (o : Vector) s :
  0 < size_ o ->
  refused (size_ o) = true ->
  Vector_copy o s = Throw BadAlloc s.
Proof.
  intros Hn Hcan. unfold Vector_copy, bind.
  rewrite RawMemory_ctor_refused; [done | lia | done].
Qed.

Lemma copy_assignment_refused (o : Vector) s :
  0 <= capacity_ (data_ (self s)) < size_ o ->
  refused (size_ o) = true ->
  copy_assignment (Object o) s = Throw BadAlloc s.
Proof.
  intros Hn Hcan. unfold copy_assignment, bind. cbn [deref].
  unfold ret, get_self.
  destruct (Z.gtb_spec (size_ o) (RawMemory_Capacity (data_ (self s))));
    [|unfold RawMemory_Capacity in *; lia].
  rewrite Vector_copy_refused; [done | lia | done].
Qed.

Lemma ptr_diff_add (p : ptr) (n : nat) :
  (p = Null -> n = 0%nat) ->
  ptr_diff (ptr_add p (Z.of_nat n)) p = Some (Z.of_nat n).
Proof.
  destruct p as [|a off]; simpl.
  - intros ->; done.
  - intros _. rewrite decide_True by done. f_equal. lia.
Qed.

(** X18: a request that, as computed in [size_t], the memory source
    refuses makes the operation throw [bad_alloc] before it has touched
    anything: [Reserve], [Resize] and
    copy assignment beyond the capacity, [EmplaceBack] and [PushBack] on a
    full vector whatever the outcome of the element's constructor would
    be, and the sizing and copying constructors, all leave the state
    exactly as it was. *)
Theorem refused_allocation_changes_nothing s xs :
  represents s xs ->
  (forall n, capacity_of s < n -> refused n = true ->
     Reserve n s = Throw BadAlloc s /\
     Resize n s = Throw BadAlloc s) /\
  (forall other : Vector,
     capacity_of s < size_ other -> refused (size_ other) = true ->
     copy_assignment (Object other) s = Throw BadAlloc s) /\
  (size_of s = capacity_of s ->
   refused (grown_capacity (size_of s)) = true ->
   (forall ctor, EmplaceBack ctor s = Throw BadAlloc s) /\
   (forall x, PushBack_move x s = Throw BadAlloc s) /\
   (forall x, is_copy_constructible = true ->
      PushBack_copy x s = Throw BadAlloc s)) /\
  (forall n, 0 < n -> refused n = true ->
     Vector_sized n s = Throw BadAlloc s) /\
  (forall other : Vector,
     0 < size_ other -> refused (size_ other) = true ->
     Vector_copy other s = Throw BadAlloc s).
Proof.
  intros [_ (Hsize & Hcap & _)]. unfold size_of, capacity_of.
  split; [|split; [|split; [|split]]].
  - intros n Hn Hcan.
    split; [apply Reserve_refused | apply Resize_refused]; (done || lia).
  - intros other Hn Hcan. apply copy_assignment_refused; (done || lia).
  - intros Hfull Hcan.
    assert (Hback : forall ctor, EmplaceBack ctor s = Throw BadAlloc s).
    { intros ctor. apply EmplaceBack_refused; (done || lia). }
    split; [done|]. split.
    + intros x. unfold PushBack_move, bind. by rewrite Hback.
    + intros x Hcc. unfold PushBack_copy, bind. by rewrite Hcc, Hback.
  - intros n Hn Hcan. unfold Vector_sized, bind.
    rewrite RawMemory_ctor_refused; [done | lia | done].
  - intros other Hn Hcan. by apply Vector_copy_refused.
Qed.

(** X19: [Emplace] and [Insert] allocate a buffer of [max(1, 2 * Size())]
    slots on entry even when the vector has room and the element is put
    in place.  With room to spare and a memory source refusing that
    request they throw [bad_alloc], leaving the state as it was; when the
    request is granted (regular element type) the buffer is released
    unused and the vector keeps its own.  [EmplaceBack] in the same state
    allocates nothing and cannot fail for lack of memory. *)
Theorem insert_allocates_even_with_room s xs (p : nat) :
  represents s xs ->
  size_of s < capacity_of s ->
  (p <= length xs)%nat ->
  let pos := ptr_add (buffer_ (data_ (self s))) (Z.of_nat p) in
  let scratch := grown_capacity (size_of s) in
  scratch = Z.max 1 (2 * size_of s) /\
  (refused scratch = true ->
   (forall ctor, Emplace pos ctor s = Throw BadAlloc s) /\
   (forall x, Insert_move pos (Outside x) s = Throw BadAlloc s) /\
   (forall x, is_copy_constructible = true ->
      Insert_copy pos (Outside x) s = Throw BadAlloc s)) /\
  (Regular T -> can_allocate scratch = true ->
   forall x, exists a s',
     buffer_ (data_ (self s)) = Ptr a 0 /\
     Emplace pos (Some x) s = Ret (Ptr a (Z.of_nat p)) s' /\
     data_ (self s') = data_ (self s) /\
     next s' = S (next s) /\
     heap s' !! next s = None /\
     log s'
     = log s ++ [EvAlloc (next s) scratch]
         ++ shift_events a p (length xs)
         ++ [EvFree (next s)]) /\
  (forall x, exists r s',
     EmplaceBack (Some x) s = Ret r s' /\
     data_ (self s') = data_ (self s) /\
     next s' = next s /\
     log s' = log s ++ [EvConstruct r]).
Proof.
  intros Hrep Hroom Hp pos scratch. unfold size_of, capacity_of in *.
  pose proof Hrep as [Hfresh (Hsize & Hcap & Hbuf)].
  destruct (represents_room s xs Hrep) as [a Ha]; [lia|].
  rewrite Ha in Hbuf. destruct Hbuf as (_ & _ & Hblock).
  assert (Hab : a <> next s) by by eapply fresh_not_owned.
  assert (Hdiff : ptr_diff pos (buffer_ (data_ (self s)))
                  = Some (Z.of_nat p)).
  { apply ptr_diff_add. by rewrite Ha. }
  split; [apply grown_capacity_spec; lia|]. split; [|split].
  - intros Hcan.
    assert (Hemp : forall ctor, Emplace pos ctor s = Throw BadAlloc s).
    { intros ctor. eapply Emplace_refused; [lia | done | done]. }
    split; [done|]. split.
    + intros x. rewrite Insert_move_outside. apply Hemp.
    + intros x Hcc. rewrite Insert_copy_outside. rewrite Hcc. apply Hemp.
  - intros Hreg Hcan x. exists a. eexists. split; [done|].
    subst pos. rewrite Ha. simpl. rewrite Z.add_0_l.
    split; [apply (Emplace_room xs x p s a); (done || lia)|]. simpl.
    split; [done|]. split; [done|]. split; [|done].
    rewrite lookup_insert_ne by done. by apply Hfresh.
  - intros x. eexists _, _.
    split; [apply (EmplaceBack_room xs x s a); (done || lia)|]. done.
Qed.

Lemma Emplace_construction_fails xs (p : nat) s :
  represents s xs ->
  (p <= length xs)%nat ->
  can_allocate (grown_capacity (size_ (self s))) = true ->
  size_ (self s) = capacity_ (data_ (self s)) \/ p = length xs ->
  Emplace (ptr_add (buffer_ (data_ (self s))) (Z.of_nat p)) None s
  = Throw ElemExn
      (mkState (self s) (heap s) (S (next s))
         (log s ++ [EvAlloc (next s) (grown_capacity (size_ (self s)));
                    EvFree (next s)])).
Proof.
  intros [Hfresh (Hsize & Hcap & Hbuf)] Hp Hcan Hcase.
  assert (Hb : heap s !! next s = None) by by apply Hfresh.
  assert (Hcapv : grown_capacity (size_ (self s))
                  = Z.max 1 (2 * size_ (self s)))
    by (apply grown_capacity_spec; lia).
  assert (Hmax : PTRDIFF_MAX + 1 < 2 ^ 64) by done.
  assert (Hdiff : ptr_diff (ptr_add (buffer_ (data_ (self s))) (Z.of_nat p))
                    (buffer_ (data_ (self s))) = Some (Z.of_nat p)).
  { apply ptr_diff_add. intros Hnull. rewrite Hnull in Hbuf. lia. }
  cut (exists s',
         Emplace (ptr_add (buffer_ (data_ (self s))) (Z.of_nat p)) None s
         = Throw ElemExn s' /\
         s' = mkState (self s) (heap s) (S (next s))
                (log s ++ [EvAlloc (next s) (grown_capacity (size_ (self s)));
                           EvFree (next s)])).
  { by intros (s' & -> & ->). }
  apply wp_throws. unfold Emplace.
  apply wp_bind, wp_begin. rewrite Hdiff.
  rewrite size_t_wrap_small by lia.
  apply wp_bind, wp_get_self.
  apply wp_bind, wp_RawMemory_ctor; [lia|]. rewrite Hcan. simp_state.
  assert (Hend : mkState (self s)
                   (delete (next s)
                      (<[next s := replicate
                           (Z.to_nat (grown_capacity (size_ (self s)))) Raw]>
                         (heap s)))
                   (S (next s))
                   ((log s ++ [EvAlloc (next s)
                                 (grown_capacity (size_ (self s)))])
                      ++ [EvFree (next s)])
                 = mkState (self s) (heap s) (S (next s))
                     (log s ++ [EvAlloc (next s)
                                  (grown_capacity (size_ (self s)));
                                EvFree (next s)])).
  { f_equal; [by rewrite delete_insert_id | by rewrite <- app_assoc]. }
  destruct (Z.eqb_spec (size_ (self s)) (capacity_ (data_ (self s))))
    as [Hfull|Hroom].
  - apply wp_bind, wp_unwinding, wp_bind, wp_throw.
    eapply (wp_RawMemory_dtor _ (next s)); [done | heap_lookup |].
    simp_state. by rewrite Hend.
  - destruct Hcase as [? | ->]; [done|].
    destruct (buffer_ (data_ (self s))) as [|a off] eqn:Ha; [lia|].
    destruct Hbuf as (-> & Hpos & Hblock).
    apply wp_bind, wp_unwinding.
    apply wp_bind, wp_RawMemory_index; [simp_state; lia|].
    apply wp_bind, wp_end. simp_state. rewrite Ha. simp_state.
    rewrite <- Hsize.
    rewrite (bool_decide_eq_true_2 (Ptr _ _ = Ptr _ _)) by done.
    rewrite orb_true_r.
    apply wp_bind, wp_throw.
    eapply (wp_RawMemory_dtor _ (next s)); [done | heap_lookup |].
    simp_state. by rewrite Hend.
Qed.

Lemma EmplaceBack_room_fails s :
  size_ (self s) <> capacity_ (data_ (self s)) ->
  EmplaceBack None s = Throw ElemExn s.
Proof.
  intros Hroom. unfold EmplaceBack, bind, get_self. unfold RawMemory_Capacity.
  by destruct (Z.eqb_spec (size_ (self s)) (capacity_ (data_ (self s)))).
Qed.

(** A request the vector derives from its own size does not wrap around
    when its buffer is within the limit of the memory source: it is
    granted in full or refused. *)
Lemma grown_request s xs :
  represents s xs -> within_memory (self s) ->
  can_allocate (grown_capacity (size_ (self s))) = false ->
  refused (grown_capacity (size_ (self s))) = true.
Proof.
  intros [_ (Hsize & Hcap & _)] Hmem Hcan.
  pose proof sizeof_T_pos as Hpos. pose proof sizeof_T_max as Hmax.
  unfold within_memory in Hmem.
  assert (Hg : grown_capacity (size_ (self s))
               = Z.max 1 (2 * size_ (self s)))
    by (apply grown_capacity_spec; lia).
  apply can_allocate_false; [done | lia |].
  rewrite Hg. unfold SIZE_MAX, PTRDIFF_MAX in *.
  destruct (Z.max_spec 1 (2 * size_ (self s))) as [[_ ->]|[_ ->]]; nia.
Qed.

Lemma can_allocate_within n :
  can_allocate n = true -> n * sizeof_T <= PTRDIFF_MAX.
Proof.
  intros (_ & Hg & _)%can_allocate_true. unfold granted in Hg.
  by apply andb_prop in Hg as [_ ?%Z.leb_le].
Qed.

End Refusal.

(** ** A migration that fails after the new element was constructed *)

Section Stranded.
Context {T : Type} `{ET : Elem T} `{MS : MemorySource}.
Implicit Types (s : state T) (xs ys : list T) (v : Vector).

Lemma EmplaceBack_copy_stops xs1 ys1 x0 xs2 x s a :
  represents s (xs1 ++ x0 :: xs2) ->
  buffer_ (data_ (self s)) = Ptr a 0 ->
  relocates = false ->
  size_ (self s) = capacity_ (data_ (self s)) ->
  can_allocate (grown_capacity (size_ (self s))) = true ->
  Forall2 copies xs1 ys1 ->
  copy_ctor x0 = None ->
  let b := next s in
  let cap := grown_capacity (size_ (self s)) in
  EmplaceBack (Some x) s
  = Throw ElemExn
      (mkState (self s) (heap s) (S b)
         (log s ++ [EvAlloc b cap; EvConstruct (Ptr b (size_ (self s)))]
            ++ pair_events EvCopyCtor a 0 b 0 0 (length xs1)
            ++ slot_events EvDestroy b 0 (length xs1)
            ++ [EvFree b])).
Proof.
  intros [Hfresh (Hsize & Hcap & Hbuf)] Ha Hrel Hfull Hcan Hcopies Hx0 b cap.
  set (xs := xs1 ++ x0 :: xs2) in *.
  assert (Hb : heap s !! next s = None) by by apply Hfresh.
  assert (0 < length xs)%nat
    by (subst xs; rewrite length_app; simpl; lia).
  assert (Hcapv : cap = Z.max 1 (2 * size_ (self s)))
    by (apply grown_capacity_spec; lia).
  rewrite Ha in Hbuf. destruct Hbuf as (_ & Hpos & Hblock).
  assert (Hab : a <> next s) by by eapply fresh_not_owned.
  cut (exists s', EmplaceBack (Some x) s = Throw ElemExn s' /\
         s' = mkState (self s) (heap s) (S b)
                (log s ++ [EvAlloc b cap; EvConstruct (Ptr b (size_ (self s)))]
                   ++ pair_events EvCopyCtor a 0 b 0 0 (length xs1)
                   ++ slot_events EvDestroy b 0 (length xs1)
                   ++ [EvFree b])).
  { by intros (s' & -> & ->). }
  apply wp_throws. unfold EmplaceBack.
  apply wp_bind, wp_get_self. simp_state. rewrite <- Hfull, Z.eqb_refl.
  change (can_allocate cap = true) in Hcan.
  apply wp_bind, wp_RawMemory_ctor; [fold cap; lia|]. fold cap.
  rewrite Hcan. simp_state.
  apply wp_bind, wp_unwinding, wp_bind. rewrite Z.add_0_l.
  eapply (wp_emplace_new (next s) _ (replicate (length xs) Raw)
            (replicate (Z.to_nat cap - length xs - 1) Raw)).
  { heap_lookup. f_equal. apply replicate_split. lia. }
  { rewrite length_replicate. lia. }
  simp_state. unfold MoveOrCopy. rewrite Hrel, Ha.
  unfold uninitialized_copy_n. rewrite Hsize, Nat2Z.id.
  rewrite cells_of_full in Hblock by lia.
  eapply (wp_uninitialized_copy_loop_stops xs1 ys1 x0 xs2 a 0 [] []
            (next s) 0 [] []).
  { done. }
  { done. }
  { done. }
  { by apply relocates_false_copyable. }
  { heap_lookup. }
  { done. }
  { heap_lookup. }
  { done. }
  { done. }
  simp_state.
  eapply (wp_RawMemory_dtor _ (next s)); [done | heap_lookup |].
  simp_state. split; [done|]. f_equal.
  - heap_eq.
  - subst b. simpl. by rewrite <- !app_assoc.
Qed.

Lemma slot_events_elem (ev : ptr -> event) a from n e :
  e ∈ slot_events ev a from n ->
  exists k, from <= k < from + Z.of_nat n /\ e = ev (Ptr a k).
Proof.
  unfold slot_events. intros (k & -> & Hk)%list_elem_of_fmap.
  apply elem_of_seqZ in Hk. eauto.
Qed.

Lemma pair_events_elem (ev : ptr -> ptr -> event) a i b j from n e :
  e ∈ pair_events ev a i b j from n ->
  exists k, e = ev (Ptr a (i + k)) (Ptr b (j + k)).
Proof.
  unfold pair_events. intros (k & -> & _)%list_elem_of_fmap. eauto.
Qed.

(** X20: on a full vector whose elements are migrated by copy,
    [EmplaceBack] first constructs the new element in the new buffer; when
    the copy of an old element then throws, the copies made so far are
    destroyed and the new buffer is released, but the new element, already
    constructed at index [Size()] of that buffer, is never destroyed.  The
    vector and the heap are as before the call. *)
Theorem emplace_back_strands_new_element_when_migration_fails
    s xs1 ys1 x0 xs2 x :
  represents s (xs1 ++ x0 :: xs2) ->
  is_nothrow_move_constructible = false ->
  is_copy_constructible = true ->
  size_of s = capacity_of s ->
  can_allocate (grown_capacity (size_of s)) = true ->
  Forall2 copies xs1 ys1 ->
  copy_ctor x0 = None ->
  let b := next s in
  exists a s' evs,
    buffer_ (data_ (self s)) = Ptr a 0 /\
    EmplaceBack (Some x) s = Throw ElemExn s' /\
    self s' = self s /\
    heap s' = heap s /\
    log s' = log s ++ evs /\
    evs = [EvAlloc b (grown_capacity (size_of s));
           EvConstruct (Ptr b (size_of s))]
            ++ pair_events EvCopyCtor a 0 b 0 0 (length xs1)
            ++ slot_events EvDestroy b 0 (length xs1)
            ++ [EvFree b] /\
    EvDestroy (Ptr b (size_of s)) ∉ evs.
Proof.
  intros Hrep Hnt Hcc Hfull Hcan Hcopies Hx0 b.
  unfold size_of, capacity_of in *.
  assert (Hrel : relocates = false)
    by (unfold relocates; by rewrite Hnt, Hcc).
  destruct (represents_nonempty s _ Hrep) as [a Ha].
  { by destruct xs1. }
  exists a. eexists _, _. split; [done|].
  split; [by apply (EmplaceBack_copy_stops xs1 ys1 x0 xs2 x s a)|].
  simpl. do 4 (split; [reflexivity|]).
  pose proof Hrep as [_ (Hsize & _)].
  rewrite length_app in Hsize. simpl in Hsize.
  rewrite !elem_of_cons, !elem_of_app, elem_of_cons, elem_of_nil.
  intros [?|[?|[Hin|[Hin|[?|[]]]]]]; try done.
  - apply pair_events_elem in Hin as (k & ?). done.
  - apply slot_events_elem in Hin as (k & Hk & [= Heq]). lia.
Qed.

End Stranded.

(** ** Pushing within the capacity; inserting at the end *)

Section Stability.
Context {T : Type} `{ET : Elem T} `{MS : MemorySource} `{!Regular T}.
Implicit Types (s : state T) (xs ys : list T) (v : Vector).

Lemma push_all_within ys : forall s xs,
  represents s xs ->
  size_ (self s) + Z.of_nat (length ys) <= capacity_ (data_ (self s)) ->
  exists s',
    push_all PushBack_move ys s = Ret tt s' /\
    data_ (self s') = data_ (self s) /\
    size_ (self s') = size_ (self s) + Z.of_nat (length ys) /\
    represents s' (xs ++ ys) /\
    next s' = next s /\
    log s'
    = log s ++ range_events EvConstruct
                 (ptr_add (buffer_ (data_ (self s))) (size_ (self s)))
                 (length ys).
Proof.
  induction ys as [|y ys IH]; intros s xs Hrep Hfit; simpl in *.
  - exists s. split; [done|]. split; [done|]. split; [lia|].
    rewrite app_nil_r. split; [done|]. split; [done|].
    destruct (buffer_ (data_ (self s))); simpl; by rewrite app_nil_r.
  - destruct (represents_room s xs Hrep) as [a Ha]; [lia|].
    pose proof Hrep as [Hfresh (Hsize & Hcap & Hbuf)].
    pose proof (EmplaceBack_room xs y s a Hrep Ha ltac:(lia)) as Hrun.
    set (s1 := mkState (mkVector (data_ (self s)) (size_ (self s) + 1))
                 (<[a := cells_of (xs ++ [y]) (capacity_ (data_ (self s)))]>
                    (heap s))
                 (next s) (log s ++ [EvConstruct (Ptr a (size_ (self s)))]))
      in *.
    assert (Hrep1 : represents s1 (xs ++ [y])).
    { apply (represents_same_block s xs); [done | done | | lia | done].
      rewrite length_app. simpl. lia. }
    destruct (IH s1 (xs ++ [y]) Hrep1) as
      (s' & Hpush & Hdata & Hsz & Hrep' & Hnext & Hlog).
    { simpl. lia. }
    exists s'. split.
    + unfold bind, PushBack_move. rewrite regular_move_ctor.
      unfold bind. rewrite Hrun. exact Hpush.
    + simpl in *. split; [done|]. split; [lia|].
      rewrite <- app_assoc in Hrep'. split; [done|]. split; [done|].
      rewrite Hlog, Ha. simpl.
      rewrite slot_events_cons, <- app_assoc, !Z.add_0_l. done.
Qed.

(** X21: as long as the elements pushed fit the capacity, [PushBack]
    never reallocates: the buffer and the capacity are those the vector
    had, nothing is allocated or released, and each value is constructed
    in the next free slot.  So after [Reserve(n)], pushing up to
    [n - Size()] values keeps the buffer [Reserve] left. *)
Theorem pushes_within_capacity_keep_buffer s xs ys :
  represents s xs ->
  (size_of s + Z.of_nat (length ys) <= capacity_of s ->
   exists s',
     push_all PushBack_move ys s = Ret tt s' /\
     data_ (self s') = data_ (self s) /\
     size_of s' = size_of s + Z.of_nat (length ys) /\
     represents s' (xs ++ ys) /\
     next s' = next s /\
     log s'
     = log s ++ range_events EvConstruct
                  (ptr_add (buffer_ (data_ (self s))) (size_of s))
                  (length ys)) /\
  (forall n,
     size_of s + Z.of_nat (length ys) <= n ->
     capacity_of s < n ->
     can_allocate n = true ->
     exists s1 s2,
       Reserve n s = Ret tt s1 /\
       push_all PushBack_move ys s1 = Ret tt s2 /\
       data_ (self s2) = data_ (self s1) /\
       capacity_of s2 = n /\
       represents s2 (xs ++ ys) /\
       next s2 = next s1).
Proof.
  intros Hrep. unfold size_of, capacity_of. split.
  - intros Hfit. by apply push_all_within.
  - intros n Hfit Hn Hcan.
    pose proof Hrep as [Hfresh (Hsize & Hcap & Hbuf)].
    pose proof (can_allocate_bound _ Hcan).
    eexists. 
    assert (Hrep1 : represents
      (mkState (mkVector (mkRawMemory (Ptr (next s) 0) n) (size_ (self s)))
         (<[next s := cells_of xs n]>
            (release (buffer_ (data_ (self s))) (heap s)))
         (S (next s))
         (log s ++ [EvAlloc (next s) n]
            ++ transfer_events migration_event (buffer_ (data_ (self s)))
                 (Ptr (next s) 0) (length xs)
            ++ range_events EvDestroy (buffer_ (data_ (self s))) (length xs)
            ++ release_events (buffer_ (data_ (self s))))) xs).
    { apply represents_fresh_block; [done | done | lia | lia]. }
    destruct (push_all_within ys _ xs Hrep1) as
      (s2 & Hpush & Hdata & _ & Hrep2 & Hnext & _).
    { simpl. lia. }
    exists s2. split; [by apply (Reserve_grow xs)|].
    split; [done|]. split; [done|]. split; [by rewrite Hdata|].
    split; [done|]. done.
Qed.



End Stability.

(** ** The invariant and the rest of the heap over all valid calls *)

Section Invariant.
Context {T : Type} `{ET : Elem T} `{MS : MemorySource}.
Implicit Types (s : state T) (xs ys : list T) (v : Vector).

Lemma kept_same_heap s v nxt l : others_kept s (mkState v (heap s) nxt l).
Proof. by intros c cells Hc _. Qed.

Lemma kept_refl s : others_kept s s.
Proof. by intros c cells Hc _. Qed.

Lemma kept_store_block s xs cells v nxt l :
  represents s xs ->
  others_kept s
    (mkState v (store_block (buffer_ (data_ (self s))) cells (heap s)) nxt l).
Proof.
  intros [_ (_ & _ & Hbuf)] c cs Hc Hne. simpl.
  destruct (buffer_ (data_ (self s))) as [|a off]; simpl; [done|].
  destruct Hbuf as (-> & _). rewrite lookup_insert_ne; [done|]. congruence.
Qed.

Lemma kept_same_block s a cells v nxt l :
  buffer_ (data_ (self s)) = Ptr a 0 ->
  others_kept s (mkState v (<[a := cells]> (heap s)) nxt l).
Proof.
  intros Ha c cs Hc Hne. simpl. rewrite lookup_insert_ne; [done|]. congruence.
Qed.

Lemma kept_fresh_block s xs cells v nxt l :
  represents s xs ->
  others_kept s
    (mkState v (<[next s := cells]>
                  (release (buffer_ (data_ (self s))) (heap s))) nxt l).
Proof.
  intros [Hfresh (_ & _ & Hbuf)] c cs Hc Hne. simpl.
  rewrite lookup_insert_ne by (intros <-; by rewrite Hfresh in Hc).
  destruct (buffer_ (data_ (self s))) as [|a off]; simpl; [done|].
  destruct Hbuf as (-> & _). rewrite lookup_delete_ne; [done|]. congruence.
Qed.

Lemma kept_released_block s xs cells v nxt l :
  represents s xs ->
  others_kept s
    (mkState v (release (buffer_ (data_ (self s)))
                  (<[next s := cells]> (heap s))) nxt l).
Proof.
  intros [Hfresh (_ & _ & Hbuf)] c cs Hc Hne. simpl.
  assert (next s <> c) by (intros <-; by rewrite Hfresh in Hc).
  destruct (buffer_ (data_ (self s))) as [|a off]; simpl.
  - by rewrite lookup_insert_ne.
  - destruct Hbuf as (-> & _).
    rewrite lookup_delete_ne, lookup_insert_ne by congruence. done.
Qed.

Lemma ends_well_ret (m : M T unit) s s' :
  m s = Ret tt s' -> invariant s' -> within_memory (self s') ->
  others_kept s s' -> ends_well s m.
Proof. intros Hrun ? ? ?. exists s'. by rewrite Hrun. Qed.

Lemma ends_well_throw (m : M T unit) s e :
  m s = Throw e s -> invariant s -> within_memory (self s) -> ends_well s m.
Proof.
  intros Hrun ? ?. exists s. rewrite Hrun. split; [done|].
  split; [done|]. split; [done | apply kept_refl].
Qed.

Lemma ends_well_discard_ret {A} (m : M T A) s r s' :
  m s = Ret r s' -> invariant s' -> within_memory (self s') ->
  others_kept s s' -> ends_well s (discard m).
Proof.
  intros Hrun ? ? ?. eapply ends_well_ret; [|done..].
  unfold discard, bind. by rewrite Hrun.
Qed.

Lemma ends_well_discard_throw {A} (m : M T A) s e :
  m s = Throw e s -> invariant s -> within_memory (self s) ->
  ends_well s (discard m).
Proof.
  intros Hrun ? ?. eapply ends_well_throw; [|done..].
  unfold discard, bind. by rewrite Hrun.
Qed.

(** A constructor that throws, behind a scratch allocation that was
    granted and released: only the allocator's counter and the log have
    changed. *)
Lemma ends_well_untouched {A} (m : M T A) s xs e l :
  represents s xs -> within_memory (self s) ->
  m s = Throw e (mkState (self s) (heap s) (S (next s)) l) ->
  ends_well s (discard m).
Proof.
  intros Hrep Hmem Hrun. eexists. unfold discard, bind. rewrite Hrun.
  split; [done|]. split; [|split; [done | apply kept_same_heap]].
  exists xs. apply represents_bookkeeping; [done | simpl; lia].
Qed.

Lemma EmplaceBack_throws_well s xs :
  represents s xs -> within_memory (self s) ->
  ends_well s (discard (EmplaceBack None)).
Proof.
  intros Hrep Hmem. pose proof Hrep as [Hfresh (Hsize & Hcap & _)].
  destruct (Z.eq_dec (size_ (self s)) (capacity_ (data_ (self s))))
    as [Hfull|Hroom].
  - destruct (can_allocate (grown_capacity (size_ (self s)))) eqn:Hcan.
    + eapply (ends_well_untouched _ s xs); [done | done |].
      by apply (EmplaceBack_construction_fails xs).
    + eapply ends_well_discard_throw; [|by eexists | done].
      apply EmplaceBack_refused; [lia | done |].
      by apply (grown_request s xs).
  - eapply ends_well_discard_throw; [|by eexists | done].
    by apply EmplaceBack_room_fails.
Qed.

Lemma Emplace_throws_well s xs (p : nat) :
  represents s xs -> within_memory (self s) ->
  (p <= length xs)%nat ->
  size_ (self s) = capacity_ (data_ (self s)) \/ p = length xs ->
  ends_well s
    (discard (Emplace (ptr_add (buffer_ (data_ (self s))) (Z.of_nat p))
                      None)).
Proof.
  intros Hrep Hmem Hp Hcase. pose proof Hrep as [Hfresh (Hsize & Hcap & Hbuf)].
  destruct (can_allocate (grown_capacity (size_ (self s)))) eqn:Hcan.
  - eapply (ends_well_untouched _ s xs); [done | done |].
    by apply (Emplace_construction_fails xs).
  - eapply ends_well_discard_throw; [|by eexists | done].
    eapply Emplace_refused; [lia | | by apply (grown_request s xs)].
    apply ptr_diff_add. intros Hnull. rewrite Hnull in Hbuf. lia.
Qed.

Section RegularInvariant.
Context `{!Regular T}.

Lemma copies_refl xs : is_copy_constructible = true -> Forall2 copies xs xs.
Proof.
  intros Hcc. induction xs as [|x xs IH]; constructor; [|done].
  unfold copies. by apply regular_copy_ctor.
Qed.

Lemma EmplaceBack_ends_well s xs x :
  represents s xs -> within_memory (self s) ->
  ends_well s (discard (EmplaceBack (Some x))).
Proof.
  intros Hrep Hmem. pose proof Hrep as [Hfresh (Hsize & Hcap & _)].
  destruct (Z.eq_dec (size_ (self s)) (capacity_ (data_ (self s))))
    as [Hfull|Hroom].
  - destruct (can_allocate (grown_capacity (size_ (self s)))) eqn:Hcan.
    + eapply ends_well_discard_ret; [by apply (EmplaceBack_full xs) | | |].
      * exists (xs ++ [x]).
        assert (grown_capacity (size_ (self s))
                = Z.max 1 (2 * size_ (self s)))
          by (apply grown_capacity_spec; lia).
        apply can_allocate_bound in Hcan.
        apply represents_fresh_block; [done | | lia | lia].
        rewrite length_app. simpl. lia.
      * by apply can_allocate_within.
      * by eapply kept_fresh_block.
    + eapply ends_well_discard_throw; [|by eexists | done].
      apply EmplaceBack_refused; [lia | done |].
      by apply (grown_request s xs).
  - destruct (represents_room s xs Hrep Hroom) as [a Ha].
    eapply ends_well_discard_ret; [by apply (EmplaceBack_room xs) | | |].
    + exists (xs ++ [x]).
      apply (represents_same_block s xs); [done | done | | lia | done].
      rewrite length_app. simpl. lia.
    + done.
    + by apply kept_same_block.
Qed.

Lemma Emplace_ends_well s xs x (p : nat) :
  represents s xs -> within_memory (self s) ->
  (p <= length xs)%nat ->
  ends_well s
    (discard (Emplace (ptr_add (buffer_ (data_ (self s))) (Z.of_nat p))
                      (Some x))).
Proof.
  intros Hrep Hmem Hp. pose proof Hrep as [Hfresh (Hsize & Hcap & Hbuf)].
  assert (Hlen : length (insert_at p x xs) = S (length xs))
    by by apply insert_at_length.
  destruct (can_allocate (grown_capacity (size_ (self s)))) eqn:Hcan.
  - destruct (Z.eq_dec (size_ (self s)) (capacity_ (data_ (self s))))
      as [Hfull|Hroom].
    + eapply ends_well_discard_ret; [by apply (Emplace_full xs) | | |].
      * exists (insert_at p x xs).
        assert (grown_capacity (size_ (self s))
                = Z.max 1 (2 * size_ (self s)))
          by (apply grown_capacity_spec; lia).
        apply can_allocate_bound in Hcan.
        apply represents_fresh_block; [done | | lia | lia].
        rewrite Hlen. lia.
      * by apply can_allocate_within.
      * by eapply kept_fresh_block.
    + destruct (represents_room s xs Hrep Hroom) as [a Ha].
      rewrite Ha. simpl. rewrite Z.add_0_l.
      eapply ends_well_discard_ret; [by apply (Emplace_room xs) | | |].
      * exists (insert_at p x xs).
        apply (represents_same_block s xs); [done | done | | lia | lia].
        rewrite Hlen. lia.
      * done.
      * by apply kept_same_block.
  - eapply ends_well_discard_throw; [|by eexists | done].
    eapply Emplace_refused; [lia | | by apply (grown_request s xs)].
    apply ptr_diff_add. intros Hnull. rewrite Hnull in Hbuf. lia.
Qed.

(** Every valid call ends well. *)
Lemma valid_call_ends_well s xs (op : operation T) :
  represents s xs -> within_memory (self s) -> valid_call s xs op ->
  ends_well s (run_op op).
Proof.
  intros Hrep Hmem Hvalid.
  pose proof Hrep as [Hfresh (Hsize & Hcap & Hbuf)].
  destruct op as [n|n|x|x| |ctor|pos ctor|pos value|pos value|pos|other];
    simpl in Hvalid; simpl.
  - (* Reserve *)
    destruct Hvalid as [Hn Hfit].
    destruct (Z.le_gt_cases n (capacity_ (data_ (self s)))) as [Hle|Hgt].
    { eapply ends_well_ret;
        [by apply Reserve_noop | by eexists | done | apply kept_refl]. }
    destruct (can_allocate n) eqn:Hcan.
    + eapply ends_well_ret; [by apply (Reserve_grow xs) | | |].
      * exists xs. pose proof (can_allocate_bound _ Hcan).
        apply represents_fresh_block; [done | done | lia | lia].
      * by apply can_allocate_within.
      * by eapply kept_fresh_block.
    + eapply ends_well_throw; [|by eexists | done].
      apply Reserve_refused; [lia|]. by apply can_allocate_false.
  - (* Resize *)
    destruct Hvalid as [Hn Hfit].
    destruct regular_default_init as [d Hd].
    destruct (Z.le_gt_cases n (size_ (self s))) as [Hdown|Hup].
    { eapply ends_well_ret; [by apply (Resize_down xs) | | |].
      - exists (take (Z.to_nat n) xs).
        destruct (buffer_ (data_ (self s))) as [|a off] eqn:Ha;
          cbn [store_block].
        + assert (n = 0) as -> by lia. simpl. rewrite take_0.
          split; [done|]. split; [done|]. split; [simpl; lia|].
          simpl. by rewrite Ha.
        + destruct Hbuf as (-> & Hpos & Hblock).
          apply (represents_same_block s xs); [done | done | | lia | done].
          rewrite length_take. lia.
      - done.
      - by eapply kept_store_block. }
    destruct (Z.le_gt_cases n (capacity_ (data_ (self s)))) as [Hle|Hgt].
    { destruct (represents_room s xs Hrep) as [a Ha]; [lia|].
      eapply ends_well_ret;
        [apply (Resize_within xs n d s a); (done || lia) | | |].
      - eexists.
        apply (represents_same_block s xs); [done | done | | lia | done].
        rewrite length_app, length_replicate. lia.
      - done.
      - by apply kept_same_block. }
    destruct (can_allocate n) eqn:Hcan.
    + eapply ends_well_ret; [by apply (Resize_beyond xs n d) | | |].
      * eexists. pose proof (can_allocate_bound _ Hcan).
        apply represents_fresh_block; [done | | lia | lia].
        rewrite length_app, length_replicate. lia.
      * by apply can_allocate_within.
      * by eapply kept_fresh_block.
    + eapply ends_well_throw; [|by eexists | done].
      apply Resize_refused; [lia | lia |]. by apply can_allocate_false.
  - (* PushBack(const T&) *)
    unfold PushBack_copy. rewrite Hvalid, regular_copy_ctor by done.
    by apply (EmplaceBack_ends_well s xs).
  - (* PushBack(T&&) *)
    unfold PushBack_move. rewrite regular_move_ctor.
    by apply (EmplaceBack_ends_well s xs).
  - (* PopBack *)
    destruct xs as [|d ys _] using rev_ind; [done|].
    destruct (represents_nonempty s _ Hrep) as [a Ha]; [by destruct ys|].
    eapply ends_well_ret; [by apply (PopBack_spec ys d) | | |].
    + exists ys. rewrite length_app in Hsize. simpl in Hsize.
      apply (represents_same_block s (ys ++ [d]));
        [done | done | lia | lia | done].
    + done.
    + by apply kept_same_block.
  - (* EmplaceBack *)
    destruct ctor as [x|].
    + by apply (EmplaceBack_ends_well s xs).
    + by apply (EmplaceBack_throws_well s xs).
  - (* Emplace *)
    destruct Hvalid as (p & Hp & -> & Hctor). destruct ctor as [x|].
    + by apply (Emplace_ends_well s xs).
    + apply (Emplace_throws_well s xs); [done..|]. by apply Hctor.
  - (* Insert(const T&) *)
    destruct Hvalid as (Hcc & [x ->] & p & Hp & ->).
    destruct (Emplace_ends_well s xs x p Hrep Hmem Hp) as (s' & Hrun & Hs').
    exists s'. split; [|done].
    unfold discard, bind in *. by rewrite Insert_copy_eq.
  - (* Insert(T&&) *)
    destruct Hvalid as ([x ->] & p & Hp & ->).
    destruct (Emplace_ends_well s xs x p Hrep Hmem Hp) as (s' & Hrun & Hs').
    exists s'. split; [|done].
    unfold discard, bind in *. by rewrite Insert_move_eq.
  - (* Erase *)
    destruct Hvalid as (p & Hp & ->).
    destruct (lookup_lt_is_Some_2 xs p Hp) as [d Hd].
    destruct (represents_nonempty s xs Hrep) as [a Ha].
    { intros ->. simpl in Hp. lia. }
    rewrite Ha. simpl. rewrite Z.add_0_l.
    eapply ends_well_discard_ret; [by apply (Erase_spec xs p d) | | |].
    + exists (delete p xs).
      apply (represents_same_block s xs); [done | done | | lia | done].
      rewrite length_delete by done. lia.
    + done.
    + by apply kept_same_block.
  - (* copy assignment *)
    destruct Hvalid as [Hcc Hother]. destruct other as [|o].
    { eapply ends_well_ret; [by apply (copy_assignment_self xs) | | |].
      - exists xs. by apply represents_bookkeeping.
      - done.
      - apply kept_same_heap. }
    destruct Hother as ([ys Hown] & Homem & Hsep).
    pose proof Hown as (Hosize & Hocap & Hobuf).
    destruct (Z.le_gt_cases (size_ o) (capacity_ (data_ (self s))))
      as [Hfit|Hgrow].
    { eapply ends_well_ret; [by apply (copy_assignment_fits xs ys) | | |].
      - exists ys.
        destruct (buffer_ (data_ (self s))) as [|a off] eqn:Ha;
          cbn [store_block].
        + assert (size_ o = 0) as Hz by lia.
          assert (ys = []) as -> by (destruct ys; [done | simpl in *; lia]).
          split; [done|]. split; [simpl; lia|]. split; [simpl; lia|].
          simpl. by rewrite Ha.
        + destruct Hbuf as (-> & Hpos & Hblock).
          apply (represents_same_block s xs);
            [done | done | done | lia | done].
      - done.
      - by eapply kept_store_block. }
    destruct (can_allocate (size_ o)) eqn:Hcan.
    + pose proof (can_allocate_bound _ Hcan).
      eapply ends_well_ret;
        [apply (copy_assignment_grows s o xs ys ys);
           (done || by apply copies_refl) | | |].
      * eexists. by eapply (grown_state_represents s o xs ys ys).
      * by apply can_allocate_within.
      * by eapply kept_released_block.
    + eapply ends_well_throw; [|by eexists | done].
      apply copy_assignment_refused; [lia|].
      apply can_allocate_false; [done | lia |].
      pose proof sizeof_T_pos. unfold within_memory in Homem.
      unfold SIZE_MAX, PTRDIFF_MAX in *. nia.
Qed.

(** X23: for a regular element type and a vector satisfying the
    invariant whose buffer is within the limit of the memory source, a
    call of [Reserve], [Resize], [PushBack], [PopBack], [EmplaceBack],
    [Emplace], [Insert], [Erase] or copy assignment either returns or
    throws -- it is never undefined -- and ends in a state satisfying
    the invariant, with a buffer within that limit again.  The calls are
    those of [valid_call]: positions are valid, a size passed to
    [Reserve] or [Resize] has a byte count that fits [size_t], the value
    passed to [Insert] is not an object of the heap, and a constructor
    that throws is allowed in [EmplaceBack] and in [Emplace] on a full
    vector or at [end()], but not in [Emplace] before [end()] with room to
    spare, where the invariant is lost. *)
Theorem valid_calls_preserve_invariant s xs (op : operation T) :
  represents s xs ->
  within_memory (self s) ->
  valid_call s xs op ->
  exists s',
    final_state (run_op op s) = Some s' /\
    invariant s' /\ within_memory (self s').
Proof.
  intros Hrep Hmem Hvalid.
  destruct (valid_call_ends_well s xs op Hrep Hmem Hvalid)
    as (s' & ? & ? & ? & _).
  eauto.
Qed.

(** X24: such a call changes no block of the heap other than the
    vector's own buffer: whatever block another vector owns is in the heap
    afterwards with the same contents, so that vector still holds its
    elements. *)
Theorem valid_calls_leave_other_blocks_alone s xs (op : operation T) :
  represents s xs ->
  within_memory (self s) ->
  valid_call s xs op ->
  exists s',
    final_state (run_op op s) = Some s' /\
    (forall c cells,
       heap s !! c = Some cells ->
       buffer_ (data_ (self s)) <> Ptr c 0 ->
       heap s' !! c = Some cells) /\
    (forall (other : Vector) ys,
       owns (heap s) other ys ->
       buffer_ (data_ other) <> buffer_ (data_ (self s)) ->
       owns (heap s') other ys).
Proof.
  intros Hrep Hmem Hvalid.
  destruct (valid_call_ends_well s xs op Hrep Hmem Hvalid)
    as (s' & Hrun & _ & _ & Hk).
  exists s'. split; [done|]. split; [exact Hk|].
  intros other ys (Hosize & Hocap & Hobuf) Hne.
  split; [done|]. split; [done|].
  destruct (buffer_ (data_ other)) as [|c off]; [done|].
  destruct Hobuf as (-> & Hpos & Hblock). split; [done|]. split; [done|].
  apply Hk; [done|]. congruence.
Qed.

End RegularInvariant.
End Invariant.

(** ** Element-wise operations that throw part of the way *)

Section Partial.
Context {T : Type} `{ET : Elem T} `{MS : MemorySource}.
Implicit Types (s : state T) (xs ys : list T) (v : Vector).

Lemma load_slot s a cap ys (i : nat) x :
  heap s !! a = Some (cells_of ys cap) ->
  ys !! i = Some x ->
  load (Ptr a (Z.of_nat i)) s = Ret x s.
Proof.
  intros Hblock Hx. unfold load, bind, read_slot, get_slot. rewrite Hblock.
  destruct (Z.leb_spec 0 (Z.of_nat i)); [|lia]. rewrite Nat2Z.id.
  unfold cells_of. rewrite lookup_app_l
    by (rewrite length_fmap; by eapply lookup_lt_Some).
  by rewrite list_lookup_fmap, Hx.
Qed.

Lemma cells_of_insert ys cap (i : nat) y :
  (i < length ys)%nat ->
  <[i := Obj y]> (cells_of ys cap) = cells_of (<[i := y]> ys) cap.
Proof.
  intros Hi. unfold cells_of.
  rewrite insert_app_l by (by rewrite length_fmap).
  by rewrite list_fmap_insert, length_insert.
Qed.

Lemma assign_at_slot s a cap ys (i : nat) x y :
  heap s !! a = Some (cells_of ys cap) ->
  ys !! i = Some x ->
  assign_at (Ptr a (Z.of_nat i)) y s
  = Ret tt (mkState (self s) (<[a := cells_of (<[i := y]> ys) cap]> (heap s))
              (next s) (log s)).
Proof.
  intros Hblock Hx. unfold assign_at, bind.
  rewrite (load_slot s a cap ys i x) by done.
  unfold write_slot, put_slot, set_heap. rewrite Hblock, Nat2Z.id.
  rewrite cells_of_insert by by eapply lookup_lt_Some. done.
Qed.

(** One move assignment between two live slots of a block. *)
Lemma move_assign_at_slots s a cap ys (i j : nat) x d :
  heap s !! a = Some (cells_of ys cap) ->
  ys !! i = Some x ->
  ys !! j = Some d ->
  move_assign_at (Ptr a (Z.of_nat i)) (Ptr a (Z.of_nat j)) s
  = match move_assign d x with
    | None => Throw ElemExn s
    | Some d' =>
        Ret tt
          (mkState (self s)
             (<[a := cells_of (<[j := d']> (<[i := moved_from x]> ys)) cap]>
                (heap s))
             (next s)
             (log s ++ [EvMoveAssign (Ptr a (Z.of_nat i))
                                     (Ptr a (Z.of_nat j))]))
    end.
Proof.
  intros Hblock Hx Hd. unfold move_assign_at, bind.
  rewrite (load_slot s a cap ys i x), (load_slot s a cap ys j d) by done.
  destruct (move_assign d x) as [d'|]; [|done].
  rewrite (assign_at_slot s a cap ys i x) by done.
  assert (Hj : (j < length ys)%nat) by by eapply lookup_lt_Some.
  destruct (lookup_lt_is_Some_2 (<[i := moved_from x]> ys) j) as [d0 Hd0].
  { by rewrite length_insert. }
  rewrite (assign_at_slot _ a cap (<[i := moved_from x]> ys) j d0);
    [|simpl; apply lookup_insert_eq | done].
  unfold emit. simpl. by rewrite insert_insert_eq.
Qed.

(** [std::move] inside one block of live elements: however it ends, the
    block holds as many live elements as before and nothing else has
    changed but the log. *)
Lemma wp_move_loop_live (k : nat) : forall a cap (i j : nat) ys s
    (Q : unit -> state T -> Prop) (E : exn -> state T -> Prop),
  heap s !! a = Some (cells_of ys cap) ->
  (i + k <= length ys)%nat ->
  (j + k <= length ys)%nat ->
  (forall ys' l, length ys' = length ys ->
     Q tt (mkState (self s) (<[a := cells_of ys' cap]> (heap s)) (next s) l)) ->
  (forall ys' l, length ys' = length ys ->
     E ElemExn
       (mkState (self s) (<[a := cells_of ys' cap]> (heap s)) (next s) l)) ->
  wp (move_loop (Ptr a (Z.of_nat i)) (Ptr a (Z.of_nat j)) k) s Q E.
Proof.
  induction k as [|k IH]; intros a cap i j ys s Q E Hblock Hi Hj HQ HE;
    simpl.
  - apply wp_ret. specialize (HQ ys (log s) eq_refl).
    by rewrite insert_id, state_eta in HQ.
  - destruct (lookup_lt_is_Some_2 ys i) as [x Hx]; [lia|].
    destruct (lookup_lt_is_Some_2 ys j) as [d Hd]; [lia|].
    apply wp_bind. unfold wp at 1.
    rewrite (move_assign_at_slots s a cap ys i j x d) by done.
    destruct (move_assign d x) as [d'|].
    + replace (Z.of_nat i + 1) with (Z.of_nat (S i)) by lia.
      replace (Z.of_nat j + 1) with (Z.of_nat (S j)) by lia.
      eapply (IH a cap (S i) (S j) (<[j := d']> (<[i := moved_from x]> ys)));
        simpl.
      * apply lookup_insert_eq.
      * rewrite !length_insert. lia.
      * rewrite !length_insert. lia.
      * intros ys' l Hlen. rewrite insert_insert_eq. apply HQ.
        by rewrite Hlen, !length_insert.
      * intros ys' l Hlen. rewrite insert_insert_eq. apply HE.
        by rewrite Hlen, !length_insert.
    + specialize (HE ys (log s) eq_refl).
      by rewrite insert_id, state_eta in HE.
Qed.

Lemma represents_relive s xs ys a l :
  represents s xs ->
  buffer_ (data_ (self s)) = Ptr a 0 ->
  length ys = length xs ->
  represents
    (mkState (self s)
       (<[a := cells_of ys (capacity_ (data_ (self s)))]> (heap s))
       (next s) l) ys.
Proof.
  intros Hrep Ha Hlen. pose proof Hrep as [_ (Hsize & Hcap & _)].
  rewrite <- (Vector_eta (self s)) at 1.
  apply (represents_same_block s xs); [done | done | lia | lia | done].
Qed.

(** X25: [Erase] gives the basic guarantee for any element type.  At
    index [p < Size()] it either returns the position with the size one
    less, or, when a move assignment throws, propagates the exception
    with the size as before; either way the buffer and the capacity are
    unchanged and the state satisfies the invariant.  It is never
    undefined. *)
Theorem erase_keeps_invariant_when_assignment_throws s xs (p : nat) :
  represents s xs ->
  (p < length xs)%nat ->
  let pos := ptr_add (buffer_ (data_ (self s))) (Z.of_nat p) in
  wp (Erase pos) s
    (fun r s' =>
       r = pos /\ size_of s' = size_of s - 1 /\
       data_ (self s') = data_ (self s) /\ invariant s')
    (fun e s' =>
       e = ElemExn /\ size_of s' = size_of s /\
       data_ (self s') = data_ (self s) /\ invariant s').
Proof.
  intros Hrep Hp pos. pose proof Hrep as [Hfresh (Hsize & Hcap & Hbuf)].
  destruct (represents_nonempty s xs Hrep) as [a Ha].
  { intros ->. simpl in Hp. lia. }
  subst pos. rewrite Ha in *. destruct Hbuf as (_ & Hpos & Hblock).
  simpl. rewrite Z.add_0_l.
  assert (Hmax : PTRDIFF_MAX + 1 < 2 ^ 64) by done.
  unfold Erase. apply wp_bind, wp_begin, wp_bind, wp_end. rewrite Ha.
  simp_state. rewrite Z.add_0_l.
  rewrite bool_decide_eq_false_2 by (intros [= Heq]; lia).
  apply wp_bind, wp_end. rewrite Ha. simp_state. rewrite Z.add_0_l.
  apply wp_bind. unfold std_move. simpl. rewrite decide_True by done.
  destruct (Z.leb_spec 0 (size_ (self s) - (Z.of_nat p + 1))); [|lia].
  replace (Z.of_nat p + 1) with (Z.of_nat (S p)) by lia.
  replace (Z.to_nat (size_ (self s) - Z.of_nat (S p)))
    with (length xs - S p)%nat by lia.
  eapply (wp_move_loop_live _ a _ (S p) p xs); [exact Hblock | lia | lia | |].
  - intros ys' l Hlen.
    destruct ys' as [|d ys _] using rev_ind; [simpl in Hlen; lia|].
    rewrite length_app in Hlen. simpl in Hlen.
    set (s1 := mkState (self s)
                 (<[a := cells_of (ys ++ [d]) (capacity_ (data_ (self s)))]>
                    (heap s)) (next s) l).
    assert (Hrep1 : represents s1 (ys ++ [d])).
    { apply (represents_relive s xs); [done | done |].
      rewrite length_app. simpl. lia. }
    apply wp_bind. eapply wp_of_eq; [by apply (PopBack_spec ys d s1 a)|].
    apply wp_ret. simpl. unfold size_of. simpl.
    split; [done|]. split; [done|]. split; [done|].
    exists ys. rewrite insert_insert_eq.
    apply (represents_same_block s xs); [done | done | lia | lia | done].
  - intros ys' l Hlen. unfold size_of. simpl.
    split; [done|]. split; [done|]. split; [done|].
    exists ys'. by apply (represents_relive s xs).
Qed.

End Partial.

Section PartialAssignment.
Context {T : Type} `{ET : Elem T} `{MS : MemorySource}.
Implicit Types (s : state T) (xs ys : list T) (v : Vector).

(** One copy assignment from a live slot onto a live slot. *)
Lemma copy_assign_at_slots s b capb ys (i : nat) x a cap ds (j : nat) d :
  heap s !! b = Some (cells_of ys capb) ->
  ys !! i = Some x ->
  heap s !! a = Some (cells_of ds cap) ->
  ds !! j = Some d ->
  copy_assign_at (Ptr b (Z.of_nat i)) (Ptr a (Z.of_nat j)) s
  = match copy_assign d x with
    | None => Throw ElemExn s
    | Some d' =>
        Ret tt
          (mkState (self s) (<[a := cells_of (<[j := d']> ds) cap]> (heap s))
             (next s)
             (log s ++ [EvCopyAssign (Ptr b (Z.of_nat i))
                                     (Ptr a (Z.of_nat j))]))
    end.
Proof.
  intros Hb Hx Ha Hd. unfold copy_assign_at, bind.
  rewrite (load_slot s b capb ys i x), (load_slot s a cap ds j d) by done.
  destruct (copy_assign d x) as [d'|]; [|done].
  by rewrite (assign_at_slot s a cap ds j d).
Qed.

(** [std::copy_n] from a block of live elements onto another: however it
    ends, the target block holds as many live elements as before. *)
Lemma wp_copy_loop_live (k : nat) : forall b capb ys a cap (i j : nat) ds s
    (Q : unit -> state T -> Prop) (E : exn -> state T -> Prop),
  a <> b ->
  heap s !! b = Some (cells_of ys capb) ->
  heap s !! a = Some (cells_of ds cap) ->
  (i + k <= length ys)%nat ->
  (j + k <= length ds)%nat ->
  (forall ds' l, length ds' = length ds ->
     Q tt (mkState (self s) (<[a := cells_of ds' cap]> (heap s)) (next s) l)) ->
  (forall ds' l, length ds' = length ds ->
     E ElemExn
       (mkState (self s) (<[a := cells_of ds' cap]> (heap s)) (next s) l)) ->
  wp (copy_loop (Ptr b (Z.of_nat i)) (Ptr a (Z.of_nat j)) k) s Q E.
Proof.
  induction k as [|k IH];
    intros b capb ys a cap i j ds s Q E Hab Hb Ha Hi Hj HQ HE; simpl.
  - apply wp_ret. specialize (HQ ds (log s) eq_refl).
    by rewrite insert_id, state_eta in HQ.
  - destruct (lookup_lt_is_Some_2 ys i) as [x Hx]; [lia|].
    destruct (lookup_lt_is_Some_2 ds j) as [d Hd]; [lia|].
    apply wp_bind. unfold wp at 1.
    rewrite (copy_assign_at_slots s b capb ys i x a cap ds j d) by done.
    destruct (copy_assign d x) as [d'|].
    + replace (Z.of_nat i + 1) with (Z.of_nat (S i)) by lia.
      replace (Z.of_nat j + 1) with (Z.of_nat (S j)) by lia.
      eapply (IH b capb ys a cap (S i) (S j) (<[j := d']> ds)); simpl.
      * done.
      * by rewrite lookup_insert_ne.
      * apply lookup_insert_eq.
      * lia.
      * rewrite length_insert. lia.
      * intros ds' l Hlen. rewrite insert_insert_eq. apply HQ.
        by rewrite Hlen, length_insert.
      * intros ds' l Hlen. rewrite insert_insert_eq. apply HE.
        by rewrite Hlen, length_insert.
    + specialize (HE ds (log s) eq_refl).
      by rewrite insert_id, state_eta in HE.
Qed.

Lemma cells_of_app xs zs cap :
  (Obj <$> xs) ++ (Obj <$> zs)
    ++ replicate (Z.to_nat cap - length xs - length zs) Raw
  = cells_of (xs ++ zs) cap.
Proof.
  unfold cells_of. rewrite fmap_app, <- app_assoc, length_app.
  do 3 f_equal. lia.
Qed.

Lemma cells_of_take_drop xs (m : nat) cap :
  cells_of xs cap
  = (Obj <$> take m xs) ++ (Obj <$> drop m xs)
      ++ replicate (Z.to_nat cap - length xs) Raw.
Proof. unfold cells_of. by rewrite app_assoc, <- fmap_app, take_drop. Qed.

End PartialAssignment.

Section PartialAssignmentResult.
Context {T : Type} `{ET : Elem T} `{MS : MemorySource}.
Implicit Types (s : state T) (xs ys : list T) (v : Vector).

(** X26: copy assignment within the capacity gives the basic guarantee
    for any copyable element type.  From another vector whose size does
    not exceed the capacity it either returns with the size of the source,
    or, when a copy assignment or a copy construction throws, propagates
    the exception with the size as before; either way the buffer and the
    capacity are unchanged, nothing is allocated, the state satisfies the
    invariant and the source holds what it held.  It is never
    undefined. *)
Theorem copy_assign_in_place_keeps_invariant s (other : Vector) xs ys :
  represents s xs ->
  owns (heap s) other ys ->
  is_copy_constructible = true ->
  buffer_ (data_ other) = Null \/
    buffer_ (data_ other) <> buffer_ (data_ (self s)) ->
  size_ other <= capacity_of s ->
  wp (copy_assignment (Object other)) s
    (fun _ s' =>
       size_of s' = size_ other /\
       data_ (self s') = data_ (self s) /\
       next s' = next s /\
       invariant s' /\ owns (heap s') other ys)
    (fun e s' =>
       e = ElemExn /\
       size_of s' = size_of s /\
       data_ (self s') = data_ (self s) /\
       next s' = next s /\
       invariant s' /\ owns (heap s') other ys).
Proof.
  intros Hrep Hown Hcc Hsep Hfit. unfold capacity_of, size_of in *.
  pose proof Hrep as [Hfresh (Hsize & Hcap & Hbuf)].
  pose proof Hown as (Hosize & Hocap & Hobuf).
  assert (Hmax : PTRDIFF_MAX + 1 < 2 ^ 64) by done.
  set (cap := capacity_ (data_ (self s))) in *.
  unfold copy_assignment. cbn [deref].
  apply wp_bind, wp_ret, wp_bind, wp_get_self. simp_state. fold cap.
  destruct (Z.gtb_spec (size_ other) cap); [lia|].
  destruct (buffer_ (data_ (self s))) as [|a off] eqn:Ha.
  { (* nothing is owned: both sequences are empty *)
    assert (size_ (self s) = 0) as Hz by lia.
    assert (size_ other = 0) as Hoz by lia.
    destruct xs; [|simpl in Hsize; lia]. destruct ys; [|simpl in Hosize; lia].
    rewrite Hz, Hoz. simpl.
    apply wp_bind, wp_bind, wp_copy_n_0, wp_ret.
    apply wp_bind, wp_ret, wp_set_size. simp_state.
    rewrite Hoz. do 3 (split; [done|]). split; [|done].
    exists []. split; [done|]. split; [done|]. split; [simpl; lia|].
    simpl. by rewrite Ha. }
  destruct Hbuf as (-> & Hpos & Hblock).
  assert (Hlive : forall ds l,
    length ds = length xs ->
    invariant (mkState (self s) (<[a := cells_of ds cap]> (heap s)) (next s) l)
    /\ owns (<[a := cells_of ds cap]> (heap s)) other ys).
  { intros ds l Hlen. split.
    - exists ds. by apply (represents_relive s xs).
    - apply owns_store_block; [done|]. destruct Hsep; [by left | by right]. }
  destruct (buffer_ (data_ other)) as [|b ooff] eqn:Hb.
  { (* the source owns nothing: it is empty *)
    assert (size_ other = 0) as Hoz by lia.
    destruct ys; [|simpl in Hosize; lia].
    rewrite Hoz, Z.min_r by lia. simp_state.
    apply wp_bind, wp_bind, wp_copy_n_0.
    rewrite Z.sub_0_r, size_t_wrap_small by lia.
    destruct (Z.gtb_spec (size_ (self s)) 0).
    - eapply (wp_destroy_n xs a _ _ []
                (replicate (Z.to_nat cap - length xs) Raw));
        [exact Hblock | done | done |].
      simp_state.
      apply wp_bind, wp_ret, wp_set_size. simp_state.
      rewrite Hoz. do 3 (split; [done|]). split.
      + exists []. rewrite <- replicate_add.
        replace (length xs + (Z.to_nat cap - length xs))%nat
          with (Z.to_nat cap) by lia.
        rewrite <- cells_of_nil.
        apply (represents_same_block s xs); [done | done | done | lia | done].
      + apply owns_store_block; [done | by left].
    - destruct xs; [|simpl in Hsize; lia].
      destruct (Z.ltb_spec (size_ (self s)) 0); [lia|].
      apply wp_ret, wp_bind, wp_ret, wp_set_size. simp_state.
      rewrite Hoz. do 3 (split; [done|]). split; [|done].
      exists []. rewrite <- (insert_id (heap s) a _ Hblock).
      apply (represents_same_block s []); [done | done | done | lia | done]. }
  destruct Hobuf as (-> & Hopos & Hoblock).
  assert (Hab : a <> b) by (destruct Hsep; congruence).
  simp_state.
  apply wp_bind, wp_bind. unfold copy_n.
  eapply (wp_copy_loop_live _ b _ ys a cap 0 0 xs);
    [done | exact Hoblock | exact Hblock | lia | lia | |].
  2:{ intros ds l Hlen. destruct (Hlive ds l Hlen) as [Hinv Hother].
      done. }
  intros ds l Hlen.
  assert (Hkeep : forall cells,
            owns (<[a := cells]> (heap s)) other ys).
  { intros cells. apply owns_store_block; [done|].
    rewrite Hb. right. congruence. }
  assert (Hoblock1 : <[a := cells_of ds cap]> (heap s) !! b
                     = Some (cells_of ys (capacity_ (data_ other))))
    by by rewrite lookup_insert_ne.
  assert (Hblock1 : <[a := cells_of ds cap]> (heap s) !! a
                    = Some (cells_of ds cap))
    by apply lookup_insert_eq.
  rewrite !Z.add_0_l.
  destruct (Z.gtb_spec (size_ (self s)) (size_ other)).
  - (* the excess elements are destroyed *)
    rewrite size_t_wrap_small by lia.
    rewrite (cells_of_take_drop ds (length ys)) in Hblock1 at 2.
    eapply (wp_destroy_n (drop (length ys) ds) a _ _
              (Obj <$> take (length ys) ds)
              (replicate (Z.to_nat cap - length ds) Raw)).
    { exact Hblock1. }
    { rewrite length_fmap, length_take. lia. }
    { rewrite length_drop. lia. }
    simp_state.
    apply wp_bind, wp_ret, wp_set_size. simp_state.
    do 3 (split; [done|]). rewrite insert_insert_eq. split.
    + exists (take (length ys) ds).
      rewrite <- replicate_add.
      replace (length (drop (length ys) ds) + (Z.to_nat cap - length ds))%nat
        with (Z.to_nat cap - length (take (length ys) ds))%nat
        by (rewrite length_take, length_drop; lia).
      change ((Obj <$> take (length ys) ds)
                ++ replicate (Z.to_nat cap - length (take (length ys) ds)) Raw)
        with (cells_of (take (length ys) ds) cap).
      apply (represents_same_block s xs); [done | done | | lia | done].
      rewrite length_take. lia.
    + apply Hkeep.
  - destruct (Z.ltb_spec (size_ (self s)) (size_ other)).
    + (* the extra elements are copy-constructed *)
      rewrite size_t_wrap_small by lia.
      unfold uninitialized_copy_n.
      set (m := length xs).
      assert (Hm : size_ (self s) = Z.of_nat m) by done.
      replace (Z.to_nat (size_ other - size_ (self s)))
        with (length (drop m ys)) by (rewrite length_drop; lia).
      rewrite (cells_of_take_drop ys m) in Hoblock1.
      rewrite (cells_of_gap ds (length (drop m ys))) in Hblock1 at 2
        by (rewrite length_drop; lia).
      eapply (wp_uninitialized_copy_loop (drop m ys) b _ (Obj <$> take m ys)
                _ a _ (Obj <$> ds) [] _).
      { done. }
      { done. }
      { exact Hoblock1. }
      { rewrite length_fmap, length_take. lia. }
      { exact Hblock1. }
      { rewrite length_fmap. lia. }
      { done. }
      { intros ys' Hys'. apply Forall2_length in Hys'.
        rewrite length_drop in Hys'. simp_state.
        apply wp_bind, wp_ret, wp_set_size. simp_state.
        do 3 (split; [done|]). rewrite insert_insert_eq.
        rewrite length_drop.
        replace (Z.to_nat cap - length ds - (length ys - m))%nat
          with (Z.to_nat cap - length ds - length ys')%nat by lia.
        rewrite cells_of_app. split.
        - exists (ds ++ ys').
          apply (represents_same_block s xs); [done | done | | lia | done].
          rewrite length_app. lia.
        - apply Hkeep. }
      { intros _ evs. simp_state. rewrite insert_insert_eq.
        rewrite <- replicate_add.
        replace (length (@nil T) + length (drop m ys)
                   + (Z.to_nat cap - length ds - length (drop m ys)))%nat
          with (Z.to_nat cap - length ds)%nat
          by (simpl; rewrite length_drop; lia).
        change ((Obj <$> ds) ++ replicate (Z.to_nat cap - length ds) Raw)
          with (cells_of ds cap).
        destruct (Hlive ds (l ++ evs) Hlen) as [Hinv Hother]. done. }
    + (* equal sizes *)
      apply wp_ret, wp_bind, wp_ret, wp_set_size. simp_state.
      do 3 (split; [done|]). split.
      * exists ds.
        apply (represents_same_block s xs); [done | done | lia | lia | done].
      * apply Hkeep.
Qed.

End PartialAssignmentResult.

(** ** Iterators; failures of [Emplace] that change nothing *)

Section Spans.
Context {T : Type} `{ET : Elem T} `{MS : MemorySource}.
Implicit Types (s : state T) (xs ys : list T) (v : Vector).

(** X27: [begin()], [end()], [Size()] and [Capacity()] leave the state
    alone, [end() - begin()] is [Size()], the [i]-th position from
    [begin()] holds the [i]-th element, and [end()] addresses no element:
    reading through it is undefined. *)
Theorem iterators_span_elements s xs :
  represents s xs ->
  exists b e,
    begin_ s = Ret b s /\
    end_ s = Ret e s /\
    Size s = Ret (Z.of_nat (length xs)) s /\
    Capacity s = Ret (capacity_of s) s /\
    ptr_diff e b = Some (Z.of_nat (length xs)) /\
    (forall (i : nat) x, xs !! i = Some x ->
       load (ptr_add b (Z.of_nat i)) s = Ret x s) /\
    load e s = Undef.
Proof.
  intros Hrep. pose proof Hrep as [_ (Hsize & Hcap & Hbuf)].
  eexists _, _. split; [reflexivity|]. split; [reflexivity|].
  split; [unfold Size, bind, get_self, ret; by rewrite Hsize|].
  split; [reflexivity|]. unfold RawMemory_GetAddress. split; [|split].
  - rewrite Hsize. apply ptr_diff_add. intros Hnull.
    rewrite Hnull in Hbuf. lia.
  - intros i x Hx. destruct (represents_nonempty s xs Hrep) as [a Ha].
    { by intros ->. }
    rewrite Ha. simpl. rewrite Z.add_0_l. by apply (load_element s xs a i x).
  - unfold load, bind, read_slot, get_slot.
    destruct (buffer_ (data_ (self s))) as [|a off]; simpl; [done|].
    destruct Hbuf as (-> & _ & Hblock).
    rewrite Hblock, Z.add_0_l, Hsize, Nat2Z.id.
    destruct (Z.leb_spec 0 (Z.of_nat (length xs))); [|lia].
    unfold cells_of. rewrite lookup_app_r by (by rewrite length_fmap).
    rewrite length_fmap, Nat.sub_diag.
    by destruct (Z.to_nat (capacity_ (data_ (self s))) - length xs)%nat.
Qed.

Lemma Emplace_move_fails xs (p : nat) z ctor s :
  represents s xs ->
  (p < length xs)%nat ->
  can_allocate (grown_capacity (size_ (self s))) = true ->
  size_ (self s) < capacity_ (data_ (self s)) ->
  last xs = Some z ->
  move_ctor z = None ->
  Emplace (ptr_add (buffer_ (data_ (self s))) (Z.of_nat p)) ctor s
  = Throw ElemExn
      (mkState (self s) (heap s) (S (next s))
         (log s ++ [EvAlloc (next s) (grown_capacity (size_ (self s)));
                    EvFree (next s)])).
Proof.
  intros [Hfresh (Hsize & Hcap & Hbuf)] Hp Hcan Hroom Hlast Hz.
  assert (Hb : heap s !! next s = None) by by apply Hfresh.
  assert (Hcapv : grown_capacity (size_ (self s))
                  = Z.max 1 (2 * size_ (self s)))
    by (apply grown_capacity_spec; lia).
  assert (Hmax : PTRDIFF_MAX + 1 < 2 ^ 64) by done.
  destruct (buffer_ (data_ (self s))) as [|a off] eqn:Ha; [lia|].
  destruct Hbuf as (-> & Hpos & Hblock).
  assert (Hab : a <> next s) by by eapply fresh_not_owned.
  cut (exists s',
         Emplace (ptr_add (Ptr a 0) (Z.of_nat p)) ctor s = Throw ElemExn s' /\
         s' = mkState (self s) (heap s) (S (next s))
                (log s ++ [EvAlloc (next s) (grown_capacity (size_ (self s)));
                           EvFree (next s)])).
  { by intros (s' & -> & ->). }
  apply wp_throws. unfold Emplace.
  apply wp_bind, wp_begin. rewrite Ha. cbn [ptr_add ptr_diff].
  rewrite decide_True by done.
  replace (0 + Z.of_nat p - 0) with (Z.of_nat p) by lia.
  rewrite size_t_wrap_small by lia.
  apply wp_bind, wp_get_self.
  apply wp_bind, wp_RawMemory_ctor; [lia|]. rewrite Hcan. simp_state.
  destruct (Z.eqb_spec (size_ (self s)) (capacity_ (data_ (self s))));
    [lia|].
  apply wp_bind, wp_unwinding.
  apply wp_bind, wp_RawMemory_index; [simp_state; lia|].
  apply wp_bind, wp_end. simp_state. rewrite Ha. simp_state.
  rewrite !Z.add_0_l.
  rewrite (bool_decide_eq_false_2 (Ptr _ _ = Null)) by done.
  rewrite (bool_decide_eq_false_2 (Ptr _ _ = Ptr _ _)) by (intros [=]; lia).
  cbn [orb].
  apply wp_bind, wp_bind. unfold wp at 1, move_construct, bind.
  replace (size_ (self s) + -1) with (Z.of_nat (length xs - 1)) by lia.
  rewrite (load_slot _ a (capacity_ (data_ (self s))) xs (length xs - 1) z).
  - rewrite Hz. unfold throw.
    eapply (wp_RawMemory_dtor _ (next s)); [done | heap_lookup |].
    simp_state. split; [done|]. f_equal.
    + by rewrite delete_insert_id.
    + by rewrite <- app_assoc.
  - simpl. by rewrite lookup_insert_ne.
  - rewrite last_lookup in Hlast.
    by replace (length xs - 1)%nat with (pred (length xs)) by lia.
Qed.

(** X28: the failures of [Emplace] and [Insert] that leave the vector
    and the heap as they were.  On a full vector, or at [end()], a
    constructor of the new element that throws does so before any element
    of the vector has been touched; and with room to spare, in the middle,
    a move constructor of the last element that throws does so before any
    other step.  The only trace is the allocation and release of the
    buffer [Emplace] acquires on entry. *)
Theorem emplace_failures_that_change_nothing s xs (p : nat) :
  represents s xs ->
  (p <= length xs)%nat ->
  can_allocate (grown_capacity (size_of s)) = true ->
  let pos := ptr_add (buffer_ (data_ (self s))) (Z.of_nat p) in
  let untouched :=
    Throw ElemExn
      (mkState (self s) (heap s) (S (next s))
         (log s ++ [EvAlloc (next s) (grown_capacity (size_of s));
                    EvFree (next s)])) in
  (size_of s = capacity_of s \/ p = length xs ->
   Emplace pos None s = untouched /\
   (forall x, move_ctor x = None ->
      Insert_move pos (Outside x) s = untouched) /\
   (forall x, is_copy_constructible = true -> copy_ctor x = None ->
      Insert_copy pos (Outside x) s = untouched)) /\
  (size_of s < capacity_of s -> (p < length xs)%nat ->
   forall z, last xs = Some z -> move_ctor z = None ->
   forall ctor, Emplace pos ctor s = untouched).
Proof.
  intros Hrep Hp Hcan pos untouched. unfold size_of, capacity_of in *.
  split.
  - intros Hcase.
    assert (Hemp : Emplace pos None s = untouched)
      by by apply (Emplace_construction_fails xs).
    split; [done|]. split.
    + intros x Hx. rewrite Insert_move_outside. by rewrite Hx.
    + intros x Hcc Hx. rewrite Insert_copy_outside. by rewrite Hcc, Hx.
  - intros Hroom Hp' z Hlast Hz ctor.
    by apply (Emplace_move_fails xs p z).
Qed.

End Spans.

(** ** The further properties at the scenario states *)

Lemma brittle_pair_eq :
  brittle_pair
  = mkState (mkVector (mkRawMemory (Ptr 0%nat 0) 4) 2)
      (<[0%nat := [Obj 1; Obj (-1); Raw; Raw]]> ∅) 1%nat
      [EvAlloc 0%nat 4; EvConstruct (Ptr 0%nat 0); EvConstruct (Ptr 0%nat 1)].
Proof. vm_compute. reflexivity. Qed.

Lemma brittle_pair_represents : represents brittle_pair [1; -1].
Proof.
  rewrite brittle_pair_eq. split.
  - intros a Ha. cbn in *. rewrite lookup_insert_ne by lia. apply lookup_empty.
  - split; [reflexivity|]. split; [cbn; unfold PTRDIFF_MAX; lia|].
    cbn. split; [reflexivity|]. split; [lia|]. by rewrite lookup_insert_eq.
Qed.

Lemma three_beside_five_represents : represents three_beside_five [7; 8; 9].
Proof.
  split.
  - intros a Ha. cbn in *.
    rewrite !lookup_insert_ne by lia. apply lookup_empty.
  - apply three_of_three_owned.
Qed.

Lemma five_beside_three_owned :
  owns (heap three_beside_five) (self five_of_ten) [1; 2; 3; 4; 5].
Proof. apply five_of_ten_represents. Qed.

Lemma fragile_empty_represents : represents fragile_empty [].
Proof.
  unfold fragile_empty. rewrite fragile_full_eq. split.
  - intros a Ha. cbn in *. rewrite lookup_insert_ne by lia. apply lookup_empty.
  - split; [reflexivity|]. split; [cbn; unfold PTRDIFF_MAX; lia|]. reflexivity.
Qed.

Lemma fragile_full_owned :
  owns (heap fragile_empty) (self fragile_full) [1; -1].
Proof. apply fragile_full_represents. Qed.

Lemma initial_fresh {T} : fresh_from (initial_state (T:=T)).
Proof. intros a _. apply lookup_empty. Qed.

Lemma raw_memory_acquire_release_witness :
  fresh_from (initial_state (T:=Z)) /\
  0 < 3 /\
  0 < 2 ^ 62 /\
  refused (ET:=int_elem) (MS:=plenty) 3 = false /\
  refused (ET:=int_elem) (MS:=plenty) (2 ^ 62) = false /\
  (exists r s1 s2,
     RawMemory_ctor (ET:=int_elem) (MS:=plenty) 3 initial_state = Ret r s1 /\
     capacity_ r = 3 /\
     heap s1 = <[0%nat := [Raw; Raw; Raw]]> ∅ /\
     RawMemory_dtor r s1 = Ret tt s2 /\
     heap s2 = heap (initial_state (T:=Z))) /\
  (exists r s1,
     RawMemory_ctor (ET:=int_elem) (MS:=plenty) (2 ^ 62) initial_state
     = Ret r s1 /\
     capacity_ r = 2 ^ 62 /\
     heap s1 = <[0%nat := []]> ∅ /\
     RawMemory_index r 0 s1 = Ret (Ptr 0%nat 0) s1 /\
     read_slot (Ptr 0%nat 0) s1 = Undef).
Proof.
  assert (H1 := @initial_fresh Z).
  assert (H2 : 0 < 3) by lia.
  assert (H3 : 0 < 2 ^ 62) by (vm_compute; reflexivity).
  assert (H4 : refused (ET:=int_elem) (MS:=plenty) 3 = false)
    by (vm_compute; reflexivity).
  assert (H5 : refused (ET:=int_elem) (MS:=plenty) (2 ^ 62) = false)
    by (vm_compute; reflexivity).
  split; [exact H1|]. split; [exact H2|]. split; [exact H3|].
  split; [exact H4|]. split; [exact H5|]. split.
  - destruct (raw_memory_acquire_release (ET:=int_elem) (MS:=plenty)
                initial_state 3 H1 H2) as (_ & _ & _ & Hgrant).
    destruct (Hgrant H4) as (r & s1 & Hrun & _ & Hcap & Hheap & _ & _ & _
                             & s2 & Hdtor & _ & Hheap2 & _).
    exists r, s1, s2. split; [exact Hrun|]. split; [exact Hcap|].
    split; [exact Hheap|]. split; [exact Hdtor | exact Hheap2].
  - destruct (raw_memory_acquire_release (ET:=int_elem) (MS:=plenty)
                initial_state (2 ^ 62) H1 H3) as (_ & _ & _ & Hgrant).
    destruct (Hgrant H5) as (r & s1 & Hrun & _ & Hcap & Hheap & _ & _ & Hidx
                             & _).
    assert (H6 : 0 <= 0 < 2 ^ 62) by (split; [lia | exact H3]).
    destruct (Hidx 0 H6) as [Hindex Hread].
    exists r, s1. split; [exact Hrun|]. split; [exact Hcap|].
    split; [exact Hheap|]. split; [exact Hindex | exact Hread].
Defined.

Lemma sized_constructor_value_initializes_witness :
  fresh_from (initial_state (T:=Z)) /\
  0 <= 3 /\
  value_init (Elem:=int_elem) = Some 0 /\
  (3 = 0 \/ can_allocate (ET:=int_elem) (MS:=plenty) 3 = true) /\
  exists v s',
    Vector_sized (ET:=int_elem) (MS:=plenty) 3 initial_state = Ret v s' /\
    size_ v = 3 /\ capacity_ (data_ v) = 3 /\
    owns (heap s') v [0; 0; 0].
Proof.
  assert (H1 := @initial_fresh Z).
  assert (H2 : 0 <= 3) by lia.
  assert (H3 : value_init (Elem:=int_elem) = Some 0) by reflexivity.
  assert (H4 : 3 = 0 \/ can_allocate (ET:=int_elem) (MS:=plenty) 3 = true)
    by (right; reflexivity).
  split; [exact H1|]. split; [exact H2|]. split; [exact H3|].
  split; [exact H4|].
  destruct (sized_constructor_value_initializes (ET:=int_elem) (MS:=plenty)
              initial_state 3 0 H1 H2 H3 H4)
    as (v & s' & Hrun & Hsz & Hcap & Hown & _).
  exists v, s'. split; [exact Hrun|]. split; [exact Hsz|].
  split; [exact Hcap | exact Hown].
Defined.

Lemma sized_constructor_releases_on_failure_witness :
  fresh_from (initial_state (T:=Z)) /\
  0 < 3 /\
  can_allocate (ET:=brittle_elem) (MS:=plenty) 3 = true /\
  value_init (Elem:=brittle_elem) = None /\
  exists s',
    Vector_sized (ET:=brittle_elem) (MS:=plenty) 3 initial_state
    = Throw ElemExn s' /\
    heap s' = heap (initial_state (T:=Z)).
Proof.
  assert (H1 := @initial_fresh Z).
  assert (H2 : 0 < 3) by lia.
  assert (H3 :
    can_allocate (ET:=brittle_elem) (MS:=plenty) 3 = true) by reflexivity.
  assert (H4 : value_init (Elem:=brittle_elem) = None) by reflexivity.
  split; [exact H1|]. split; [exact H2|]. split; [exact H3|].
  split; [exact H4|].
  destruct (sized_constructor_releases_on_failure (ET:=brittle_elem)
              (MS:=plenty) initial_state 3 H1 H2 H3 H4)
    as (s' & Hrun & _ & Hheap & _).
  exists s'. split; [exact Hrun | exact Hheap].
Defined.

Lemma copy_constructor_copies_size_not_capacity_witness :
  fresh_from three_beside_five /\
  owns (heap three_beside_five) (self five_of_ten) [1; 2; 3; 4; 5] /\
  is_copy_constructible (Elem:=int_elem) = true /\
  Forall2 (copies (H:=int_elem)) [1; 2; 3; 4; 5] [1; 2; 3; 4; 5] /\
  (size_ (self five_of_ten) = 0 \/
   can_allocate (ET:=int_elem) (MS:=plenty)
     (size_ (self five_of_ten)) = true) /\
  capacity_ (data_ (self five_of_ten)) = 10 /\
  exists v s',
    Vector_copy (ET:=int_elem) (MS:=plenty) (self five_of_ten)
      three_beside_five = Ret v s' /\
    size_ v = 5 /\ capacity_ (data_ v) = 5 /\
    owns (heap s') v [1; 2; 3; 4; 5].
Proof.
  assert (H1 : fresh_from three_beside_five)
    by apply three_beside_five_represents.
  assert (H2 := five_beside_three_owned).
  assert (H3 : is_copy_constructible (Elem:=int_elem) = true) by reflexivity.
  assert (H4 : Forall2 (copies (H:=int_elem)) [1; 2; 3; 4; 5] [1; 2; 3; 4; 5])
    by (repeat constructor).
  assert (H5 : size_ (self five_of_ten) = 0 \/
               can_allocate (ET:=int_elem) (MS:=plenty)
                 (size_ (self five_of_ten)) = true)
    by (right; reflexivity).
  split; [exact H1|]. split; [exact H2|]. split; [exact H3|].
  split; [exact H4|]. split; [exact H5|]. split; [reflexivity|].
  destruct (copy_constructor_copies_size_not_capacity (ET:=int_elem)
              (MS:=plenty) three_beside_five (self five_of_ten) _ _
              H1 H2 H3 H4 H5)
    as (v & s' & Hrun & Hsz & Hcap & Hown & _).
  exists v, s'. split; [exact Hrun|]. split; [exact Hsz|].
  split; [exact Hcap | exact Hown].
Defined.

Lemma copy_constructor_destroys_copies_on_failure_witness :
  fresh_from fragile_empty /\
  owns (heap fragile_empty) (self fragile_full) ([1] ++ -1 :: []) /\
  is_copy_constructible (Elem:=fragile_elem) = true /\
  Forall2 (copies (H:=fragile_elem)) [1] [1] /\
  copy_ctor (Elem:=fragile_elem) (-1) = None /\
  can_allocate (ET:=fragile_elem) (MS:=plenty)
    (size_ (self fragile_full)) = true /\
  exists s',
    Vector_copy (ET:=fragile_elem) (MS:=plenty) (self fragile_full)
      fragile_empty = Throw ElemExn s' /\
    heap s' = heap fragile_empty /\
    log s'
    = [EvAlloc 2%nat 2; EvCopyCtor (Ptr 1%nat 0) (Ptr 2%nat 0);
       EvDestroy (Ptr 2%nat 0); EvFree 2%nat].
Proof.
  assert (H1 : fresh_from fragile_empty) by apply fragile_empty_represents.
  assert (H2 := fragile_full_owned).
  assert (H3 : is_copy_constructible (Elem:=fragile_elem) = true)
    by reflexivity.
  assert (H4 : Forall2 (copies (H:=fragile_elem)) [1] [1])
    by (repeat constructor).
  assert (H5 : copy_ctor (Elem:=fragile_elem) (-1) = None) by reflexivity.
  assert (H6 :
    can_allocate (ET:=fragile_elem) (MS:=plenty)
      (size_ (self fragile_full)) = true)
    by (vm_compute; reflexivity).
  split; [exact H1|]. split; [exact H2|]. split; [exact H3|].
  split; [exact H4|]. split; [exact H5|]. split; [exact H6|].
  destruct (copy_constructor_destroys_copies_on_failure (ET:=fragile_elem)
              (MS:=plenty) fragile_empty (self fragile_full) [1] [1] (-1) []
              H1 H2 H3 H4 H5 H6)
    as (a & s' & Ha & Hrun & _ & Hheap & Hlog).
  exists s'. split; [exact Hrun|]. split; [exact Hheap|].
  rewrite Hlog. unfold fragile_empty in *. rewrite fragile_full_eq in *.
  injection Ha as <-. reflexivity.
Defined.

Lemma destructor_destroys_then_releases_witness :
  owns (heap five_of_ten) three_of_three [7; 8; 9] /\
  exists s',
    Vector_dtor three_of_three five_of_ten = Ret tt s' /\
    heap s' !! 1%nat = None /\
    log s'
    = [EvDestroy (Ptr 1%nat 0); EvDestroy (Ptr 1%nat 1);
       EvDestroy (Ptr 1%nat 2); EvFree 1%nat].
Proof.
  assert (H1 := three_of_three_owned).
  split; [exact H1|].
  destruct (destructor_destroys_then_releases five_of_ten
              three_of_three _ H1)
    as (s' & Hrun & _ & _ & Hheap & Hlog & _).
  exists s'. split; [exact Hrun|]. split.
  - rewrite Hheap. simpl. apply lookup_delete_eq.
  - rewrite Hlog. reflexivity.
Defined.

Lemma copy_then_destroy_restores_heap_witness :
  fresh_from five_of_ten /\
  owns (heap five_of_ten) three_of_three [7; 8; 9] /\
  is_copy_constructible (Elem:=int_elem) = true /\
  Forall2 (copies (H:=int_elem)) [7; 8; 9] [7; 8; 9] /\
  (size_ three_of_three = 0 \/
   can_allocate (ET:=int_elem) (MS:=plenty) (size_ three_of_three) = true) /\
  exists v s1 s2,
    Vector_copy (ET:=int_elem) (MS:=plenty) three_of_three five_of_ten
    = Ret v s1 /\
    Vector_dtor v s1 = Ret tt s2 /\
    heap s2 = heap five_of_ten.
Proof.
  assert (H1 : fresh_from five_of_ten) by apply five_of_ten_represents.
  assert (H2 := three_of_three_owned).
  assert (H3 : is_copy_constructible (Elem:=int_elem) = true) by reflexivity.
  assert (H4 : Forall2 (copies (H:=int_elem)) [7; 8; 9] [7; 8; 9])
    by (repeat constructor).
  assert (H5 : size_ three_of_three = 0 \/
               can_allocate (ET:=int_elem) (MS:=plenty)
                 (size_ three_of_three) = true)
    by (right; reflexivity).
  split; [exact H1|]. split; [exact H2|]. split; [exact H3|].
  split; [exact H4|]. split; [exact H5|].
  destruct (copy_then_destroy_restores_heap (ET:=int_elem) (MS:=plenty)
              five_of_ten three_of_three _ _ H1 H2 H3 H4 H5)
    as (v & s1 & s2 & Hcopy & Hdtor & _ & Hheap).
  exists v, s1, s2. split; [exact Hcopy|]. split; [exact Hdtor | exact Hheap].
Defined.

Lemma swap_exchanges_ownership_witness :
  represents five_of_ten [1; 2; 3; 4; 5] /\
  owns (heap five_of_ten) three_of_three [7; 8; 9] /\
  exists s',
    Swap three_of_three five_of_ten = Ret (self five_of_ten) s' /\
    self s' = three_of_three /\
    represents s' [7; 8; 9] /\
    Swap (self five_of_ten) s' = Ret three_of_three five_of_ten.
Proof.
  assert (H1 := five_of_ten_represents).
  assert (H2 := three_of_three_owned).
  split; [exact H1|]. split; [exact H2|].
  destruct (swap_exchanges_ownership five_of_ten three_of_three _ _ H1 H2)
    as (s' & Hrun & _ & Hself & _ & _ & _ & Hrep & _ & Hback & _).
  exists s'. split; [exact Hrun|]. split; [exact Hself|].
  split; [exact Hrep | exact Hback].
Defined.

Lemma copy_assign_reallocates_to_source_size_witness :
  represents three_beside_five [7; 8; 9] /\
  owns (heap three_beside_five) (self five_of_ten) [1; 2; 3; 4; 5] /\
  is_copy_constructible (Elem:=int_elem) = true /\
  Forall2 (copies (H:=int_elem)) [1; 2; 3; 4; 5] [1; 2; 3; 4; 5] /\
  capacity_of three_beside_five < size_ (self five_of_ten) /\
  can_allocate (ET:=int_elem) (MS:=plenty) (size_ (self five_of_ten)) = true /\
  exists s',
    copy_assignment (ET:=int_elem) (MS:=plenty) (Object (self five_of_ten))
      three_beside_five = Ret tt s' /\
    capacity_of s' = 5 /\
    size_of s' = 5 /\
    represents s' [1; 2; 3; 4; 5] /\
    heap s' !! 1%nat = None.
Proof.
  assert (H1 := three_beside_five_represents).
  assert (H2 := five_beside_three_owned).
  assert (H3 : is_copy_constructible (Elem:=int_elem) = true) by reflexivity.
  assert (H4 : Forall2 (copies (H:=int_elem)) [1; 2; 3; 4; 5] [1; 2; 3; 4; 5])
    by (repeat constructor).
  assert (H5 : capacity_of three_beside_five < size_ (self five_of_ten))
    by reflexivity.
  assert (H6 :
    can_allocate (ET:=int_elem) (MS:=plenty) (size_ (self five_of_ten)) = true)
    by reflexivity.
  split; [exact H1|]. split; [exact H2|]. split; [exact H3|].
  split; [exact H4|]. split; [exact H5|]. split; [exact H6|].
  destruct (copy_assign_reallocates_to_source_size (ET:=int_elem)
              (MS:=plenty) three_beside_five (self five_of_ten) _ _ _
              H1 H2 H3 H4 H5 H6)
    as (s' & Hrun & Hcap & Hsz & _ & Hrep & _ & Hheap & _).
  exists s'. split; [exact Hrun|]. split; [exact Hcap|].
  split; [exact Hsz|]. split; [exact Hrep|].
  rewrite Hheap. simpl. apply lookup_delete_eq.
Defined.

Lemma copy_assign_reallocation_is_all_or_nothing_witness :
  represents fragile_empty [] /\
  owns (heap fragile_empty) (self fragile_full) ([1] ++ -1 :: []) /\
  is_copy_constructible (Elem:=fragile_elem) = true /\
  Forall2 (copies (H:=fragile_elem)) [1] [1] /\
  copy_ctor (Elem:=fragile_elem) (-1) = None /\
  capacity_of fragile_empty < size_ (self fragile_full) /\
  can_allocate (ET:=fragile_elem) (MS:=plenty)
    (size_ (self fragile_full)) = true /\
  exists s',
    copy_assignment (ET:=fragile_elem) (MS:=plenty)
      (Object (self fragile_full)) fragile_empty = Throw ElemExn s' /\
    self s' = self fragile_empty /\
    heap s' = heap fragile_empty.
Proof.
  assert (H1 := fragile_empty_represents).
  assert (H2 := fragile_full_owned).
  assert (H3 : is_copy_constructible (Elem:=fragile_elem) = true)
    by reflexivity.
  assert (H4 : Forall2 (copies (H:=fragile_elem)) [1] [1])
    by (repeat constructor).
  assert (H5 : copy_ctor (Elem:=fragile_elem) (-1) = None) by reflexivity.
  assert (H6 : capacity_of fragile_empty < size_ (self fragile_full))
    by (vm_compute; reflexivity).
  assert (H7 :
    can_allocate (ET:=fragile_elem) (MS:=plenty)
      (size_ (self fragile_full)) = true)
    by (vm_compute; reflexivity).
  split; [exact H1|]. split; [exact H2|]. split; [exact H3|].
  split; [exact H4|]. split; [exact H5|]. split; [exact H6|].
  split; [exact H7|].
  destruct (copy_assign_reallocation_is_all_or_nothing (ET:=fragile_elem)
              (MS:=plenty) fragile_empty (self fragile_full) [] [1] [1] (-1)
              [] H1 H2 H3 H4 H5 H6 H7)
    as (s' & Hrun & Hself & Hheap & _).
  exists s'. split; [exact Hrun|]. split; [exact Hself | exact Hheap].
Defined.

Lemma resize_up_within_capacity_witness :
  represents five_of_ten [1; 2; 3; 4; 5] /\
  size_of five_of_ten < 7 <= capacity_of five_of_ten /\
  default_init (Elem:=int_elem) = Some 0 /\
  (exists s',
     Resize (ET:=int_elem) (MS:=plenty) 7 five_of_ten = Ret tt s' /\
     data_ (self s') = data_ (self five_of_ten) /\
     size_of s' = 7 /\
     represents s' [1; 2; 3; 4; 5; 0; 0]) /\
  represents brittle_pair [1; -1] /\
  size_of brittle_pair < 3 <= capacity_of brittle_pair /\
  default_init (Elem:=brittle_elem) = None /\
  Resize (ET:=brittle_elem) (MS:=plenty) 3 brittle_pair
  = Throw ElemExn brittle_pair.
Proof.
  assert (H1 := five_of_ten_represents).
  assert (H2 : size_of five_of_ten < 7 <= capacity_of five_of_ten)
    by (split; vm_compute; (reflexivity || discriminate)).
  assert (H3 : default_init (Elem:=int_elem) = Some 0) by reflexivity.
  assert (H4 := brittle_pair_represents).
  assert (H5 : size_of brittle_pair < 3 <= capacity_of brittle_pair)
    by (split; vm_compute; (reflexivity || discriminate)).
  assert (H6 : default_init (Elem:=brittle_elem) = None) by reflexivity.
  split; [exact H1|]. split; [exact H2|]. split; [exact H3|].
  split.
  { destruct (resize_up_within_capacity (ET:=int_elem) (MS:=plenty)
                five_of_ten _ 7 H1 H2) as [Hok _].
    destruct (Hok 0 H3) as (a & s' & _ & Hrun & Hdata & Hsz & Hrep & _).
    exists s'. split; [exact Hrun|]. split; [exact Hdata|].
    split; [exact Hsz | exact Hrep]. }
  split; [exact H4|]. split; [exact H5|]. split; [exact H6|].
  exact (proj2 (resize_up_within_capacity (ET:=brittle_elem) (MS:=plenty)
                  brittle_pair _ 3 H4 H5) H6).
Defined.

Lemma resize_beyond_capacity_reserves_exactly_witness :
  @Regular Z int_elem /\
  represents five_of_ten [1; 2; 3; 4; 5] /\
  default_init (Elem:=int_elem) = Some 0 /\
  capacity_of five_of_ten < 12 /\
  can_allocate (ET:=int_elem) (MS:=plenty) 12 = true /\
  exists s',
    Resize (ET:=int_elem) (MS:=plenty) 12 five_of_ten = Ret tt s' /\
    capacity_of s' = 12 /\
    size_of s' = 12 /\
    represents s' [1; 2; 3; 4; 5; 0; 0; 0; 0; 0; 0; 0].
Proof.
  assert (H0 := int_regular).
  assert (H1 := five_of_ten_represents).
  assert (H2 : default_init (Elem:=int_elem) = Some 0) by reflexivity.
  assert (H3 : capacity_of five_of_ten < 12) by reflexivity.
  assert (H4 :
    can_allocate (ET:=int_elem) (MS:=plenty) 12 = true) by reflexivity.
  split; [exact H0|]. split; [exact H1|]. split; [exact H2|].
  split; [exact H3|]. split; [exact H4|].
  destruct (resize_beyond_capacity_reserves_exactly (ET:=int_elem)
              (MS:=plenty) (Regular0:=H0) five_of_ten _ 12 0 H1 H2 H3 H4)
    as (s' & Hrun & Hcap & Hsz & _ & Hrep & _).
  exists s'. split; [exact Hrun|]. split; [exact Hcap|].
  split; [exact Hsz | exact Hrep].
Defined.

Lemma resize_beyond_capacity_keeps_reservation_on_failure_witness :
  represents brittle_pair [1; -1] /\
  is_nothrow_move_constructible (Elem:=brittle_elem) = false /\
  is_copy_constructible (Elem:=brittle_elem) = true /\
  Forall2 (copies (H:=brittle_elem)) [1; -1] [1; -1] /\
  default_init (Elem:=brittle_elem) = None /\
  capacity_of brittle_pair < 6 /\
  can_allocate (ET:=brittle_elem) (MS:=plenty) 6 = true /\
  exists s',
    Resize (ET:=brittle_elem) (MS:=plenty) 6 brittle_pair
    = Throw ElemExn s' /\
    capacity_of s' = 6 /\
    size_of s' = 2 /\
    represents s' [1; -1].
Proof.
  assert (H1 := brittle_pair_represents).
  assert (H2 : Forall2 (copies (H:=brittle_elem)) [1; -1] [1; -1])
    by (repeat constructor).
  assert (H3 : capacity_of brittle_pair < 6) by (vm_compute; reflexivity).
  assert (H4 :
    can_allocate (ET:=brittle_elem) (MS:=plenty) 6 = true) by reflexivity.
  split; [exact H1|]. split; [reflexivity|]. split; [reflexivity|].
  split; [exact H2|]. split; [reflexivity|]. split; [exact H3|].
  split; [exact H4|].
  destruct (resize_beyond_capacity_keeps_reservation_on_failure
              (ET:=brittle_elem) (MS:=plenty) brittle_pair _ _ 6
              H1 eq_refl eq_refl H2 eq_refl H3 H4)
    as (s' & Hrun & Hcap & Hsz & _ & Hrep).
  exists s'. split; [exact Hrun|]. split; [exact Hcap|].
  split; [|exact Hrep]. rewrite Hsz. vm_compute. reflexivity.
Defined.

Lemma indexing_addresses_elements_witness :
  represents five_of_ten [1; 2; 3; 4; 5] /\
  [1; 2; 3; 4; 5] !! 3%nat = Some 4 /\
  size_of five_of_ten <= 7 /\
  index_op 3 five_of_ten = Ret (Ptr 0%nat 3) five_of_ten /\
  load (Ptr 0%nat 3) five_of_ten = Ret 4 five_of_ten /\
  index_op 7 five_of_ten = Undef.
Proof.
  assert (H1 := five_of_ten_represents).
  assert (H2 : [1; 2; 3; 4; 5] !! 3%nat = Some 4) by reflexivity.
  assert (H3 : size_of five_of_ten <= 7) by (vm_compute; discriminate).
  split; [exact H1|]. split; [exact H2|]. split; [exact H3|].
  destruct (indexing_addresses_elements five_of_ten _ H1) as [Hin Hout].
  destruct (Hin 3%nat 4 H2) as (p & Hrun & -> & Hload).
  split; [exact Hrun|]. split; [exact Hload|]. exact (Hout 7 H3).
Defined.

Lemma pop_back_destroys_last_witness :
  represents five_of_ten [1; 2; 3; 4; 5] /\
  [1; 2; 3; 4; 5] = [1; 2; 3; 4] ++ [5] /\
  represents (initial_state (T:=Z)) [] /\
  (exists s',
     PopBack five_of_ten = Ret tt s' /\
     size_of s' = 4 /\
     represents s' [1; 2; 3; 4] /\
     log s' = [EvDestroy (Ptr 0%nat 4)]) /\
  PopBack (initial_state (T:=Z)) = Undef.
Proof.
  assert (H1 := five_of_ten_represents).
  assert (H2 : [1; 2; 3; 4; 5] = [1; 2; 3; 4] ++ [5]) by reflexivity.
  assert (H3 : represents (initial_state (T:=Z)) []).
  { split; [apply initial_fresh|]. split; [reflexivity|].
    split; [cbn; unfold PTRDIFF_MAX; lia|]. reflexivity. }
  split; [exact H1|]. split; [exact H2|]. split; [exact H3|]. split.
  - destruct (pop_back_destroys_last five_of_ten _ H1) as [_ Hpop].
    destruct (Hpop _ _ H2) as (a & s' & Ha & Hrun & _ & Hsz & Hrep & _ & Hlog).
    exists s'. split; [exact Hrun|]. split; [exact Hsz|].
    split; [exact Hrep|]. rewrite Hlog. injection Ha as <-. reflexivity.
  - exact (proj1 (pop_back_destroys_last initial_state _ H3) eq_refl).
Defined.

Lemma push_then_pop_restores_elements_witness :
  @Regular (option Z) unique_elem /\
  represents unique_pair [Some 1; Some 2] /\
  (size_of unique_pair = capacity_of unique_pair ->
   can_allocate (ET:=unique_elem) (MS:=plenty)
     (grown_capacity (size_of unique_pair)) = true) /\
  exists s',
    (PushBack_move (ET:=unique_elem) (MS:=plenty) (Some 3) ;; PopBack)
      unique_pair = Ret tt s' /\
    size_of s' = size_of unique_pair /\
    represents s' [Some 1; Some 2] /\
    capacity_of s' = 4.
Proof.
  assert (H0 := unique_regular).
  assert (H1 := unique_pair_represents).
  assert (H2 : size_of unique_pair = capacity_of unique_pair ->
               can_allocate (ET:=unique_elem) (MS:=plenty)
                 (grown_capacity (size_of unique_pair)) = true)
    by (intros _; vm_compute; reflexivity).
  split; [exact H0|]. split; [exact H1|]. split; [exact H2|].
  destruct (push_then_pop_restores_elements (ET:=unique_elem) (MS:=plenty)
              (Regular0:=H0) unique_pair _ (Some 3) H1 H2)
    as (s' & Hrun & Hsz & Hrep & Hcap).
  exists s'. split; [exact Hrun|]. split; [exact Hsz|].
  split; [exact Hrep|]. rewrite Hcap. vm_compute. reflexivity.
Defined.

Lemma returned_positions_address_elements_witness :
  @Regular Z int_elem /\
  represents five_of_ten [1; 2; 3; 4; 5] /\
  (2 <= length [1; 2; 3; 4; 5]%Z)%nat /\
  can_allocate (ET:=int_elem) (MS:=plenty)
    (grown_capacity (size_of five_of_ten)) = true /\
  [1; 2; 3; 4; 5] !! 2%nat = Some 3 /\
  [1; 2; 3; 4; 5] !! 3%nat = Some 4 /\
  (exists r s',
     EmplaceBack (ET:=int_elem) (MS:=plenty) (Some 6) five_of_ten
     = Ret r s' /\
     load r s' = Ret 6 s') /\
  (exists r s',
     Emplace (ET:=int_elem) (MS:=plenty) (Ptr 0%nat 2) (Some 42) five_of_ten
     = Ret r s' /\
     load r s' = Ret 42 s') /\
  (exists r s',
     Erase (ET:=int_elem) (Ptr 0%nat 2) five_of_ten = Ret r s' /\
     load r s' = Ret 4 s').
Proof.
  assert (H0 := int_regular).
  assert (H1 := five_of_ten_represents).
  assert (H2 : (2 <= length [1; 2; 3; 4; 5]%Z)%nat) by (simpl; lia).
  assert (H3 : can_allocate (ET:=int_elem) (MS:=plenty)
                 (grown_capacity (size_of five_of_ten)) = true)
    by (vm_compute; reflexivity).
  assert (H4 : [1; 2; 3; 4; 5] !! 2%nat = Some 3) by reflexivity.
  assert (H5 : [1; 2; 3; 4; 5] !! 3%nat = Some 4) by reflexivity.
  split; [exact H0|]. split; [exact H1|]. split; [exact H2|].
  split; [exact H3|]. split; [exact H4|]. split; [exact H5|].
  destruct (returned_positions_address_elements (ET:=int_elem) (MS:=plenty)
              (Regular0:=H0) five_of_ten _ H1) as (Hback & Hemp & Hera).
  split; [|split].
  - destruct (Hback 6 (fun _ => H3)) as (r & s' & Hrun & Hload & _).
    exists r, s'. split; [exact Hrun | exact Hload].
  - destruct (Hemp 42 2%nat H2 H3) as (r & s' & Hrun & Hload & _).
    exists r, s'. split; [exact Hrun | exact Hload].
  - destruct (Hera 2%nat 3 H4) as (r & s' & Hrun & Hnext & _).
    exists r, s'. split; [exact Hrun|]. exact (proj1 (Hnext 4 H5)).
Defined.

Lemma refused_allocation_changes_nothing_witness :
  represents five_of_ten [1; 2; 3; 4; 5] /\
  capacity_of five_of_ten < 20 /\
  refused (ET:=int_elem) (MS:=exhausted) 20 = true /\
  Reserve (ET:=int_elem) (MS:=exhausted) 20 five_of_ten
  = Throw BadAlloc five_of_ten /\
  Resize (ET:=int_elem) (MS:=exhausted) 20 five_of_ten
  = Throw BadAlloc five_of_ten.
Proof.
  assert (H1 := five_of_ten_represents).
  assert (H2 : capacity_of five_of_ten < 20) by reflexivity.
  assert (H3 : refused (ET:=int_elem) (MS:=exhausted) 20 = true) by reflexivity.
  split; [exact H1|]. split; [exact H2|]. split; [exact H3|].
  destruct (refused_allocation_changes_nothing (ET:=int_elem)
              (MS:=exhausted) five_of_ten _ H1) as [Hres _].
  exact (Hres 20 H2 H3).
Defined.

Lemma insert_allocates_even_with_room_witness :
  represents five_of_ten [1; 2; 3; 4; 5] /\
  size_of five_of_ten < capacity_of five_of_ten /\
  (2 <= length [1; 2; 3; 4; 5]%Z)%nat /\
  refused (ET:=int_elem) (MS:=exhausted) (grown_capacity (size_of five_of_ten))
  = true /\
  Emplace (ET:=int_elem) (MS:=exhausted) (Ptr 0%nat 2) (Some 42) five_of_ten
  = Throw BadAlloc five_of_ten /\
  exists r s',
    EmplaceBack (ET:=int_elem) (MS:=exhausted) (Some 42) five_of_ten
    = Ret r s' /\
    next s' = next five_of_ten.
Proof.
  assert (H1 := five_of_ten_represents).
  assert (H2 : size_of five_of_ten < capacity_of five_of_ten) by reflexivity.
  assert (H3 : (2 <= length [1; 2; 3; 4; 5]%Z)%nat) by (simpl; lia).
  assert (H4 : refused (ET:=int_elem) (MS:=exhausted)
                 (grown_capacity (size_of five_of_ten)) = true)
    by reflexivity.
  split; [exact H1|]. split; [exact H2|]. split; [exact H3|].
  split; [exact H4|].
  destruct (insert_allocates_even_with_room (ET:=int_elem) (MS:=exhausted)
              five_of_ten _ 2 H1 H2 H3) as (_ & Hrefused & _ & Hback).
  split.
  - exact (proj1 (Hrefused H4) (Some 42)).
  - destruct (Hback 42) as (r & s' & Hrun & _ & Hnext & _).
    exists r, s'. split; [exact Hrun | exact Hnext].
Defined.

Lemma emplace_back_strands_new_element_when_migration_fails_witness :
  represents fragile_full ([1] ++ -1 :: []) /\
  is_nothrow_move_constructible (Elem:=fragile_elem) = false /\
  is_copy_constructible (Elem:=fragile_elem) = true /\
  size_of fragile_full = capacity_of fragile_full /\
  can_allocate (ET:=fragile_elem) (MS:=plenty)
    (grown_capacity (size_of fragile_full)) = true /\
  Forall2 (copies (H:=fragile_elem)) [1] [1] /\
  copy_ctor (Elem:=fragile_elem) (-1) = None /\
  exists s' evs,
    EmplaceBack (ET:=fragile_elem) (MS:=plenty) (Some 5) fragile_full
    = Throw ElemExn s' /\
    log s' = log fragile_full ++ evs /\
    EvConstruct (Ptr 2%nat 2) ∈ evs /\
    EvDestroy (Ptr 2%nat 2) ∉ evs.
Proof.
  assert (H1 := fragile_full_represents).
  assert (H2 : size_of fragile_full = capacity_of fragile_full)
    by (vm_compute; reflexivity).
  assert (H3 : can_allocate (ET:=fragile_elem) (MS:=plenty)
                 (grown_capacity (size_of fragile_full)) = true)
    by (vm_compute; reflexivity).
  assert (H4 : Forall2 (copies (H:=fragile_elem)) [1] [1])
    by (repeat constructor).
  split; [exact H1|]. split; [reflexivity|]. split; [reflexivity|].
  split; [exact H2|]. split; [exact H3|]. split; [exact H4|].
  split; [reflexivity|].
  destruct (emplace_back_strands_new_element_when_migration_fails
              (ET:=fragile_elem) (MS:=plenty) fragile_full [1] [1] (-1) [] 5
              H1 eq_refl eq_refl H2 H3 H4 eq_refl)
    as (a & s' & evs & _ & Hrun & _ & _ & Hlog & Hevs & Hnot).
  exists s', evs. split; [exact Hrun|]. split; [exact Hlog|].
  assert (Hn : next fragile_full = 2%nat) by (vm_compute; reflexivity).
  assert (Hs : size_of fragile_full = 2) by (vm_compute; reflexivity).
  rewrite Hn, Hs in Hnot, Hevs. split; [|exact Hnot].
  rewrite Hevs. simpl. rewrite !elem_of_cons. right. left. reflexivity.
Defined.

Lemma pushes_within_capacity_keep_buffer_witness :
  @Regular Z int_elem /\
  represents five_of_ten [1; 2; 3; 4; 5] /\
  size_of five_of_ten + Z.of_nat (length [6; 7]) <= capacity_of five_of_ten /\
  exists s',
    push_all (PushBack_move (ET:=int_elem) (MS:=exhausted)) [6; 7]
      five_of_ten = Ret tt s' /\
    data_ (self s') = data_ (self five_of_ten) /\
    represents s' [1; 2; 3; 4; 5; 6; 7] /\
    next s' = next five_of_ten.
Proof.
  assert (H0 := int_regular).
  assert (H1 := five_of_ten_represents).
  assert (H2 : size_of five_of_ten + Z.of_nat (length [6; 7])
               <= capacity_of five_of_ten) by (vm_compute; discriminate).
  split; [exact H0|]. split; [exact H1|]. split; [exact H2|].
  destruct (pushes_within_capacity_keep_buffer (ET:=int_elem)
              (MS:=exhausted) (Regular0:=H0) five_of_ten _ [6; 7] H1)
    as [Hfit _].
  destruct (Hfit H2) as (s' & Hrun & Hdata & _ & Hrep & Hnext & _).
  exists s'. split; [exact Hrun|]. split; [exact Hdata|].
  split; [exact Hrep | exact Hnext].
Defined.


Lemma valid_calls_preserve_invariant_witness :
  @Regular Z int_elem /\
  represents five_of_ten [1; 2; 3; 4; 5] /\
  within_memory (H:=int_elem) (self five_of_ten) /\
  valid_call (H:=int_elem) five_of_ten [1; 2; 3; 4; 5]
    (OpEmplace (Ptr 0%nat 5) None) /\
  exists s',
    final_state
      (run_op (H:=int_elem) (H0:=plenty) (OpEmplace (Ptr 0%nat 5) None)
         five_of_ten)
    = Some s' /\
    invariant s' /\
    within_memory (H:=int_elem) (self s').
Proof.
  assert (H0 := int_regular).
  assert (H1 := five_of_ten_represents).
  assert (H2 : within_memory (H:=int_elem) (self five_of_ten))
    by (vm_compute; discriminate).
  assert (H3 : valid_call (H:=int_elem) five_of_ten [1; 2; 3; 4; 5]
                 (OpEmplace (Ptr 0%nat 5) None)).
  { exists 5%nat. split; [simpl; lia|]. split; [vm_compute; reflexivity|].
    intros _. right. reflexivity. }
  split; [exact H0|]. split; [exact H1|]. split; [exact H2|].
  split; [exact H3|].
  exact (valid_calls_preserve_invariant (ET:=int_elem) (MS:=plenty)
           (Regular0:=H0) five_of_ten _ _ H1 H2 H3).
Defined.

Lemma valid_calls_leave_other_blocks_alone_witness :
  @Regular Z int_elem /\
  represents five_of_ten [1; 2; 3; 4; 5] /\
  within_memory (H:=int_elem) (self five_of_ten) /\
  valid_call (H:=int_elem) five_of_ten [1; 2; 3; 4; 5] (OpReserve 20) /\
  owns (heap five_of_ten) three_of_three [7; 8; 9] /\
  buffer_ (data_ three_of_three) <> buffer_ (data_ (self five_of_ten)) /\
  exists s',
    final_state
      (run_op (H:=int_elem) (H0:=plenty) (OpReserve 20) five_of_ten)
    = Some s' /\
    owns (heap s') three_of_three [7; 8; 9].
Proof.
  assert (H0 := int_regular).
  assert (H1 := five_of_ten_represents).
  assert (H2 : within_memory (H:=int_elem) (self five_of_ten))
    by (vm_compute; discriminate).
  assert (H3 : valid_call (H:=int_elem) five_of_ten [1; 2; 3; 4; 5]
                 (OpReserve 20))
    by (split; [lia | vm_compute; discriminate]).
  assert (H4 := three_of_three_owned).
  assert (H5 : buffer_ (data_ three_of_three)
               <> buffer_ (data_ (self five_of_ten)))
    by (vm_compute; discriminate).
  split; [exact H0|]. split; [exact H1|]. split; [exact H2|].
  split; [exact H3|]. split; [exact H4|]. split; [exact H5|].
  destruct (valid_calls_leave_other_blocks_alone (ET:=int_elem) (MS:=plenty)
              (Regular0:=H0) five_of_ten _ _ H1 H2 H3)
    as (s' & Hrun & _ & Hown).
  exists s'. split; [exact Hrun|]. exact (Hown _ _ H4 H5).
Defined.

Lemma wp_thrown {T A} (m : M T A) (s : state T) Q E e s' :
  wp m s Q E -> m s = Throw e s' -> E e s'.
Proof. intros Hwp Heq. unfold wp in Hwp. by rewrite Heq in Hwp. Qed.

Lemma touchy_three_represents : represents touchy_three [1; 2; -3].
Proof.
  split.
  - intros a Ha. cbn in *. rewrite lookup_insert_ne by lia. apply lookup_empty.
  - split; [reflexivity|]. split; [cbn; unfold PTRDIFF_MAX; lia|].
    cbn. split; [reflexivity|]. split; [lia|]. by rewrite lookup_insert_eq.
Qed.

Lemma touchy_erase_eq :
  Erase (ET:=touchy_elem)
    (ptr_add (buffer_ (data_ (self touchy_three))) (Z.of_nat 0)) touchy_three
  = Throw ElemExn
      (mkState (mkVector (mkRawMemory (Ptr 0%nat 0) 4) 3)
         (<[0%nat := cells_of [2; 0; -3] 4]> ∅) 1%nat
         [EvMoveAssign (Ptr 0%nat 1) (Ptr 0%nat 0)]).
Proof. vm_compute. reflexivity. Qed.

Lemma erase_keeps_invariant_when_assignment_throws_witness :
  represents touchy_three [1; 2; -3] /\
  (0 < length [1; 2; -3]%Z)%nat /\
  exists s',
    Erase (ET:=touchy_elem)
      (ptr_add (buffer_ (data_ (self touchy_three))) (Z.of_nat 0))
      touchy_three
    = Throw ElemExn s' /\
    heap s' !! 0%nat = Some (cells_of [2; 0; -3] 4) /\
    size_of s' = size_of touchy_three /\
    data_ (self s') = data_ (self touchy_three) /\
    invariant s'.
Proof.
  assert (H1 := touchy_three_represents).
  assert (H2 : (0 < length [1; 2; -3]%Z)%nat) by (simpl; lia).
  split; [exact H1|]. split; [exact H2|].
  destruct (wp_thrown _ _ _ _ _ _
              (erase_keeps_invariant_when_assignment_throws (ET:=touchy_elem)
                 touchy_three _ 0 H1 H2)
              touchy_erase_eq) as (_ & Hsz & Hdata & Hinv).
  eexists. split; [exact touchy_erase_eq|].
  split; [reflexivity|]. split; [exact Hsz|].
  split; [exact Hdata | exact Hinv].
Defined.

Lemma fragile_beside_represents : represents fragile_beside [5; 6].
Proof.
  split.
  - intros a Ha. cbn in *. rewrite !lookup_insert_ne by lia.
    apply lookup_empty.
  - split; [reflexivity|]. split; [cbn; unfold PTRDIFF_MAX; lia|].
    cbn. split; [reflexivity|]. split; [lia|]. by rewrite lookup_insert_eq.
Qed.

Lemma fragile_other_owned : owns (heap fragile_beside) fragile_other [1; -1].
Proof.
  split; [reflexivity|]. split; [cbn; unfold PTRDIFF_MAX; lia|].
  cbn. split; [reflexivity|]. split; [lia|].
  rewrite lookup_insert_ne by lia. by rewrite lookup_insert_eq.
Qed.

Lemma fragile_assign_eq :
  copy_assignment (ET:=fragile_elem) (MS:=exhausted) (Object fragile_other)
    fragile_beside
  = Throw ElemExn
      (mkState (mkVector (mkRawMemory (Ptr 0%nat 0) 4) 2)
         (<[0%nat := cells_of [1; 6] 4]>
            (<[1%nat := cells_of [1; -1] 2]> ∅))
         2%nat
         [EvCopyAssign (Ptr 1%nat 0) (Ptr 0%nat 0)]).
Proof. vm_compute. reflexivity. Qed.

Lemma copy_assign_in_place_keeps_invariant_witness :
  represents fragile_beside [5; 6] /\
  owns (heap fragile_beside) fragile_other [1; -1] /\
  is_copy_constructible (Elem:=fragile_elem) = true /\
  (buffer_ (data_ fragile_other) = Null \/
   buffer_ (data_ fragile_other) <> buffer_ (data_ (self fragile_beside))) /\
  size_ fragile_other <= capacity_of fragile_beside /\
  exists s',
    copy_assignment (ET:=fragile_elem) (MS:=exhausted) (Object fragile_other)
      fragile_beside
    = Throw ElemExn s' /\
    heap s' !! 0%nat = Some (cells_of [1; 6] 4) /\
    size_of s' = size_of fragile_beside /\
    data_ (self s') = data_ (self fragile_beside) /\
    next s' = next fragile_beside /\
    invariant s' /\
    owns (heap s') fragile_other [1; -1].
Proof.
  assert (H1 := fragile_beside_represents).
  assert (H2 := fragile_other_owned).
  assert (H3 : is_copy_constructible (Elem:=fragile_elem) = true)
    by reflexivity.
  assert (H4 : buffer_ (data_ fragile_other) = Null \/
               buffer_ (data_ fragile_other)
               <> buffer_ (data_ (self fragile_beside)))
    by (right; vm_compute; discriminate).
  assert (H5 : size_ fragile_other <= capacity_of fragile_beside)
    by (vm_compute; discriminate).
  split; [exact H1|]. split; [exact H2|]. split; [exact H3|].
  split; [exact H4|]. split; [exact H5|].
  destruct (wp_thrown _ _ _ _ _ _
              (copy_assign_in_place_keeps_invariant (ET:=fragile_elem)
                 (MS:=exhausted) fragile_beside fragile_other _ _
                 H1 H2 H3 H4 H5)
              fragile_assign_eq) as (_ & Hsz & Hdata & Hnext & Hinv & Hown).
  eexists. split; [exact fragile_assign_eq|].
  split; [reflexivity|]. split; [exact Hsz|]. split; [exact Hdata|].
  split; [exact Hnext|]. split; [exact Hinv | exact Hown].
Defined.

Lemma iterators_span_elements_witness :
  represents five_of_ten [1; 2; 3; 4; 5] /\
  [1; 2; 3; 4; 5] !! 4%nat = Some 5 /\
  exists b e,
    begin_ five_of_ten = Ret b five_of_ten /\
    end_ five_of_ten = Ret e five_of_ten /\
    Size five_of_ten = Ret 5 five_of_ten /\
    ptr_diff e b = Some 5 /\
    load (ptr_add b 4) five_of_ten = Ret 5 five_of_ten /\
    load e five_of_ten = Undef.
Proof.
  assert (H1 := five_of_ten_represents).
  assert (H2 : [1; 2; 3; 4; 5] !! 4%nat = Some 5) by reflexivity.
  split; [exact H1|]. split; [exact H2|].
  destruct (iterators_span_elements five_of_ten _ H1)
    as (b & e & Hb & He & Hsz & _ & Hdiff & Hload & Hend).
  exists b, e. split; [exact Hb|]. split; [exact He|]. split; [exact Hsz|].
  split; [exact Hdiff|]. split; [exact (Hload 4%nat 5 H2) | exact Hend].
Defined.

Lemma emplace_failures_that_change_nothing_witness :
  represents brittle_pair [1; -1] /\
  (1 <= length [1; -1]%Z)%nat /\
  can_allocate (ET:=brittle_elem) (MS:=plenty)
    (grown_capacity (size_of brittle_pair)) = true /\
  size_of brittle_pair < capacity_of brittle_pair /\
  (1 < length [1; -1]%Z)%nat /\
  last [1; -1] = Some (-1) /\
  move_ctor (Elem:=brittle_elem) (-1) = None /\
  Emplace (ET:=brittle_elem) (MS:=plenty)
    (ptr_add (buffer_ (data_ (self brittle_pair))) (Z.of_nat 1)) (Some 7)
    brittle_pair
  = Throw ElemExn
      (mkState (self brittle_pair) (heap brittle_pair)
         (S (next brittle_pair))
         (log brittle_pair
          ++ [EvAlloc (next brittle_pair)
                (grown_capacity (size_of brittle_pair));
              EvFree (next brittle_pair)])).
Proof.
  assert (H1 := brittle_pair_represents).
  assert (H2 : (1 <= length [1; -1]%Z)%nat) by (simpl; lia).
  assert (H3 : can_allocate (ET:=brittle_elem) (MS:=plenty)
                 (grown_capacity (size_of brittle_pair)) = true)
    by (vm_compute; reflexivity).
  assert (H4 : size_of brittle_pair < capacity_of brittle_pair)
    by (vm_compute; reflexivity).
  assert (H5 : (1 < length [1; -1]%Z)%nat) by (simpl; lia).
  assert (H6 : last [1; -1] = Some (-1)) by reflexivity.
  assert (H7 : move_ctor (Elem:=brittle_elem) (-1) = None) by reflexivity.
  split; [exact H1|]. split; [exact H2|]. split; [exact H3|].
  split; [exact H4|]. split; [exact H5|]. split; [exact H6|].
  split; [exact H7|].
  destruct (emplace_failures_that_change_nothing (ET:=brittle_elem)
              (MS:=plenty) brittle_pair _ 1 H1 H2 H3) as [_ Hmid].
  exact (Hmid H4 H5 (-1) H6 H7 (Some 7)).
Defined.
